(** * gerberts: tokenizer, parser, serializer and render replay

    A shallow embedding of the TypeScript sources
    [lib/parser/tokenizer.ts], [lib/parser/parser.ts] (parser and SVG
    renderer), [lib/ast/GerberNode.ts], [lib/ast/commands.ts] and
    [lib/GerberFile.ts], followed by the properties proved about them.

    Modelling conventions.
    - A JavaScript string is the list of its code units, restricted to
      Latin-1, so a code unit is an [ascii].
    - A [number] is a [jsnum]: [NaN], an infinity, a zero with its sign,
      or a decimal [JDec neg m e], which is [(-1)^neg * m * 10^e]
      ([JDec false 1 1] is ten, [JDec false 5 4] is 50000,
      [JDec true 25 (-1)] is -2.5).  [parseInt] and [parseFloat] read an
      exact decimal and round it to the nearest double ([Num.nearest]);
      the double is held as the decimal that [Number::toString] prints
      for it, the shortest one that is read back as that double
      ([Num.shortest]).  Two numbers are equal ([=]) as [Object.is] has
      it: [NaN] is itself, the two zeros differ; [Num.strictEq] is
      [===].  The digits of a format specification, which are single
      decimal digits, are integers ([Z]).
    - An exception is a [Throw] in the [result] monad.
    - The numbers of the renderer are [xnum]: rationals with [NaN] and
      the infinities. *)

From Stdlib Require Import Ascii String List ZArith QArith Qpower Qround Lia
  Lqa Bool.
From Stdlib Require Import DecimalString DecimalZ DecimalN DecimalPos.
From Stdlib Require DecimalFacts.
From stdpp Require Import gmap.
Import ListNotations.

Local Open Scope list_scope.
Local Open Scope char_scope.

(** ** Strings *)

Abbreviation jsstring := (list ascii).

Abbreviation str s := (list_ascii_of_string s%string) (only parsing).

Module Str.

Fixpoint eqb (a b : jsstring) : bool :=
  match a, b with
  | [], [] => true
  | x :: a', y :: b' => Ascii.eqb x y && eqb a' b'
  | _, _ => false
  end.

(** [s.startsWith(p)] *)
Fixpoint startsWith (p s : jsstring) : bool :=
  match p, s with
  | [], _ => true
  | x :: p', y :: s' => Ascii.eqb x y && startsWith p' s'
  | _ :: _, [] => false
  end.

(** [s.endsWith(c)] for a one-character [c] *)
Definition endsWith (c : ascii) (s : jsstring) : bool :=
  match rev s with
  | x :: _ => Ascii.eqb x c
  | [] => false
  end.

(** [s.slice(0, -1)] *)
Definition dropLast (s : jsstring) : jsstring := removelast s.

(** [s.slice(n)] *)
Definition sliceFrom (n : nat) (s : jsstring) : jsstring := skipn n s.

(** [s.slice(a, b)] for [0 <= a] and [0 <= b] *)
Definition slice (a b : nat) (s : jsstring) : jsstring :=
  firstn (b - a) (skipn a s).

(** [s.indexOf(c)]; [None] stands for [-1] *)
Fixpoint indexOf (c : ascii) (s : jsstring) : option nat :=
  match s with
  | [] => None
  | x :: s' => if Ascii.eqb x c then Some O
               else option_map S (indexOf c s')
  end.

(** [s.split(c)]: the pieces between the occurrences of [c]; never
    empty, [("").split(c)] being [[""]]. *)
Fixpoint split (c : ascii) (s : jsstring) : list jsstring :=
  match s with
  | [] => [[]]
  | x :: s' =>
      if Ascii.eqb x c then [] :: split c s'
      else match split c s' with
           | p :: ps => (x :: p) :: ps
           | [] => [[x]]
           end
  end.

(** [parts.join(sep)] *)
Fixpoint join (sep : jsstring) (parts : list jsstring) : jsstring :=
  match parts with
  | [] => []
  | [p] => p
  | p :: ps => p ++ sep ++ join sep ps
  end.

(** the longest prefix whose characters satisfy [p], and the rest *)
Fixpoint span (p : ascii -> bool) (s : jsstring) : jsstring * jsstring :=
  match s with
  | [] => ([], [])
  | x :: s' => if p x then let '(a, b) := span p s' in (x :: a, b)
               else ([], s)
  end.

Definition contains (c : ascii) (s : jsstring) : bool :=
  existsb (Ascii.eqb c) s.

End Str.

(** ** Character classes of the regular expressions *)

Module Chr.

Definition code (c : ascii) : nat := nat_of_ascii c.

(** [\d] *)
Definition isDigit (c : ascii) : bool :=
  (48 <=? code c)%nat && (code c <=? 57)%nat.

(** [[A-Za-z_]] *)
Definition isIdentStart (c : ascii) : bool :=
  ((65 <=? code c)%nat && (code c <=? 90)%nat)
  || ((97 <=? code c)%nat && (code c <=? 122)%nat)
  || Ascii.eqb c "_".

(** [[A-Za-z0-9_]] *)
Definition isIdentChar (c : ascii) : bool := isIdentStart c || isDigit c.

(** [\s], on Latin-1: TAB, LF, VT, FF, CR, space, NBSP *)
Definition isSpace (c : ascii) : bool :=
  ((9 <=? code c)%nat && (code c <=? 13)%nat)
  || (code c =? 32)%nat || (code c =? 160)%nat.

(** a line terminator, which [.] does not match: LF, CR *)
Definition isLineTerminator (c : ascii) : bool :=
  (code c =? 10)%nat || (code c =? 13)%nat.

(** the four characters the tokenizer skips between tokens *)
Definition isBlank (c : ascii) : bool :=
  Ascii.eqb c " " || Ascii.eqb c "009" || Ascii.eqb c "013"
  || Ascii.eqb c "010".

Definition isSign (c : ascii) : bool := Ascii.eqb c "+" || Ascii.eqb c "-".

Definition digitValue (c : ascii) : N := N.of_nat (code c - 48).

End Chr.

(** ** Numbers *)

Module Num.

(** The value of a run of decimal digits, most significant first. *)
Definition digitsValue (ds : jsstring) : N :=
  fold_left (fun acc c => (10 * acc + Chr.digitValue c)%N) ds 0%N.

(** The decimal digits of a natural number, as [Number::toString] writes
    an integer: no leading zero, ["0"] for zero. *)
Definition digitsOfN (n : N) : jsstring :=
  list_ascii_of_string (NilZero.string_of_uint (N.to_uint n)).

(** [String(z)] / [`${z}`] for a small integer [z], which every double
    holds: the digits of a format specification. *)
Definition intToString (z : Z) : jsstring :=
  match z with
  | Zneg p => "-" :: digitsOfN (Npos p)
  | _ => digitsOfN (Z.to_N z)
  end.

(** [parseInt(c, 10)] for a capture [c] of [(\d)]: the value of the
    digit. *)
Definition parseDigit (c : ascii) : Z := Z.of_N (Chr.digitValue c).

(** A [number].  [JDec neg m e] is the decimal [(-1)^neg * m * 10^e]
    with [m] not a multiple of ten; zero carries its sign.  A double is
    held as the decimal that [Number::toString] prints for it, which
    names it ([isDouble] below); the literal that [parseFloat] or
    [parseInt] reads is an exact decimal before it is rounded. *)
Inductive jsnum : Type :=
| JNaN
| JInf (neg : bool)
| JZero (neg : bool)
| JDec (neg : bool) (m : positive) (e : Z).

(** [Object.is(a, b)] on numbers: [NaN] is itself, the two zeros
    differ. *)
Definition jsnum_eqb (a b : jsnum) : bool :=
  match a, b with
  | JNaN, JNaN => true
  | JInf x, JInf y => Bool.eqb x y
  | JZero x, JZero y => Bool.eqb x y
  | JDec n1 m1 e1, JDec n2 m2 e2 =>
      Bool.eqb n1 n2 && Pos.eqb m1 m2 && Z.eqb e1 e2
  | _, _ => false
  end.

(** [a === b] on numbers: [NaN] differs from itself, the two zeros are
    equal. *)
Definition strictEq (a b : jsnum) : bool :=
  match a, b with
  | JNaN, _ | _, JNaN => false
  | JZero _, JZero _ => true
  | _, _ => jsnum_eqb a b
  end.

#[global] Instance jsnum_eq_dec : EqDecision jsnum.
Proof. solve_decision. Defined.

#[global] Instance jsnum_countable : Countable jsnum.
Proof.
  refine (inj_countable'
            (fun v =>
               match v with
               | JNaN => inl tt
               | JInf n => inr (inl n)
               | JZero n => inr (inr (inl n))
               | JDec n m e => inr (inr (inr (n, m, e)))
               end)
            (fun c =>
               match c with
               | inl _ => JNaN
               | inr (inl n) => JInf n
               | inr (inr (inl n)) => JZero n
               | inr (inr (inr (n, m, e))) => JDec n m e
               end) _).
  intros []; reflexivity.
Defined.

Definition zero : jsnum := JZero false.
Definition one : jsnum := JDec false 1 0.
Definition ten : jsnum := JDec false 1 1.

Definition twoTo (k : Z) : Q := Qpower 2 k.
Definition tenTo (k : Z) : Q := Qpower 10 k.

(** the value of the decimal [m * 10^e] *)
Definition decQ (m : positive) (e : Z) : Q :=
  (inject_Z (Zpos m) * tenTo e)%Q.

(** the value of a finite number *)
Definition toQ (v : jsnum) : Q :=
  match v with
  | JDec neg m e => if neg then (- decQ m e)%Q else decQ m e
  | _ => 0%Q
  end.

(** [a < b] *)
Definition ltb (a b : jsnum) : bool :=
  match a, b with
  | JNaN, _ | _, JNaN => false
  | _, JInf true => false
  | JInf true, _ => true
  | JInf false, _ => false
  | _, JInf false => true
  | _, _ => negb (Qle_bool (toQ b) (toQ a))
  end.

(** [a >= b] *)
Definition geb (a b : jsnum) : bool :=
  match a, b with
  | JNaN, _ | _, JNaN => false
  | _, _ => negb (ltb a b)
  end.

Definition isZeroDigit (c : ascii) : bool := Ascii.eqb c "0".

(** The decimal [(-1)^neg * ds * 10^e], [ds] read as an integer, in
    normal form: leading and trailing zeros of [ds] removed. *)
Definition mkDec (neg : bool) (ds : jsstring) (e : Z) : jsnum :=
  let ds1 := snd (Str.span isZeroDigit ds) in
  let '(zs, sd) := Str.span isZeroDigit (rev ds1) in
  match digitsValue (rev sd) with
  | N0 => JZero neg
  | Npos m => JDec neg m (e + Z.of_nat (length zs))
  end.

(** *** Rounding to a double

    The positive values of the binary64 format are [m * 2^e] with
    [0 < m < 2^53] and [-1074 <= e <= 971], where [2^52 <= m] unless
    [e = -1074]. *)
Inductive binary64 : Type :=
| B_zero
| B_inf
| B_fin (m e : Z).

Definition binary64_eqb (a b : binary64) : bool :=
  match a, b with
  | B_zero, B_zero | B_inf, B_inf => true
  | B_fin m e, B_fin m' e' => (m =? m')%Z && (e =? e')%Z
  | _, _ => false
  end.

(** the integer part of [log2 x], for [0 < x] *)
Definition ilog2 (x : Q) : Z :=
  let a := (Z.log2 (Qnum x) - Z.log2 (Zpos (Qden x)))%Z in
  if Qle_bool (twoTo a) x then a else (a - 1)%Z.

(** the integer nearest to [y], the even one of two *)
Definition roundHalfEven (y : Q) : Z :=
  let f := Qfloor y in
  match (y - inject_Z f ?= 1 # 2)%Q with
  | Lt => f
  | Gt => (f + 1)%Z
  | Eq => if Z.even f then f else (f + 1)%Z
  end.

(** The double nearest to [x], for [0 < x]: round to nearest, ties to
    even, with gradual underflow and overflow to infinity. *)
Definition nearest (x : Q) : binary64 :=
  let e := Z.max (ilog2 x - 52) (-1074) in
  let m := roundHalfEven (x / twoTo e)%Q in
  let '(m, e) :=
    if (m =? 2 ^ 53)%Z then ((2 ^ 52)%Z, (e + 1)%Z) else (m, e) in
  if (m =? 0)%Z then B_zero
  else if (971 <? e)%Z then B_inf
  else B_fin m e.

(** the doubles of the format *)
Definition canonical (m e : Z) : Prop :=
  (0 < m < 2 ^ 53)%Z /\ (-1074 <= e <= 971)%Z
  /\ (2 ^ 52 <= m \/ e = -1074)%Z.

(** the decimal [c] is read as the double [b] *)
Definition readsAs (b : binary64) (c : jsnum) : bool :=
  match c with
  | JDec _ m e => binary64_eqb (nearest (decQ m e)) b
  | _ => false
  end.

(** the multiple [s * 10^t] of a power of ten, in normal form *)
Definition multiple (s t : Z) : jsnum := mkDec false (digitsOfN (Z.to_N s)) t.

(** The decimal with the fewest digits that is read as the double [b]
    of value [x], which is how [Number::toString] chooses the digits it
    prints.  A decimal of few digits is a multiple of a large power of
    ten: the powers [10^t] are tried from the largest downwards, and for
    each the two multiples next to [x]; of two multiples that are both
    read as [b] the nearer one is taken, the even one when they are
    equally near. *)
Fixpoint shortestFrom (fuel : nat) (b : binary64) (x : Q) (t : Z)
    : option jsnum :=
  match fuel with
  | O => None
  | S fuel' =>
      let y := (x / tenTo t)%Q in
      let lo := multiple (Qfloor y) t in
      let hi := multiple (Qfloor y + 1)%Z t in
      match readsAs b lo, readsAs b hi with
      | true, true =>
          Some (match (y - inject_Z (Qfloor y) ?= 1 # 2)%Q with
                | Lt => lo
                | Gt => hi
                | Eq => if Z.even (Qfloor y) then lo else hi
                end)
      | true, false => Some lo
      | false, true => Some hi
      | false, false => shortestFrom fuel' b x (t - 1)%Z
      end
  end.

Definition withSign (neg : bool) (v : jsnum) : jsnum :=
  match v with
  | JDec _ m e => JDec neg m e
  | JZero _ => JZero neg
  | JInf _ => JInf neg
  | JNaN => JNaN
  end.

(** The search of [shortestFrom] for the double [m * 2^e]: from the
    power of ten above the number down to [10^-399], below which no
    double has a digit. *)
Definition shortest (m e : Z) : option jsnum :=
  let x := (inject_Z m * twoTo e)%Q in
  let start := Z.of_nat (length (digitsOfN (Z.to_N (Qfloor x)))) in
  shortestFrom (Z.to_nat (start + 400)%Z) (B_fin m e) x start.

(** The double that an exact decimal is rounded to, held as the decimal
    that prints it.  The search finds a decimal for every double
    ([shortest_found] below), so the last case does not occur. *)
Definition asDouble (v : jsnum) : jsnum :=
  match v with
  | JDec neg m e =>
      match nearest (decQ m e) with
      | B_zero => JZero neg
      | B_inf => JInf neg
      | B_fin M E =>
          match shortest M E with
          | Some c => withSign neg c
          | None => JNaN
          end
      end
  | _ => v
  end.

(** the numbers that hold a double *)
Definition isDouble (v : jsnum) : bool := jsnum_eqb (asDouble v) v.

(** An optional sign at the head: whether it is a minus, and what
    follows it. *)
Definition signPart (s : jsstring) : bool * jsstring :=
  match s with
  | c :: r =>
      if Ascii.eqb c "-" then (true, r)
      else if Ascii.eqb c "+" then (false, r)
      else (false, s)
  | [] => (false, s)
  end.

(** The integer that [parseInt(s, 10)] reads, before it is rounded: an
    optional sign, then digits up to the first character that is none;
    [NaN] when there is no digit.  Every call site passes a capture of
    [[+-]?\d+] or [\d+], so leading white space plays no part. *)
Definition intLiteral (s : jsstring) : jsnum :=
  let '(neg, r) := signPart s in
  match fst (Str.span Chr.isDigit r) with
  | [] => JNaN
  | ds => mkDec neg ds 0
  end.

(** [parseInt(s, 10)] *)
Definition parseInt (s : jsstring) : jsnum := asDouble (intLiteral s).

(** The exponent part [[eE][+-]?\d+] of a decimal literal, [0] when
    there is none. *)
Definition exponentPart (s : jsstring) : Z :=
  match s with
  | c :: r =>
      if Ascii.eqb c "e" || Ascii.eqb c "E" then
        let '(neg, r') := signPart r in
        let v := Z.of_N (digitsValue (fst (Str.span Chr.isDigit r'))) in
        if neg then Z.opp v else v
      else 0%Z
  | [] => 0%Z
  end.

(** A [StrUnsignedDecimalLiteral] other than [Infinity] at the head of
    [s1], with the sign read before it: the digits before and after an
    optional dot, then an optional exponent; [NaN] when there is no digit
    at all. *)
Definition decimalLiteral (neg : bool) (s1 : jsstring) : jsnum :=
  let '(ip, s2) := Str.span Chr.isDigit s1 in
  let '(fp, s3) :=
    match s2 with
    | c :: r => if Ascii.eqb c "." then Str.span Chr.isDigit r else ([], s2)
    | [] => ([], s2)
    end in
  match ip ++ fp with
  | [] => JNaN
  | _ :: _ => mkDec neg (ip ++ fp) (exponentPart s3 - Z.of_nat (length fp))
  end.

(** The decimal that [parseFloat(s)] reads, before it is rounded:
    leading white space is skipped, then the longest prefix that is a
    [StrDecimalLiteral] is read. *)
Definition floatLiteral (s : jsstring) : jsnum :=
  let s0 := snd (Str.span Chr.isSpace s) in
  let '(neg, s1) := signPart s0 in
  if Str.startsWith (str "Infinity") s1 then JInf neg
  else decimalLiteral neg s1.

(** [parseFloat(s)] *)
Definition parseFloat (s : jsstring) : jsnum := asDouble (floatLiteral s).

(** [Number::toString] on the digits [ds] of the significand and the
    position [n] of the decimal point ([0.ds * 10^n]). *)
Definition formatDigits (ds : jsstring) (n : Z) : jsstring :=
  let k := Z.of_nat (length ds) in
  if (k <=? n)%Z && (n <=? 21)%Z then
    ds ++ repeat "0" (Z.to_nat (n - k))
  else if (0 <? n)%Z && (n <=? 21)%Z then
    firstn (Z.to_nat n) ds ++ "." :: skipn (Z.to_nat n) ds
  else if (-6 <? n)%Z && (n <=? 0)%Z then
    "0" :: "." :: repeat "0" (Z.to_nat (- n)) ++ ds
  else
    let ex := (n - 1)%Z in
    let exs := (if (ex <? 0)%Z then "-" else "+")
               :: digitsOfN (Z.to_N (Z.abs ex)) in
    match ds with
    | [d] => d :: "e" :: exs
    | d :: more => d :: "." :: more ++ "e" :: exs
    | [] => []
    end.

(** [String(v)] / [`${v}`] *)
Definition toString (v : jsnum) : jsstring :=
  match v with
  | JNaN => str "NaN"
  | JInf false => str "Infinity"
  | JInf true => str "-Infinity"
  | JZero _ => str "0"
  | JDec neg m e =>
      let ds := digitsOfN (Npos m) in
      (if neg then ["-"] else [])
      ++ formatDigits ds (Z.of_nat (length ds) + e)
  end.

(** The normal form of a [JDec]: the significand does not end in a
    zero digit, that is, it is no multiple of ten. *)
Definition normalNum (v : jsnum) : bool :=
  match v with
  | JDec _ m _ => negb (Str.endsWith "0" (digitsOfN (Npos m)))
  | _ => true
  end.

Definition isNegZero (v : jsnum) : bool :=
  match v with
  | JZero true => true
  | _ => false
  end.

End Num.

(** ** Exceptions *)

Inductive result (A : Type) : Type :=
| Ok (a : A)
| Throw (message : jsstring).

Arguments Ok {A} a.
Arguments Throw {A} message.

#[global] Instance result_ret : MRet result := fun A a => Ok a.

#[global] Instance result_bind : MBind result :=
  fun A B k r =>
    match r with
    | Ok a => k a
    | Throw m => Throw m
    end.

(** ** The AST ([ast/GerberNode.ts], [ast/commands.ts]) *)

Module Ast.
Import Num.

(** [DCode]; the classes [Interpolate], [Move] and [Flash] are the
    operations with d-code [D01], [D02] and [D03]. *)
Inductive DCode : Type := D01 | D02 | D03.

(** [CoordinateInit] *)
Record CoordinateInit : Type := {
  cx : option jsnum;
  cy : option jsnum;
  ci : option jsnum;
  cj : option jsnum
}.

(** the fields of a [FormatSpecification] *)
Record FormatSpec : Type := {
  zeroOmission : jsstring;
  coordinateMode : jsstring;
  xIntegerDigits : Z;
  xDecimalDigits : Z;
  yIntegerDigits : Z;
  yDecimalDigits : Z
}.

(** The subclasses of [GerberNode], with their fields.  The string
    unions of the TypeScript types ([Unit], [Polarity],
    [InterpolationMode], ...) are not enforced at run time, so the fields
    are strings. *)
Inductive GerberNode : Type :=
| FormatSpecification (fs : FormatSpec)
| UnitMode (unit : jsstring)
| ApertureDefinition (code : jsnum) (template : jsstring)
    (params : list jsnum)
| ApertureMacro (name content : jsstring)
| LoadPolarity (polarity : jsstring)
| LoadMirroring (mirroring : jsstring)
| LoadRotation (angle : jsnum)
| LoadScaling (scale : jsnum)
| StepRepeat (x y i j : jsnum)
| FileAttribute (name : jsstring) (values : list jsstring)
| ApertureAttribute (name : jsstring) (values : list jsstring)
| ObjectAttribute (name : jsstring) (values : list jsstring)
| DeleteAttribute (name : option jsstring)
| SetInterpolationMode (mode : jsstring)
| Comment (text : jsstring)
| RegionStart
| RegionEnd
| Operation (dcode : DCode) (coords : CoordinateInit)
| SelectAperture (code : jsnum)
| EndOfFile
| SetImagePolarity (polarity : jsstring)
| SetOffset (a b : jsnum)
| UnknownCommand (raw : jsstring).

(** [a ?? b] *)
Definition orElse {A : Type} (a : option A) (b : A) : A :=
  match a with
  | Some v => v
  | None => b
  end.

(** [FormatSpecInit] and the constructor of [FormatSpecification] *)
Record FormatSpecInit : Type := {
  init_zeroOmission : option jsstring;
  init_coordinateMode : option jsstring;
  init_xIntegerDigits : option Z;
  init_xDecimalDigits : option Z;
  init_yIntegerDigits : option Z;
  init_yDecimalDigits : option Z
}.

Definition new_FormatSpecification (init : FormatSpecInit) : GerberNode :=
  FormatSpecification
    {| zeroOmission := orElse (init_zeroOmission init) (str "L");
       coordinateMode := orElse (init_coordinateMode init) (str "A");
       xIntegerDigits := orElse (init_xIntegerDigits init) 2%Z;
       xDecimalDigits := orElse (init_xDecimalDigits init) 6%Z;
       yIntegerDigits := orElse (init_yIntegerDigits init) 2%Z;
       yDecimalDigits := orElse (init_yDecimalDigits init) 6%Z |}.

(** the constructor of [ApertureDefinition]: [params ?? []] *)
Definition new_ApertureDefinition (code : jsnum) (template : jsstring)
    (params : option (list jsnum)) : GerberNode :=
  ApertureDefinition code template (orElse params []).

(** the constructor of [StepRepeat] *)
Definition new_StepRepeat (x y i j : option jsnum) : GerberNode :=
  StepRepeat (orElse x one) (orElse y one) (orElse i zero) (orElse j zero).

(** [createOperation(dcode, init)] *)
Definition createOperation (dcode : DCode) (init : CoordinateInit)
    : GerberNode :=
  match dcode with
  | D01 => Operation D01 init
  | D02 => Operation D02 init
  | D03 => Operation D03 init
  end.

(** the constructor of [SelectAperture], which throws below ten *)
Definition new_SelectAperture (code : jsnum) : result GerberNode :=
  if ltb code ten then
    Throw (str "Aperture code must be >= 10, got " ++ toString code)
  else Ok (SelectAperture code).

Definition dcodeString (d : DCode) : jsstring :=
  match d with
  | D01 => str "D01"
  | D02 => str "D02"
  | D03 => str "D03"
  end.

(** [`${prefix}.${name}${valuesStr}*%`] of the three attribute classes *)
Definition attributeString (prefix name : jsstring)
    (values : list jsstring) : jsstring :=
  let valuesStr :=
    match values with
    | [] => []
    | _ => "," :: Str.join [","] values
    end in
  prefix ++ name ++ valuesStr ++ str "*%".

Definition coordString (letter : ascii) (v : option jsnum) : jsstring :=
  match v with
  | Some z => letter :: toString z
  | None => []
  end.

(** [node.getString()] *)
Definition getString (node : GerberNode) : jsstring :=
  match node with
  | FormatSpecification fs =>
      str "%FS" ++ zeroOmission fs ++ coordinateMode fs
      ++ "X" :: intToString (xIntegerDigits fs)
      ++ intToString (xDecimalDigits fs)
      ++ "Y" :: intToString (yIntegerDigits fs)
      ++ intToString (yDecimalDigits fs) ++ str "*%"
  | UnitMode unit => str "%MO" ++ unit ++ str "*%"
  | ApertureDefinition code template params =>
      let paramsStr :=
        match params with
        | [] => []
        | _ => "," :: Str.join ["X"] (map toString params)
        end in
      str "%ADD" ++ toString code ++ template ++ paramsStr ++ str "*%"
  | ApertureMacro name content =>
      str "%AM" ++ name ++ "*" :: content ++ ["%"]
  | LoadPolarity polarity => str "%LP" ++ polarity ++ str "*%"
  | LoadMirroring mirroring => str "%LM" ++ mirroring ++ str "*%"
  | LoadRotation angle => str "%LR" ++ toString angle ++ str "*%"
  | LoadScaling scale => str "%LS" ++ toString scale ++ str "*%"
  | StepRepeat x y i j =>
      if strictEq x one && strictEq y one && strictEq i zero
         && strictEq j zero
      then str "%SR*%"
      else str "%SRX" ++ toString x ++ "Y" :: toString y
           ++ "I" :: toString i ++ "J" :: toString j ++ str "*%"
  | FileAttribute name values => attributeString (str "%TF.") name values
  | ApertureAttribute name values =>
      attributeString (str "%TA.") name values
  | ObjectAttribute name values => attributeString (str "%TO.") name values
  | DeleteAttribute name =>
      match name with
      | Some (c :: n) => str "%TD." ++ (c :: n) ++ str "*%"
      | _ => str "%TD*%"
      end
  | SetInterpolationMode mode => mode ++ ["*"]
  | Comment text => str "G04 " ++ text ++ ["*"]
  | RegionStart => str "G36*"
  | RegionEnd => str "G37*"
  | Operation dcode c =>
      coordString "X" (cx c) ++ coordString "Y" (cy c)
      ++ coordString "I" (ci c) ++ coordString "J" (cj c)
      ++ dcodeString dcode ++ ["*"]
  | SelectAperture code => "D" :: toString code ++ ["*"]
  | EndOfFile => str "M02*"
  | SetImagePolarity polarity => str "%IP" ++ polarity ++ str "*%"
  | SetOffset a b =>
      str "%OFA" ++ toString a ++ "B" :: toString b ++ str "*%"
  | UnknownCommand raw => raw
  end.

(** the [type] field of a node; an operation carries the name of its
    subclass *)
Definition typeOf (node : GerberNode) : jsstring :=
  match node with
  | FormatSpecification _ => str "FormatSpecification"
  | UnitMode _ => str "UnitMode"
  | ApertureDefinition _ _ _ => str "ApertureDefinition"
  | ApertureMacro _ _ => str "ApertureMacro"
  | LoadPolarity _ => str "LoadPolarity"
  | LoadMirroring _ => str "LoadMirroring"
  | LoadRotation _ => str "LoadRotation"
  | LoadScaling _ => str "LoadScaling"
  | StepRepeat _ _ _ _ => str "StepRepeat"
  | FileAttribute _ _ => str "FileAttribute"
  | ApertureAttribute _ _ => str "ApertureAttribute"
  | ObjectAttribute _ _ => str "ObjectAttribute"
  | DeleteAttribute _ => str "DeleteAttribute"
  | SetInterpolationMode _ => str "SetInterpolationMode"
  | Comment _ => str "Comment"
  | RegionStart => str "RegionStart"
  | RegionEnd => str "RegionEnd"
  | Operation D01 _ => str "Interpolate"
  | Operation D02 _ => str "Move"
  | Operation D03 _ => str "Flash"
  | SelectAperture _ => str "SelectAperture"
  | EndOfFile => str "EndOfFile"
  | SetImagePolarity _ => str "SetImagePolarity"
  | SetOffset _ _ => str "SetOffset"
  | UnknownCommand _ => str "UnknownCommand"
  end.

(** [cmd instanceof Operation] *)
Definition instanceofOperation (node : GerberNode) : bool :=
  match node with
  | Operation _ _ => true
  | _ => false
  end.

End Ast.

(** ** The tokenizer ([parser/tokenizer.ts]) *)

Module Tokenizer.

Inductive TokenType : Type :=
| EXTENDED_COMMAND
| COMMAND
| WHITESPACE
| NEWLINE
| EOF.

Record Token : Type := {
  type : TokenType;
  value : jsstring;
  line : nat;
  column : nat
}.

(** The state of a [Tokenizer]: [rest] is [source.slice(pos)], the part
    of the source not yet read. *)
Record Tokenizer : Type := {
  rest : jsstring;
  cur_line : nat;
  cur_column : nat
}.

(** [new Tokenizer(source)] *)
Definition new_Tokenizer (source : jsstring) : Tokenizer :=
  {| rest := source; cur_line := 1; cur_column := 1 |}.

(** [peek()]; [None] is the empty string read past the end *)
Definition peek (t : Tokenizer) : option ascii := hd_error (rest t).

(** [char === c] for a character read with [peek()] *)
Definition charIs (char : option ascii) (c : ascii) : bool :=
  match char with
  | Some x => Ascii.eqb x c
  | None => false
  end.

(** [advance()] *)
Definition advance (t : Tokenizer) : option ascii * Tokenizer :=
  match rest t with
  | [] =>
      (None, {| rest := []; cur_line := cur_line t;
                cur_column := S (cur_column t) |})
  | c :: r =>
      (Some c,
       if Ascii.eqb c "010" then
         {| rest := r; cur_line := S (cur_line t); cur_column := 1 |}
       else
         {| rest := r; cur_line := cur_line t;
            cur_column := S (cur_column t) |})
  end.

(** [isAtEnd()] *)
Definition isAtEnd (t : Tokenizer) : bool :=
  match rest t with
  | [] => true
  | _ => false
  end.

(** The loop of [readExtendedCommand], after the opening [%]: the
    characters up to the closing [%], which is consumed, or up to the
    end of the input. *)
Fixpoint readExtendedLoop (src : jsstring) (ln col : nat)
    : jsstring * Tokenizer :=
  match src with
  | [] => ([], {| rest := []; cur_line := ln; cur_column := col |})
  | c :: r =>
      let t' := snd (advance {| rest := src; cur_line := ln;
                                cur_column := col |}) in
      if Ascii.eqb c "%" then ([], t')
      else
        let '(v, t'') := readExtendedLoop r (cur_line t') (cur_column t') in
        (c :: v, t'')
  end.

(** [readExtendedCommand()] *)
Definition readExtendedCommand (t : Tokenizer) : Token * Tokenizer :=
  let startLine := cur_line t in
  let startColumn := cur_column t in
  let t1 := snd (advance t) in
  let '(v, t2) := readExtendedLoop (rest t1) (cur_line t1) (cur_column t1) in
  ({| type := EXTENDED_COMMAND; value := v;
      line := startLine; column := startColumn |}, t2).

(** The loop of [readCommand]: the characters up to and including the
    first star, or up to the end of the input. *)
Fixpoint readCommandLoop (src : jsstring) (ln col : nat)
    : jsstring * Tokenizer :=
  match src with
  | [] => ([], {| rest := []; cur_line := ln; cur_column := col |})
  | c :: r =>
      let t' := snd (advance {| rest := src; cur_line := ln;
                                cur_column := col |}) in
      if Ascii.eqb c "*" then ([c], t')
      else
        let '(v, t'') := readCommandLoop r (cur_line t') (cur_column t') in
        (c :: v, t'')
  end.

(** [readCommand()]; the token value is [value.slice(0, -1)] *)
Definition readCommand (t : Tokenizer) : Token * Tokenizer :=
  let startLine := cur_line t in
  let startColumn := cur_column t in
  let '(v, t1) := readCommandLoop (rest t) (cur_line t) (cur_column t) in
  ({| type := COMMAND; value := Str.dropLast v;
      line := startLine; column := startColumn |}, t1).

(** [skipWhitespaceAndNewlines()] *)
Fixpoint skipLoop (src : jsstring) (ln col : nat) : Tokenizer :=
  match src with
  | [] => {| rest := []; cur_line := ln; cur_column := col |}
  | c :: r =>
      if Chr.isBlank c then
        let t' := snd (advance {| rest := src; cur_line := ln;
                                  cur_column := col |}) in
        skipLoop r (cur_line t') (cur_column t')
      else {| rest := src; cur_line := ln; cur_column := col |}
  end.

Definition skipWhitespaceAndNewlines (t : Tokenizer) : Tokenizer :=
  skipLoop (rest t) (cur_line t) (cur_column t).

(** The loop of [tokenize()].  Every turn reads at least one character,
    so [fuel] above the length of the unread source is never used up. *)
Fixpoint tokenizeLoop (fuel : nat) (t : Tokenizer) : list Token :=
  let eof t := [{| type := EOF; value := [];
                   line := cur_line t; column := cur_column t |}] in
  match fuel with
  | O => eof t
  | S fuel' =>
      if isAtEnd t then eof t
      else
        let t1 := skipWhitespaceAndNewlines t in
        if isAtEnd t1 then eof t1
        else
          if charIs (peek t1) "%" then
            let '(tok, t2) := readExtendedCommand t1 in
            tok :: tokenizeLoop fuel' t2
          else
            let '(tok, t2) := readCommand t1 in
            tok :: tokenizeLoop fuel' t2
  end.

(** [tokenize(source)] *)
Definition tokenize (source : jsstring) : list Token :=
  tokenizeLoop (S (length source)) (new_Tokenizer source).

End Tokenizer.

(** ** The regular expressions of the parser

    Each function is the deterministic reading of one pattern of
    [parser.ts].  In every pattern the greedy choice is the only one
    that can succeed, since what follows an optional or repeated item
    never starts with a character that the item accepts; where
    backtracking does change the match ([\d*\.?\d+]) the function says
    so. *)

Module Regex.

(** [(\d+)] at the head: the capture and the rest *)
Definition digits1 (s : jsstring) : option (jsstring * jsstring) :=
  match Str.span Chr.isDigit s with
  | ([], _) => None
  | (d, r) => Some (d, r)
  end.

(** [([+-]?\d+)] at the head *)
Definition signedInt (s : jsstring) : option (jsstring * jsstring) :=
  match s with
  | c :: r =>
      if Chr.isSign c then
        match digits1 r with
        | Some (d, r') => Some (c :: d, r')
        | None => None
        end
      else digits1 s
  | [] => None
  end.

(** [(\d*\.?\d+)] at the head.  When a dot is not followed by a digit
    the match backtracks to the digits before the dot. *)
Definition unsignedDecimal (s : jsstring) : option (jsstring * jsstring) :=
  let '(d1, s2) := Str.span Chr.isDigit s in
  let integerOnly :=
    match d1 with
    | [] => None
    | _ => Some (d1, s2)
    end in
  match s2 with
  | c :: s3 =>
      if Ascii.eqb c "." then
        match Str.span Chr.isDigit s3 with
        | ([], _) => integerOnly
        | (d2, s4) => Some (d1 ++ "." :: d2, s4)
        end
      else integerOnly
  | [] => integerOnly
  end.

(** [([+-]?\d*\.?\d+)] at the head *)
Definition decimal (s : jsstring) : option (jsstring * jsstring) :=
  match s with
  | c :: r =>
      if Chr.isSign c then
        match unsignedDecimal r with
        | Some (d, r') => Some (c :: d, r')
        | None => None
        end
      else unsignedDecimal s
  | [] => None
  end.

(** [s.match(/L(group)/)] for a letter [L] and a pattern [group] read by
    [m]: the capture of the leftmost match. *)
Fixpoint searchAfter (letter : ascii)
    (m : jsstring -> option (jsstring * jsstring)) (s : jsstring)
    : option jsstring :=
  match s with
  | [] => None
  | c :: r =>
      if Ascii.eqb c letter then
        match m r with
        | Some (cap, _) => Some cap
        | None => searchAfter letter m r
        end
      else searchAfter letter m r
  end.

(** [s.match(/L(\d)(\d)/)]: the two captures of the leftmost match *)
Fixpoint searchTwoDigits (letter : ascii) (s : jsstring)
    : option (ascii * ascii) :=
  match s with
  | [] => None
  | c :: r =>
      match r with
      | d1 :: d2 :: _ =>
          if Ascii.eqb c letter && Chr.isDigit d1 && Chr.isDigit d2
          then Some (d1, d2)
          else searchTwoDigits letter r
      | _ => searchTwoDigits letter r
      end
  end.

(** [[123]] *)
Definition is123 (c : ascii) : bool :=
  Ascii.eqb c "1" || Ascii.eqb c "2" || Ascii.eqb c "3".

(** [0?([123])] at the head: the capture *)
Definition dcodeDigit (s : jsstring) : option (ascii * jsstring) :=
  match s with
  | "0" :: d :: r => if is123 d then Some (d, r) else None
  | d :: r => if is123 d then Some (d, r) else None
  | [] => None
  end.

(** [s.match(/D0?([123])/)]: the capture of the leftmost match *)
Fixpoint searchDCode (s : jsstring) : option ascii :=
  match s with
  | [] => None
  | c :: r =>
      if Ascii.eqb c "D" then
        match dcodeDigit r with
        | Some (d, _) => Some d
        | None => searchDCode r
        end
      else searchDCode r
  end.

(** an optional group [(L[+-]?\d+)?] at the head: the rest *)
Definition optCoord (letter : ascii) (s : jsstring) : jsstring :=
  match s with
  | c :: r =>
      if Ascii.eqb c letter then
        match signedInt r with
        | Some (_, r') => r'
        | None => s
        end
      else s
  | [] => s
  end.

(** [(X[+-]?\d+)?(Y[+-]?\d+)?(I[+-]?\d+)?(J[+-]?\d+)?] at the head *)
Definition optCoords (s : jsstring) : jsstring :=
  optCoord "J" (optCoord "I" (optCoord "Y" (optCoord "X" s))).

(** [(D0?[123])$] *)
Definition dcodeToEnd (s : jsstring) : bool :=
  match s with
  | "D" :: r =>
      match dcodeDigit r with
      | Some (_, []) => true
      | _ => false
      end
  | _ => false
  end.

(** [/^(X[+-]?\d+)?(Y[+-]?\d+)?(I[+-]?\d+)?(J[+-]?\d+)?(D0?[123])$/] *)
Definition operationMatch (s : jsstring) : bool :=
  dcodeToEnd (optCoords s).

(** [/^G0?([123])/]: the capture and the rest *)
Definition gCodePrefix (s : jsstring) : option (ascii * jsstring) :=
  match s with
  | "G" :: r => dcodeDigit r
  | _ => None
  end.

(** [/^G0?[123](X[+-]?\d+)?(Y[+-]?\d+)?(I[+-]?\d+)?(J[+-]?\d+)?(D0?[123])?$/] *)
Definition gCodeOperationMatch (s : jsstring) : bool :=
  match gCodePrefix s with
  | Some (_, r) =>
      match optCoords r with
      | [] => true
      | r' => dcodeToEnd r'
      end
  | None => false
  end.

(** [/^D(\d+)$/]: the capture *)
Definition apertureMatch (s : jsstring) : option jsstring :=
  match s with
  | "D" :: r =>
      match digits1 r with
      | Some (d, []) => Some d
      | _ => None
      end
  | _ => None
  end.

(** [s.replace(/^G0?4\s*/, "")] *)
Definition stripCommentPrefix (s : jsstring) : jsstring :=
  match s with
  | "G" :: "0" :: "4" :: r => snd (Str.span Chr.isSpace r)
  | "G" :: "4" :: r => snd (Str.span Chr.isSpace r)
  | _ => s
  end.

(** The pattern of [parseApertureDefinition]: [ADD], the digits of the
    code, an identifier ([[A-Za-z_]] then any of [[A-Za-z0-9_]]) and,
    optionally, a comma and the rest of the input, which must hold no
    line terminator.  The three captures; the third is absent when its
    group does not take part. *)
Definition apertureDefinitionMatch (s : jsstring)
    : option (jsstring * jsstring * option jsstring) :=
  if Str.startsWith (str "ADD") s then
    match digits1 (skipn 3 s) with
    | Some (code, c :: s1) =>
        if Chr.isIdentStart c then
          let '(t, s2) := Str.span Chr.isIdentChar s1 in
          match s2 with
          | [] => Some (code, c :: t, None)
          | "," :: p =>
              if existsb Chr.isLineTerminator p then None
              else Some (code, c :: t, Some p)
          | _ => None
          end
        else None
    | _ => None
    end
  else None.

End Regex.

(** ** The parser ([parser/parser.ts]) *)

Module Parser.
Import Num Ast Tokenizer Regex.

(** [s[i]], a one-character string when [i] is in range *)
Definition charAt (i : nat) (s : jsstring) : option jsstring :=
  option_map (fun c => [c]) (nth_error s i).

(** [parseFormatSpec(content)] *)
Definition parseFormatSpec (content : jsstring) : GerberNode :=
  let rest := Str.sliceFrom 2 content in
  let zeroOmission := charAt 0 rest in
  let coordinateMode := charAt 1 rest in
  let xMatch := searchTwoDigits "X" rest in
  let yMatch := searchTwoDigits "Y" rest in
  new_FormatSpecification
    {| init_zeroOmission := zeroOmission;
       init_coordinateMode := coordinateMode;
       init_xIntegerDigits :=
         Some (match xMatch with
               | Some (a, _) => parseDigit a
               | None => 2%Z
               end);
       init_xDecimalDigits :=
         Some (match xMatch with
               | Some (_, b) => parseDigit b
               | None => 6%Z
               end);
       init_yIntegerDigits :=
         Some (match yMatch with
               | Some (a, _) => parseDigit a
               | None => 2%Z
               end);
       init_yDecimalDigits :=
         Some (match yMatch with
               | Some (_, b) => parseDigit b
               | None => 6%Z
               end) |}.

(** [parseApertureDefinition(content)] *)
Definition parseApertureDefinition (content : jsstring) : GerberNode :=
  match apertureDefinitionMatch content with
  | None => new_ApertureDefinition ten (str "C") None
  | Some (codeStr, template, paramsStr) =>
      let code := parseInt codeStr in
      let params :=
        match paramsStr with
        | Some (c :: p) => map parseFloat (Str.split "X" (c :: p))
        | _ => []
        end in
      new_ApertureDefinition code template (Some params)
  end.

(** [parseApertureMacro(content)] *)
Definition parseApertureMacro (content : jsstring) : GerberNode :=
  match Str.indexOf "*" content with
  | None => ApertureMacro (Str.sliceFrom 2 content) []
  | Some firstStar =>
      let name := Str.slice 2 firstStar content in
      let macroContent := Str.sliceFrom (firstStar + 1) content in
      let macroContent :=
        if Str.endsWith "*" macroContent then Str.dropLast macroContent
        else macroContent in
      ApertureMacro name macroContent
  end.

(** [parseStepRepeat(content)] *)
Definition parseStepRepeat (content : jsstring) : GerberNode :=
  let rest := Str.sliceFrom 2 content in
  match rest with
  | [] => new_StepRepeat None None None None
  | _ =>
      let xMatch := searchAfter "X" digits1 rest in
      let yMatch := searchAfter "Y" digits1 rest in
      let iMatch := searchAfter "I" decimal rest in
      let jMatch := searchAfter "J" decimal rest in
      new_StepRepeat
        (Some (match xMatch with Some c => parseInt c | None => one end))
        (Some (match yMatch with Some c => parseInt c | None => one end))
        (Some (match iMatch with Some c => parseFloat c | None => zero end))
        (Some (match jMatch with Some c => parseFloat c | None => zero end))
  end.

(** [parseAttribute(content, prefix, Ctor)] *)
Definition parseAttribute (content prefix : jsstring)
    (Ctor : jsstring -> list jsstring -> GerberNode) : GerberNode :=
  let rest := Str.sliceFrom (length prefix) content in
  let parts := Str.split "," rest in
  let name := orElse (hd_error parts) [] in
  let values := tl parts in
  Ctor name values.

(** the body of [parseExtendedCommand(value)] below the declaration
    of [content] *)
Definition dispatchExtended (value content : jsstring) : GerberNode :=
  if Str.startsWith (str "FS") content then parseFormatSpec content
  else if Str.startsWith (str "MO") content then
    UnitMode (Str.sliceFrom 2 content)
  else if Str.startsWith (str "AD") content then
    parseApertureDefinition content
  else if Str.startsWith (str "AM") content then parseApertureMacro content
  else if Str.startsWith (str "LP") content then
    LoadPolarity (Str.sliceFrom 2 content)
  else if Str.startsWith (str "LM") content then
    LoadMirroring (Str.sliceFrom 2 content)
  else if Str.startsWith (str "LR") content then
    LoadRotation (parseFloat (Str.sliceFrom 2 content))
  else if Str.startsWith (str "LS") content then
    LoadScaling (parseFloat (Str.sliceFrom 2 content))
  else if Str.startsWith (str "SR") content then parseStepRepeat content
  else if Str.startsWith (str "TF.") content then
    parseAttribute content (str "TF.") FileAttribute
  else if Str.startsWith (str "TA.") content then
    parseAttribute content (str "TA.") ApertureAttribute
  else if Str.startsWith (str "TO.") content then
    parseAttribute content (str "TO.") ObjectAttribute
  else if Str.startsWith (str "TD") content then
    let rest := Str.sliceFrom 2 content in
    if Str.startsWith ["."] rest then
      DeleteAttribute (Some (Str.sliceFrom 1 rest))
    else DeleteAttribute None
  else if Str.startsWith (str "IP") content then
    SetImagePolarity (Str.sliceFrom 2 content)
  else if Str.startsWith (str "OF") content then
    let aMatch := searchAfter "A" decimal content in
    let bMatch := searchAfter "B" decimal content in
    SetOffset
      (match aMatch with Some c => parseFloat c | None => zero end)
      (match bMatch with Some c => parseFloat c | None => zero end)
  else UnknownCommand ("%" :: value ++ ["%"]).

(** [parseExtendedCommand(value)] *)
Definition parseExtendedCommand (value : jsstring) : GerberNode :=
  let content :=
    if Str.endsWith "*" value then Str.dropLast value else value in
  dispatchExtended value content.

(** the d-code named by a capture of [[123]] *)
Definition dcodeOfDigit (d : ascii) : DCode :=
  if Ascii.eqb d "1" then D01
  else if Ascii.eqb d "2" then D02
  else D03.

(** the four optional coordinates of an operation, read from [s] *)
Definition parseCoordinates (s : jsstring) : CoordinateInit :=
  {| cx := option_map parseInt (searchAfter "X" signedInt s);
     cy := option_map parseInt (searchAfter "Y" signedInt s);
     ci := option_map parseInt (searchAfter "I" signedInt s);
     cj := option_map parseInt (searchAfter "J" signedInt s) |}.

(** [parseOperation(value)] *)
Definition parseOperation (value : jsstring) : GerberNode :=
  let dMatch := searchDCode value in
  let dcode := dcodeOfDigit (orElse dMatch "1") in
  createOperation dcode (parseCoordinates value).

(** [parseGCodeOperation(value)] *)
Definition parseGCodeOperation (value : jsstring) : GerberNode :=
  let gMatch := gCodePrefix value in
  let mode :=
    match gMatch with
    | Some (d, _) => "G" :: "0" :: [d]
    | None => str "G0undefined"
    end in
  let rest :=
    match gMatch with
    | Some (_, r) => r
    | None => value
    end in
  match rest with
  | [] => SetInterpolationMode mode
  | _ =>
      match searchDCode rest with
      | Some d => createOperation (dcodeOfDigit d) (parseCoordinates rest)
      | None => SetInterpolationMode mode
      end
  end.

(** [parseCommand(value)] *)
Definition parseCommand (value : jsstring) : result GerberNode :=
  if Str.startsWith (str "G01") value || Str.eqb value (str "G1") then
    Ok (SetInterpolationMode (str "G01"))
  else if Str.startsWith (str "G02") value || Str.eqb value (str "G2") then
    Ok (SetInterpolationMode (str "G02"))
  else if Str.startsWith (str "G03") value || Str.eqb value (str "G3") then
    Ok (SetInterpolationMode (str "G03"))
  else if Str.startsWith (str "G74") value then
    Ok (SetInterpolationMode (str "G74"))
  else if Str.startsWith (str "G75") value then
    Ok (SetInterpolationMode (str "G75"))
  else if Str.startsWith (str "G04") value
          || Str.startsWith (str "G4") value then
    Ok (Comment (stripCommentPrefix value))
  else if Str.eqb value (str "G36") then Ok RegionStart
  else if Str.eqb value (str "G37") then Ok RegionEnd
  else if Str.eqb value (str "M02") || Str.eqb value (str "M00")
          || Str.eqb value (str "M2") || Str.eqb value (str "M0") then
    Ok EndOfFile
  else
    let selected :=
      match apertureMatch value with
      | Some codeStr =>
          let code := parseInt codeStr in
          if geb code ten then Some code else None
      | None => None
      end in
    match selected with
    | Some code => new_SelectAperture code
    | None =>
        if operationMatch value then Ok (parseOperation value)
        else if gCodeOperationMatch value then
          Ok (parseGCodeOperation value)
        else Ok (UnknownCommand (value ++ ["*"]))
    end.

(** [parseToken(token)]; [None] is [null] *)
Definition parseToken (token : Token) : result (option GerberNode) :=
  match type token with
  | EXTENDED_COMMAND => Ok (Some (parseExtendedCommand (value token)))
  | COMMAND => node ← parseCommand (value token); Ok (Some node)
  | _ => Ok None
  end.

(** [parse()]: the loop runs until the first [EOF] token; reading past
    the end of [tokens] yields an [EOF] token too. *)
Fixpoint parseLoop (tokens : list Token) : result (list GerberNode) :=
  match tokens with
  | [] => Ok []
  | token :: tokens' =>
      match type token with
      | EOF => Ok []
      | _ =>
          node ← parseToken token;
          nodes ← parseLoop tokens';
          Ok (match node with
              | Some n => n :: nodes
              | None => nodes
              end)
      end
  end.

(** [parseGerber(source)] *)
Definition parseGerber (source : jsstring) : result (list GerberNode) :=
  parseLoop (tokenize source).

End Parser.

(** ** The document ([GerberFile.ts]) and the single-node parse *)

Module GerberFile.
Import Ast Parser.

Record GerberFile : Type := { commands : list GerberNode }.

(** [GerberFile.parse(source)] *)
Definition parse (source : jsstring) : result GerberFile :=
  commands ← parseGerber source;
  Ok {| commands := commands |}.

(** [getString()]:
    [commands.map((cmd) => cmd.getString()).join("\n") + "\n"] *)
Definition getString (file : GerberFile) : jsstring :=
  Str.join ["010"] (map Ast.getString (commands file)) ++ ["010"].

(** [GerberNode.parse(source)] *)
Definition GerberNode_parse (source : jsstring) : result GerberNode :=
  nodes ← parseGerber source;
  match nodes with
  | [] => Throw (str "Failed to parse Gerber command: " ++ source)
  | [node] => Ok node
  | _ =>
      Throw (str "Expected single command, got "
             ++ Num.intToString (Z.of_nat (length nodes))
             ++ str ": " ++ source)
  end.

(** [parseGerberFile(source)] *)
Definition parseGerberFile (source : jsstring) : result GerberFile :=
  parse source.

(** [getChildren()] of a [GerberFile] *)
Definition getChildren (file : GerberFile) : list GerberNode :=
  commands file.

(** [cmd.type === name] *)
Definition hasType (name : jsstring) (cmd : GerberNode) : bool :=
  Str.eqb (typeOf cmd) name.

(** the accessors: [commands.find(...)] and [commands.filter(...)] *)
Definition formatSpecification (file : GerberFile) : option GerberNode :=
  List.find (hasType (str "FormatSpecification")) (commands file).

Definition unitMode (file : GerberFile) : option GerberNode :=
  List.find (hasType (str "UnitMode")) (commands file).

Definition apertureDefinitions (file : GerberFile) : list GerberNode :=
  List.filter (hasType (str "ApertureDefinition")) (commands file).

Definition apertureMacros (file : GerberFile) : list GerberNode :=
  List.filter (hasType (str "ApertureMacro")) (commands file).

Definition fileAttributes (file : GerberFile) : list GerberNode :=
  List.filter (hasType (str "FileAttribute")) (commands file).

Definition operations (file : GerberFile) : list GerberNode :=
  List.filter instanceofOperation (commands file).

Definition comments (file : GerberFile) : list GerberNode :=
  List.filter (hasType (str "Comment")) (commands file).

(** [this.commands.push(node)] *)
Definition push (file : GerberFile) (node : GerberNode) : GerberFile :=
  {| commands := commands file ++ [node] |}.

(** [addCommand(command)]: [inr] is a source string, whose nodes are
    pushed one by one; [inl] is a node *)
Definition addCommand (file : GerberFile) (command : GerberNode + jsstring)
    : result GerberFile :=
  match command with
  | inr source =>
      parsed ← parseGerber source;
      Ok (fold_left push parsed file)
  | inl node => Ok (push file node)
  end.

(** [addApertureDefinition(aperture)] *)
Definition addApertureDefinition (file : GerberFile) (aperture : GerberNode)
    : GerberFile :=
  push file aperture.

(** [addOperation(operation)] *)
Definition addOperation (file : GerberFile) (operation : GerberNode)
    : GerberFile :=
  push file operation.

(** [ensureEndOfFile()] *)
Definition ensureEndOfFile (file : GerberFile) : GerberFile :=
  let hasEnd := existsb (hasType (str "EndOfFile")) (commands file) in
  if hasEnd then file else push file EndOfFile.

End GerberFile.

(** ** The registry of node classes ([GerberNode.register]) *)

Module Registry.

(** a class object, as far as the registry looks at it: its name and its
    static [token] *)
Record NodeClass : Type := {
  class_name : jsstring;
  token : option jsstring
}.

(** [GerberNode.register(nodeClass)] on the map [classes]; a missing or
    empty token is falsy *)
Definition register (classes : gmap jsstring NodeClass)
    (nodeClass : NodeClass) : result (gmap jsstring NodeClass) :=
  match token nodeClass with
  | Some (c :: t) => Ok (<[c :: t := nodeClass]> classes)
  | _ =>
      Throw (str "Class " ++ class_name nodeClass
             ++ str " must have a static 'token' property to be registered")
  end.

(** [GerberNode.getRegisteredClass(token)] *)
Definition getRegisteredClass (classes : gmap jsstring NodeClass)
    (tok : jsstring) : option NodeClass :=
  classes !! tok.

Definition Interpolate : NodeClass :=
  {| class_name := str "Interpolate"; token := Some (str "D01") |}.

Definition Move : NodeClass :=
  {| class_name := str "Move"; token := Some (str "D02") |}.

Definition Flash : NodeClass :=
  {| class_name := str "Flash"; token := Some (str "D03") |}.

(** the registrations that loading [commands.ts] runs, on the empty map *)
Definition loaded : result (gmap jsstring NodeClass) :=
  c1 ← register ∅ Interpolate;
  c2 ← register c1 Move;
  register c2 Flash.

End Registry.

(** ** The renderer ([GerberToSvg] in [parser/parser.ts])

    The replay of the commands against the graphics state is modelled
    in full.  The drawing primitives are kept as structured values
    ([SvgElement], [PathCommand]) instead of the text that the template
    literals build from them; the final assembly of the SVG text from
    the accumulators is not part of the model. *)

Module Render.
Import Num Ast.

(** a number of the renderer *)
Inductive xnum : Type :=
| XNaN
| XInf (neg : bool)
| XFin (q : Q).

Definition isNegative (q : Q) : bool := Qle_bool q 0 && negb (Qeq_bool q 0).

Definition ofJsnum (v : jsnum) : xnum :=
  match v with
  | JNaN => XNaN
  | JInf neg => XInf neg
  | JZero _ => XFin 0
  | JDec neg m e =>
      XFin ((if neg then - inject_Z (Zpos m) else inject_Z (Zpos m))
            * Qpower (10 # 1) e)
  end.

(** [a + b] *)
Definition xadd (a b : xnum) : xnum :=
  match a, b with
  | XNaN, _ | _, XNaN => XNaN
  | XInf s, XInf t => if Bool.eqb s t then XInf s else XNaN
  | XInf s, XFin _ => XInf s
  | XFin _, XInf t => XInf t
  | XFin p, XFin q => XFin (p + q)
  end.

(** [a - b] *)
Definition xsub (a b : xnum) : xnum :=
  match a, b with
  | XNaN, _ | _, XNaN => XNaN
  | XInf s, XInf t => if Bool.eqb s t then XNaN else XInf s
  | XInf s, XFin _ => XInf s
  | XFin _, XInf t => XInf (negb t)
  | XFin p, XFin q => XFin (p - q)
  end.

(** [a / b] *)
Definition xdiv (a b : xnum) : xnum :=
  match a, b with
  | XNaN, _ | _, XNaN => XNaN
  | XInf _, XInf _ => XNaN
  | XInf s, XFin q => XInf (xorb s (isNegative q))
  | XFin _, XInf _ => XFin 0
  | XFin p, XFin q =>
      if Qeq_bool q 0 then
        if Qeq_bool p 0 then XNaN else XInf (isNegative p)
      else XFin (p / q)
  end.

(** [Math.min(a, b)] *)
Definition xmin (a b : xnum) : xnum :=
  match a, b with
  | XNaN, _ | _, XNaN => XNaN
  | XInf true, _ | _, XInf true => XInf true
  | XInf false, v | v, XInf false => v
  | XFin p, XFin q => if Qle_bool p q then XFin p else XFin q
  end.

(** [Math.max(a, b)] *)
Definition xmax (a b : xnum) : xnum :=
  match a, b with
  | XNaN, _ | _, XNaN => XNaN
  | XInf false, _ | _, XInf false => XInf false
  | XInf true, v | v, XInf true => v
  | XFin p, XFin q => if Qle_bool q p then XFin p else XFin q
  end.

(** [Math.pow(10, d)] for an integer [d] *)
Definition pow10 (d : Z) : xnum := XFin (Qpower (10 # 1) d).

(** The keys of a [Map] are compared as [SameValueZero] does: the two
    zeros are one key. *)
Definition mapKey (v : jsnum) : jsnum :=
  match v with
  | JZero _ => JZero false
  | _ => v
  end.

(** [RenderOptions], all fields filled in *)
Record RenderOptions : Type := {
  scale : xnum;
  strokeColor : jsstring;
  fillColor : jsstring;
  backgroundColor : jsstring;
  padding : xnum
}.

Definition defaultOptions : RenderOptions :=
  {| scale := XFin 1;
     strokeColor := str "#000";
     fillColor := str "#000";
     backgroundColor := str "none";
     padding := XFin (1 # 10) |}.

Record Aperture : Type := {
  ap_code : jsnum;
  ap_template : jsstring;
  ap_params : list jsnum
}.

Inductive Interpolation : Type := linear | cw | ccw.

Inductive RenderPolarity : Type := dark | clear.

Record RenderState : Type := {
  x : xnum;
  y : xnum;
  aperture : option Aperture;
  interpolation : Interpolation;
  regionMode : bool;
  polarity : RenderPolarity;
  unit : jsstring;
  formatSpec : option FormatSpec
}.

(** an element pushed to [paths] or [flashes] *)
Inductive SvgElement : Type :=
| SvgLine (x1 y1 x2 y2 : xnum) (stroke : jsstring) (strokeWidth : xnum)
| SvgCircle (cx cy r : xnum) (fill : jsstring)
| SvgRect (rx ry width height : xnum) (radius : option xnum)
    (fill : jsstring).

(** a command of the path text held in [regionPath] *)
Inductive PathCommand : Type :=
| PathM (px py : xnum)
| PathL (px py : xnum)
| PathZ.

Record Bounds : Type := {
  minX : xnum;
  minY : xnum;
  maxX : xnum;
  maxY : xnum
}.

(** the fields of a [GerberToSvg]; an empty [regionPath] is the empty
    string *)
Record GerberToSvg : Type := {
  state : RenderState;
  apertures : gmap jsnum Aperture;
  paths : list SvgElement;
  flashes : list SvgElement;
  regionPath : list PathCommand;
  regions : list (list PathCommand);
  bounds : Bounds;
  options : RenderOptions
}.

(** [new GerberToSvg(options)] *)
Definition new_GerberToSvg (opts : RenderOptions) : GerberToSvg :=
  {| state :=
       {| x := XFin 0; y := XFin 0; aperture := None;
          interpolation := linear; regionMode := false; polarity := dark;
          unit := str "IN"; formatSpec := None |};
     apertures := ∅;
     paths := [];
     flashes := [];
     regionPath := [];
     regions := [];
     bounds := {| minX := XInf false; minY := XInf false;
                  maxX := XInf true; maxY := XInf true |};
     options := opts |}.

Definition setState (r : GerberToSvg) (s : RenderState) : GerberToSvg :=
  {| state := s; apertures := apertures r; paths := paths r;
     flashes := flashes r; regionPath := regionPath r;
     regions := regions r; bounds := bounds r; options := options r |}.

Definition setRegionPath (r : GerberToSvg) (p : list PathCommand)
    : GerberToSvg :=
  {| state := state r; apertures := apertures r; paths := paths r;
     flashes := flashes r; regionPath := p;
     regions := regions r; bounds := bounds r; options := options r |}.

(** [updateBounds(x, y)] *)
Definition updateBounds (r : GerberToSvg) (px py : xnum) : GerberToSvg :=
  {| state := state r; apertures := apertures r; paths := paths r;
     flashes := flashes r; regionPath := regionPath r;
     regions := regions r;
     bounds := {| minX := xmin (minX (bounds r)) px;
                  minY := xmin (minY (bounds r)) py;
                  maxX := xmax (maxX (bounds r)) px;
                  maxY := xmax (maxY (bounds r)) py |};
     options := options r |}.

(** [convertCoordinate(value)] *)
Definition convertCoordinate (r : GerberToSvg) (value : jsnum) : xnum :=
  match formatSpec (state r) with
  | None => xdiv (ofJsnum value) (XFin 10000)
  | Some fs => xdiv (ofJsnum value) (pow10 (xDecimalDigits fs))
  end.

(** [getApertureWidth()] *)
Definition getApertureWidth (r : GerberToSvg) : xnum :=
  match aperture (state r) with
  | None => XFin (1 # 100)
  | Some ap =>
      match ap_params ap with
      | [] => XFin (1 # 100)
      | p :: _ => ofJsnum p
      end
  end.

(** [params[i] ?? d] *)
Definition paramOr (params : list jsnum) (i : nat) (d : xnum) : xnum :=
  match nth_error params i with
  | Some p => ofJsnum p
  | None => d
  end.

(** [createFlash(x, y)]; [None] is [null] *)
Definition createFlash (r : GerberToSvg) (px py : xnum)
    : option SvgElement * GerberToSvg :=
  match aperture (state r) with
  | None => (None, r)
  | Some ap =>
      let fill := fillColor (options r) in
      let two := XFin 2 in
      if Str.eqb (ap_template ap) (str "C") then
        let diameter := paramOr (ap_params ap) 0 (XFin (1 # 100)) in
        let rad := xdiv diameter two in
        let r1 := updateBounds r (xsub px rad) (xsub py rad) in
        let r2 := updateBounds r1 (xadd px rad) (xadd py rad) in
        (Some (SvgCircle px py rad fill), r2)
      else if Str.eqb (ap_template ap) (str "R") then
        let width := paramOr (ap_params ap) 0 (XFin (1 # 100)) in
        let height := paramOr (ap_params ap) 1 width in
        let rx := xsub px (xdiv width two) in
        let ry := xsub py (xdiv height two) in
        let r1 := updateBounds r rx ry in
        let r2 := updateBounds r1 (xadd rx width) (xadd ry height) in
        (Some (SvgRect rx ry width height None fill), r2)
      else if Str.eqb (ap_template ap) (str "O") then
        let width := paramOr (ap_params ap) 0 (XFin (1 # 100)) in
        let height := paramOr (ap_params ap) 1 width in
        let radius := xdiv (xmin width height) two in
        let rx := xsub px (xdiv width two) in
        let ry := xsub py (xdiv height two) in
        let r1 := updateBounds r rx ry in
        let r2 := updateBounds r1 (xadd rx width) (xadd ry height) in
        (Some (SvgRect rx ry width height (Some radius) fill), r2)
      else (Some (SvgCircle px py (XFin (5 # 1000)) fill), r)
  end.

(** the point [(newX, newY)] that [handleOperation] computes first *)
Definition newPoint (r : GerberToSvg) (c : CoordinateInit) : xnum * xnum :=
  (match cx c with
   | Some v => convertCoordinate r v
   | None => x (state r)
   end,
   match cy c with
   | Some v => convertCoordinate r v
   | None => y (state r)
   end).

Definition pushPath (r : GerberToSvg) (e : SvgElement) : GerberToSvg :=
  {| state := state r; apertures := apertures r; paths := paths r ++ [e];
     flashes := flashes r; regionPath := regionPath r;
     regions := regions r; bounds := bounds r; options := options r |}.

Definition pushFlash (r : GerberToSvg) (e : SvgElement) : GerberToSvg :=
  {| state := state r; apertures := apertures r; paths := paths r;
     flashes := flashes r ++ [e]; regionPath := regionPath r;
     regions := regions r; bounds := bounds r; options := options r |}.

(** [handleOperation(op)] *)
Definition handleOperation (r : GerberToSvg) (dcode : DCode)
    (c : CoordinateInit) : GerberToSvg :=
  let '(newX, newY) := newPoint r c in
  let r0 := updateBounds r newX newY in
  let r1 :=
    match dcode with
    | D01 =>
        if regionMode (state r0) then
          let started :=
            match regionPath r0 with
            | [] => [PathM (x (state r0)) (y (state r0))]
            | p => p
            end in
          setRegionPath r0 (started ++ [PathL newX newY])
        else
          match aperture (state r0) with
          | Some _ =>
              let strokeWidth := getApertureWidth r0 in
              pushPath r0
                (SvgLine (x (state r0)) (y (state r0)) newX newY
                   (strokeColor (options r0)) strokeWidth)
          | None => r0
          end
    | D02 =>
        match regionMode (state r0), regionPath r0 with
        | true, _ :: _ => setRegionPath r0 (regionPath r0 ++ [PathM newX newY])
        | _, _ => r0
        end
    | D03 =>
        match aperture (state r0) with
        | Some _ =>
            match createFlash r0 newX newY with
            | (Some flash, r') => pushFlash r' flash
            | (None, r') => r'
            end
        | None => r0
        end
    end in
  setState r1
    {| x := newX; y := newY; aperture := aperture (state r1);
       interpolation := interpolation (state r1);
       regionMode := regionMode (state r1);
       polarity := polarity (state r1);
       unit := unit (state r1);
       formatSpec := formatSpec (state r1) |}.

(** [processCommand(cmd)] *)
Definition processCommand (r : GerberToSvg) (cmd : GerberNode)
    : GerberToSvg :=
  let s := state r in
  match cmd with
  | FormatSpecification fs =>
      setState r
        {| x := x s; y := y s; aperture := aperture s;
           interpolation := interpolation s; regionMode := regionMode s;
           polarity := polarity s; unit := unit s;
           formatSpec := Some fs |}
  | UnitMode u =>
      setState r
        {| x := x s; y := y s; aperture := aperture s;
           interpolation := interpolation s; regionMode := regionMode s;
           polarity := polarity s; unit := u;
           formatSpec := formatSpec s |}
  | ApertureDefinition code template params =>
      {| state := s;
         apertures :=
           <[mapKey code := {| ap_code := code; ap_template := template;
                               ap_params := params |}]> (apertures r);
         paths := paths r; flashes := flashes r;
         regionPath := regionPath r; regions := regions r;
         bounds := bounds r; options := options r |}
  | SelectAperture code =>
      setState r
        {| x := x s; y := y s; aperture := apertures r !! mapKey code;
           interpolation := interpolation s; regionMode := regionMode s;
           polarity := polarity s; unit := unit s;
           formatSpec := formatSpec s |}
  | SetInterpolationMode mode =>
      let interp :=
        if Str.eqb mode (str "G01") then linear
        else if Str.eqb mode (str "G02") then cw
        else if Str.eqb mode (str "G03") then ccw
        else interpolation s in
      setState r
        {| x := x s; y := y s; aperture := aperture s;
           interpolation := interp; regionMode := regionMode s;
           polarity := polarity s; unit := unit s;
           formatSpec := formatSpec s |}
  | LoadPolarity p =>
      setState r
        {| x := x s; y := y s; aperture := aperture s;
           interpolation := interpolation s; regionMode := regionMode s;
           polarity := if Str.eqb p (str "D") then dark else clear;
           unit := unit s; formatSpec := formatSpec s |}
  | RegionStart =>
      setRegionPath
        (setState r
           {| x := x s; y := y s; aperture := aperture s;
              interpolation := interpolation s; regionMode := true;
              polarity := polarity s; unit := unit s;
              formatSpec := formatSpec s |})
        []
  | RegionEnd =>
      let closed :=
        match regionPath r with
        | [] => regions r
        | p => regions r ++ [p ++ [PathZ]]
        end in
      {| state :=
           {| x := x s; y := y s; aperture := aperture s;
              interpolation := interpolation s; regionMode := false;
              polarity := polarity s; unit := unit s;
              formatSpec := formatSpec s |};
         apertures := apertures r; paths := paths r; flashes := flashes r;
         regionPath := []; regions := closed;
         bounds := bounds r; options := options r |}
  | Operation dcode c => handleOperation r dcode c
  | _ => r
  end.

(** the loop of [render(gerber)] over [gerber.commands] *)
Definition replay (r : GerberToSvg) (cmds : list GerberNode) : GerberToSvg :=
  fold_left processCommand cmds r.

(** [a * b] *)
Definition xmul (a b : xnum) : xnum :=
  match a, b with
  | XNaN, _ | _, XNaN => XNaN
  | XInf s, XInf t => XInf (xorb s t)
  | XInf s, XFin q | XFin q, XInf s =>
      if Qeq_bool q 0 then XNaN else XInf (xorb s (isNegative q))
  | XFin p, XFin q => XFin (p * q)
  end.

(** the numbers that [render(gerber)] computes after the replay and
    writes into the [svg] element *)
Record ViewBox : Type := {
  vb_width : xnum;
  vb_height : xnum;
  vb_viewMinX : xnum;
  vb_viewMinY : xnum;
  vb_svgWidth : xnum;
  vb_svgHeight : xnum
}.

Definition viewBox (r : GerberToSvg) : ViewBox :=
  let padding := padding (options r) in
  let width :=
    xadd (xsub (maxX (bounds r)) (minX (bounds r)))
      (xmul padding (XFin 2)) in
  let height :=
    xadd (xsub (maxY (bounds r)) (minY (bounds r)))
      (xmul padding (XFin 2)) in
  let viewMinX := xsub (minX (bounds r)) padding in
  let viewMinY := xsub (minY (bounds r)) padding in
  let scale := scale (options r) in
  {| vb_width := width; vb_height := height;
     vb_viewMinX := viewMinX; vb_viewMinY := viewMinY;
     vb_svgWidth := xmul width scale; vb_svgHeight := xmul height scale |}.

(** [render(gerber)], as far as its numbers go: the replay of the
    commands, then the view box *)
Definition renderViewBox (opts : RenderOptions) (cmds : list GerberNode)
    : ViewBox :=
  viewBox (replay (new_GerberToSvg opts) cmds).

End Render.

(** ** Notions used to state the properties *)

Module Spec.
Import Ast Render.

(** the most recent [FormatSpecification] among [cmds], [seen] when
    there is none *)
Definition mostRecentFormatSpec (seen : option FormatSpec)
    (cmds : list GerberNode) : option FormatSpec :=
  fold_left
    (fun acc cmd =>
       match cmd with
       | FormatSpecification fs => Some fs
       | _ => acc
       end)
    cmds seen.

(** the decimal digits that apply: the x-decimal-digits of the format
    specification, four without one *)
Definition decimalDigits (fs : option FormatSpec) : Z :=
  match fs with
  | Some f => xDecimalDigits f
  | None => 4%Z
  end.

(** the number [v] divided by [10^d] *)
Definition converted (d : Z) (v : Num.jsnum) : xnum :=
  match ofJsnum v with
  | XFin q => XFin (q / Qpower (10 # 1) d)
  | XInf s => XInf s
  | XNaN => XNaN
  end.

(** the renderer [r] with its region-mode flag set to [b] *)
Definition withRegionMode (b : bool) (r : GerberToSvg) : GerberToSvg :=
  setState r
    {| x := x (state r); y := y (state r); aperture := aperture (state r);
       interpolation := interpolation (state r); regionMode := b;
       polarity := polarity (state r); unit := unit (state r);
       formatSpec := formatSpec (state r) |}.

(** the decimal that is the integer [z] *)
Definition intDecimal (z : Z) : Num.jsnum :=
  Num.mkDec (z <? 0)%Z (Num.digitsOfN (Z.abs_N z)) 0.

(** [notChar c] holds of the characters other than [c] *)
Definition notChar (c : ascii) (x : ascii) : bool := negb (Ascii.eqb x c).

(** the type and the value of a token, its position left out *)
Definition kindValue (t : Tokenizer.Token) : Tokenizer.TokenType * jsstring :=
  (Tokenizer.type t, Tokenizer.value t).

Definition lexemes (source : jsstring)
    : list (Tokenizer.TokenType * jsstring) :=
  map kindValue (Tokenizer.tokenize source).

(** a command value starts neither with a skipped character nor with
    the block marker *)
Definition startsCommand (w : jsstring) : bool :=
  match w with
  | [] => true
  | c :: _ => negb (Chr.isBlank c) && notChar "%" c
  end.

(** a token with the given type and value *)
Definition tokenOf (kv : Tokenizer.TokenType * jsstring) : Tokenizer.Token :=
  {| Tokenizer.type := fst kv; Tokenizer.value := snd kv;
     Tokenizer.line := 0; Tokenizer.column := 0 |}.

(** the parse loop on the types and values of the tokens *)
Definition parseLexemes (l : list (Tokenizer.TokenType * jsstring))
    : result (list GerberNode) :=
  Parser.parseLoop (map tokenOf l).

(** Where the end of a source leaves the tokenizer: between two tokens,
    inside an extended block whose closing marker has not come, or
    inside a command whose star has not come. *)
Inductive ScanMode : Type := Between | InExtended | InCommand.

Fixpoint scan (m : ScanMode) (s : jsstring) : ScanMode :=
  match s with
  | [] => m
  | c :: r =>
      match m with
      | Between =>
          if Chr.isBlank c then scan Between r
          else if Ascii.eqb c "%" then scan InExtended r
          else if Ascii.eqb c "*" then scan Between r
          else scan InCommand r
      | InExtended =>
          if Ascii.eqb c "%" then scan Between r else scan InExtended r
      | InCommand =>
          if Ascii.eqb c "*" then scan Between r else scan InCommand r
      end
  end.

(** the prefixes that [parseExtendedCommand] recognises *)
Definition extendedPrefixes : list jsstring :=
  [str "FS"; str "MO"; str "AD"; str "AM"; str "LP"; str "LM"; str "LR";
   str "LS"; str "SR"; str "TF."; str "TA."; str "TO."; str "TD"; str "IP";
   str "OF"].

(** the value of an extended block without its trailing star, if any *)
Definition extendedContent (value : jsstring) : jsstring :=
  if Str.endsWith "*" value then Str.dropLast value else value.

Definition hasExtendedPrefix (value : jsstring) : bool :=
  existsb (fun p => Str.startsWith p (extendedContent value))
    extendedPrefixes.

Definition isUnknown (node : GerberNode) : bool :=
  match node with
  | UnknownCommand _ => true
  | _ => false
  end.

(** the source consists of recognised constructs only: no node of its
    parse is an [UnknownCommand] *)
Definition recognised (node : GerberNode) : bool := negb (isUnknown node).

(** A number that [Number::toString] prints without an exponent: a
    zero, or a decimal whose decimal point lies at most six places
    before and at most twenty-one places after its first significant
    digit, that is, of magnitude at least [1e-6] and below [1e21]. *)
Definition plainRange (v : Num.jsnum) : bool :=
  match v with
  | Num.JDec _ m e =>
      let n := (Z.of_nat (length (Num.digitsOfN (Npos m))) + e)%Z in
      (-6 <? n)%Z && (n <=? 21)%Z
  | Num.JZero _ => true
  | _ => false
  end.

(** A number that a pattern of digits reads back from its print: it is
    printed without an exponent, and it is no negative zero, whose print
    has lost the sign. *)
Definition plainNum (v : Num.jsnum) : bool :=
  plainRange v && negb (Num.isNegZero v).

Definition plainCoord (v : option Num.jsnum) : bool :=
  match v with
  | Some z => plainNum z
  | None => true
  end.

Definition noNegZero (v : Num.jsnum) : bool := negb (Num.isNegZero v).

(** The nodes whose serialization parses back to themselves; what the
    serializers change is left out: a macro body that still ends in a
    star, a delete-attribute with an empty name, a negative zero, which
    is printed as [0], and, where a pattern of digits reads the number
    back (a coordinate, an aperture code, the counts and distances of a
    step-repeat, an offset), a number printed with an exponent. *)
Definition stable (node : GerberNode) : bool :=
  match node with
  | ApertureDefinition code _ params =>
      plainNum code && forallb noNegZero params
  | ApertureMacro _ content => negb (Str.endsWith "*" content)
  | LoadRotation angle => noNegZero angle
  | LoadScaling scale => noNegZero scale
  | StepRepeat x y i j => plainNum x && plainNum y && plainNum i && plainNum j
  | DeleteAttribute (Some []) => false
  | Operation _ c =>
      plainCoord (cx c) && plainCoord (cy c) && plainCoord (ci c)
      && plainCoord (cj c)
  | SelectAperture code => plainNum code
  | SetOffset a b => plainNum a && plainNum b
  | _ => true
  end.

Definition noPercent (s : jsstring) : bool := forallb (notChar "%") s.
Definition noStar (s : jsstring) : bool := forallb (notChar "*") s.
Definition noComma (s : jsstring) : bool := forallb (notChar ",") s.

Definition isDigitZ (d : Z) : bool := (0 <=? d)%Z && (d <=? 9)%Z.

Definition isIdentifier (t : jsstring) : bool :=
  match t with
  | c :: t' => Chr.isIdentStart c && forallb Chr.isIdentChar t'
  | [] => false
  end.

Definition noLeadingSpace (t : jsstring) : bool :=
  match t with
  | c :: _ => negb (Chr.isSpace c)
  | [] => true
  end.

Definition isModeString (m : jsstring) : bool :=
  Str.eqb m (str "G01") || Str.eqb m (str "G02") || Str.eqb m (str "G03")
  || Str.eqb m (str "G74") || Str.eqb m (str "G75").

Definition oneChar (s : jsstring) : bool :=
  match s with
  | [c] => notChar "%" c
  | _ => false
  end.

Definition attributeOk (name : jsstring) (values : list jsstring) : bool :=
  noPercent name && noComma name
  && forallb (fun v => noPercent v && noComma v) values.

(** A double without a fraction: an integer, a zero or an infinity,
    which is what [parseInt] answers on a capture of [[+-]?\d+]. *)
Definition isInteger (v : Num.jsnum) : bool :=
  Num.isDouble v
  && match v with
     | Num.JDec _ _ e => (0 <=? e)%Z
     | Num.JNaN => false
     | _ => true
     end.

(** The same without a sign, which is what [parseInt] answers on a
    capture of [\d+]. *)
Definition isCount (v : Num.jsnum) : bool :=
  isInteger v
  && match v with
     | Num.JDec neg _ _ | Num.JZero neg | Num.JInf neg => negb neg
     | Num.JNaN => false
     end.

Definition isCoord (v : option Num.jsnum) : bool :=
  match v with
  | Some z => isInteger z
  | None => true
  end.

(** What the parser guarantees of the fields of a node that it builds
    from a token of the tokenizer; every number is a double. *)
Definition wellFormed (node : GerberNode) : bool :=
  match node with
  | FormatSpecification fs =>
      oneChar (zeroOmission fs) && oneChar (coordinateMode fs)
      && isDigitZ (xIntegerDigits fs) && isDigitZ (xDecimalDigits fs)
      && isDigitZ (yIntegerDigits fs) && isDigitZ (yDecimalDigits fs)
  | UnitMode u => noPercent u
  | ApertureDefinition code template params =>
      isCount code && isIdentifier template && forallb Num.isDouble params
  | ApertureMacro name content =>
      noPercent name && noStar name && noPercent content
  | LoadPolarity p => noPercent p
  | LoadMirroring m => noPercent m
  | LoadRotation angle => Num.isDouble angle
  | LoadScaling scale => Num.isDouble scale
  | StepRepeat x y i j =>
      isCount x && isCount y && Num.isDouble i && Num.isDouble j
  | FileAttribute name values => attributeOk name values
  | ApertureAttribute name values => attributeOk name values
  | ObjectAttribute name values => attributeOk name values
  | DeleteAttribute (Some name) => noPercent name
  | SetInterpolationMode m => isModeString m
  | Comment t => noStar t && noLeadingSpace t
  | Operation _ c =>
      isCoord (cx c) && isCoord (cy c) && isCoord (ci c) && isCoord (cj c)
  | SelectAperture code => isCount code && Num.geb code Num.ten
  | SetImagePolarity p => noPercent p
  | SetOffset a b => Num.isDouble a && Num.isDouble b
  | _ => true
  end.

(** the serialization of [node] is one token that parses back to
    [node] *)
Definition reparses (node : GerberNode) : Prop :=
  (exists v, noPercent v = true
             /\ getString node = "%" :: v ++ ["%"]
             /\ Parser.parseExtendedCommand v = node)
  \/ (exists w, noStar w = true /\ startsCommand w = true
                /\ getString node = w ++ ["*"]
                /\ Parser.parseCommand w = Ok node).

(** the head of [rest] is no digit *)
Definition stopsDigits (rest : jsstring) : Prop :=
  match rest with
  | [] => True
  | c :: _ => Chr.isDigit c = false
  end.

(** the characters of a printed integer *)
Definition isIntChar (c : ascii) : bool := Chr.isDigit c || Ascii.eqb c "-".

(** the characters of a printed number *)
Definition isNumChar (c : ascii) : bool :=
  Chr.isDigit c || existsb (Ascii.eqb c) (str ".-+eNaInfity").

(** the head of [rest] is neither a digit nor a dot *)
Definition stopsDecimal (rest : jsstring) : Prop :=
  match rest with
  | [] => True
  | c :: _ => Chr.isDigit c = false /\ Ascii.eqb c "." = false
  end.

(** the head of [rest] is neither a digit nor the letter [L] *)
Definition stopsCoord (L : ascii) (rest : jsstring) : Prop :=
  match rest with
  | [] => True
  | c :: _ => Chr.isDigit c = false /\ Ascii.eqb c L = false
  end.

(** what the tokenizer guarantees of a token *)
Definition lexemeOk (kv : Tokenizer.TokenType * jsstring) : bool :=
  match fst kv with
  | Tokenizer.EXTENDED_COMMAND => noPercent (snd kv)
  | Tokenizer.COMMAND => noStar (snd kv) && startsCommand (snd kv)
  | _ => true
  end.

(** parse, serialize, parse again *)
Definition roundTrip (source : jsstring) : result GerberFile.GerberFile :=
  file ← GerberFile.parse source;
  GerberFile.parse (GerberFile.getString file).

Definition isOperation (node : GerberNode) : bool :=
  match node with
  | Operation _ _ => true
  | _ => false
  end.




(** the text of a token in a source: a block between its markers, a
    command with its star *)
Definition tokenText (kv : Tokenizer.TokenType * jsstring) : jsstring :=
  match fst kv with
  | Tokenizer.EXTENDED_COMMAND => "%" :: snd kv ++ ["%"]
  | Tokenizer.COMMAND => snd kv ++ ["*"]
  | _ => []
  end.

(** a token that holds a command or a block *)
Definition isBody (kv : Tokenizer.TokenType * jsstring) : bool :=
  match fst kv with
  | Tokenizer.EXTENDED_COMMAND | Tokenizer.COMMAND => true
  | _ => false
  end.

(** The source [s] spells the tokens [l]: it is their texts in order,
    with nothing but white space before and after each, a block holding
    no percent sign and a command no star; at its end, a block may lack
    its closing marker, and a command without a star has one more
    character than its token.  A source spells one list of tokens
    only. *)
Inductive spelled : jsstring -> list (Tokenizer.TokenType * jsstring) -> Prop :=
| spelled_end (bl : jsstring) :
    forallb Chr.isBlank bl = true -> spelled bl []
| spelled_token (bl : jsstring) (kv : Tokenizer.TokenType * jsstring)
    (rest : jsstring) (l : list (Tokenizer.TokenType * jsstring)) :
    forallb Chr.isBlank bl = true ->
    isBody kv = true -> lexemeOk kv = true ->
    spelled rest l ->
    spelled (bl ++ tokenText kv ++ rest) (kv :: l)
| spelled_open_block (bl v : jsstring) :
    forallb Chr.isBlank bl = true -> noPercent v = true ->
    spelled (bl ++ "%" :: v) [(Tokenizer.EXTENDED_COMMAND, v)]
| spelled_open_command (bl w : jsstring) (c : ascii) :
    forallb Chr.isBlank bl = true ->
    noStar (w ++ [c]) = true -> startsCommand (w ++ [c]) = true ->
    spelled (bl ++ w ++ [c]) [(Tokenizer.COMMAND, w)].

(** the commands that only set the interpolation mode, the polarity or
    the unit of the renderer *)
Definition isModeCommand (cmd : GerberNode) : bool :=
  match cmd with
  | SetInterpolationMode _ | LoadPolarity _ | UnitMode _ => true
  | _ => false
  end.

(** an operation without its arc offsets *)
Definition withoutOffsets (cmd : GerberNode) : GerberNode :=
  match cmd with
  | Operation d c =>
      Operation d {| cx := cx c; cy := cy c; ci := None; cj := None |}
  | _ => cmd
  end.

(** two renderers that differ at most in the interpolation mode, the
    polarity and the unit *)
Definition sameDrawing (r r' : GerberToSvg) : Prop :=
  paths r = paths r' /\ flashes r = flashes r'
  /\ regions r = regions r' /\ regionPath r = regionPath r'
  /\ bounds r = bounds r' /\ apertures r = apertures r'
  /\ options r = options r'
  /\ x (state r) = x (state r') /\ y (state r) = y (state r')
  /\ aperture (state r) = aperture (state r')
  /\ regionMode (state r) = regionMode (state r')
  /\ formatSpec (state r) = formatSpec (state r').

Definition isPathZ (c : PathCommand) : bool :=
  match c with
  | PathZ => true
  | _ => false
  end.

Definition isPathL (c : PathCommand) : bool :=
  match c with
  | PathL _ _ => true
  | _ => false
  end.

(** a region path under construction: empty, or a move followed by
    moves and lines with at least one line *)
Definition openRegion (p : list PathCommand) : bool :=
  match p with
  | [] => true
  | PathM _ _ :: rest =>
      forallb (fun c => negb (isPathZ c)) rest && existsb isPathL rest
  | _ => false
  end.

(** a region as [RegionEnd] stores it: a non-empty path under
    construction, then the closing command *)
Definition closedRegion (p : list PathCommand) : bool :=
  match rev p with
  | PathZ :: q =>
      match q with
      | [] => false
      | _ => openRegion (rev q)
      end
  | _ => false
  end.

(** a bounding box whose four bounds are [NaN] *)
Definition nanBounds : Bounds :=
  {| minX := XNaN; minY := XNaN; maxX := XNaN; maxY := XNaN |}.

(** [a <= b] on the numbers of the renderer; [NaN] compares with
    nothing *)
Definition xle (a b : xnum) : bool :=
  match a, b with
  | XNaN, _ | _, XNaN => false
  | XInf true, _ | _, XInf false => true
  | XFin p, XFin q => Qle_bool p q
  | _, _ => false
  end.

(** the box [b] covers the point [(px, py)], as far as its bounds are
    numbers *)
Definition covers (b : Bounds) (px py : xnum) : Prop :=
  (minX b = XNaN \/ xle (minX b) px = true)
  /\ (maxX b = XNaN \/ xle px (maxX b) = true)
  /\ (minY b = XNaN \/ xle (minY b) py = true)
  /\ (maxY b = XNaN \/ xle py (maxY b) = true).

End Spec.

(** * Properties *)

Import Num Ast Tokenizer Regex Parser.

(** ** Tokenizer: what a token value can hold *)

Section TokenValues.

Lemma removelast_cons_not_in (c : ascii) (x : ascii) (v : jsstring) :
  x <> c -> ~ In c (removelast v) -> ~ In c (removelast (x :: v)).
Proof.
  intros Hx Hv. destruct v as [|y v]; simpl in *; [tauto|].
  intros [H|H]; [congruence|]. apply Hv. exact H.
Qed.

Lemma readCommandLoop_no_star src ln col :
  ~ In "*" (removelast (fst (readCommandLoop src ln col))).
Proof.
  revert ln col. induction src as [|c r IH]; intros ln col; simpl.
  - tauto.
  - destruct (Ascii.eqb_spec c "*") as [->|Hne].
    + simpl. tauto.
    + match goal with
      | |- context [readCommandLoop r ?l ?k] =>
          specialize (IH l k); destruct (readCommandLoop r l k) as [v t'']
      end.
      simpl in *. apply removelast_cons_not_in; assumption.
Qed.

Lemma readExtendedLoop_no_percent src ln col :
  ~ In "%" (fst (readExtendedLoop src ln col)).
Proof.
  revert ln col. induction src as [|c r IH]; intros ln col; simpl.
  - tauto.
  - destruct (Ascii.eqb_spec c "%") as [->|Hne].
    + simpl. tauto.
    + match goal with
      | |- context [readExtendedLoop r ?l ?k] =>
          specialize (IH l k); destruct (readExtendedLoop r l k) as [v t'']
      end.
      simpl in *. intros [H|H]; [congruence|tauto].
Qed.

Lemma readCommand_token t :
  type (fst (readCommand t)) = COMMAND
  /\ ~ In "*" (value (fst (readCommand t))).
Proof.
  unfold readCommand.
  pose proof (readCommandLoop_no_star (rest t) (cur_line t) (cur_column t)).
  destruct (readCommandLoop (rest t) (cur_line t) (cur_column t)).
  simpl in *. split; [reflexivity|assumption].
Qed.

Lemma readExtendedCommand_token t :
  type (fst (readExtendedCommand t)) = EXTENDED_COMMAND
  /\ ~ In "%" (value (fst (readExtendedCommand t))).
Proof.
  unfold readExtendedCommand.
  match goal with
  | |- context [readExtendedLoop ?s ?l ?k] =>
      pose proof (readExtendedLoop_no_percent s l k);
      destruct (readExtendedLoop s l k)
  end.
  simpl in *. split; [reflexivity|assumption].
Qed.

(** Every token is an end marker with an empty value, a command read by
    [readCommand] or an extended block read by [readExtendedCommand]. *)
Lemma tokenizeLoop_tokens fuel t tok :
  In tok (tokenizeLoop fuel t) ->
  (type tok = EOF /\ value tok = [])
  \/ (type tok = COMMAND /\ ~ In "*" (value tok))
  \/ (type tok = EXTENDED_COMMAND /\ ~ In "%" (value tok)).
Proof.
  revert t. induction fuel as [|fuel IH]; intros t; simpl.
  - intros [<-|[]]. left. split; reflexivity.
  - destruct (isAtEnd t).
    { intros [<-|[]]. left. split; reflexivity. }
    destruct (isAtEnd (skipWhitespaceAndNewlines t)).
    { intros [<-|[]]. left. split; reflexivity. }
    set (t1 := skipWhitespaceAndNewlines t).
    destruct (charIs (peek t1) "%").
    + pose proof (readExtendedCommand_token t1) as Hc.
      destruct (readExtendedCommand t1) as [tk t2]. simpl in Hc.
      intros [<-|Hin]; [right; right; exact Hc | eapply IH; exact Hin].
    + pose proof (readCommand_token t1) as Hc.
      destruct (readCommand t1) as [tk t2]. simpl in Hc.
      intros [<-|Hin]; [right; left; exact Hc | eapply IH; exact Hin].
Qed.

End TokenValues.

(** C9. For every input string, every token of type COMMAND that the
    tokenizer produces has a value without any star: [readCommand] stops
    at the first star and strips it before the token is emitted. *)
Theorem command_token_has_no_star (source : jsstring) (tok : Token) :
  In tok (tokenize source) ->
  type tok = COMMAND ->
  ~ In "*" (value tok).
Proof.
  intros Hin Hty. unfold tokenize in Hin.
  apply tokenizeLoop_tokens in Hin.
  destruct Hin as [[H _]|[[_ H]|[H _]]]; [congruence|exact H|congruence].
Qed.

Lemma command_token_has_no_star_witness :
  ~ In "*" (str "X1000Y2000D01").
Proof.
  apply (command_token_has_no_star (str "D10* X1000Y2000D01*")
           {| type := COMMAND; value := str "X1000Y2000D01";
              line := 1; column := 6 |}).
  - vm_compute. right. left. reflexivity.
  - reflexivity.
Defined.

(** ** Tokenizer: a command that the input leaves unterminated *)

(** When the input ends before any star, [readCommand] still removes the
    last character it read. *)
Lemma readCommandLoop_unterminated src ln col :
  ~ In "*" src -> fst (readCommandLoop src ln col) = src.
Proof.
  revert ln col. induction src as [|c r IH]; intros ln col Hns; simpl.
  - reflexivity.
  - destruct (Ascii.eqb_spec c "*") as [->|Hne].
    + exfalso. apply Hns. left. reflexivity.
    + match goal with
      | |- context [readCommandLoop r ?l ?k] =>
          specialize (IH l k); destruct (readCommandLoop r l k) as [v t'']
      end.
      simpl in *. rewrite IH; [reflexivity|].
      intros H. apply Hns. right. exact H.
Qed.

Lemma readCommand_unterminated t :
  ~ In "*" (rest t) ->
  value (fst (readCommand t)) = removelast (rest t).
Proof.
  intros Hns. unfold readCommand.
  pose proof (readCommandLoop_unterminated (rest t) (cur_line t)
                (cur_column t) Hns) as H.
  destruct (readCommandLoop (rest t) (cur_line t) (cur_column t)).
  simpl in *. unfold Str.dropLast. rewrite H. reflexivity.
Qed.

(** C6. On the input [M02], which ends inside a command without a star,
    the COMMAND token holds [M0]: the last character read is stripped
    although it is no star.  With the star present the value is [M02]. *)
Theorem unterminated_command_loses_last_character :
  tokenize (str "M02")
  = [ {| type := COMMAND; value := str "M0"; line := 1; column := 1 |};
      {| type := EOF; value := []; line := 1; column := 4 |} ]
  /\ tokenize (str "M02*")
     = [ {| type := COMMAND; value := str "M02"; line := 1; column := 1 |};
         {| type := EOF; value := []; line := 1; column := 5 |} ].
Proof. split; reflexivity. Qed.

(** ** The constructor of [SelectAperture] *)

Lemma geb_not_ltb a b : geb a b = true -> ltb a b = false.
Proof.
  unfold geb. intros H. apply negb_true_iff.
  destruct a, b; try discriminate H; exact H.
Qed.

Lemma new_SelectAperture_ok code :
  geb code ten = true -> new_SelectAperture code = Ok (SelectAperture code).
Proof.
  intros H. unfold new_SelectAperture. rewrite (geb_not_ltb _ _ H).
  reflexivity.
Qed.

(** ** The parser never throws *)

Section ParserTotal.

Lemma parseCommand_total value :
  exists node, parseCommand value = Ok node.
Proof.
  unfold parseCommand.
  repeat match goal with
         | |- context [if ?b then _ else _] => destruct b
         end; eauto.
  all: destruct (apertureMatch value) as [codeStr|]; eauto.
  all: try solve [repeat match goal with
                         | |- context [if ?b then _ else _] => destruct b
                         end; eauto].
  all: destruct (geb (parseInt codeStr) ten) eqn:Hge.
  all: try solve [repeat match goal with
                         | |- context [if ?b then _ else _] => destruct b
                         end; eauto].
  all: exists (SelectAperture (parseInt codeStr)).
  all: apply new_SelectAperture_ok; exact Hge.
Qed.

Lemma parseToken_total token :
  exists node, parseToken token = Ok node.
Proof.
  unfold parseToken. destruct (type token); eauto.
  destruct (parseCommand_total (value token)) as [n ->]. simpl. eauto.
Qed.

Lemma parseLoop_total tokens :
  exists nodes, parseLoop tokens = Ok nodes.
Proof.
  induction tokens as [|token tokens [nodes IH]]; simpl; [eauto|].
  destruct (parseToken_total token) as [n Hn].
  rewrite Hn, IH. simpl. destruct (type token); eauto.
Qed.

Lemma parseGerber_total source :
  exists nodes, parseGerber source = Ok nodes.
Proof. apply parseLoop_total. Qed.

End ParserTotal.

(** ** The single-node parse *)

(** C7. [GerberNode.parse] throws exactly when its input yields no node
    or more than one node; when the input yields exactly one node it
    returns that node. *)
Theorem GerberNode_parse_single (source : jsstring) :
  exists nodes,
    parseGerber source = Ok nodes
    /\ ((exists message, GerberFile.GerberNode_parse source = Throw message)
        <-> (length nodes = 0 \/ length nodes > 1))
    /\ (forall node, nodes = [node] ->
                     GerberFile.GerberNode_parse source = Ok node).
Proof.
  destruct (parseGerber_total source) as [nodes Hn].
  exists nodes. unfold GerberFile.GerberNode_parse. rewrite Hn. simpl.
  split; [reflexivity|]. split.
  - destruct nodes as [|n [|n' ns]]; simpl.
    + split; [intros _; left; reflexivity | intros _; eauto].
    + split; [intros [m Hm]; discriminate | intros [H|H]; [discriminate|lia]].
    + split; [intros _; right; lia | intros _; eauto].
  - intros node ->. reflexivity.
Qed.

(** ** D-codes four to nine *)

(** C10. For every digit [n] from four to nine, the command token [D<n>]
    is parsed to an [UnknownCommand] whose raw text is the command text
    followed by a star, both by [parseCommand] on the token value and by
    [parseGerber] on the source [D<n>*]. *)
Theorem D4_to_D9_unknown (n : Z) :
  (4 <= n <= 9)%Z ->
  parseCommand ("D" :: intToString n)
  = Ok (UnknownCommand ("D" :: intToString n ++ ["*"]))
  /\ parseGerber ("D" :: intToString n ++ ["*"])
     = Ok [UnknownCommand ("D" :: intToString n ++ ["*"])].
Proof.
  intros Hn.
  assert (n = 4 \/ n = 5 \/ n = 6 \/ n = 7 \/ n = 8 \/ n = 9)%Z
    as [->|[->|[->|[->|[->| ->]]]]] by lia;
    split; vm_compute; reflexivity.
Qed.

Lemma D4_to_D9_unknown_witness :
  parseCommand (str "D5") = Ok (UnknownCommand (str "D5*"))
  /\ parseGerber (str "D5*") = Ok [UnknownCommand (str "D5*")].
Proof. apply (D4_to_D9_unknown 5). lia. Defined.

(** ** Render replay: coordinate conversion *)

Section Replay.
Import Render Spec.

Lemma createFlash_frame r px py :
  state (snd (createFlash r px py)) = state r
  /\ flashes (snd (createFlash r px py)) = flashes r
  /\ regionPath (snd (createFlash r px py)) = regionPath r
  /\ paths (snd (createFlash r px py)) = paths r.
Proof.
  unfold createFlash. destruct (aperture (state r)); [|done].
  repeat match goal with
         | |- context [if ?b then _ else _] => destruct b
         end; done.
Qed.

Lemma createFlash_some r px py ap :
  aperture (state r) = Some ap ->
  exists shape, fst (createFlash r px py) = Some shape.
Proof.
  intros Hap. unfold createFlash. rewrite Hap.
  repeat match goal with
         | |- context [if ?b then _ else _] => destruct b
         end; simpl; eauto.
Qed.

(** What [handleOperation] leaves alone, and the point it stores. *)
Lemma handleOperation_state r dcode c :
  let r' := handleOperation r dcode c in
  (x (state r'), y (state r')) = newPoint r c
  /\ formatSpec (state r') = formatSpec (state r)
  /\ aperture (state r') = aperture (state r)
  /\ regionMode (state r') = regionMode (state r).
Proof.
  unfold handleOperation. destruct (newPoint r c) as [nx ny].
  destruct dcode; simpl.
  - destruct (regionMode (state r)) eqn:Hrm; simpl; rewrite ?Hrm; [done|].
    destruct (aperture (state r)) eqn:Hap; simpl; rewrite ?Hrm, ?Hap; done.
  - destruct (regionMode (state r)) eqn:Hrm; simpl; rewrite ?Hrm; [|done].
    destruct (regionPath r); simpl; rewrite ?Hrm; done.
  - destruct (aperture (state r)) eqn:Hap; simpl; rewrite ?Hap; [|done].
    pose proof (createFlash_frame (updateBounds r nx ny) nx ny)
      as (Hs & _).
    destruct (createFlash (updateBounds r nx ny) nx ny) as [[f|] r''];
      simpl in *; rewrite Hs; simpl; rewrite ?Hap; done.
Qed.

Lemma processCommand_formatSpec r cmd :
  formatSpec (state (processCommand r cmd))
  = mostRecentFormatSpec (formatSpec (state r)) [cmd].
Proof.
  destruct cmd; try reflexivity.
  simpl. apply (handleOperation_state r dcode coords).
Qed.

Lemma replay_formatSpec r cmds :
  formatSpec (state (replay r cmds))
  = mostRecentFormatSpec (formatSpec (state r)) cmds.
Proof.
  revert r. induction cmds as [|cmd cmds IH]; intros r; [reflexivity|].
  unfold replay in *. simpl. rewrite IH, processCommand_formatSpec.
  reflexivity.
Qed.

Lemma pow10_nonzero d : Qeq_bool (Qpower (10 # 1) d) 0 = false.
Proof.
  destruct (Qeq_bool (Qpower (10 # 1) d) 0) eqn:E; [|reflexivity].
  apply Qeq_bool_eq in E. exfalso.
  revert E. apply Qpower_not_0. discriminate.
Qed.

Lemma pow10_positive d : isNegative (Qpower (10 # 1) d) = false.
Proof.
  unfold isNegative. apply andb_false_iff. left.
  destruct (Qle_bool (Qpower (10 # 1) d) 0) eqn:E; [|reflexivity].
  apply Qle_bool_iff in E. exfalso.
  apply (Qlt_not_le 0 (Qpower (10 # 1) d)); [|exact E].
  apply Qpower_0_lt. reflexivity.
Qed.

Lemma xdiv_pow10 a d :
  xdiv a (XFin (Qpower (10 # 1) d))
  = match a with
    | XFin q => XFin (q / Qpower (10 # 1) d)
    | XInf s => XInf s
    | XNaN => XNaN
    end.
Proof.
  destruct a as [|s|q]; cbn [xdiv]; [reflexivity|..].
  - rewrite pow10_positive, xorb_false_r. reflexivity.
  - rewrite pow10_nonzero. reflexivity.
Qed.

Lemma convertCoordinate_value r v :
  convertCoordinate r v = converted (decimalDigits (formatSpec (state r))) v.
Proof.
  unfold convertCoordinate, decimalDigits, pow10, converted.
  destruct (formatSpec (state r)) as [fs|].
  - apply xdiv_pow10.
  - apply (xdiv_pow10 (ofJsnum v) 4).
Qed.

End Replay.

(** ** Render replay: the current point *)

Section CurrentPoint.
Import Render Spec.



(** The primitives that an Operation draws are placed at the point
    [newPoint]: a trace ends there, a flash is centred there. *)
Lemma interpolate_draws_to_newPoint r c ap :
  regionMode (state r) = false ->
  aperture (state r) = Some ap ->
  paths (handleOperation r D01 c)
  = paths r
    ++ [SvgLine (x (state r)) (y (state r))
          (fst (newPoint r c)) (snd (newPoint r c))
          (strokeColor (options r)) (getApertureWidth r)].
Proof.
  intros Hrm Hap. unfold handleOperation.
  destruct (newPoint r c) as [nx ny]. simpl.
  rewrite Hrm, Hap. simpl. unfold getApertureWidth. simpl.
  rewrite Hap. reflexivity.
Qed.

Lemma region_interpolate_extends_to_newPoint r c :
  regionMode (state r) = true ->
  regionPath (handleOperation r D01 c)
  = match regionPath r with
    | [] => [PathM (x (state r)) (y (state r))]
    | p => p
    end ++ [PathL (fst (newPoint r c)) (snd (newPoint r c))].
Proof.
  intros Hrm. unfold handleOperation.
  destruct (newPoint r c) as [nx ny]. simpl.
  rewrite Hrm. reflexivity.
Qed.

End CurrentPoint.



(** ** Render replay: a flash inside a region *)

(** C4, as stated, fails: with aperture 10 selected and the region-mode
    flag set by [G36], the Operation [X500000Y500000D03] appends a
    circle to the flashes accumulator.  ([JDec false 5 5] is the number
    500000, [JDec false 5 (-1)] the diameter 0.5.) *)
Lemma flash_in_region_counterexample :
  let r := Render.replay (Render.new_GerberToSvg Render.defaultOptions)
             [ApertureDefinition ten (str "C") [JDec false 5 (-1)];
              SelectAperture ten; RegionStart] in
  let c := {| cx := Some (JDec false 5 5); cy := Some (JDec false 5 5);
              ci := None; cj := None |} in
  Render.regionMode (Render.state r) = true
  /\ Render.flashes r = []
  /\ Render.flashes (Render.processCommand r (Operation D03 c))
     = [Render.SvgCircle
          (Render.XFin (inject_Z 5 * Qpower (10 # 1) 5 / 10000))
          (Render.XFin (inject_Z 5 * Qpower (10 # 1) 5 / 10000))
          (Render.XFin ((inject_Z 5 * Qpower (10 # 1) (-1)) / 2))
          (str "#000")].
Proof. repeat split. Qed.

Section FlashInRegion.
Import Render Spec.

Lemma createFlash_regionMode b r px py :
  createFlash (withRegionMode b r) px py
  = (fst (createFlash r px py), withRegionMode b (snd (createFlash r px py))).
Proof.
  unfold createFlash. cbn [withRegionMode setState state aperture options].
  destruct (aperture (state r)); [|reflexivity].
  repeat match goal with
         | |- context [if ?c then _ else _] => destruct c
         end; reflexivity.
Qed.

(** The D03 case of [handleOperation] never reads the region-mode flag:
    the renderer after the flash is the one that the same flash leaves
    outside a region, with the flag as it was. *)
Lemma flash_ignores_regionMode r c :
  handleOperation r D03 c
  = withRegionMode (regionMode (state r))
      (handleOperation (withRegionMode false r) D03 c).
Proof.
  unfold handleOperation.
  change (newPoint (withRegionMode false r) c) with (newPoint r c).
  destruct (newPoint r c) as [nx ny].
  change (updateBounds (withRegionMode false r) nx ny)
    with (withRegionMode false (updateBounds r nx ny)).
  rewrite createFlash_regionMode.
  cbn [withRegionMode setState state aperture updateBounds].
  pose proof (createFlash_frame (updateBounds r nx ny) nx ny) as (Hs & _).
  destruct (aperture (state r)) as [ap|] eqn:Hap.
  - destruct (createFlash (updateBounds r nx ny) nx ny)
      as [[f|] r'']; cbn [fst snd] in *;
      cbn [pushFlash withRegionMode setState state aperture
           interpolation regionMode polarity unit formatSpec apertures
           paths flashes regionPath regions bounds options];
      rewrite ?Hs; reflexivity.
  - destruct r as [[] ? ? ? ? ? ? ?]; reflexivity.
Qed.

End FlashInRegion.

(** C4, amended. While the region-mode flag is set, an Operation with
    d-code D03 is handled exactly as outside a region: the renderer that
    it leaves is, but for the flag, the renderer that the same Operation
    leaves when the flag is clear (same flashes, bounds, paths, point,
    apertures and region path).  So it appends exactly one shape to the
    flashes accumulator when an aperture is selected and nothing when
    none is selected; the region path and the region-mode flag are left
    as they were. *)
Theorem flash_in_region (r : Render.GerberToSvg) (c : CoordinateInit) :
  Render.regionMode (Render.state r) = true ->
  let r' := Render.handleOperation r D03 c in
  let outside :=
    Render.handleOperation (Spec.withRegionMode false r) D03 c in
  r' = Spec.withRegionMode true outside
  /\ Render.regionMode (Render.state outside) = false
  /\ match Render.aperture (Render.state r) with
     | Some _ => exists shape, Render.flashes r' = Render.flashes r ++ [shape]
     | None => Render.flashes r' = Render.flashes r
     end
  /\ Render.regionPath r' = Render.regionPath r
  /\ Render.regionMode (Render.state r') = true.
Proof.
  intros Hrm r' outside. subst r' outside.
  split; [rewrite (flash_ignores_regionMode r c), Hrm; reflexivity|].
  split; [apply (handleOperation_state (Spec.withRegionMode false r) D03 c)|].
  unfold Render.handleOperation.
  destruct (Render.newPoint r c) as [nx ny]. simpl.
  destruct (Render.aperture (Render.state r)) as [ap|] eqn:Hap; simpl.
  - pose proof (createFlash_frame (Render.updateBounds r nx ny) nx ny)
      as (Hs & Hf & Hp & _).
    destruct (createFlash_some (Render.updateBounds r nx ny) nx ny ap Hap)
      as [shape Hshape].
    destruct (Render.createFlash (Render.updateBounds r nx ny) nx ny)
      as [f r'']. simpl in *. subst f. simpl.
    rewrite Hf, Hp, Hs. simpl. eauto.
  - done.
Qed.

Lemma flash_in_region_witness :
  let r := Render.replay (Render.new_GerberToSvg Render.defaultOptions)
             [ApertureDefinition ten (str "C") [JDec false 5 (-1)];
              SelectAperture ten; RegionStart] in
  let c := {| cx := Some (JDec false 5 5); cy := Some (JDec false 5 5);
              ci := None; cj := None |} in
  let r' := Render.handleOperation r D03 c in
  let outside :=
    Render.handleOperation (Spec.withRegionMode false r) D03 c in
  r' = Spec.withRegionMode true outside
  /\ Render.regionMode (Render.state outside) = false
  /\ (exists shape, Render.flashes r' = Render.flashes r ++ [shape])
  /\ Render.regionPath r' = Render.regionPath r
  /\ Render.regionMode (Render.state r') = true.
Proof.
  apply (flash_in_region
           (Render.replay (Render.new_GerberToSvg Render.defaultOptions)
              [ApertureDefinition ten (str "C") [JDec false 5 (-1)];
               SelectAperture ten; RegionStart])
           {| cx := Some (JDec false 5 5); cy := Some (JDec false 5 5);
              ci := None; cj := None |}).
  reflexivity.
Defined.

(** ** Tokenizer: the tokens as a function of the unread source *)

Section Lexemes.
Import Spec.

Lemma span_length p s : length (snd (Str.span p s)) <= length s.
Proof.
  induction s as [|c s IH]; simpl; [lia|].
  destruct (p c); [|simpl; lia].
  destruct (Str.span p s). simpl in *. lia.
Qed.

Lemma span_app p s : fst (Str.span p s) ++ snd (Str.span p s) = s.
Proof.
  induction s as [|c s IH]; simpl; [reflexivity|].
  destruct (p c); [|reflexivity].
  destruct (Str.span p s). simpl in *. congruence.
Qed.

Lemma span_fst_all p s : forallb p (fst (Str.span p s)) = true.
Proof.
  induction s as [|c s IH]; simpl; [reflexivity|].
  destruct (p c) eqn:E; [|reflexivity].
  destruct (Str.span p s). simpl in *. rewrite E. exact IH.
Qed.

Lemma span_snd_head p s c r : snd (Str.span p s) = c :: r -> p c = false.
Proof.
  induction s as [|x s IH]; simpl; [discriminate|].
  destruct (p x) eqn:E.
  - destruct (Str.span p s). simpl in *. exact IH.
  - simpl. intros [= <- <-]. exact E.
Qed.

(** [span] stops at the first character that fails the test. *)
Lemma span_stop p a c r :
  forallb p a = true -> p c = false -> Str.span p (a ++ c :: r) = (a, c :: r).
Proof.
  intros Ha Hc. induction a as [|x a IH]; simpl in *.
  - rewrite Hc. reflexivity.
  - apply andb_prop in Ha as [Hx Ha]. rewrite Hx, (IH Ha). reflexivity.
Qed.

Lemma span_all p a : forallb p a = true -> Str.span p a = (a, []).
Proof.
  intros Ha. induction a as [|x a IH]; simpl in *; [reflexivity|].
  apply andb_prop in Ha as [Hx Ha]. rewrite Hx, (IH Ha). reflexivity.
Qed.

Lemma span_cases p s :
  s = fst (Str.span p s) ++ snd (Str.span p s)
  /\ forallb p (fst (Str.span p s)) = true
  /\ match snd (Str.span p s) with
     | [] => True
     | c :: _ => p c = false
     end.
Proof.
  split; [symmetry; apply span_app|]. split; [apply span_fst_all|].
  destruct (snd (Str.span p s)) eqn:E; [exact I|].
  eapply span_snd_head. exact E.
Qed.

Lemma notChar_false c x : notChar c x = false -> x = c.
Proof.
  unfold notChar. destruct (Ascii.eqb_spec x c); [auto|discriminate].
Qed.

Lemma skipLoop_rest src ln col :
  rest (skipLoop src ln col) = snd (Str.span Chr.isBlank src).
Proof.
  revert ln col. induction src as [|c r IH]; intros ln col; simpl.
  - reflexivity.
  - destruct (Chr.isBlank c); [|reflexivity].
    rewrite IH. destruct (Str.span Chr.isBlank r). reflexivity.
Qed.

Lemma readExtendedLoop_pure src ln col :
  fst (readExtendedLoop src ln col) = fst (Str.span (notChar "%") src)
  /\ rest (snd (readExtendedLoop src ln col))
     = tl (snd (Str.span (notChar "%") src)).
Proof.
  revert ln col. induction src as [|c r IH]; intros ln col; simpl.
  - done.
  - unfold notChar at 1 3. destruct (Ascii.eqb_spec c "%") as [->|Hne]; simpl.
    + done.
    + match goal with
      | |- context [readExtendedLoop r ?l ?k] =>
          specialize (IH l k); destruct (readExtendedLoop r l k)
      end.
      destruct (Str.span (notChar "%") r). simpl in *.
      destruct IH as [-> ->]. done.
Qed.

Lemma readCommandLoop_pure src ln col :
  fst (readCommandLoop src ln col)
  = fst (Str.span (notChar "*") src)
    ++ firstn 1 (snd (Str.span (notChar "*") src))
  /\ rest (snd (readCommandLoop src ln col))
     = tl (snd (Str.span (notChar "*") src)).
Proof.
  revert ln col. induction src as [|c r IH]; intros ln col; simpl.
  - done.
  - unfold notChar at 1 3 5. destruct (Ascii.eqb_spec c "*") as [->|Hne]; simpl.
    + done.
    + match goal with
      | |- context [readCommandLoop r ?l ?k] =>
          specialize (IH l k); destruct (readCommandLoop r l k)
      end.
      destruct (Str.span (notChar "*") r). simpl in *.
      destruct IH as [-> ->]. done.
Qed.

(** the token and the unread source that one turn of the loop of
    [tokenize] yields on the unread source [w], which starts with a
    character that is not skipped *)
Lemma readExtendedCommand_pure t r :
  rest t = "%" :: r ->
  kindValue (fst (readExtendedCommand t))
  = (EXTENDED_COMMAND, fst (Str.span (notChar "%") r))
  /\ rest (snd (readExtendedCommand t))
     = tl (snd (Str.span (notChar "%") r)).
Proof.
  intros Hr. unfold readExtendedCommand, advance. rewrite Hr. simpl.
  match goal with
  | |- context [readExtendedLoop r ?l ?k] =>
      pose proof (readExtendedLoop_pure r l k) as [H1 H2];
      destruct (readExtendedLoop r l k)
  end.
  simpl in *. unfold kindValue. simpl. rewrite H1, H2. done.
Qed.

Lemma readCommand_pure t :
  kindValue (fst (readCommand t))
  = (COMMAND,
     removelast (fst (Str.span (notChar "*") (rest t))
                 ++ firstn 1 (snd (Str.span (notChar "*") (rest t)))))
  /\ rest (snd (readCommand t))
     = tl (snd (Str.span (notChar "*") (rest t))).
Proof.
  unfold readCommand.
  pose proof (readCommandLoop_pure (rest t) (cur_line t) (cur_column t))
    as [H1 H2].
  destruct (readCommandLoop (rest t) (cur_line t) (cur_column t)).
  simpl in *. unfold kindValue, Str.dropLast. simpl. rewrite H1, H2. done.
Qed.

Lemma tl_length {A} (l : list A) : length (tl l) <= length l.
Proof. destruct l; simpl; lia. Qed.

(** The types and values of the tokens depend neither on the position
    counters nor on the fuel, once the fuel exceeds the length of the
    unread source. *)
Lemma tokenizeLoop_irrelevant f1 : forall f2 t t',
  rest t = rest t' ->
  length (rest t) < f1 -> length (rest t') < f2 ->
  map kindValue (tokenizeLoop f1 t) = map kindValue (tokenizeLoop f2 t').
Proof.
  induction f1 as [|f1 IH]; intros f2 t t' Hr H1 H2; [lia|].
  destruct f2 as [|f2]; [lia|]. rewrite <- Hr in H2.
  cbn [tokenizeLoop]. unfold isAtEnd at 1 3. rewrite <- Hr.
  destruct (rest t) as [|c0 r0] eqn:Hrest; [reflexivity|].
  set (t1 := skipWhitespaceAndNewlines t).
  set (t1' := skipWhitespaceAndNewlines t').
  assert (Ht1 : rest t1 = snd (Str.span Chr.isBlank (c0 :: r0))).
  { unfold t1, skipWhitespaceAndNewlines. rewrite skipLoop_rest, Hrest.
    reflexivity. }
  assert (Ht1' : rest t1' = snd (Str.span Chr.isBlank (c0 :: r0))).
  { unfold t1', skipWhitespaceAndNewlines. rewrite skipLoop_rest, <- Hr.
    reflexivity. }
  pose proof (span_length Chr.isBlank (c0 :: r0)) as Hlen.
  unfold isAtEnd, peek. rewrite Ht1, Ht1'.
  destruct (snd (Str.span Chr.isBlank (c0 :: r0))) as [|c r] eqn:Hsk;
    [reflexivity|].
  cbn [hd_error charIs].
  assert (Hcr : length (c :: r) <= f1 /\ length (c :: r) <= f2)
    by (cbn [length] in *; lia).
  clearbody t1 t1'. clear Hsk Hlen Hrest Hr H1 H2.
  destruct (Ascii.eqb_spec c "%") as [->|Hne].
  - pose proof (readExtendedCommand_pure t1 r Ht1) as [Ha Hb].
    pose proof (readExtendedCommand_pure t1' r Ht1') as [Ha' Hb'].
    destruct (readExtendedCommand t1) as [tk t2].
    destruct (readExtendedCommand t1') as [tk' t2'].
    cbn [fst snd map] in *. rewrite Ha, Ha'. f_equal.
    pose proof (tl_length (snd (Str.span (notChar "%") r))).
    pose proof (span_length (notChar "%") r).
    cbn [length] in Hcr.
    apply IH; [congruence| rewrite Hb; lia | rewrite Hb'; lia].
  - pose proof (readCommand_pure t1) as [Ha Hb].
    pose proof (readCommand_pure t1') as [Ha' Hb'].
    destruct (readCommand t1) as [tk t2].
    destruct (readCommand t1') as [tk' t2'].
    cbn [fst snd map] in *. rewrite Ha, Ha', Ht1, Ht1'. f_equal.
    assert (Hc : length (tl (snd (Str.span (notChar "*") (c :: r))))
                 < length (c :: r)).
    { cbn [Str.span]. destruct (notChar "*" c); cbn [snd tl length]; [|lia].
      pose proof (span_length (notChar "*") r).
      destruct (Str.span (notChar "*") r) as [a b]. cbn [snd] in *.
      pose proof (tl_length b). lia. }
    rewrite Ht1 in Hb. rewrite Ht1' in Hb'.
    apply IH; [congruence| rewrite Hb; lia | rewrite Hb'; lia].
Qed.

Lemma lexemes_unfold s :
  lexemes s
  = match snd (Str.span Chr.isBlank s) with
    | [] => [(EOF, [])]
    | c :: r =>
        if Ascii.eqb c "%" then
          (EXTENDED_COMMAND, fst (Str.span (notChar "%") r))
          :: lexemes (tl (snd (Str.span (notChar "%") r)))
        else
          (COMMAND,
           removelast (fst (Str.span (notChar "*") (c :: r))
                       ++ firstn 1 (snd (Str.span (notChar "*") (c :: r)))))
          :: lexemes (tl (snd (Str.span (notChar "*") (c :: r))))
    end.
Proof.
  unfold lexemes at 1, tokenize. cbn [tokenizeLoop].
  unfold isAtEnd at 1. cbn [new_Tokenizer rest].
  destruct s as [|c0 r0]; [reflexivity|].
  set (t1 := skipWhitespaceAndNewlines _).
  assert (Ht1 : rest t1 = snd (Str.span Chr.isBlank (c0 :: r0))).
  { unfold t1, skipWhitespaceAndNewlines. rewrite skipLoop_rest.
    reflexivity. }
  pose proof (span_length Chr.isBlank (c0 :: r0)) as Hlen.
  unfold isAtEnd, peek. rewrite Ht1.
  destruct (snd (Str.span Chr.isBlank (c0 :: r0))) as [|c r] eqn:Hsk;
    [reflexivity|].
  cbn [hd_error charIs]. clearbody t1.
  destruct (Ascii.eqb_spec c "%") as [->|Hne].
  - pose proof (readExtendedCommand_pure t1 r Ht1) as [Ha Hb].
    destruct (readExtendedCommand t1) as [tk t2].
    cbn [fst snd map] in *. rewrite Ha. f_equal.
    pose proof (tl_length (snd (Str.span (notChar "%") r))).
    pose proof (span_length (notChar "%") r).
    unfold lexemes, tokenize. cbn [length] in *.
    apply tokenizeLoop_irrelevant;
      [exact Hb | rewrite Hb; lia | cbn [new_Tokenizer rest]; lia].
  - pose proof (readCommand_pure t1) as [Ha Hb].
    destruct (readCommand t1) as [tk t2].
    cbn [fst snd map] in *. rewrite Ha, Ht1. f_equal.
    assert (Hc : length (tl (snd (Str.span (notChar "*") (c :: r))))
                 < length (c :: r)).
    { cbn [Str.span]. destruct (notChar "*" c); cbn [snd tl length]; [|lia].
      pose proof (span_length (notChar "*") r).
      destruct (Str.span (notChar "*") r) as [a b]. cbn [snd] in *.
      pose proof (tl_length b). lia. }
    rewrite Ht1 in Hb. unfold lexemes, tokenize. cbn [length] in *.
    apply tokenizeLoop_irrelevant;
      [exact Hb | rewrite Hb; lia | cbn [new_Tokenizer rest]; lia].
Qed.

Lemma lexemes_nil : lexemes [] = [(EOF, [])].
Proof. reflexivity. Qed.

(** a skipped character before a token *)
Lemma lexemes_blank c s :
  Chr.isBlank c = true -> lexemes (c :: s) = lexemes s.
Proof.
  intros Hc. rewrite (lexemes_unfold (c :: s)), (lexemes_unfold s).
  cbn [Str.span]. rewrite Hc. destruct (Str.span Chr.isBlank s).
  reflexivity.
Qed.

(** a terminated extended block *)
Lemma lexemes_extended v s :
  forallb (notChar "%") v = true ->
  lexemes ("%" :: v ++ "%" :: s) = (EXTENDED_COMMAND, v) :: lexemes s.
Proof.
  intros Hv. rewrite lexemes_unfold. cbn [Str.span Chr.isBlank].
  change (Chr.isBlank "%") with false. cbn [snd]. cbn [Ascii.eqb Bool.eqb].
  rewrite (span_stop (notChar "%") v "%" s Hv eq_refl). reflexivity.
Qed.

(** an extended block that the input leaves unterminated *)
Lemma lexemes_extended_eof v :
  forallb (notChar "%") v = true ->
  lexemes ("%" :: v) = [(EXTENDED_COMMAND, v); (EOF, [])].
Proof.
  intros Hv. rewrite lexemes_unfold. cbn [Str.span Chr.isBlank].
  change (Chr.isBlank "%") with false. cbn [snd]. cbn [Ascii.eqb Bool.eqb].
  rewrite (span_all (notChar "%") v Hv). reflexivity.
Qed.

Lemma startsCommand_span w r :
  startsCommand w = true ->
  snd (Str.span Chr.isBlank (w ++ "*" :: r)) = w ++ "*" :: r.
Proof.
  destruct w as [|c w]; [reflexivity|]. cbn [startsCommand app Str.span].
  intros H. apply andb_prop in H as [H _]. apply negb_true_iff in H.
  rewrite H. reflexivity.
Qed.

(** a terminated command *)
Lemma lexemes_command w s :
  forallb (notChar "*") w = true ->
  startsCommand w = true ->
  lexemes (w ++ "*" :: s) = (COMMAND, w) :: lexemes s.
Proof.
  intros Hw Hs. rewrite lexemes_unfold, (startsCommand_span w s Hs).
  destruct (w ++ "*" :: s) as [|c r] eqn:E; [destruct w; discriminate|].
  assert (Hc : Ascii.eqb c "%" = false).
  { destruct w as [|x w]; cbn [app] in E; injection E as <- <-;
      [reflexivity|].
    cbn [startsCommand] in Hs. apply andb_prop in Hs as [_ Hs].
    unfold notChar in Hs. apply negb_true_iff in Hs. exact Hs. }
  rewrite Hc, <- E, (span_stop (notChar "*") w "*" s Hw eq_refl).
  cbn [fst snd firstn tl]. rewrite removelast_last. reflexivity.
Qed.

(** a command that the input leaves unterminated *)
Lemma lexemes_command_eof c w :
  forallb (notChar "*") (c :: w) = true ->
  startsCommand (c :: w) = true ->
  lexemes (c :: w) = [(COMMAND, removelast (c :: w)); (EOF, [])].
Proof.
  intros Hw Hs. rewrite lexemes_unfold.
  cbn [startsCommand] in Hs. apply andb_prop in Hs as [Hb Hp].
  apply negb_true_iff in Hb.
  assert (Hsp : snd (Str.span Chr.isBlank (c :: w)) = c :: w)
    by (cbn [Str.span]; rewrite Hb; reflexivity).
  rewrite Hsp. unfold notChar in Hp. apply negb_true_iff in Hp. rewrite Hp.
  rewrite (span_all (notChar "*") (c :: w) Hw).
  cbn [fst snd firstn tl]. rewrite app_nil_r. reflexivity.
Qed.

Lemma notChar_forallb c v : forallb (notChar c) v = true <-> ~ In c v.
Proof.
  induction v as [|x v IH]; cbn [forallb In]; [tauto|].
  rewrite andb_true_iff, IH. unfold notChar.
  destruct (Ascii.eqb_spec x c); cbn [negb]; split; intros H.
  - destruct H; discriminate.
  - exfalso. apply H. left. assumption.
  - intros [Hx|Hin]; [congruence|tauto].
  - split; [reflexivity|]. intros Hin. apply H. right. exact Hin.
Qed.

End Lexemes.

(** ** The parser on the types and values of the tokens *)

Section ParseLexemes.
Import Spec.

Lemma parseLoop_kindValue ts :
  parseLoop ts = parseLexemes (map kindValue ts).
Proof.
  unfold parseLexemes. induction ts as [|t ts IH]; [reflexivity|].
  cbn [map parseLoop]. rewrite IH. reflexivity.
Qed.

Lemma parseGerber_lexemes source :
  parseGerber source = parseLexemes (lexemes source).
Proof. apply parseLoop_kindValue. Qed.

Lemma parseLexemes_extended v l :
  parseLexemes ((EXTENDED_COMMAND, v) :: l)
  = (nodes ← parseLexemes l; Ok (parseExtendedCommand v :: nodes)).
Proof. reflexivity. Qed.

Lemma parseLexemes_command w l :
  parseLexemes ((COMMAND, w) :: l)
  = (node ← parseCommand w; nodes ← parseLexemes l; Ok (node :: nodes)).
Proof.
  unfold parseLexemes. cbn [map parseLoop]. unfold parseToken, tokenOf.
  cbn [fst snd type value]. unfold mbind, result_bind.
  destruct (parseCommand w); [|reflexivity].
  destruct (parseLoop (map tokenOf l)); reflexivity.
Qed.

Lemma parseLexemes_eof v l : parseLexemes ((EOF, v) :: l) = Ok [].
Proof. reflexivity. Qed.

Lemma parseLexemes_other ty v l :
  ty = WHITESPACE \/ ty = NEWLINE ->
  parseLexemes ((ty, v) :: l) = parseLexemes l.
Proof.
  unfold parseLexemes. cbn [map parseLoop]. unfold parseToken, tokenOf at 1 2.
  cbn [fst snd type value]. unfold mbind, result_bind.
  intros [-> | ->]; destruct (parseLoop (map tokenOf l)); reflexivity.
Qed.

End ParseLexemes.

(** ** An extended block that the input leaves unterminated *)

Section UnterminatedBlock.
Import Spec.

Lemma scan_blank_span s :
  scan Between s = scan Between (snd (Str.span Chr.isBlank s)).
Proof.
  induction s as [|c s IH]; [reflexivity|]. cbn [scan Str.span].
  destruct (Chr.isBlank c) eqn:Hc.
  - rewrite IH. destruct (Str.span Chr.isBlank s). reflexivity.
  - cbn [snd scan]. rewrite Hc. reflexivity.
Qed.

Lemma scan_extended_all v :
  forallb (notChar "%") v = true -> scan InExtended v = InExtended.
Proof.
  induction v as [|c v IH]; [reflexivity|]. cbn [forallb scan].
  intros H. apply andb_prop in H as [Hc Hv].
  unfold notChar in Hc. apply negb_true_iff in Hc. rewrite Hc. auto.
Qed.

Lemma scan_extended_stop v r :
  forallb (notChar "%") v = true ->
  scan InExtended (v ++ "%" :: r) = scan Between r.
Proof.
  induction v as [|c v IH]; [reflexivity|]. cbn [forallb scan app].
  intros H. apply andb_prop in H as [Hc Hv].
  unfold notChar in Hc. apply negb_true_iff in Hc. rewrite Hc. auto.
Qed.

Lemma scan_command_all w :
  forallb (notChar "*") w = true -> scan InCommand w = InCommand.
Proof.
  induction w as [|c w IH]; [reflexivity|]. cbn [forallb scan].
  intros H. apply andb_prop in H as [Hc Hw].
  unfold notChar in Hc. apply negb_true_iff in Hc. rewrite Hc. auto.
Qed.

Lemma scan_command_stop w r :
  forallb (notChar "*") w = true ->
  scan InCommand (w ++ "*" :: r) = scan Between r.
Proof.
  induction w as [|c w IH]; [reflexivity|]. cbn [forallb scan app].
  intros H. apply andb_prop in H as [Hc Hw].
  unfold notChar in Hc. apply negb_true_iff in Hc. rewrite Hc. auto.
Qed.

(** the parse of tokens that are followed by further tokens *)
Lemma parseLexemes_app pre :
  Forall (fun kv => fst kv <> EOF) pre ->
  exists nodes,
    parseLexemes pre = Ok nodes
    /\ forall l nodes', parseLexemes l = Ok nodes' ->
                        parseLexemes (pre ++ l) = Ok (nodes ++ nodes').
Proof.
  induction 1 as [|[ty v] pre Hty _ (nodes & Hn & IH)].
  - exists []. split; [reflexivity|]. intros l nodes' H. exact H.
  - cbn [fst] in Hty. destruct ty; try congruence.
    + exists (parseExtendedCommand v :: nodes).
      rewrite parseLexemes_extended, Hn. split; [reflexivity|].
      intros l nodes' Hl. cbn [app].
      rewrite parseLexemes_extended, (IH l nodes' Hl). reflexivity.
    + destruct (parseCommand_total v) as [n Hv].
      exists (n :: nodes).
      rewrite parseLexemes_command, Hv, Hn. split; [reflexivity|].
      intros l nodes' Hl. cbn [app].
      rewrite parseLexemes_command, Hv, (IH l nodes' Hl). reflexivity.
    + exists nodes. rewrite parseLexemes_other by auto.
      split; [exact Hn|]. intros l nodes' Hl. cbn [app].
      rewrite parseLexemes_other by auto. exact (IH l nodes' Hl).
    + exists nodes. rewrite parseLexemes_other by auto.
      split; [exact Hn|]. intros l nodes' Hl. cbn [app].
      rewrite parseLexemes_other by auto. exact (IH l nodes' Hl).
Qed.

Lemma scan_lexemes n : forall s,
  length s <= n ->
  scan Between s = InExtended ->
  exists pre before v,
    lexemes s = pre ++ [(EXTENDED_COMMAND, v); (EOF, [])]
    /\ Forall (fun kv => fst kv <> EOF) pre
    /\ s = before ++ "%" :: v
    /\ forallb (notChar "%") v = true.
Proof.
  induction n as [|n IH]; intros s Hlen Hscan.
  { destruct s; [discriminate|cbn [length] in Hlen; lia]. }
  rewrite scan_blank_span in Hscan. rewrite lexemes_unfold.
  destruct (span_cases Chr.isBlank s) as (Happ & _ & Hb).
  destruct (Str.span Chr.isBlank s) as [bl s1]. cbn [fst snd] in *.
  destruct s1 as [|c r]; [discriminate|].
  assert (Hlr : length r <= n).
  { rewrite Happ, length_app in Hlen. cbn [length] in Hlen. lia. }
  cbn [scan] in Hscan. rewrite Hb in Hscan.
  destruct (Ascii.eqb_spec c "%") as [->|Hne].
  - destruct (span_cases (notChar "%") r) as (Hr & Hv & Hc).
    destruct (Str.span (notChar "%") r) as [v b]. cbn [fst snd] in *.
    destruct b as [|c' r'].
    + exists [], bl, v. rewrite app_nil_r in Hr. cbn [tl].
      rewrite lexemes_nil. subst r.
      repeat split; [constructor|exact Happ|exact Hv].
    + apply notChar_false in Hc. subst c'. cbn [tl].
      rewrite Hr, (scan_extended_stop v r' Hv) in Hscan.
      destruct (IH r') as (pre & before & v' & Hlex & Hpre & Hs & Hv');
        [rewrite Hr, length_app in Hlr; cbn [length] in Hlr; lia
        |exact Hscan|].
      exists ((EXTENDED_COMMAND, v) :: pre),
        (bl ++ "%" :: v ++ "%" :: before), v'.
      rewrite Hlex. repeat split.
      * constructor; [discriminate|exact Hpre].
      * rewrite Happ, Hr, Hs, <- !app_assoc. cbn [app].
        rewrite <- app_assoc. reflexivity.
      * exact Hv'.
  - destruct (span_cases (notChar "*") (c :: r)) as (Hr & Hw & Hc).
    destruct (Str.span (notChar "*") (c :: r)) as [w b]. cbn [fst snd] in *.
    destruct b as [|c' r'].
    + exfalso. rewrite app_nil_r in Hr.
      rewrite <- Hr in Hw. cbn [forallb] in Hw.
      apply andb_prop in Hw as [Hc0 Hw].
      unfold notChar in Hc0. apply negb_true_iff in Hc0.
      rewrite Hc0, (scan_command_all r Hw) in Hscan. discriminate.
    + apply notChar_false in Hc. subst c'. cbn [tl firstn].
      assert (Hscan' : scan Between r' = InExtended).
      { destruct w as [|x w'].
        - cbn [app] in Hr. injection Hr as -> ->. exact Hscan.
        - cbn [app] in Hr. injection Hr as <- ->.
          cbn [forallb] in Hw. apply andb_prop in Hw as [Hc0 Hw].
          unfold notChar in Hc0. apply negb_true_iff in Hc0.
          rewrite Hc0, (scan_command_stop w' r' Hw) in Hscan.
          exact Hscan. }
      destruct (IH r') as (pre & before & v' & Hlex & Hpre & Hs & Hv').
      { assert (length (c :: r) = length (w ++ "*" :: r')) by congruence.
        rewrite length_app in H. cbn [length] in H. lia. }
      { exact Hscan'. }
      exists ((COMMAND, removelast (w ++ ["*"])) :: pre),
        (bl ++ w ++ "*" :: before), v'.
      rewrite Hlex. repeat split.
      * constructor; [discriminate|exact Hpre].
      * rewrite Happ, Hr, Hs, <- !app_assoc. reflexivity.
      * exact Hv'.
Qed.

Lemma parseExtendedCommand_unknown v :
  isUnknown (parseExtendedCommand v) = negb (hasExtendedPrefix v)
  /\ (hasExtendedPrefix v = false ->
      parseExtendedCommand v = UnknownCommand ("%" :: v ++ ["%"])).
Proof.
  unfold parseExtendedCommand, dispatchExtended, hasExtendedPrefix,
    extendedContent, extendedPrefixes.
  set (content := if Str.endsWith "*" v then Str.dropLast v else v).
  cbn [existsb].
  repeat match goal with
         | |- context [if Str.startsWith ?p content then _ else _] =>
             destruct (Str.startsWith p content)
         end; cbn [orb negb]; try (split; [reflexivity|discriminate]).
  all: try (split; [reflexivity|reflexivity]).
  - unfold parseApertureDefinition.
    destruct (apertureDefinitionMatch content) as [[[? ?] ?]|];
      split; [reflexivity|discriminate|reflexivity|discriminate].
  - unfold parseApertureMacro. destruct (Str.indexOf "*" content);
      split; [reflexivity|discriminate|reflexivity|discriminate].
  - unfold parseStepRepeat. destruct (Str.sliceFrom 2 content);
      split; [reflexivity|discriminate|reflexivity|discriminate].
  - destruct (Str.startsWith ["."] (Str.sliceFrom 2 content));
      split; [reflexivity|discriminate|reflexivity|discriminate].
Qed.

End UnterminatedBlock.

(** C5, as stated, fails: the input [%MOMM] ends inside an extended
    block that is never closed; the tokenizer emits the accumulated
    [MOMM] as an extended-command token, and the parser turns it into a
    UnitMode node, not into an UnknownCommand. *)
Lemma unterminated_block_counterexample :
  Spec.scan Spec.Between (str "%MOMM") = Spec.InExtended
  /\ tokenize (str "%MOMM")
     = [ {| type := EXTENDED_COMMAND; value := str "MOMM";
            line := 1; column := 1 |};
         {| type := EOF; value := []; line := 1; column := 6 |} ]
  /\ parseGerber (str "%MOMM") = Ok [UnitMode (str "MM")].
Proof. repeat split. Qed.

(** C5, amended. For every input that ends inside an unterminated
    extended block, the tokenizer emits the characters after the opening
    marker as the last token before the end marker, an extended-command
    token; the parser dispatches on it as on a terminated block, so the
    last node is an UnknownCommand, with the raw text [%value%], exactly
    when the value, without its trailing star, starts with none of the
    recognised prefixes. *)
Theorem unterminated_extended_block (source : jsstring) :
  Spec.scan Spec.Between source = Spec.InExtended ->
  exists before v tokens tok eof nodes,
    source = before ++ "%" :: v
    /\ ~ In "%" v
    /\ tokenize source = tokens ++ [tok; eof]
    /\ type tok = EXTENDED_COMMAND /\ value tok = v /\ type eof = EOF
    /\ parseGerber source = Ok (nodes ++ [parseExtendedCommand v])
    /\ Spec.isUnknown (parseExtendedCommand v)
       = negb (Spec.hasExtendedPrefix v)
    /\ (Spec.hasExtendedPrefix v = false ->
        parseExtendedCommand v = UnknownCommand ("%" :: v ++ ["%"])).
Proof.
  intros Hscan.
  destruct (scan_lexemes (length source) source (le_n _) Hscan)
    as (pre & before & v & Hlex & Hpre & Hs & Hv).
  pose proof Hlex as Hlex'. unfold Spec.lexemes in Hlex'.
  apply map_eq_app in Hlex' as (tokens & last2 & Htok & Hm1 & Hm2).
  destruct last2 as [|tok [|eof [|? ?]]]; try discriminate.
  cbn [map] in Hm2. unfold Spec.kindValue in Hm2.
  injection Hm2 as Hty Hval Hety _.
  destruct (parseLexemes_app pre Hpre) as (nodes & _ & Happ).
  exists before, v, tokens, tok, eof, nodes.
  repeat split; try assumption.
  - apply notChar_forallb. exact Hv.
  - rewrite parseGerber_lexemes, Hlex. apply Happ. reflexivity.
  - apply parseExtendedCommand_unknown.
  - apply parseExtendedCommand_unknown.
Qed.

Lemma unterminated_extended_block_witness :
  exists before v tokens tok eof nodes,
    str "G04 x* %XYZ" = before ++ "%" :: v
    /\ ~ In "%" v
    /\ tokenize (str "G04 x* %XYZ") = tokens ++ [tok; eof]
    /\ type tok = EXTENDED_COMMAND /\ value tok = v /\ type eof = EOF
    /\ parseGerber (str "G04 x* %XYZ")
       = Ok (nodes ++ [parseExtendedCommand v])
    /\ Spec.isUnknown (parseExtendedCommand v)
       = negb (Spec.hasExtendedPrefix v)
    /\ (Spec.hasExtendedPrefix v = false ->
        parseExtendedCommand v = UnknownCommand ("%" :: v ++ ["%"])).
Proof.
  apply (unterminated_extended_block (str "G04 x* %XYZ")). reflexivity.
Defined.

(** ** Round trip: from the nodes to the document *)

Section RoundTripAssembly.
Import Spec.

Lemma join_terminated sep (p : jsstring) (ps : list jsstring) :
  Str.join sep (p :: ps) ++ sep
  = concat (map (fun x => x ++ sep) (p :: ps)).
Proof.
  revert p. induction ps as [|q ps IH]; intros p.
  - cbn. rewrite app_nil_r. reflexivity.
  - cbn [Str.join map concat] in *. rewrite <- IH, <- !app_assoc.
    reflexivity.
Qed.

Lemma serialized_parse nodes :
  Forall reparses nodes ->
  parseLexemes
    (lexemes (concat (map (fun s => s ++ ["010"]) (map getString nodes))))
  = Ok nodes.
Proof.
  induction 1 as [|n nodes Hn _ IH]; [reflexivity|].
  cbn [map concat].
  destruct Hn as [(v & Hv & Hs & Hp)|(w & Hw & Hst & Hs & Hp)]; rewrite Hs.
  - cbn [app]. rewrite <- !app_assoc. cbn [app].
    rewrite (lexemes_extended v _ Hv), lexemes_blank by reflexivity.
    rewrite parseLexemes_extended, IH, Hp. reflexivity.
  - rewrite <- !app_assoc. cbn [app].
    rewrite (lexemes_command w _ Hw Hst), lexemes_blank by reflexivity.
    rewrite parseLexemes_command, IH, Hp. reflexivity.
Qed.

(** A document whose nodes all parse back from their serialization
    parses back from its own. *)
Lemma document_reparses nodes :
  Forall reparses nodes ->
  parseGerber (GerberFile.getString {| GerberFile.commands := nodes |})
  = Ok nodes.
Proof.
  intros H. rewrite parseGerber_lexemes. unfold GerberFile.getString.
  cbn [GerberFile.commands].
  destruct nodes as [|n nodes]; [reflexivity|].
  cbn [map]. rewrite join_terminated. apply (serialized_parse (n :: nodes) H).
Qed.

End RoundTripAssembly.

(** ** Printing and reading integers *)

Section Integers.
Import Spec.

Local Abbreviation chars d := (list_ascii_of_string (NilEmpty.string_of_uint d)).

Lemma uint_chars_digits d : forallb Chr.isDigit (chars d) = true.
Proof. induction d; cbn; auto. Qed.

Lemma uint_chars_value_acc d : forall acc,
  fold_left (fun a c => (10 * a + Chr.digitValue c)%N) (chars d) (Npos acc)
  = Npos (Pos.of_uint_acc d acc).
Proof.
  induction d; intros acc; cbn [NilEmpty.string_of_uint list_ascii_of_string
                                 fold_left Pos.of_uint_acc];
    [reflexivity|..];
    match goal with
    | |- context [Chr.digitValue ?c] =>
        let v := eval vm_compute in (Chr.digitValue c) in
        change (Chr.digitValue c) with v
    end;
    match goal with
    | |- fold_left _ _ ?a = N.pos (Pos.of_uint_acc _ ?b) =>
        replace a with (Npos b) by lia
    end; apply IHd.
Qed.

Lemma uint_chars_value d : digitsValue (chars d) = Pos.of_uint d.
Proof.
  unfold digitsValue.
  induction d; cbn [NilEmpty.string_of_uint list_ascii_of_string fold_left
                    Pos.of_uint]; [reflexivity|exact IHd|..];
    match goal with
    | |- fold_left _ _ ?a = N.pos (Pos.of_uint_acc _ ?b) =>
        change a with (Npos b)
    end; apply uint_chars_value_acc.
Qed.

Lemma digitsOfN_chars n :
  digitsOfN n = chars (N.to_uint n) /\ digitsOfN n <> [].
Proof.
  unfold digitsOfN. destruct n as [|p]; [split; [reflexivity|discriminate]|].
  cbn [N.to_uint]. pose proof (Unsigned.to_uint_nonnil p) as Hnn.
  destruct (Pos.to_uint p) eqn:E; [congruence|..];
    (split; [reflexivity|discriminate]).
Qed.

Lemma digitsOfN_digits n : forallb Chr.isDigit (digitsOfN n) = true.
Proof.
  destruct (digitsOfN_chars n) as [-> _]. apply uint_chars_digits.
Qed.

Lemma digitsOfN_value n : digitsValue (digitsOfN n) = n.
Proof.
  destruct (digitsOfN_chars n) as [-> _]. rewrite uint_chars_value.
  apply DecimalN.Unsigned.of_to.
Qed.

Lemma digitsOfN_head n :
  exists c r, digitsOfN n = c :: r /\ Chr.isDigit c = true
              /\ forallb Chr.isDigit r = true.
Proof.
  pose proof (digitsOfN_digits n) as Hd.
  destruct (digitsOfN_chars n) as [_ Hne].
  destruct (digitsOfN n) as [|c r]; [congruence|].
  cbn [forallb] in Hd. apply andb_prop in Hd as [Hc Hr]. eauto.
Qed.

Lemma span_digits ds rest :
  forallb Chr.isDigit ds = true -> stopsDigits rest ->
  Str.span Chr.isDigit (ds ++ rest) = (ds, rest).
Proof.
  intros Hd Hr. destruct rest as [|c r].
  - rewrite app_nil_r. apply span_all. exact Hd.
  - apply span_stop; assumption.
Qed.

Lemma digits1_print n rest :
  stopsDigits rest ->
  digits1 (digitsOfN n ++ rest) = Some (digitsOfN n, rest).
Proof.
  intros Hr. unfold digits1.
  rewrite (span_digits _ _ (digitsOfN_digits n) Hr).
  destruct (digitsOfN_chars n) as [_ Hne].
  destruct (digitsOfN n); [congruence|reflexivity].
Qed.

Lemma signPart_digit c r :
  Chr.isDigit c = true -> signPart (c :: r) = (false, c :: r).
Proof.
  destruct c as [[] [] [] [] [] [] [] []]; intros H;
    try discriminate H; reflexivity.
Qed.

Lemma intLiteral_digits neg n rest :
  stopsDigits rest ->
  match fst (Str.span Chr.isDigit (digitsOfN n ++ rest)) with
  | [] => JNaN
  | ds => mkDec neg ds 0
  end = mkDec neg (digitsOfN n) 0.
Proof.
  intros Hr. rewrite (span_digits _ rest (digitsOfN_digits n) Hr). cbn [fst].
  destruct (digitsOfN_chars n) as [_ Hne].
  destruct (digitsOfN n); [congruence|reflexivity].
Qed.

(** [parseInt] reads what [intToString] prints as the integer, rounded
    to a double. *)
Lemma parseInt_print z rest :
  stopsDigits rest -> parseInt (intToString z ++ rest) = asDouble (intDecimal z).
Proof.
  intros Hr. unfold parseInt, intDecimal. f_equal. unfold intLiteral.
  destruct z as [|p|p]; cbn [intToString Z.ltb Z.compare Z.abs_N Z.to_N].
  - change (digitsOfN 0) with ["0"]. cbn [app signPart].
    change (Ascii.eqb "0" "-") with false. change (Ascii.eqb "0" "+") with false.
    cbn iota. apply (intLiteral_digits false 0 rest Hr).
  - destruct (digitsOfN_head (Npos p)) as (c & r & E & Hc & _).
    pose proof (intLiteral_digits false (Npos p) rest Hr) as H.
    rewrite E in H |- *. cbn [app] in *.
    rewrite (signPart_digit c _ Hc). exact H.
  - cbn [app signPart]. change (Ascii.eqb "-" "-") with true. cbn iota.
    apply (intLiteral_digits true (Npos p) rest Hr).
Qed.

Lemma signedInt_print z rest :
  stopsDigits rest ->
  signedInt (intToString z ++ rest) = Some (intToString z, rest).
Proof.
  intros Hr.
  assert (Hpos : forall n, signedInt (digitsOfN n ++ rest)
                           = Some (digitsOfN n, rest)).
  { intros n. pose proof (digits1_print n rest Hr) as Hd.
    destruct (digitsOfN_head n) as (c & r & E & Hc & _).
    rewrite E in Hd |- *. cbn [app signedInt] in *.
    replace (Chr.isSign c) with false; [exact Hd|].
    destruct c as [[] [] [] [] [] [] [] []]; try discriminate Hc;
      reflexivity. }
  destruct z as [|p|p]; cbn [intToString]; [apply Hpos..|].
  cbn [app signedInt]. change (Chr.isSign "-") with true. cbn iota.
  rewrite (digits1_print (Npos p) rest Hr). reflexivity.
Qed.

Lemma digitZ_print d :
  isDigitZ d = true ->
  exists c, intToString d = [c] /\ Chr.isDigit c = true /\ parseDigit c = d.
Proof.
  unfold isDigitZ. intros H. apply andb_prop in H as [H0 H9].
  apply Z.leb_le in H0, H9.
  assert (d = 0 \/ d = 1 \/ d = 2 \/ d = 3 \/ d = 4 \/ d = 5 \/ d = 6
          \/ d = 7 \/ d = 8 \/ d = 9)%Z
    as [->|[->|[->|[->|[->|[->|[->|[->|[->| ->]]]]]]]]] by lia;
    eexists; repeat split.
Qed.

Lemma intToString_chars z : forallb isIntChar (intToString z) = true.
Proof.
  assert (H : forall n, forallb isIntChar (digitsOfN n) = true).
  { intros n. pose proof (digitsOfN_digits n) as Hd.
    induction (digitsOfN n) as [|c r IH]; [reflexivity|].
    cbn [forallb] in *. apply andb_prop in Hd as [Hc Hr].
    unfold isIntChar at 1. rewrite Hc. cbn [orb andb]. auto. }
  destruct z as [|p|p]; cbn [intToString forallb Z.to_N];
    [apply H|apply H|].
  change (isIntChar "-") with true. cbn [andb]. apply H.
Qed.

Lemma intToString_nonneg z :
  (0 <= z)%Z -> intToString z = digitsOfN (Z.to_N z).
Proof. destruct z; [reflexivity|reflexivity|lia]. Qed.

End Integers.

(** ** Printed numbers *)

Section PrintedNumbers.
Import Spec.

Lemma forallb_weaken {A} (p q : A -> bool) l :
  (forall x, p x = true -> q x = true) ->
  forallb p l = true -> forallb q l = true.
Proof.
  intros Hpq. induction l as [|x l IH]; [reflexivity|]. cbn [forallb].
  intros H. apply andb_prop in H as [Hx Hl].
  rewrite (Hpq x Hx), (IH Hl). reflexivity.
Qed.

Lemma forallb_firstn {A} (p : A -> bool) n l :
  forallb p l = true -> forallb p (firstn n l) = true.
Proof.
  revert l. induction n as [|n IH]; intros [|x l]; cbn; auto.
  intros H. apply andb_prop in H as [Hx Hl]. rewrite Hx. cbn. auto.
Qed.

Lemma forallb_skipn {A} (p : A -> bool) n l :
  forallb p l = true -> forallb p (skipn n l) = true.
Proof.
  revert l. induction n as [|n IH]; intros [|x l]; cbn; auto.
  intros H. apply andb_prop in H as [Hx Hl]. auto.
Qed.

Lemma forallb_repeat {A} (p : A -> bool) x n :
  p x = true -> forallb p (repeat x n) = true.
Proof. intros Hx. induction n; cbn; [reflexivity|]. rewrite Hx. exact IHn. Qed.

Lemma digit_isNumChar c : Chr.isDigit c = true -> isNumChar c = true.
Proof. unfold isNumChar. intros ->. reflexivity. Qed.

Lemma digitsOfN_numChars n : forallb isNumChar (digitsOfN n) = true.
Proof.
  apply (forallb_weaken Chr.isDigit); [apply digit_isNumChar|].
  apply digitsOfN_digits.
Qed.

Lemma formatDigits_chars ds n :
  forallb isNumChar ds = true -> forallb isNumChar (formatDigits ds n) = true.
Proof.
  intros Hd. unfold formatDigits.
  repeat match goal with
         | |- context [if ?b then _ else _] => destruct b
         end;
    rewrite ?forallb_app; cbn [forallb];
    rewrite ?forallb_app; cbn [forallb];
    rewrite ?forallb_firstn, ?forallb_skipn, ?forallb_repeat,
      ?digitsOfN_numChars by (assumption || reflexivity);
    try reflexivity.
  all: destruct ds as [|d [|d' more]]; cbn [forallb] in *;
    rewrite ?forallb_app; cbn [forallb];
    rewrite ?digitsOfN_numChars; try reflexivity.
  all: repeat match goal with
              | H : _ && _ = true |- _ => apply andb_prop in H as [? ?]
              end.
  all: repeat match goal with
              | H : ?x = true |- context [?x] => rewrite H
              end; reflexivity.
Qed.

Lemma toString_chars v : forallb isNumChar (toString v) = true.
Proof.
  destruct v as [|[]| |neg m e]; try reflexivity.
  cbn [toString]. rewrite forallb_app, formatDigits_chars
    by apply digitsOfN_numChars.
  destruct neg; reflexivity.
Qed.

Lemma formatDigits_nonempty ds n : ds <> [] -> formatDigits ds n <> [].
Proof.
  intros Hd. unfold formatDigits.
  repeat match goal with
         | |- context [if ?b then _ else _] => destruct b
         end; try discriminate.
  - destruct ds; [congruence|discriminate].
  - destruct (firstn (Z.to_nat n) ds); discriminate.
  - destruct ds as [|d [|d' more]]; [congruence|discriminate..].
  - destruct ds as [|d [|d' more]]; [congruence|discriminate..].
Qed.

Lemma toString_nonempty v : toString v <> [].
Proof.
  destruct v as [|[]| |neg m e]; try discriminate.
  cbn [toString]. destruct (digitsOfN_chars (Npos m)) as [_ Hne].
  pose proof (formatDigits_nonempty _ (Z.of_nat (length (digitsOfN (N.pos m)))
                                       + e) Hne).
  destruct neg; [discriminate|]. cbn [app]. assumption.
Qed.

(** the characters that a printed number or integer cannot hold *)
Lemma numChar_other c :
  isNumChar c = true ->
  notChar "%" c = true /\ notChar "*" c = true /\ notChar "X" c = true
  /\ notChar "," c = true /\ Chr.isLineTerminator c = false
  /\ notChar "J" c = true /\ notChar "B" c = true.
Proof.
  destruct c as [[] [] [] [] [] [] [] []]; intros H; try discriminate H;
    repeat split.
Qed.

Lemma intChar_other c :
  isIntChar c = true ->
  notChar "%" c = true /\ notChar "*" c = true /\ notChar "X" c = true
  /\ notChar "Y" c = true /\ notChar "I" c = true /\ notChar "J" c = true
  /\ notChar "D" c = true.
Proof.
  destruct c as [[] [] [] [] [] [] [] []]; intros H; try discriminate H;
    repeat split.
Qed.

Lemma toString_noPercent v : noPercent (toString v) = true.
Proof.
  apply (forallb_weaken isNumChar); [|apply toString_chars].
  intros c Hc. apply numChar_other. exact Hc.
Qed.

Lemma intToString_noPercent z : noPercent (intToString z) = true.
Proof.
  apply (forallb_weaken isIntChar); [|apply intToString_chars].
  intros c Hc. apply intChar_other. exact Hc.
Qed.

End PrintedNumbers.

Section PrintedNumberChars.
Import Spec.

Lemma intToString_notChar L z :
  (forall c, isIntChar c = true -> notChar L c = true) ->
  forallb (notChar L) (intToString z) = true.
Proof.
  intros H. apply (forallb_weaken isIntChar _ _ H), intToString_chars.
Qed.

Lemma toString_notChar L v :
  (forall c, isNumChar c = true -> notChar L c = true) ->
  forallb (notChar L) (toString v) = true.
Proof.
  intros H. apply (forallb_weaken isNumChar _ _ H), toString_chars.
Qed.

End PrintedNumberChars.

(** ** Reading back a printed number *)

Section ReadPrinted.
Import Spec.

Local Abbreviation chars d := (list_ascii_of_string (NilEmpty.string_of_uint d)).

Lemma digit_cases c :
  Chr.isDigit c = true ->
  c = "0" \/ c = "1" \/ c = "2" \/ c = "3" \/ c = "4" \/ c = "5" \/ c = "6"
  \/ c = "7" \/ c = "8" \/ c = "9".
Proof.
  destruct c as [[] [] [] [] [] [] [] []]; intros H; try discriminate H;
    repeat ((left; reflexivity) || right); reflexivity.
Qed.

Lemma digits_uint t :
  forallb Chr.isDigit t = true -> exists d, chars d = t.
Proof.
  induction t as [|c t IH]; intros H.
  - exists Decimal.Nil. reflexivity.
  - cbn [forallb] in H. apply andb_prop in H as [Hc Ht].
    destruct (IH Ht) as [d <-].
    destruct (digit_cases c Hc)
      as [->|[->|[->|[->|[->|[->|[->|[->|[->| ->]]]]]]]]].
    + exists (Decimal.D0 d). reflexivity.
    + exists (Decimal.D1 d). reflexivity.
    + exists (Decimal.D2 d). reflexivity.
    + exists (Decimal.D3 d). reflexivity.
    + exists (Decimal.D4 d). reflexivity.
    + exists (Decimal.D5 d). reflexivity.
    + exists (Decimal.D6 d). reflexivity.
    + exists (Decimal.D7 d). reflexivity.
    + exists (Decimal.D8 d). reflexivity.
    + exists (Decimal.D9 d). reflexivity.
Qed.

(** [digitsOfN] prints back a run of digits without a leading zero. *)
Lemma digitsOfN_read c t :
  Chr.isDigit c = true -> isZeroDigit c = false ->
  forallb Chr.isDigit t = true ->
  digitsOfN (digitsValue (c :: t)) = c :: t.
Proof.
  intros Hc H0 Ht.
  destruct (digits_uint (c :: t)) as [d Hd];
    [cbn [forallb]; rewrite Hc; exact Ht|].
  rewrite <- Hd, uint_chars_value. unfold digitsOfN.
  rewrite Unsigned.to_of.
  destruct d; cbn in Hd; try discriminate Hd; injection Hd as <- _;
    try discriminate H0; reflexivity.
Qed.

Lemma nzhead_not_D0 d d' : Decimal.nzhead d <> Decimal.D0 d'.
Proof. induction d; cbn; try discriminate. exact IHd. Qed.

(** The digits of a positive number do not start with a zero. *)
Lemma digitsOfN_pos_head m :
  exists c r, digitsOfN (Npos m) = c :: r /\ Chr.isDigit c = true
              /\ isZeroDigit c = false /\ forallb Chr.isDigit r = true.
Proof.
  destruct (digitsOfN_head (Npos m)) as (c & r & E & Hc & Hr).
  exists c, r. repeat split; try assumption.
  destruct (isZeroDigit c) eqn:Hz; [exfalso|reflexivity].
  apply Ascii.eqb_eq in Hz. subst c.
  destruct (digitsOfN_chars (Npos m)) as [Hch _].
  pose proof (Unsigned.to_of (N.to_uint (Npos m))) as Hto.
  change (Pos.of_uint (N.to_uint (N.pos m)))
    with (N.of_uint (N.to_uint (N.pos m))) in Hto.
  rewrite DecimalN.Unsigned.of_to in Hto.
  rewrite Hch in E.
  destruct (N.to_uint (N.pos m)) as [|d| | | | | | | | |] eqn:Eu;
    cbn in E; try discriminate E.
  rewrite DecimalFacts.unorm_D0 in Hto.
  destruct (Decimal.nzhead d) eqn:En;
    [|symmetry in Hto;
      rewrite DecimalFacts.unorm_nzhead in Hto by congruence;
      exact (nzhead_not_D0 _ _ Hto)..].
  unfold Decimal.unorm in Hto. rewrite En in Hto.
  injection Hto as Hd. subst d.
  pose proof (DecimalN.Unsigned.of_to (Npos m)) as Hof.
  rewrite Eu in Hof. discriminate Hof.
Qed.

Lemma rev_zeros n : rev (repeat "0" n) = repeat "0" n.
Proof.
  induction n as [|n IH]; [reflexivity|].
  cbn [repeat rev]. rewrite IH. symmetry. apply repeat_cons.
Qed.

Lemma zeros_zero n : forallb isZeroDigit (repeat "0" n) = true.
Proof. apply forallb_repeat. reflexivity. Qed.

Lemma zeros_digits n : forallb Chr.isDigit (repeat "0" n) = true.
Proof. apply forallb_repeat. reflexivity. Qed.

(** The last digit of a normal significand. *)
Lemma normalNum_last neg m e :
  normalNum (JDec neg m e) = true ->
  exists x y, rev (digitsOfN (Npos m)) = x :: y /\ isZeroDigit x = false.
Proof.
  cbn [normalNum]. unfold Str.endsWith, isZeroDigit.
  destruct (digitsOfN_chars (Npos m)) as [_ Hne].
  destruct (rev (digitsOfN (Npos m))) as [|x y] eqn:E.
  - apply (f_equal (@rev _)) in E. rewrite rev_involutive in E.
    cbn in E. congruence.
  - intros H. exists x, y. split; [reflexivity|].
    destruct (Ascii.eqb x "0"); [discriminate H|reflexivity].
Qed.

(** [mkDec] on the digits of a normal significand between zeros. *)
Lemma mkDec_digits neg m e0 e a b :
  normalNum (JDec neg m e0) = true ->
  mkDec neg (repeat "0" a ++ digitsOfN (Npos m) ++ repeat "0" b) e
  = JDec neg m (e + Z.of_nat b).
Proof.
  intros Hn. destruct (digitsOfN_pos_head m) as (c & r & E & Hc & Hz & Hr).
  destruct (normalNum_last _ _ _ Hn) as (x & y & Erev & Hx).
  unfold mkDec.
  assert (H1 : Str.span isZeroDigit
                 (repeat "0" a ++ digitsOfN (Npos m) ++ repeat "0" b)
               = (repeat "0" a, digitsOfN (Npos m) ++ repeat "0" b)).
  { rewrite E. cbn [app]. apply span_stop; [apply zeros_zero|exact Hz]. }
  rewrite H1. cbn [snd].
  rewrite rev_app_distr, rev_zeros, Erev.
  rewrite (span_stop isZeroDigit (repeat "0" b) x y (zeros_zero b) Hx).
  rewrite <- Erev, rev_involutive, digitsOfN_value, repeat_length.
  reflexivity.
Qed.


Lemma exponentPart_print ex :
  exponentPart ("e" :: (if (ex <? 0)%Z then "-" else "+")
                    :: digitsOfN (Z.to_N (Z.abs ex))) = ex.
Proof.
  cbn [exponentPart]. change (Ascii.eqb "e" "e" || Ascii.eqb "e" "E") with true.
  cbn iota.
  destruct (Z.ltb_spec ex 0); cbn [signPart];
    [change (Ascii.eqb "-" "-") with true
    |change (Ascii.eqb "+" "-") with false;
     change (Ascii.eqb "+" "+") with true];
    cbn iota;
    rewrite (span_all _ _ (digitsOfN_digits _)); cbn [fst];
    rewrite digitsOfN_value; lia.
Qed.

(** [decimalLiteral] on digits, a dot and digits. *)
Lemma decimalLiteral_dot neg ip fp rest :
  forallb Chr.isDigit ip = true -> forallb Chr.isDigit fp = true ->
  stopsDigits rest -> ip ++ fp <> [] ->
  decimalLiteral neg (ip ++ "." :: fp ++ rest)
  = mkDec neg (ip ++ fp) (exponentPart rest - Z.of_nat (length fp)).
Proof.
  intros Hi Hf Hr Hne. unfold decimalLiteral.
  rewrite (span_stop Chr.isDigit ip "." (fp ++ rest) Hi eq_refl).
  change (Ascii.eqb "." ".") with true. cbn iota.
  rewrite (span_digits fp rest Hf Hr).
  destruct (ip ++ fp); [congruence|reflexivity].
Qed.

(** [decimalLiteral] on digits without a dot. *)
Lemma decimalLiteral_int neg ip rest :
  forallb Chr.isDigit ip = true -> ip <> [] ->
  match rest with
  | [] => True
  | c :: _ => Chr.isDigit c = false /\ Ascii.eqb c "." = false
  end ->
  decimalLiteral neg (ip ++ rest) = mkDec neg ip (exponentPart rest - 0).
Proof.
  intros Hi Hne Hr. unfold decimalLiteral.
  assert (Hsp : Str.span Chr.isDigit (ip ++ rest) = (ip, rest)).
  { apply span_digits; [exact Hi|]. destruct rest; [exact I|apply Hr]. }
  rewrite Hsp.
  assert (Hfp : match rest with
                | c :: r => if Ascii.eqb c "." then Str.span Chr.isDigit r
                            else ([], rest)
                | [] => ([], rest)
                end = ([], rest)).
  { destruct rest as [|c r]; [reflexivity|]. destruct Hr as [_ ->].
    reflexivity. }
  rewrite Hfp, app_nil_r. destruct ip; [congruence|reflexivity].
Qed.

(** The literal that [formatDigits] prints for a normal significand is
    read back as the number. *)
Lemma decimalLiteral_formatDigits neg m e :
  normalNum (JDec neg m e) = true ->
  decimalLiteral neg
    (formatDigits (digitsOfN (Npos m))
       (Z.of_nat (length (digitsOfN (Npos m))) + e))
  = JDec neg m e.
Proof.
  intros Hn. pose proof (digitsOfN_digits (Npos m)) as Hd.
  destruct (digitsOfN_chars (Npos m)) as [_ Hne].
  pose proof (fun a b e' => mkDec_digits neg m e e' a b Hn) as Hmk.
  set (ds := digitsOfN (Npos m)) in *.
  assert (Hmk0 : forall b e', mkDec neg (ds ++ repeat "0" b) e'
                              = JDec neg m (e' + Z.of_nat b))
    by exact (Hmk 0%nat).
  assert (Hmk1 : forall e', mkDec neg ds e' = JDec neg m (e' + 0)).
  { intros e'. pose proof (Hmk0 0%nat e') as H0. cbn [repeat] in H0.
    rewrite app_nil_r in H0. exact H0. }
  set (k := Z.of_nat (length ds)).
  unfold formatDigits. fold k.
  destruct ((k <=? k + e)%Z && (k + e <=? 21)%Z) eqn:HA.
  { (* the digits, then zeros *)
    apply andb_prop in HA as [H1 H2]. apply Z.leb_le in H1, H2.
    rewrite <- (app_nil_r (ds ++ _)).
    rewrite decimalLiteral_int;
      [|rewrite forallb_app, Hd; apply zeros_digits
       |destruct ds; [congruence|discriminate]
       |exact I].
    rewrite Hmk0. cbn [exponentPart]. f_equal. lia. }
  destruct ((0 <? k + e)%Z && (k + e <=? 21)%Z) eqn:HB.
  { (* a dot inside the digits *)
    apply andb_prop in HB as [H1 H2]. rewrite H2, andb_true_r in HA.
    apply Z.ltb_lt in H1. apply Z.leb_le in H2. apply Z.leb_gt in HA.
    rewrite <- (app_nil_r (skipn _ ds)).
    rewrite decimalLiteral_dot;
      [|apply forallb_firstn; exact Hd|apply forallb_skipn; exact Hd
       |exact I|rewrite firstn_skipn; exact Hne].
    rewrite firstn_skipn, Hmk1.
    cbn [exponentPart]. rewrite length_skipn. f_equal. unfold k. lia. }
  destruct ((-6 <? k + e)%Z && (k + e <=? 0)%Z) eqn:HC.
  { (* zeros after the dot, then the digits *)
    apply andb_prop in HC as [H1 H2]. apply Z.ltb_lt in H1.
    apply Z.leb_le in H2.
    rewrite <- (app_nil_r (repeat "0" _ ++ ds)).
    match goal with
    | |- decimalLiteral neg ("0" :: "." :: ?x) = _ =>
        change ("0" :: "." :: x) with (["0"] ++ "." :: x)
    end.
    rewrite (decimalLiteral_dot neg ["0"] (repeat "0" _ ++ ds) []);
      [|reflexivity|rewrite forallb_app, Hd, zeros_digits; reflexivity
       |exact I|discriminate].
    change (["0"] ++ repeat "0" (Z.to_nat (- (k + e))) ++ ds)
      with (repeat "0" (S (Z.to_nat (- (k + e)))) ++ ds).
    rewrite <- (app_nil_r ds) at 1. rewrite (Hmk _ 0%nat).
    cbn [exponentPart]. rewrite length_app, repeat_length. f_equal.
    unfold k. lia. }
  (* exponent notation *)
  assert (Hex : (k + e <= -6 \/ 21 < k + e)%Z).
  { apply andb_false_iff in HB, HC.
    destruct HB as [HB|HB]; [apply Z.ltb_ge in HB|apply Z.leb_gt in HB];
      (destruct HC as [HC|HC]; [apply Z.ltb_ge in HC|apply Z.leb_gt in HC]);
      lia. }
  pose proof (exponentPart_print (k + e - 1)) as Hexp.
  set (exs := (if (k + e - 1 <? 0)%Z then "-" else "+")
              :: digitsOfN (Z.to_N (Z.abs (k + e - 1)))) in *.
  destruct ds as [|d [|d' more]] eqn:Eds; [congruence|..].
  - change (d :: "e" :: exs) with ([d] ++ "e" :: exs).
    rewrite decimalLiteral_int;
      [|exact Hd|discriminate|split; reflexivity].
    rewrite Hexp, Hmk1. f_equal. unfold k. cbn [length]. lia.
  - change (d :: "." :: (d' :: more) ++ "e" :: exs)
      with ([d] ++ "." :: (d' :: more) ++ "e" :: exs).
    cbn [forallb] in Hd. apply andb_prop in Hd as [Hd1 Hd2].
    rewrite decimalLiteral_dot;
      [|cbn [forallb]; rewrite Hd1; reflexivity|exact Hd2|reflexivity
       |discriminate].
    rewrite Hexp. change ([d] ++ d' :: more) with (d :: d' :: more).
    rewrite Hmk1. f_equal. unfold k. cbn [length]. lia.
Qed.


(** What [formatDigits] prints starts with a digit. *)
Lemma formatDigits_head c r n :
  Chr.isDigit c = true ->
  exists c' r', formatDigits (c :: r) n = c' :: r' /\ Chr.isDigit c' = true.
Proof.
  intros Hc. unfold formatDigits.
  destruct ((Z.of_nat (length (c :: r)) <=? n)%Z && (n <=? 21)%Z);
    [exists c; eexists; split; [reflexivity|exact Hc]|].
  destruct ((0 <? n)%Z && (n <=? 21)%Z) eqn:HB.
  { apply andb_prop in HB as [H1 _]. apply Z.ltb_lt in H1.
    destruct (Z.to_nat n) as [|n'] eqn:En; [lia|].
    exists c. eexists. split; [reflexivity|exact Hc]. }
  destruct ((-6 <? n)%Z && (n <=? 0)%Z);
    [exists "0"; eexists; split; reflexivity|].
  destruct r; exists c; eexists; (split; [reflexivity|exact Hc]).
Qed.

Lemma digit_head c :
  Chr.isDigit c = true ->
  Chr.isSpace c = false /\ Chr.isSign c = false
  /\ Ascii.eqb "I" c = false.
Proof.
  intros Hc.
  destruct (digit_cases c Hc)
    as [->|[->|[->|[->|[->|[->|[->|[->|[->| ->]]]]]]]]]; repeat split.
Qed.

(** [floatLiteral] on a sign and a literal that starts with a digit. *)
Lemma floatLiteral_literal (neg : bool) c r :
  Chr.isDigit c = true ->
  floatLiteral ((if neg then ["-"] else []) ++ c :: r)
  = decimalLiteral neg (c :: r).
Proof.
  intros Hc. destruct (digit_head c Hc) as (Hsp & Hsg & HI).
  unfold Chr.isSign in Hsg. apply orb_false_iff in Hsg as [Hplus Hminus].
  unfold floatLiteral. destruct neg; cbn [app Str.span].
  - change (Chr.isSpace "-") with false. cbn [snd signPart].
    change (Ascii.eqb "-" "-") with true. cbn [Str.startsWith list_ascii_of_string].
    rewrite HI. reflexivity.
  - rewrite Hsp. cbn [snd signPart]. rewrite Hplus, Hminus.
    cbn [Str.startsWith list_ascii_of_string]. rewrite HI. reflexivity.
Qed.

(** The literal that [toString] prints of a number in normal form is
    the number, but for the sign of a negative zero. *)
Lemma floatLiteral_toString v :
  normalNum v = true -> isNegZero v = false -> floatLiteral (toString v) = v.
Proof.
  destruct v as [|[]|[]|neg m e]; try reflexivity; [discriminate|].
  intros Hn _. cbn [toString].
  destruct (digitsOfN_pos_head m) as (c & r & E & Hc & _ & _).
  destruct (formatDigits_head c r
              (Z.of_nat (length (digitsOfN (Npos m))) + e) Hc)
    as (c' & r' & Ef & Hc').
  rewrite <- E in Ef.
  rewrite Ef, (floatLiteral_literal neg c' r' Hc'), <- Ef.
  apply decimalLiteral_formatDigits. exact Hn.
Qed.

(** The numbers that [toString] prints without an exponent. *)
Lemma unsignedDecimal_formatDigits m e :
  plainRange (JDec false m e) = true ->
  let s := formatDigits (digitsOfN (Npos m))
             (Z.of_nat (length (digitsOfN (Npos m))) + e) in
  unsignedDecimal s = Some (s, []).
Proof.
  cbn [plainRange]. intros Hp. apply andb_prop in Hp as [H6 H21].
  pose proof (digitsOfN_digits (Npos m)) as Hd.
  destruct (digitsOfN_chars (Npos m)) as [_ Hne].
  set (ds := digitsOfN (Npos m)) in *.
  set (k := Z.of_nat (length ds)) in *.
  cbv zeta. unfold formatDigits. fold k. rewrite H6, H21, !andb_true_r.
  cbn [andb]. apply Z.ltb_lt in H6. apply Z.leb_le in H21.
  destruct (Z.leb_spec k (k + e)) as [HA|HA].
  { unfold unsignedDecimal.
    rewrite span_all by (rewrite forallb_app, Hd; apply zeros_digits).
    destruct ds; [congruence|reflexivity]. }
  destruct (Z.ltb_spec 0 (k + e)) as [HB|HB].
  { unfold unsignedDecimal.
    rewrite (span_stop Chr.isDigit _ "." _ (forallb_firstn _ _ _ Hd) eq_refl).
    change (Ascii.eqb "." ".") with true. cbn iota.
    rewrite (span_all _ _ (forallb_skipn _ (Z.to_nat (k + e)) _ Hd)).
    destruct (skipn (Z.to_nat (k + e)) ds) eqn:Es; [|reflexivity].
    apply (f_equal (@length _)) in Es. rewrite length_skipn in Es.
    cbn [length] in Es. unfold k in *. lia. }
  destruct (Z.leb_spec (k + e) 0) as [HC|HC]; [|lia].
  unfold unsignedDecimal. cbn [Str.span].
  change (Chr.isDigit "0") with true. change (Chr.isDigit ".") with false.
  cbn iota. change (Ascii.eqb "." ".") with true. cbn iota.
  rewrite span_all by (rewrite forallb_app, Hd, zeros_digits; reflexivity).
  destruct (repeat "0" _ ++ ds) eqn:Es; [|reflexivity].
  apply app_eq_nil in Es as [_ Es]. congruence.
Qed.

Lemma decimal_toString v :
  plainRange v = true -> decimal (toString v) = Some (toString v, []).
Proof.
  destruct v as [|[]|[]|neg m e]; try discriminate; try reflexivity.
  intros Hp. cbn [toString].
  pose proof (unsignedDecimal_formatDigits m e Hp) as Hu. cbv zeta in Hu.
  destruct (digitsOfN_pos_head m) as (c & r & E & Hc & _ & _).
  destruct (formatDigits_head c r
              (Z.of_nat (length (digitsOfN (Npos m))) + e) Hc)
    as (c' & r' & Ef & Hc').
  rewrite <- E in Ef. destruct neg; cbn [app decimal].
  - change (Chr.isSign "-") with true. cbn iota. rewrite Hu. reflexivity.
  - rewrite Ef in Hu |- *. cbn [decimal].
    destruct (digit_head c' Hc') as (_ & -> & _). exact Hu.
Qed.

(** [mkDec] builds numbers in normal form. *)
Lemma mkDec_normal neg ds e :
  forallb Chr.isDigit ds = true -> normalNum (mkDec neg ds e) = true.
Proof.
  intros Hd. unfold mkDec.
  destruct (span_cases isZeroDigit ds) as (Hds & _ & Hhead).
  set (ds1 := snd (Str.span isZeroDigit ds)) in *.
  assert (Hd1 : forallb Chr.isDigit ds1 = true).
  { rewrite Hds, forallb_app in Hd. apply andb_prop in Hd as [_ Hd].
    exact Hd. }
  destruct (span_cases isZeroDigit (rev ds1)) as (Hrev & _ & Hlast).
  destruct (Str.span isZeroDigit (rev ds1)) as [zs sd]. cbn [fst snd] in *.
  destruct (digitsValue (rev sd)) as [|m] eqn:Ev; [reflexivity|].
  cbn [normalNum].
  destruct sd as [|x sd']; [discriminate Ev|].
  assert (Hds1 : ds1 = rev (x :: sd') ++ rev zs).
  { rewrite <- rev_app_distr, <- Hrev, rev_involutive. reflexivity. }
  destruct (rev (x :: sd')) as [|c t] eqn:Et.
  { apply (f_equal (@rev _)) in Et. rewrite rev_involutive in Et.
    discriminate Et. }
  rewrite Hds1 in Hhead, Hd1. cbn [app forallb] in Hhead, Hd1.
  apply andb_prop in Hd1 as [Hc Ht]. rewrite forallb_app in Ht.
  apply andb_prop in Ht as [Ht _].
  rewrite <- Ev, (digitsOfN_read c t Hc Hhead Ht).
  unfold Str.endsWith. rewrite <- Et, rev_involutive.
  unfold isZeroDigit in Hlast. rewrite Hlast. reflexivity.
Qed.

Lemma decimalLiteral_normal neg s : normalNum (decimalLiteral neg s) = true.
Proof.
  unfold decimalLiteral.
  pose proof (span_fst_all Chr.isDigit s) as Hip.
  destruct (Str.span Chr.isDigit s) as [ip s2]. cbn [fst] in Hip.
  assert (Hfp : forall fp s3,
            match s2 with
            | c :: r => if Ascii.eqb c "." then Str.span Chr.isDigit r
                        else ([], s2)
            | [] => ([], s2)
            end = (fp, s3) -> forallb Chr.isDigit fp = true).
  { intros fp s3. destruct s2 as [|c r]; [intros [= <- _]; reflexivity|].
    destruct (Ascii.eqb c "."); [|intros [= <- _]; reflexivity].
    intros Hsp. pose proof (span_fst_all Chr.isDigit r) as H.
    rewrite Hsp in H. exact H. }
  destruct (match s2 with [] => _ | _ => _ end) as [fp s3].
  specialize (Hfp fp s3 eq_refl).
  destruct (ip ++ fp) eqn:E; [reflexivity|]. rewrite <- E.
  apply mkDec_normal. rewrite forallb_app, Hip, Hfp. reflexivity.
Qed.

(** [floatLiteral] reads numbers in normal form. *)
Lemma floatLiteral_normal s : normalNum (floatLiteral s) = true.
Proof.
  unfold floatLiteral. destruct (signPart _) as [neg s1].
  destruct (Str.startsWith _ s1); [reflexivity|].
  apply decimalLiteral_normal.
Qed.

End ReadPrinted.
(** ** The double nearest to a number *)

Section Nearest.
Local Open Scope Q_scope.

Lemma twoTo_pos k : 0 < twoTo k.
Proof. apply Qpower_0_lt. reflexivity. Qed.

Lemma tenTo_pos k : 0 < tenTo k.
Proof. apply Qpower_0_lt. reflexivity. Qed.

Lemma twoTo_plus a b : twoTo (a + b) == twoTo a * twoTo b.
Proof. apply Qpower_plus. discriminate. Qed.

Lemma tenTo_plus a b : tenTo (a + b) == tenTo a * tenTo b.
Proof. apply Qpower_plus. discriminate. Qed.

Lemma twoTo_le a b : (a <= b)%Z -> twoTo a <= twoTo b.
Proof. intros H. apply Qpower_le_compat_l; [exact H|discriminate]. Qed.

Lemma twoTo_lt_inv a b : twoTo a < twoTo b -> (a < b)%Z.
Proof. intros H. apply (Qpower_lt_compat_l_inv 2); [exact H|reflexivity]. Qed.

Lemma twoTo_Z k : (0 <= k)%Z -> twoTo k == inject_Z (2 ^ k).
Proof. intros H. symmetry. apply (Zpower_Qpower 2 k H). Qed.

(** [x / 2^e] in terms of [x / 2^(e+k)] *)
Lemma twoTo_shift x e k : x / twoTo e == x / twoTo (e + k) * twoTo k.
Proof.
  rewrite twoTo_plus. field. split; apply Qnot_eq_sym, Qlt_not_eq, twoTo_pos.
Qed.

Lemma ilog2_spec x :
  0 < x -> twoTo (ilog2 x) <= x /\ x < twoTo (ilog2 x + 1).
Proof.
  intros Hx. destruct x as [n d].
  assert (Hn : (0 < n)%Z).
  { unfold Qlt in Hx. cbn in Hx. lia. }
  unfold ilog2. cbn [Qnum Qden].
  set (ln := Z.log2 n). set (ld := Z.log2 (Zpos d)).
  destruct (Z.log2_spec n Hn) as [Hn1 Hn2]. fold ln in Hn1, Hn2.
  destruct (Z.log2_spec (Zpos d) eq_refl) as [Hd1 Hd2]. fold ld in Hd1, Hd2.
  assert (Hln : (0 <= ln)%Z) by apply Z.log2_nonneg.
  assert (Hld : (0 <= ld)%Z) by apply Z.log2_nonneg.
  pose proof (twoTo_Z ln Hln) as Eln.
  pose proof (twoTo_Z (ln + 1) ltac:(lia)) as Eln1.
  pose proof (twoTo_Z ld Hld) as Eld.
  pose proof (twoTo_Z (ld + 1) ltac:(lia)) as Eld1.
  rewrite <- Z.add_1_r in Hn2, Hd2.
  set (x := n # d) in *.
  assert (Ex : x * inject_Z (Zpos d) == inject_Z n).
  { unfold x. rewrite (Qmake_Qdiv n d). field. discriminate. }
  assert (Qn1 : inject_Z (2 ^ ln) <= inject_Z n) by (rewrite <- Zle_Qle; exact Hn1).
  assert (Qn2 : inject_Z n < inject_Z (2 ^ (ln + 1))) by (rewrite <- Zlt_Qlt; exact Hn2).
  assert (Qd1 : inject_Z (2 ^ ld) <= inject_Z (Zpos d)) by (rewrite <- Zle_Qle; exact Hd1).
  assert (Qd2 : inject_Z (Zpos d) < inject_Z (2 ^ (ld + 1))) by (rewrite <- Zlt_Qlt; exact Hd2).
  rewrite <- Eln in Qn1. rewrite <- Eln1 in Qn2.
  rewrite <- Eld in Qd1. rewrite <- Eld1 in Qd2.
  pose proof (twoTo_pos ld) as Pld. pose proof (twoTo_pos (ld + 1)) as Pld1.
  (* the bracket [2^(a-1), 2^(a+1)) *)
  assert (Hup : x < twoTo (ln - ld + 1)).
  { pose proof (twoTo_plus (ln - ld + 1) ld) as E.
    replace (ln - ld + 1 + ld)%Z with (ln + 1)%Z in E by lia.
    pose proof (twoTo_pos (ln - ld + 1)). nra. }
  assert (Hlo : twoTo (ln - ld - 1) <= x).
  { pose proof (twoTo_plus (ln - ld - 1) (ld + 1)) as E.
    replace (ln - ld - 1 + (ld + 1))%Z with ln in E by lia.
    pose proof (twoTo_pos (ln - ld - 1)). nra. }
  destruct (Qle_bool (twoTo (ln - ld)) x) eqn:Hc.
  - apply Qle_bool_iff in Hc. split; assumption.
  - assert (Hlt : x < twoTo (ln - ld)).
    { apply Qnot_le_lt. intros H. apply Qle_bool_iff in H. congruence. }
    replace (ln - ld - 1 + 1)%Z with (ln - ld)%Z by lia. split; assumption.
Qed.


Lemma ilog2_unique x b :
  twoTo b <= x -> x < twoTo (b + 1) -> ilog2 x = b.
Proof.
  intros H1 H2.
  assert (Hx : 0 < x) by (pose proof (twoTo_pos b); lra).
  destruct (ilog2_spec x Hx) as [H3 H4].
  assert (ilog2 x < b + 1)%Z by (apply twoTo_lt_inv; lra).
  assert (b < ilog2 x + 1)%Z by (apply twoTo_lt_inv; lra).
  lia.
Qed.

Lemma Z_lt_half a b : inject_Z a < inject_Z b + 1 -> (a <= b)%Z.
Proof.
  intros H. assert (inject_Z a < inject_Z (b + 1)).
  { rewrite inject_Z_plus. exact H. }
  rewrite <- Zlt_Qlt in H0. lia.
Qed.

Lemma roundHalfEven_cases y :
  roundHalfEven y = Qfloor y \/ roundHalfEven y = (Qfloor y + 1)%Z.
Proof.
  unfold roundHalfEven. destruct (_ ?= _); [destruct (Z.even _)|..]; auto.
Qed.

Lemma roundHalfEven_within y (m : Z) :
  inject_Z m - (1 # 2) < y -> y < inject_Z m + (1 # 2) -> roundHalfEven y = m.
Proof.
  intros H1 H2. unfold roundHalfEven.
  pose proof (Qfloor_le y) as F1. pose proof (Qlt_floor y) as F2.
  rewrite inject_Z_plus in F2.
  assert (Hle : (Qfloor y <= m)%Z) by (apply Z_lt_half; lra).
  assert (Hge : (m <= Qfloor y + 1)%Z).
  { apply Z_lt_half. rewrite inject_Z_plus. lra. }
  assert (Hc : Qfloor y = m \/ m = (Qfloor y + 1)%Z) by lia.
  destruct Hc as [Hc|Hc].
  - rewrite Hc in *.
    destruct (Qcompare_spec (y - inject_Z m) (1 # 2)) as [E|L|G];
      [exfalso; lra|reflexivity|exfalso; lra].
  - subst m. rewrite inject_Z_plus in H1, H2.
    change (inject_Z 1) with 1 in H1, H2.
    destruct (Qcompare_spec (y - inject_Z (Qfloor y)) (1 # 2)) as [E|L|G];
      [exfalso; lra|exfalso; lra|reflexivity].
Qed.

Lemma roundHalfEven_between y (a b : Z) :
  inject_Z a <= y -> y < inject_Z b ->
  (a <= roundHalfEven y <= b)%Z.
Proof.
  intros H1 H2.
  pose proof (Qfloor_resp_le _ _ H1) as F1. rewrite Qfloor_Z in F1.
  pose proof (Qfloor_le y) as F2.
  assert (Qfloor y < b)%Z by (rewrite Zlt_Qlt; lra).
  destruct (roundHalfEven_cases y) as [-> | ->]; lia.
Qed.

Lemma div_twoTo_bounds x b k :
  twoTo b <= x -> x < twoTo (b + 1) -> (0 <= k)%Z ->
  inject_Z (2 ^ k) <= x / twoTo (b - k)
  /\ x / twoTo (b - k) < inject_Z (2 ^ (k + 1)).
Proof.
  intros H1 H2 Hk.
  pose proof (twoTo_pos (b - k)) as P.
  rewrite <- !twoTo_Z by lia.
  pose proof (twoTo_plus k (b - k)) as E1.
  replace (k + (b - k))%Z with b in E1 by lia.
  pose proof (twoTo_plus (k + 1) (b - k)) as E2.
  replace (k + 1 + (b - k))%Z with (b + 1)%Z in E2 by lia.
  split.
  - apply Qle_shift_div_l; [exact P|]. lra.
  - apply Qlt_shift_div_r; [exact P|]. lra.
Qed.

(** [nearest] answers doubles of the format. *)
Lemma nearest_canonical x m e :
  0 < x -> nearest x = B_fin m e -> canonical m e.
Proof.
  intros Hx. unfold nearest.
  destruct (ilog2_spec x Hx) as [L1 L2].
  set (b := ilog2 x) in *.
  set (e0 := Z.max (b - 52) (-1074)).
  set (y := x / twoTo e0).
  assert (Hy : 0 <= y).
  { unfold y. apply Qlt_le_weak, Qlt_shift_div_l; [apply twoTo_pos|]. lra. }
  assert (Hm : (0 <= roundHalfEven y <= 2 ^ 53)%Z
               /\ (e0 = -1074 \/ 2 ^ 52 <= roundHalfEven y)%Z).
  { destruct (Z.max_spec (b - 52) (-1074)) as [[Hlt He]|[Hge He]];
      fold e0 in He.
    - (* a subnormal number *)
      assert (B2 : y < inject_Z (2 ^ 53)).
      { unfold y. rewrite He. apply Qlt_shift_div_r; [apply twoTo_pos|].
        rewrite <- twoTo_Z, <- twoTo_plus by lia.
        apply (Qlt_le_trans _ _ _ L2), twoTo_le. lia. }
      pose proof (roundHalfEven_between y 0 _ Hy B2). lia.
    - (* a normal number *)
      destruct (div_twoTo_bounds x b 52 L1 L2 ltac:(lia)) as [B1 B2].
      rewrite <- He in B1, B2. fold y in B1, B2.
      pose proof (roundHalfEven_between y _ _ B1 B2). cbn in *. lia. }
  destruct Hm as [Hm1 Hm2].
  assert (He0 : (-1074 <= e0)%Z) by (unfold e0; lia).
  destruct (Z.eqb_spec (roundHalfEven y) (2 ^ 53)) as [E53|N53].
  - cbn [Z.eqb]. change (2 ^ 52 =? 0)%Z with false. cbn iota.
    destruct (Z.ltb_spec 971 (e0 + 1)); [discriminate|].
    intros [= <- <-]. unfold canonical. cbn. lia.
  - destruct (Z.eqb_spec (roundHalfEven y) 0); [discriminate|].
    destruct (Z.ltb_spec 971 e0); [discriminate|].
    intros [= <- <-]. unfold canonical. lia.
Qed.


Lemma nearest_result x e0 m :
  Z.max (ilog2 x - 52) (-1074) = e0 ->
  roundHalfEven (x / twoTo e0) = m ->
  (0 < m < 2 ^ 53)%Z -> (e0 <= 971)%Z ->
  nearest x = B_fin m e0.
Proof.
  intros He Hm Hr H971. unfold nearest. rewrite He, Hm.
  destruct (Z.eqb_spec m (2 ^ 53)); [lia|].
  destruct (Z.eqb_spec m 0); [lia|].
  destruct (Z.ltb_spec 971 e0); [lia|reflexivity].
Qed.

(** A number nearer to the double [m * 2^e] than a quarter of the unit
    in its last place is rounded to it. *)
Lemma nearest_within x m e :
  canonical m e ->
  inject_Z m * twoTo e - twoTo (e - 2) < x ->
  x < inject_Z m * twoTo e + twoTo (e - 2) ->
  nearest x = B_fin m e.
Proof.
  intros (Hm & He & Hn) H1 H2.
  pose proof (twoTo_pos e) as P.
  assert (Q4 : twoTo (e - 2) == twoTo e * (1 # 4)).
  { unfold Z.sub. rewrite twoTo_plus. reflexivity. }
  rewrite Q4 in H1, H2.
  assert (Hy : inject_Z m - (1 # 4) < x / twoTo e
               /\ x / twoTo e < inject_Z m + (1 # 4)).
  { split; [apply Qlt_shift_div_l|apply Qlt_shift_div_r];
      try exact P; lra. }
  assert (Hround : roundHalfEven (x / twoTo e) = m).
  { apply roundHalfEven_within; lra. }
  assert (I1 : 1 <= inject_Z m).
  { change 1 with (inject_Z 1). rewrite <- Zle_Qle. lia. }
  assert (I53 : inject_Z m <= 9007199254740991).
  { change (9007199254740991 : Q) with (inject_Z (2 ^ 53 - 1)).
    rewrite <- Zle_Qle. lia. }
  assert (E51 : twoTo (e + 51) == twoTo e * 2251799813685248)
    by (rewrite twoTo_plus; reflexivity).
  assert (E52 : twoTo (e + 52) == twoTo e * 4503599627370496)
    by (rewrite twoTo_plus; reflexivity).
  assert (E53 : twoTo (e + 53) == twoTo e * 9007199254740992)
    by (rewrite twoTo_plus; reflexivity).
  assert (M1 : inject_Z m * twoTo e <= 9007199254740991 * twoTo e)
    by (apply Qmult_le_compat_r; [exact I53|lra]).
  assert (M0 : 1 * twoTo e <= inject_Z m * twoTo e)
    by (apply Qmult_le_compat_r; [exact I1|lra]).
  assert (Hx : 0 < x) by lra.
  assert (Hup : x < twoTo (e + 53)) by lra.
  destruct Hn as [Hn|Hn].
  - destruct (Qlt_le_dec x (twoTo (e + 52))) as [Hlow|Hhigh].
    + (* below the binade: [m = 2^52] *)
      assert (Em : m = (2 ^ 52)%Z).
      { destruct (Z.eq_dec m (2 ^ 52)%Z) as [E|N]; [exact E|exfalso].
        assert (I : 4503599627370497 <= inject_Z m).
        { change (4503599627370497 : Q) with (inject_Z (2 ^ 52 + 1)).
          rewrite <- Zle_Qle. lia. }
        assert (4503599627370497 * twoTo e <= inject_Z m * twoTo e)
          by (apply Qmult_le_compat_r; [exact I|lra]).
        lra. }
      assert (EmQ : inject_Z m == 4503599627370496) by (rewrite Em; reflexivity).
      rewrite EmQ in H1, H2, Hy.
      assert (Hb : ilog2 x = (e + 51)%Z).
      { apply ilog2_unique; [lra|].
        replace (e + 51 + 1)%Z with (e + 52)%Z by lia. exact Hlow. }
      destruct (Z.eq_dec e (-1074)%Z) as [E74|N74].
      * apply nearest_result; [rewrite Hb; lia|exact Hround|lia|lia].
      * unfold nearest. rewrite Hb.
        replace (Z.max (e + 51 - 52) (-1074)) with (e - 1)%Z by lia.
        assert (Hr : roundHalfEven (x / twoTo (e - 1)) = (2 ^ 53)%Z).
        { pose proof (twoTo_shift x (e - 1) 1) as S.
          replace (e - 1 + 1)%Z with e in S by lia.
          change (twoTo 1) with 2 in S.
          assert (x / twoTo e < 4503599627370496)
            by (apply Qlt_shift_div_r; [exact P|lra]).
          apply roundHalfEven_within; rewrite S;
            change (inject_Z (2 ^ 53)) with 9007199254740992; lra. }
        rewrite Hr. rewrite Z.eqb_refl.
        change (2 ^ 52 =? 0)%Z with false. cbn iota.
        replace (e - 1 + 1)%Z with e by lia.
        destruct (Z.ltb_spec 971 e); [lia|]. rewrite Em. reflexivity.
    + apply nearest_result; [|exact Hround|lia|lia].
      rewrite (ilog2_unique x (e + 52) Hhigh);
        [lia|replace (e + 52 + 1)%Z with (e + 53)%Z by lia; exact Hup].
  - (* the exponent is the least one *)
    subst e. apply nearest_result; [|exact Hround|lia|lia].
    destruct (ilog2_spec x Hx) as [L1 _].
    assert (ilog2 x < -1074 + 53)%Z by (apply twoTo_lt_inv; lra).
    lia.
Qed.

End Nearest.

(** ** The decimal that names a double *)

Section Shortest.
Import Spec.

Lemma jsnum_eqb_eq a b : jsnum_eqb a b = true -> a = b.
Proof.
  destruct a as [|x|x|n1 m1 e1], b as [|y|y|n2 m2 e2]; cbn;
    try discriminate; try reflexivity.
  - intros H. apply Bool.eqb_prop in H. congruence.
  - intros H. apply Bool.eqb_prop in H. congruence.
  - intros H. apply andb_prop in H as [H He].
    apply andb_prop in H as [Hn Hm].
    apply Bool.eqb_prop in Hn. apply Pos.eqb_eq in Hm.
    apply Z.eqb_eq in He. congruence.
Qed.

Lemma jsnum_eqb_refl a : jsnum_eqb a a = true.
Proof.
  destruct a as [|x|x|n m e]; cbn; rewrite ?Bool.eqb_reflx; try reflexivity.
  rewrite Pos.eqb_refl, Z.eqb_refl. reflexivity.
Qed.

Lemma binary64_eqb_eq a b : binary64_eqb a b = true -> a = b.
Proof.
  destruct a as [| |m e], b as [| |m' e']; cbn; try discriminate;
    try reflexivity.
  intros H. apply andb_prop in H as [Hm He].
  apply Z.eqb_eq in Hm, He. congruence.
Qed.

Lemma digitsValue_app a b :
  digitsValue (a ++ b)
  = fold_left (fun acc c => (10 * acc + Chr.digitValue c)%N) b (digitsValue a).
Proof. unfold digitsValue. apply fold_left_app. Qed.

Lemma digitsValue_zeros k n :
  fold_left (fun acc c => (10 * acc + Chr.digitValue c)%N) (repeat "0" k) n
  = (n * 10 ^ N.of_nat k)%N.
Proof.
  revert n. induction k as [|k IH]; intros n.
  - cbn. lia.
  - cbn [repeat fold_left]. rewrite IH. change (Chr.digitValue "0") with 0%N.
    rewrite Nat2N.inj_succ, N.pow_succ_r'. lia.
Qed.

Lemma zeros_repeat zs :
  forallb isZeroDigit zs = true -> zs = repeat "0" (length zs).
Proof.
  induction zs as [|c zs IH]; [reflexivity|]. cbn [forallb length repeat].
  intros H. apply andb_prop in H as [Hc Hz].
  apply Ascii.eqb_eq in Hc. rewrite <- (IH Hz), Hc. reflexivity.
Qed.

(** [multiple s t] is [s * 10^t] with the trailing zeros of [s] moved
    into the exponent. *)
Lemma multiple_pos s t :
  (0 < s)%Z ->
  exists m k, multiple s t = JDec false m (t + Z.of_nat k)
              /\ (Zpos m * 10 ^ Z.of_nat k = s)%Z.
Proof.
  intros Hs. unfold multiple, mkDec.
  destruct (Z.to_N s) as [|p] eqn:Ep; [lia|].
  destruct (digitsOfN_pos_head p) as (c & r & E & Hc & Hz & Hr).
  pose proof (digitsOfN_value (Npos p)) as Hv.
  rewrite E in Hv |- *.
  assert (Hsp : Str.span isZeroDigit (c :: r) = ([], c :: r)).
  { cbn [Str.span]. rewrite Hz. reflexivity. }
  rewrite Hsp. cbn [snd].
  destruct (span_cases isZeroDigit (rev (c :: r))) as (Hrev & Hzs & _).
  destruct (Str.span isZeroDigit (rev (c :: r))) as [zs sd].
  cbn [fst snd] in *.
  assert (Hds : c :: r = rev sd ++ repeat "0" (length zs)).
  { rewrite <- (rev_involutive (c :: r)), Hrev, rev_app_distr.
    rewrite (zeros_repeat zs Hzs) at 1. rewrite rev_zeros. reflexivity. }
  rewrite Hds, digitsValue_app, digitsValue_zeros in Hv.
  destruct (digitsValue (rev sd)) as [|m]; [cbn in Hv; discriminate Hv|].
  exists m, (length zs). split; [reflexivity|].
  apply (f_equal Z.of_N) in Hv. rewrite N2Z.inj_mul, N2Z.inj_pow in Hv.
  rewrite nat_N_Z in Hv. cbn [Z.of_N] in Hv. lia.
Qed.

Lemma multiple_value s t m e :
  (0 < s)%Z -> multiple s t = JDec false m e ->
  (decQ m e == inject_Z s * tenTo t)%Q /\ (t <= e)%Z.
Proof.
  intros Hs Hm. destruct (multiple_pos s t Hs) as (m' & k & E & Hv).
  rewrite E in Hm. injection Hm as <- <-. split; [|lia].
  unfold decQ. rewrite tenTo_plus, <- Hv, inject_Z_mult.
  rewrite (Zpower_Qpower 10 (Z.of_nat k)) by lia.
  unfold tenTo. change (inject_Z 10) with 10%Q. ring.
Qed.

Lemma multiple_normal s t : normalNum (multiple s t) = true.
Proof. apply mkDec_normal, digitsOfN_digits. Qed.

Lemma multiple_sign s t : withSign false (multiple s t) = multiple s t.
Proof.
  unfold multiple, mkDec. destruct (Str.span _ (rev _)).
  destruct (digitsValue _); reflexivity.
Qed.


Lemma binary64_eqb_refl b : binary64_eqb b b = true.
Proof. destruct b; cbn; rewrite ?Z.eqb_refl; reflexivity. Qed.

Lemma readsAs_inv b c :
  readsAs b c = true -> exists neg m e, c = JDec neg m e /\ nearest (decQ m e) = b.
Proof.
  destruct c as [| | |neg m e]; try discriminate. cbn [readsAs].
  intros H. apply binary64_eqb_eq in H. eauto.
Qed.

(** What the search answers is a multiple of a power of ten that is
    read as the double, and it is found at or before any power of ten
    that has such a multiple. *)
Lemma shortestFrom_some fuel b x t c :
  shortestFrom fuel b x t = Some c ->
  readsAs b c = true /\ exists s t', c = multiple s t'.
Proof.
  revert t. induction fuel as [|fuel IH]; intros t; [discriminate|].
  cbn [shortestFrom].
  destruct (readsAs b (multiple (Qfloor (x / tenTo t)) t)) eqn:Hlo;
    destruct (readsAs b (multiple (Qfloor (x / tenTo t) + 1) t)) eqn:Hhi.
  - destruct (_ ?= _)%Q; [destruct (Z.even _)|..]; intros [= <-]; eauto.
  - intros [= <-]; eauto.
  - intros [= <-]; eauto.
  - apply IH.
Qed.

Lemma shortestFrom_first fuel b x t t0 :
  (t0 <= t)%Z -> (t - t0 < Z.of_nat fuel)%Z ->
  readsAs b (multiple (Qfloor (x / tenTo t0)) t0) = true
  \/ readsAs b (multiple (Qfloor (x / tenTo t0) + 1) t0) = true ->
  exists s t', shortestFrom fuel b x t = Some (multiple s t')
               /\ (t0 <= t')%Z /\ readsAs b (multiple s t') = true.
Proof.
  revert t. induction fuel as [|fuel IH]; intros t Ht Hf Hp; [lia|].
  cbn [shortestFrom].
  destruct (readsAs b (multiple (Qfloor (x / tenTo t)) t)) eqn:Hlo;
    destruct (readsAs b (multiple (Qfloor (x / tenTo t) + 1) t)) eqn:Hhi.
  - destruct (_ ?= _)%Q; [destruct (Z.even _)|..]; eauto.
  - eauto.
  - eauto.
  - assert (t <> t0).
    { intros ->. destruct Hp as [Hp|Hp]; congruence. }
    apply IH; [lia|lia|exact Hp].
Qed.

Lemma start_pos x :
  (1 <= Z.of_nat (length (digitsOfN (Z.to_N (Qfloor x)))))%Z.
Proof.
  destruct (digitsOfN_chars (Z.to_N (Qfloor x))) as [_ Hne].
  destruct (digitsOfN _); [congruence|cbn [length]; lia].
Qed.

Lemma shortest_first m e t0 :
  (-399 <= t0 <= 1)%Z ->
  (let x := (inject_Z m * twoTo e)%Q in
   readsAs (B_fin m e) (multiple (Qfloor (x / tenTo t0)) t0) = true
   \/ readsAs (B_fin m e) (multiple (Qfloor (x / tenTo t0) + 1) t0) = true) ->
  exists s t, shortest m e = Some (multiple s t) /\ (t0 <= t)%Z
              /\ readsAs (B_fin m e) (multiple s t) = true.
Proof.
  intros Ht Hp. unfold shortest.
  pose proof (start_pos (inject_Z m * twoTo e)) as Hs.
  apply shortestFrom_first; [lia|lia|exact Hp].
Qed.

Lemma canonical_value m e :
  canonical m e -> (twoTo (-1074) <= inject_Z m * twoTo e)%Q.
Proof.
  intros (Hm & He & _).
  assert (1 <= inject_Z m)%Q.
  { change 1%Q with (inject_Z 1). rewrite <- Zle_Qle. lia. }
  pose proof (twoTo_le (-1074) e ltac:(lia)).
  pose proof (twoTo_pos (-1074)). pose proof (twoTo_pos e).
  apply (Qle_trans _ (1 * twoTo e)); [lra|].
  apply Qmult_le_compat_r; [assumption|lra].
Qed.

(** Every double has a multiple of [10^-399] that is read as it. *)
Lemma reads_low m e :
  canonical m e ->
  let x := (inject_Z m * twoTo e)%Q in
  readsAs (B_fin m e) (multiple (Qfloor (x / tenTo (-399))) (-399)) = true.
Proof.
  intros Hc x. pose proof (canonical_value m e Hc) as Hx. fold x in Hx.
  pose proof (tenTo_pos (-399)) as P.
  assert (C1 : (tenTo (-399) <= twoTo (-1074))%Q) by (vm_compute; discriminate).
  assert (C2 : (tenTo (-399) < twoTo (-1076))%Q) by (vm_compute; reflexivity).
  set (y := (x / tenTo (-399))%Q).
  assert (Hy1 : (1 <= y)%Q).
  { unfold y. apply Qle_shift_div_l; [exact P|]. lra. }
  pose proof (Qfloor_le y) as F1. pose proof (Qlt_floor y) as F2.
  rewrite inject_Z_plus in F2. change (inject_Z 1) with 1%Q in F2.
  assert (Hs : (0 < Qfloor y)%Z).
  { pose proof (Qfloor_resp_le _ _ Hy1) as H.
    change (Qfloor 1) with 1%Z in H. lia. }
  destruct (multiple_pos (Qfloor y) (-399) Hs) as (m' & k & E & _).
  destruct (multiple_value (Qfloor y) (-399) _ _ Hs E) as [Hv _].
  rewrite E. cbn [readsAs].
  assert (Ey : (y * tenTo (-399) == x)%Q).
  { unfold y. field. apply Qnot_eq_sym, Qlt_not_eq, P. }
  assert (B1 : (inject_Z (Qfloor y) * tenTo (-399) <= x)%Q).
  { rewrite <- Ey. apply Qmult_le_compat_r; [exact F1|lra]. }
  assert (B2 : (x < (inject_Z (Qfloor y) + 1) * tenTo (-399))%Q).
  { rewrite <- Ey. apply Qmult_lt_compat_r; [exact P|exact F2]. }
  destruct Hc as (Hm & He & Hn).
  pose proof (twoTo_le (-1076) (e - 2) ltac:(lia)) as Hle.
  rewrite (nearest_within _ m e); [apply binary64_eqb_refl|..].
  - split; [|split]; assumption.
  - rewrite Hv. fold x. lra.
  - rewrite Hv. fold x. pose proof (twoTo_pos (e - 2)). lra.
Qed.

(** The search finds a decimal for every double. *)
Lemma shortest_found m e :
  canonical m e ->
  exists s t, shortest m e = Some (multiple s t)
              /\ readsAs (B_fin m e) (multiple s t) = true.
Proof.
  intros Hc.
  destruct (shortest_first m e (-399) ltac:(lia)) as (s & t & H & _ & Hr).
  - left. apply reads_low. exact Hc.
  - eauto.
Qed.

End Shortest.

(** ** Numbers that hold a double *)

Section Doubles.
Import Spec.

Lemma decQ_pos m e : (0 < decQ m e)%Q.
Proof.
  unfold decQ. apply Qmult_lt_0_compat; [reflexivity|apply tenTo_pos].
Qed.

(** What [asDouble] answers for a decimal: a zero or an infinity of the
    same sign, or a decimal of the same sign that is read as the same
    double; never [NaN]. *)
Lemma asDouble_cases neg m e :
  asDouble (JDec neg m e) = JZero neg
  \/ asDouble (JDec neg m e) = JInf neg
  \/ exists M E m' e',
       nearest (decQ m e) = B_fin M E
       /\ asDouble (JDec neg m e) = JDec neg m' e'
       /\ shortest M E = Some (JDec false m' e')
       /\ nearest (decQ m' e') = B_fin M E
       /\ normalNum (JDec neg m' e') = true.
Proof.
  cbn [asDouble]. destruct (nearest (decQ m e)) as [| |M E] eqn:En; auto.
  right. right.
  pose proof (nearest_canonical _ _ _ (decQ_pos m e) En) as Hc.
  destruct (shortest_found M E Hc) as (s & t & Hs & Hr).
  rewrite Hs. destruct (readsAs_inv _ _ Hr) as (neg' & m' & e' & Em & Hn).
  pose proof (multiple_normal s t) as Hnorm.
  pose proof (multiple_sign s t) as Hsign.
  rewrite Em in *. cbn [withSign] in *. injection Hsign as ->.
  exists M, E, m', e'. repeat split; assumption.
Qed.

Lemma asDouble_idem v : asDouble (asDouble v) = asDouble v.
Proof.
  destruct v as [| | |neg m e]; try reflexivity.
  destruct (asDouble_cases neg m e)
    as [->|[->|(M & E & m' & e' & _ & -> & Hs & Hn & _)]];
    try reflexivity.
  cbn [asDouble]. rewrite Hn, Hs. reflexivity.
Qed.

Lemma isDouble_asDouble v : isDouble (asDouble v) = true.
Proof. unfold isDouble. rewrite asDouble_idem. apply jsnum_eqb_refl. Qed.

Lemma isDouble_fixed v : isDouble v = true -> asDouble v = v.
Proof. apply jsnum_eqb_eq. Qed.

Lemma asDouble_normal v : normalNum (asDouble v) = true.
Proof.
  destruct v as [| | |neg m e]; try reflexivity.
  destruct (asDouble_cases neg m e)
    as [->|[->|(M & E & m' & e' & _ & -> & _ & _ & Hn)]];
    try reflexivity.
  exact Hn.
Qed.

Lemma isDouble_normal v : isDouble v = true -> normalNum v = true.
Proof. intros H. rewrite <- (isDouble_fixed v H). apply asDouble_normal. Qed.

Lemma parseFloat_isDouble s : isDouble (parseFloat s) = true.
Proof. apply isDouble_asDouble. Qed.

Lemma parseInt_isDouble s : isDouble (parseInt s) = true.
Proof. apply isDouble_asDouble. Qed.

(** [parseFloat] reads back what [toString] prints of a double, but for
    the sign of a negative zero. *)
Lemma parseFloat_toString v :
  isDouble v = true -> isNegZero v = false -> parseFloat (toString v) = v.
Proof.
  intros Hd Hz. unfold parseFloat.
  rewrite (floatLiteral_toString v (isDouble_normal v Hd) Hz).
  apply isDouble_fixed. exact Hd.
Qed.

End Doubles.

(** ** Doubles without a fraction *)

Section IntegralDoubles.
Import Spec.
Local Open Scope Q_scope.

(** The double nearest to an integer is an integer. *)
Lemma nearest_integer x (p : Z) m e :
  x == inject_Z p -> (0 < p)%Z -> nearest x = B_fin m e ->
  exists q, inject_Z m * twoTo e == inject_Z q.
Proof.
  intros Ex Hp Hn.
  assert (Hx : 0 < x).
  { rewrite Ex. change 0 with (inject_Z 0). rewrite <- Zlt_Qlt. exact Hp. }
  pose proof (nearest_canonical x m e Hx Hn) as (Hm & He & _).
  destruct (Z.le_gt_cases 0 e) as [Hpos|Hneg].
  { exists (m * 2 ^ e)%Z. rewrite inject_Z_mult, (twoTo_Z e Hpos).
    reflexivity. }
  exists p. revert Hn. unfold nearest.
  set (e0 := Z.max (ilog2 x - 52) (-1074)).
  pose proof (twoTo_pos e0) as P0.
  assert (Hshift : forall k, (k < 0)%Z ->
            x / twoTo k == inject_Z (p * 2 ^ (- k))).
  { intros k Hk. rewrite inject_Z_mult, <- (twoTo_Z (- k)) by lia.
    pose proof (twoTo_plus k (- k)) as E. rewrite Z.add_opp_diag_r in E.
    change (twoTo 0) with 1 in E. rewrite <- Ex.
    pose proof (twoTo_pos k).
    rewrite <- (Qmult_1_r (x / twoTo k)), E. field. lra. }
  assert (Hround : forall k, (k < 0)%Z ->
            roundHalfEven (x / twoTo k) = (p * 2 ^ (- k))%Z).
  { intros k Hk. apply roundHalfEven_within; rewrite (Hshift k Hk); lra. }
  destruct (Z.eqb_spec (roundHalfEven (x / twoTo e0)) (2 ^ 53)) as [E53|N53].
  - change (2 ^ 52 =? 0)%Z with false. cbn iota.
    destruct (971 <? e0 + 1)%Z; [discriminate|].
    intros [= <- <-].
    rewrite (Hround e0 ltac:(lia)) in E53.
    pose proof (Hshift e0 ltac:(lia)) as S. rewrite E53 in S.
    rewrite twoTo_plus. change (twoTo 1) with 2.
    change (inject_Z (2 ^ 52)) with 4503599627370496.
    change (inject_Z (2 ^ 53)) with 9007199254740992 in S.
    rewrite <- Ex.
    assert (x == 9007199254740992 * twoTo e0).
    { rewrite <- S. field. lra. }
    lra.
  - destruct (roundHalfEven (x / twoTo e0) =? 0)%Z; [discriminate|].
    destruct (971 <? e0)%Z; [discriminate|].
    intros [= <- <-].
    rewrite (Hround e0 Hneg), <- (Hshift e0 Hneg), <- Ex. field. lra.
Qed.

Lemma decQ_integer m e :
  (0 <= e)%Z -> decQ m e == inject_Z (Zpos m * 10 ^ e).
Proof.
  intros He. unfold decQ, tenTo. rewrite inject_Z_mult.
  rewrite (Zpower_Qpower 10 e He). reflexivity.
Qed.

(** The double of value [p], an integer, has a multiple of [10^0] that
    is read as it: [p] itself. *)
Lemma reads_integer m e (p : Z) :
  canonical m e -> inject_Z m * twoTo e == inject_Z p ->
  let x := inject_Z m * twoTo e in
  readsAs (B_fin m e) (multiple (Qfloor (x / tenTo 0)) 0) = true.
Proof.
  intros Hc Ep x.
  assert (Hp : (0 < p)%Z).
  { pose proof (canonical_value m e Hc) as H. rewrite Ep in H.
    pose proof (twoTo_pos (-1074)) as P.
    rewrite Zlt_Qlt. change (inject_Z 0) with 0. lra. }
  assert (Ef : Qfloor (x / tenTo 0) = p).
  { change (tenTo 0) with 1. rewrite <- (Qfloor_Z p).
    apply Qfloor_comp. unfold x. rewrite Ep. field. }
  rewrite Ef.
  destruct (multiple_pos p 0 Hp) as (m' & k & E & _).
  destruct (multiple_value p 0 _ _ Hp E) as [Hv _].
  rewrite E. cbn [readsAs].
  change (tenTo 0) with 1 in Hv.
  pose proof (twoTo_pos (e - 2)).
  rewrite (nearest_within _ m e Hc); [apply binary64_eqb_refl|..];
    rewrite Hv, Ep; lra.
Qed.

(** Rounding an integer gives an integer, a zero or an infinity. *)
Lemma asDouble_integer neg m e :
  (0 <= e)%Z ->
  asDouble (JDec neg m e) = JZero neg
  \/ asDouble (JDec neg m e) = JInf neg
  \/ exists m' e', asDouble (JDec neg m e) = JDec neg m' e' /\ (0 <= e')%Z.
Proof.
  intros He.
  destruct (asDouble_cases neg m e)
    as [H|[H|(M & E & m' & e' & Hn & H & Hs & _)]]; auto.
  right. right. exists m', e'. split; [exact H|].
  pose proof (nearest_canonical _ _ _ (decQ_pos m e) Hn) as Hc.
  destruct (nearest_integer _ (Zpos m * 10 ^ e) M E (decQ_integer m e He)
              ltac:(lia) Hn) as [q Eq].
  destruct (shortest_first M E 0 ltac:(lia)) as (s & t & Hs' & Ht & Hr).
  { left. apply (reads_integer M E q Hc Eq). }
  rewrite Hs in Hs'. injection Hs' as Hs'.
  destruct (Z.le_gt_cases s 0) as [Hs0|Hs0].
  { exfalso. unfold multiple in Hs'.
    replace (Z.to_N s) with 0%N in Hs' by lia. discriminate Hs'. }
  symmetry in Hs'. destruct (multiple_value s t _ _ Hs0 Hs') as [_ Hle]. lia.
Qed.

End IntegralDoubles.

(** ** Printing and reading integral doubles *)

Section PrintedIntegers.
Import Spec.

Lemma mkDec_cases neg ds e :
  mkDec neg ds e = JZero neg
  \/ exists m k, mkDec neg ds e = JDec neg m (e + Z.of_nat k).
Proof.
  unfold mkDec. destruct (Str.span isZeroDigit (rev _)) as [zs sd].
  destruct (digitsValue (rev sd)); eauto.
Qed.

Lemma isDouble_zero neg : isDouble (JZero neg) = true.
Proof. destruct neg; reflexivity. Qed.

Lemma isDouble_inf neg : isDouble (JInf neg) = true.
Proof. destruct neg; reflexivity. Qed.

(** What [parseInt] answers on digits after a sign [neg]. *)
Lemma asDouble_mkDec_integer neg ds :
  isInteger (asDouble (mkDec neg ds 0)) = true.
Proof.
  unfold isInteger. rewrite isDouble_asDouble. cbn [andb].
  destruct (mkDec_cases neg ds 0) as [->|(m & k & ->)]; [reflexivity|].
  destruct (asDouble_integer neg m (0 + Z.of_nat k) ltac:(lia))
    as [->|[->|(m' & e' & -> & He)]]; try reflexivity.
  apply Z.leb_le. exact He.
Qed.

Lemma asDouble_mkDec_count ds :
  isCount (asDouble (mkDec false ds 0)) = true.
Proof.
  unfold isCount. rewrite asDouble_mkDec_integer. cbn [andb].
  destruct (mkDec_cases false ds 0) as [->|(m & k & ->)]; [reflexivity|].
  destruct (asDouble_integer false m (0 + Z.of_nat k) ltac:(lia))
    as [->|[->|(m' & e' & -> & He)]]; reflexivity.
Qed.

Lemma parseInt_digits_count d :
  d <> [] -> forallb Chr.isDigit d = true -> isCount (parseInt d) = true.
Proof.
  intros Hne Hd. unfold parseInt, intLiteral.
  destruct d as [|c r]; [congruence|].
  cbn [forallb] in Hd. apply andb_prop in Hd as [Hc Hr].
  rewrite (signPart_digit c r Hc).
  rewrite span_all by (cbn [forallb]; rewrite Hc; exact Hr). cbn [fst].
  apply asDouble_mkDec_count.
Qed.

Lemma parseInt_signed_integer c d :
  Chr.isSign c = true -> d <> [] -> forallb Chr.isDigit d = true ->
  isInteger (parseInt (c :: d)) = true.
Proof.
  intros Hc Hne Hd. unfold parseInt, intLiteral.
  assert (Hs : exists neg, signPart (c :: d) = (neg, d)).
  { unfold Chr.isSign in Hc. cbn [signPart].
    destruct (Ascii.eqb c "-"); [eauto|].
    destruct (Ascii.eqb c "+"); [eauto|discriminate Hc]. }
  destruct Hs as [neg ->]. rewrite (span_all _ _ Hd). cbn [fst].
  destruct d; [congruence|]. apply asDouble_mkDec_integer.
Qed.

Lemma isCount_integer v : isCount v = true -> isInteger v = true.
Proof. unfold isCount. intros H. apply andb_prop in H as [H _]. exact H. Qed.

(** An integral double of magnitude below [1e21] prints as its digits
    followed by the zeros of its exponent. *)
Lemma plain_integer_string neg m e :
  (0 <= e)%Z -> plainRange (JDec neg m e) = true ->
  toString (JDec neg m e)
  = (if neg then ["-"] else [])
    ++ digitsOfN (Npos m) ++ repeat "0" (Z.to_nat e).
Proof.
  intros He Hp. cbn [plainRange] in Hp. apply andb_prop in Hp as [_ H21].
  cbn [toString]. f_equal. unfold formatDigits.
  set (k := Z.of_nat (length (digitsOfN (Npos m)))) in *.
  replace (k <=? k + e)%Z with true by (symmetry; apply Z.leb_le; lia).
  rewrite H21. cbn [andb]. do 3 f_equal. lia.
Qed.

(** An integral double printed without an exponent, and no negative
    zero, prints as an integer that [parseInt] reads back as it. *)
Lemma integer_print v :
  isInteger v = true -> plainNum v = true ->
  exists z, toString v = intToString z /\ asDouble (intDecimal z) = v
            /\ (isCount v = true -> (0 <= z)%Z).
Proof.
  intros Hi Hp. pose proof Hi as Hi'. unfold isInteger in Hi'.
  apply andb_prop in Hi' as [Hd He].
  unfold plainNum in Hp. apply andb_prop in Hp as [Hr Hz].
  destruct v as [|s|[]|neg m e]; try discriminate.
  - exists 0%Z. repeat split. lia.
  - apply Z.leb_le in He.
    pose proof (isDouble_normal _ Hd) as Hn.
    rewrite (plain_integer_string neg m e He Hr).
    destruct (digitsOfN_pos_head m) as (c & r & E & Hc & Hnz & Hdr).
    set (ds := digitsOfN (Npos m) ++ repeat "0" (Z.to_nat e)).
    assert (Eds : ds = c :: (r ++ repeat "0" (Z.to_nat e))).
    { unfold ds. rewrite E. reflexivity. }
    assert (Hread : digitsOfN (digitsValue ds) = ds).
    { rewrite Eds. apply digitsOfN_read; [exact Hc|exact Hnz|].
      rewrite forallb_app, Hdr. apply zeros_digits. }
    destruct (digitsValue ds) as [|p] eqn:Ev.
    { exfalso. rewrite Eds in Hread. change (digitsOfN 0) with ["0"] in Hread.
      injection Hread as <- _. discriminate Hnz. }
    assert (Hmk : mkDec neg ds 0 = JDec neg m e).
    { pose proof (mkDec_digits neg m e 0 0 (Z.to_nat e) Hn) as H.
      cbn [repeat app] in H. unfold ds. rewrite H. f_equal. lia. }
    exists (if neg then Zneg p else Zpos p).
    split; [|split].
    + destruct neg; cbn [intToString Z.to_N app]; rewrite Hread; reflexivity.
    + unfold intDecimal.
      replace (Z.abs_N (if neg then Z.neg p else Z.pos p)) with (Npos p)
        by (destruct neg; reflexivity).
      replace ((if neg then Z.neg p else Z.pos p) <? 0)%Z with neg
        by (destruct neg; reflexivity).
      rewrite Hread, Hmk. apply isDouble_fixed. exact Hd.
    + unfold isCount. rewrite Hi. cbn [andb]. destruct neg; [discriminate|lia].
Qed.

Lemma parseInt_toString v rest :
  isInteger v = true -> plainNum v = true -> stopsDigits rest ->
  parseInt (toString v ++ rest) = v.
Proof.
  intros Hi Hp Hr. destruct (integer_print v Hi Hp) as (z & -> & Hz & _).
  rewrite (parseInt_print z rest Hr). exact Hz.
Qed.

Lemma signedInt_toString v rest :
  isInteger v = true -> plainNum v = true -> stopsDigits rest ->
  signedInt (toString v ++ rest) = Some (toString v, rest).
Proof.
  intros Hi Hp Hr. destruct (integer_print v Hi Hp) as (z & -> & _ & _).
  apply signedInt_print. exact Hr.
Qed.

Lemma count_toString v :
  isCount v = true -> plainNum v = true ->
  exists n, toString v = digitsOfN n.
Proof.
  intros Hc Hp.
  destruct (integer_print v (isCount_integer v Hc) Hp) as (z & -> & _ & Hz).
  exists (Z.to_N z). apply intToString_nonneg, Hz, Hc.
Qed.

Lemma digits1_toString v rest :
  isCount v = true -> plainNum v = true -> stopsDigits rest ->
  digits1 (toString v ++ rest) = Some (toString v, rest).
Proof.
  intros Hc Hp Hr. destruct (count_toString v Hc Hp) as [n ->].
  apply digits1_print. exact Hr.
Qed.

Lemma toString_intChars v :
  isInteger v = true -> plainNum v = true ->
  forallb isIntChar (toString v) = true.
Proof.
  intros Hi Hp. destruct (integer_print v Hi Hp) as (z & -> & _ & _).
  apply intToString_chars.
Qed.

Lemma toString_int_notChar L v :
  isInteger v = true -> plainNum v = true ->
  (forall c, isIntChar c = true -> notChar L c = true) ->
  forallb (notChar L) (toString v) = true.
Proof.
  intros Hi Hp H.
  apply (forallb_weaken isIntChar _ _ H), toString_intChars; assumption.
Qed.

End PrintedIntegers.

(** ** Integers that a double holds exactly *)

Section SafeIntegers.
Import Spec.
Local Open Scope Q_scope.

Lemma roundHalfEven_near y :
  inject_Z (roundHalfEven y) - (1 # 2) <= y
  /\ y <= inject_Z (roundHalfEven y) + (1 # 2).
Proof.
  unfold roundHalfEven.
  pose proof (Qfloor_le y) as F1. pose proof (Qlt_floor y) as F2.
  rewrite inject_Z_plus in F2. change (inject_Z 1) with 1 in F2.
  destruct (Qcompare_spec (y - inject_Z (Qfloor y)) (1 # 2)) as [E|L|G].
  - destruct (Z.even _);
      [|rewrite inject_Z_plus; change (inject_Z 1) with 1]; lra.
  - lra.
  - rewrite inject_Z_plus. change (inject_Z 1) with 1. lra.
Qed.

(** A number that is rounded to the double [m * 2^e] is no farther from
    it than half the unit in its last place. *)
Lemma nearest_bound x m e :
  nearest x = B_fin m e ->
  inject_Z m * twoTo e - twoTo (e - 1) <= x
  /\ x <= inject_Z m * twoTo e + twoTo (e - 1).
Proof.
  unfold nearest.
  set (e0 := Z.max (ilog2 x - 52) (-1074)).
  set (y := x / twoTo e0).
  pose proof (twoTo_pos e0) as P.
  assert (Ex : x == y * twoTo e0) by (unfold y; field; lra).
  destruct (roundHalfEven_near y) as [N1 N2].
  assert (L1 : (inject_Z (roundHalfEven y) - (1 # 2)) * twoTo e0
               <= y * twoTo e0)
    by (apply Qmult_le_compat_r; [exact N1|lra]).
  assert (L2 : y * twoTo e0
               <= (inject_Z (roundHalfEven y) + (1 # 2)) * twoTo e0)
    by (apply Qmult_le_compat_r; [exact N2|lra]).
  destruct (Z.eqb_spec (roundHalfEven y) (2 ^ 53)) as [E53|N53].
  - change (2 ^ 52 =? 0)%Z with false. cbn iota.
    destruct (Z.ltb_spec 971 (e0 + 1)); [discriminate|].
    intros [= <- <-]. rewrite E53 in L1, L2.
    replace (e0 + 1 - 1)%Z with e0 by lia.
    assert (T : twoTo (e0 + 1) == twoTo e0 * 2)
      by (rewrite twoTo_plus; reflexivity).
    rewrite T, Ex.
    change (inject_Z (2 ^ 53)) with 9007199254740992 in L1, L2.
    change (inject_Z (2 ^ 52)) with 4503599627370496.
    lra.
  - destruct (Z.eqb_spec (roundHalfEven y) 0); [discriminate|].
    destruct (Z.ltb_spec 971 e0); [discriminate|].
    intros [= <- <-].
    assert (T : twoTo (e0 - 1) == twoTo e0 * (1 # 2)).
    { unfold Z.sub. rewrite twoTo_plus. reflexivity. }
    rewrite T, Ex. lra.
Qed.

(** An integer below [2^53] is a double. *)
Lemma nearest_safe x (z : Z) :
  x == inject_Z z -> (0 < z < 2 ^ 53)%Z ->
  exists M E, nearest x = B_fin M E
              /\ inject_Z M * twoTo E == inject_Z z /\ (E <= 0)%Z.
Proof.
  intros Ex [Hz0 Hz].
  pose proof (Z.log2_spec z Hz0) as [L1 L2].
  pose proof (Z.log2_nonneg z) as L0.
  assert (L52 : (Z.log2 z < 53)%Z) by (apply Z.log2_lt_pow2; assumption).
  set (L := Z.log2 z) in *.
  exists (z * 2 ^ (52 - L))%Z, (L - 52)%Z.
  assert (Hpow : (2 ^ L * 2 ^ (52 - L) = 2 ^ 52)%Z).
  { rewrite <- Z.pow_add_r by lia. f_equal. lia. }
  assert (Hpos : (0 < 2 ^ (52 - L))%Z) by (apply Z.pow_pos_nonneg; lia).
  assert (Hval : inject_Z (z * 2 ^ (52 - L)) * twoTo (L - 52) == inject_Z z).
  { rewrite inject_Z_mult, <- twoTo_Z by lia.
    rewrite <- Qmult_assoc, <- twoTo_plus.
    replace (52 - L + (L - 52))%Z with 0%Z by lia.
    change (twoTo 0) with 1. ring. }
  split; [|split; [exact Hval|lia]].
  pose proof (twoTo_pos (L - 52 - 2)) as P.
  apply nearest_within.
  - unfold canonical. split; [|split; [lia|left]].
    + split; [nia|].
      replace (2 ^ 53)%Z with (2 ^ Z.succ L * 2 ^ (52 - L))%Z.
      * apply Z.mul_lt_mono_pos_r; assumption.
      * rewrite <- Z.pow_add_r by lia. f_equal. lia.
    + rewrite <- Hpow. apply Z.mul_le_mono_nonneg_r; lia.
  - rewrite Hval, Ex. lra.
  - rewrite Hval, Ex. lra.
Qed.

Lemma digits_shift m b :
  digitsOfN (Npos m * 10 ^ N.of_nat b)
  = digitsOfN (Npos m) ++ repeat "0" b.
Proof.
  destruct (digitsOfN_pos_head m) as (c & r & E & Hc & Hz & Hr).
  assert (Hv : digitsValue (digitsOfN (Npos m) ++ repeat "0" b)
               = (Npos m * 10 ^ N.of_nat b)%N).
  { rewrite digitsValue_app, digitsValue_zeros, digitsOfN_value.
    reflexivity. }
  rewrite <- Hv, E. cbn [app]. apply digitsOfN_read; [exact Hc|exact Hz|].
  rewrite forallb_app, Hr. apply zeros_digits.
Qed.

(** A decimal in normal form without a fraction is the normal form of
    the integer that it denotes. *)
Lemma normal_multiple m e :
  normalNum (JDec false m e) = true -> (0 <= e)%Z ->
  JDec false m e = multiple (Zpos m * 10 ^ e) 0.
Proof.
  intros Hn He. unfold multiple.
  replace (Z.to_N (Zpos m * 10 ^ e))
    with (Npos m * 10 ^ N.of_nat (Z.to_nat e))%N.
  - rewrite digits_shift.
    pose proof (mkDec_digits false m e 0 0 (Z.to_nat e) Hn) as H.
    cbn [repeat app] in H. rewrite H. f_equal. lia.
  - rewrite Z2N.inj_mul, Z2N.inj_pow by lia.
    f_equal. f_equal. lia.
Qed.

Lemma asDouble_safe_pos z :
  (0 < z < 2 ^ 53)%Z -> asDouble (multiple z 0) = multiple z 0.
Proof.
  intros Hz.
  destruct (multiple_pos z 0 ltac:(lia)) as (m & k & Em & Hv).
  destruct (multiple_value z 0 _ _ ltac:(lia) Em) as [Hq _].
  change (tenTo 0) with 1 in Hq. rewrite Qmult_1_r in Hq.
  destruct (nearest_safe _ z Hq Hz) as (M & E & Hn & HME & HE).
  pose proof (nearest_canonical _ _ _ (decQ_pos m _) Hn) as Hc.
  destruct (shortest_first M E 0 ltac:(lia)) as (s & t & Hs & Ht & Hr).
  { left. apply (reads_integer M E z Hc HME). }
  rewrite Em. cbn [asDouble]. rewrite Hn, Hs, multiple_sign.
  destruct (Z.le_gt_cases s 0) as [Hs0|Hs0].
  { exfalso. unfold multiple in Hr.
    replace (Z.to_N s) with 0%N in Hr by lia. discriminate Hr. }
  destruct (multiple_pos s t Hs0) as (m' & k' & Em' & Hv').
  destruct (multiple_value s t _ _ Hs0 Em') as [Hq' _].
  rewrite Em' in Hr. cbn [readsAs] in Hr.
  apply binary64_eqb_eq in Hr.
  destruct (nearest_bound _ _ _ Hr) as [B1 B2].
  assert (Hhalf : twoTo (E - 1) <= 1 # 2).
  { change (1 # 2) with (twoTo (-1)). apply twoTo_le. lia. }
  assert (Hint : decQ m' (t + Z.of_nat k')
                 == inject_Z (Zpos m' * 10 ^ (t + Z.of_nat k')))
    by (apply decQ_integer; lia).
  rewrite HME, Hint in B1, B2.
  assert (Heq : (Zpos m' * 10 ^ (t + Z.of_nat k') = z)%Z).
  { assert (A : (z <= Zpos m' * 10 ^ (t + Z.of_nat k'))%Z)
      by (apply Z_lt_half; lra).
    assert (B : (Zpos m' * 10 ^ (t + Z.of_nat k') <= z)%Z)
      by (apply Z_lt_half; lra).
    lia. }
  rewrite Em', <- Em.
  pose proof (multiple_normal s t) as Hnm. rewrite Em' in Hnm.
  rewrite (normal_multiple _ _ Hnm) by lia.
  rewrite Heq. reflexivity.
Qed.

Lemma mkDec_withSign neg ds e :
  mkDec neg ds e = withSign neg (mkDec false ds e).
Proof.
  unfold mkDec. destruct (Str.span isZeroDigit (rev _)) as [zs sd].
  destruct (digitsValue (rev sd)); reflexivity.
Qed.

Lemma asDouble_withSign neg v :
  asDouble (withSign neg v) = withSign neg (asDouble v).
Proof.
  destruct v as [| |s|s m e]; try reflexivity. cbn [withSign asDouble].
  destruct (nearest (decQ m e)); try reflexivity.
  destruct (shortest m0 e0) as [[| |s'|s' m' e']|]; reflexivity.
Qed.

(** An integer of magnitude below [2^53] is a double: rounding leaves
    it as it is. *)
Lemma asDouble_safe z :
  (Z.abs z < 2 ^ 53)%Z -> asDouble (intDecimal z) = intDecimal z.
Proof.
  intros Hz. unfold intDecimal. rewrite mkDec_withSign, asDouble_withSign.
  f_equal. destruct (Z.eq_dec z 0%Z) as [->|Hne]; [reflexivity|].
  assert (E : mkDec false (digitsOfN (Z.abs_N z)) 0%Z
              = multiple (Z.abs z) 0%Z).
  { unfold multiple. do 2 f_equal. lia. }
  rewrite E. apply asDouble_safe_pos. lia.
Qed.

(** [parseInt] reads the print of an integer of magnitude below [2^53]
    as that integer. *)
Lemma parseInt_safe z rest :
  stopsDigits rest -> (Z.abs z < 2 ^ 53)%Z ->
  parseInt (intToString z ++ rest) = intDecimal z.
Proof.
  intros Hr Hz. rewrite (parseInt_print z rest Hr). apply asDouble_safe, Hz.
Qed.

(** the value of the integer [z] *)
Lemma ofJsnum_intDecimal z :
  Render.ofJsnum (intDecimal z) = Render.XFin (inject_Z z).
Proof.
  unfold intDecimal. destruct (Z.eq_dec z 0%Z) as [->|Hne]; [reflexivity|].
  assert (E : mkDec false (digitsOfN (Z.abs_N z)) 0%Z
              = multiple (Z.abs z) 0%Z).
  { unfold multiple. do 2 f_equal. lia. }
  rewrite mkDec_withSign, E.
  destruct (multiple_pos (Z.abs z) 0%Z ltac:(lia)) as (m & k & -> & Hv).
  cbn [withSign Render.ofJsnum]. f_equal.
  assert (Hp : Qpower (10 # 1) (0 + Z.of_nat k)
               = inject_Z (10 ^ Z.of_nat k)).
  { rewrite Z.add_0_l. pose proof (Nat2Z.is_nonneg k) as Hk.
    destruct (Z.of_nat k) as [|p|p]; [reflexivity| |lia].
    unfold Qpower. rewrite Qpower_decomp_positive.
    unfold inject_Z. f_equal.
    apply Pos2Z.inj. rewrite Pos2Z.inj_pow. apply Z.pow_1_l. lia. }
  rewrite Hp. unfold Qmult, inject_Z.
  destruct (Z.ltb_spec z 0%Z); cbn [Qopp Qnum Qden Pos.mul]; f_equal; lia.
Qed.

Lemma toQ_intDecimal z : toQ (intDecimal z) == inject_Z z.
Proof.
  unfold intDecimal. destruct (Z.eq_dec z 0%Z) as [->|Hne]; [reflexivity|].
  assert (E : mkDec false (digitsOfN (Z.abs_N z)) 0%Z
              = multiple (Z.abs z) 0%Z).
  { unfold multiple. do 2 f_equal. lia. }
  rewrite mkDec_withSign, E.
  destruct (multiple_pos (Z.abs z) 0%Z ltac:(lia)) as (m & k & Em & Hv).
  destruct (multiple_value (Z.abs z) 0%Z _ _ ltac:(lia) Em) as [Hq _].
  rewrite Em. cbn [withSign toQ].
  change (tenTo 0) with 1 in Hq. rewrite Qmult_1_r in Hq.
  destruct (Z.ltb_spec z 0%Z); rewrite Hq.
  - rewrite <- inject_Z_opp. f_equiv. lia.
  - f_equiv. lia.
Qed.

(** The comparisons of an integer with ten. *)
Lemma intDecimal_ltb_ten z : ltb (intDecimal z) ten = (z <? 10)%Z.
Proof.
  pose proof (toQ_intDecimal z) as Hq.
  assert (H : ltb (intDecimal z) ten
              = negb (Qle_bool (toQ ten) (toQ (intDecimal z)))).
  { unfold intDecimal.
    destruct (mkDec_cases (z <? 0)%Z (digitsOfN (Z.abs_N z)) 0%Z)
      as [->|(m & k & ->)]; reflexivity. }
  rewrite H.
  assert (T : toQ ten == inject_Z 10) by reflexivity.
  destruct (Qle_bool (toQ ten) (toQ (intDecimal z))) eqn:E; cbn [negb].
  - apply Qle_bool_iff in E. rewrite T, Hq, <- Zle_Qle in E.
    symmetry. apply Z.ltb_ge. exact E.
  - symmetry. apply Z.ltb_lt.
    destruct (Z.lt_ge_cases z 10) as [L|G]; [exact L|exfalso].
    assert (E' : Qle_bool (toQ ten) (toQ (intDecimal z)) = true).
    { apply Qle_bool_iff. rewrite T, Hq, <- Zle_Qle. exact G. }
    congruence.
Qed.

Lemma intDecimal_geb_ten z : geb (intDecimal z) ten = (10 <=? z)%Z.
Proof.
  assert (H : geb (intDecimal z) ten = negb (ltb (intDecimal z) ten)).
  { unfold intDecimal.
    destruct (mkDec_cases (z <? 0)%Z (digitsOfN (Z.abs_N z)) 0%Z)
      as [->|(m & k & ->)]; reflexivity. }
  rewrite H, intDecimal_ltb_ten. rewrite Z.leb_antisym. reflexivity.
Qed.

End SafeIntegers.

(** ** The constructor of SelectAperture *)

(** C8. Constructing a [SelectAperture] with a code strictly below ten
    throws; with a code of ten or more it succeeds and the node stores
    the code.  The code is any number, compared as JavaScript compares
    ([NaN] is neither below ten nor ten or more); the last part says the
    same of an integer code [z], held as the number
    [Spec.intDecimal z]. *)
Theorem SelectAperture_code_validity (code : jsnum) :
  (ltb code ten = true ->
   exists message, new_SelectAperture code = Throw message)
  /\ (geb code ten = true ->
      new_SelectAperture code = Ok (SelectAperture code))
  /\ (forall z : Z,
         ((z < 10)%Z ->
          exists message,
            new_SelectAperture (Spec.intDecimal z) = Throw message)
         /\ ((10 <= z)%Z ->
             new_SelectAperture (Spec.intDecimal z)
             = Ok (SelectAperture (Spec.intDecimal z)))).
Proof.
  split; [|split].
  - intros H. unfold new_SelectAperture. rewrite H. eauto.
  - apply new_SelectAperture_ok.
  - intros z. split; intros H.
    + unfold new_SelectAperture. rewrite intDecimal_ltb_ten.
      apply Z.ltb_lt in H. rewrite H. eauto.
    + apply new_SelectAperture_ok. rewrite intDecimal_geb_ten.
      apply Z.leb_le. exact H.
Qed.

(** ** Render replay: the conversion of a coordinate *)

(** C2. During the replay, every signed integer coordinate literal [v]
    of an Operation is converted to [v / 10^d], where [d] is the
    x-decimal-digits of the most recent FormatSpecification node, for
    the X and for the Y axis alike, and [d = 4] when no
    FormatSpecification has been seen.  [pre] is what was replayed
    before the Operation, [c] holds the literals of the Operation;
    [Spec.converted d v] is the number [v] divided by [10^d], an
    infinity and [NaN] remaining what they are.  The last part reads
    the literal as the parser does: the digits of an integer [z] of
    magnitude below [2^53], which [parseInt] reads without rounding,
    are converted to [z / 10^d]. *)
Theorem coordinate_conversion (opts : Render.RenderOptions)
    (pre : list GerberNode) (c : CoordinateInit) :
  let r := Render.replay (Render.new_GerberToSvg opts) pre in
  let d := Spec.decimalDigits (Spec.mostRecentFormatSpec None pre) in
  (forall v : jsnum,
      Render.convertCoordinate r v
      = match Render.ofJsnum v with
        | Render.XFin q => Render.XFin (q / Qpower (10 # 1) d)
        | Render.XInf s => Render.XInf s
        | Render.XNaN => Render.XNaN
        end)
  /\ Render.newPoint r c
     = (match cx c with
        | Some v => Spec.converted d v
        | None => Render.x (Render.state r)
        end,
        match cy c with
        | Some v => Spec.converted d v
        | None => Render.y (Render.state r)
        end)
  /\ (forall z : Z,
         (Z.abs z < 2 ^ 53)%Z ->
         Render.convertCoordinate r (parseInt (intToString z))
         = Render.XFin (inject_Z z / Qpower (10 # 1) d)).
Proof.
  intros r d.
  assert (Hd : forall v, Render.convertCoordinate r v = Spec.converted d v).
  { intros v. rewrite convertCoordinate_value. unfold r.
    rewrite replay_formatSpec. reflexivity. }
  split; [exact Hd|]. split.
  - unfold Render.newPoint.
    destruct (cx c), (cy c); rewrite ?Hd; reflexivity.
  - intros z Hz. rewrite <- (app_nil_r (intToString z)).
    rewrite (parseInt_safe z [] I Hz), Hd. unfold Spec.converted.
    rewrite ofJsnum_intDecimal. reflexivity.
Qed.

(** goals [forallb P (s1 ++ c :: s2 ++ ...) = true] over printed
    numbers and literal characters *)
Ltac forallb_leaf :=
  first
    [ reflexivity
    | assumption
    | apply intToString_notChar; intros ? ?; apply intChar_other; assumption
    | apply toString_notChar; intros ? ?; apply numChar_other; assumption
    | apply toString_int_notChar;
        [assumption|assumption|intros ? ?; apply intChar_other; assumption] ].

Ltac forallb_chars :=
  unfold Spec.noPercent, Spec.noStar, Spec.noComma in *;
  repeat first
    [ rewrite forallb_app
    | progress cbn [forallb]
    | apply andb_true_intro; split ];
  forallb_leaf.

(** ** Round trip of the extended commands *)

Ltac normalize_app :=
  cbn [list_ascii_of_string app];
  repeat (rewrite <- app_assoc; cbn [app]).

Section ReparseExtended.
Import Spec.

Lemma endsWith_snoc c s : Str.endsWith c (s ++ [c]) = true.
Proof.
  unfold Str.endsWith. rewrite rev_unit. apply Ascii.eqb_refl.
Qed.

Lemma parseExtendedCommand_star B :
  parseExtendedCommand (B ++ ["*"]) = dispatchExtended (B ++ ["*"]) B.
Proof.
  unfold parseExtendedCommand, Str.dropLast.
  rewrite endsWith_snoc, removelast_last. reflexivity.
Qed.

Lemma noPercent_app a b :
  noPercent (a ++ b) = noPercent a && noPercent b.
Proof. apply forallb_app. Qed.

(** a node printed as [%B*%] whose content [B] is dispatched to it *)
Lemma reparses_extended node B :
  noPercent B = true ->
  getString node = "%" :: B ++ ["*"; "%"] ->
  dispatchExtended (B ++ ["*"]) B = node ->
  reparses node.
Proof.
  intros HB Hs Hd. left. exists (B ++ ["*"]). repeat split.
  - rewrite noPercent_app, HB. reflexivity.
  - rewrite Hs, <- app_assoc. reflexivity.
  - rewrite parseExtendedCommand_star. exact Hd.
Qed.

Lemma reparses_UnitMode u : noPercent u = true -> reparses (UnitMode u).
Proof.
  intros Hu. apply (reparses_extended _ ("M" :: "O" :: u));
    [exact Hu|reflexivity|reflexivity].
Qed.

Lemma reparses_LoadPolarity u :
  noPercent u = true -> reparses (LoadPolarity u).
Proof.
  intros Hu. apply (reparses_extended _ ("L" :: "P" :: u));
    [exact Hu|reflexivity|reflexivity].
Qed.

Lemma reparses_LoadMirroring u :
  noPercent u = true -> reparses (LoadMirroring u).
Proof.
  intros Hu. apply (reparses_extended _ ("L" :: "M" :: u));
    [exact Hu|reflexivity|reflexivity].
Qed.

Lemma reparses_SetImagePolarity u :
  noPercent u = true -> reparses (SetImagePolarity u).
Proof.
  intros Hu. apply (reparses_extended _ ("I" :: "P" :: u));
    [exact Hu|reflexivity|reflexivity].
Qed.

Lemma reparses_LoadRotation a :
  isDouble a = true -> noNegZero a = true -> reparses (LoadRotation a).
Proof.
  intros Ha Hz. apply negb_true_iff in Hz.
  apply (reparses_extended _ ("L" :: "R" :: toString a)).
  - apply toString_noPercent.
  - reflexivity.
  - cbn -[parseFloat toString].
    rewrite skipn_O, (parseFloat_toString a Ha Hz). reflexivity.
Qed.

Lemma reparses_LoadScaling a :
  isDouble a = true -> noNegZero a = true -> reparses (LoadScaling a).
Proof.
  intros Ha Hz. apply negb_true_iff in Hz.
  apply (reparses_extended _ ("L" :: "S" :: toString a)).
  - apply toString_noPercent.
  - reflexivity.
  - cbn -[parseFloat toString].
    rewrite skipn_O, (parseFloat_toString a Ha Hz). reflexivity.
Qed.

Lemma reparses_DeleteAttribute name :
  wellFormed (DeleteAttribute name) = true ->
  stable (DeleteAttribute name) = true ->
  reparses (DeleteAttribute name).
Proof.
  destruct name as [[|c n]|]; cbn [wellFormed stable]; intros Hw Hs;
    [discriminate| |].
  - apply (reparses_extended _ ("T" :: "D" :: "." :: c :: n));
      [exact Hw|reflexivity|reflexivity].
  - apply (reparses_extended _ (str "TD")); reflexivity.
Qed.

Lemma searchTwoDigits_X z m a b rest :
  Chr.isDigit a = true -> Chr.isDigit b = true ->
  searchTwoDigits "X" (z :: m :: "X" :: a :: b :: rest) = Some (a, b).
Proof.
  intros Ha Hb. cbn [searchTwoDigits].
  change (Chr.isDigit "X") with false.
  rewrite !andb_false_r. cbn [andb]. rewrite Ascii.eqb_refl, Ha, Hb.
  reflexivity.
Qed.

Lemma digit_not_letter a :
  Chr.isDigit a = true -> Ascii.eqb a "Y" = false /\ Ascii.eqb a "X" = false.
Proof.
  destruct a as [[] [] [] [] [] [] [] []]; intros H; try discriminate H;
    split; reflexivity.
Qed.

Lemma searchTwoDigits_Y z m a b c d :
  Chr.isDigit a = true -> Chr.isDigit b = true ->
  Chr.isDigit c = true -> Chr.isDigit d = true ->
  searchTwoDigits "Y" [z; m; "X"; a; b; "Y"; c; d] = Some (c, d).
Proof.
  intros Ha Hb Hc Hd. cbn [searchTwoDigits].
  change (Chr.isDigit "X") with false. change (Chr.isDigit "Y") with false.
  rewrite !andb_false_r. cbn [andb].
  change (Ascii.eqb "X" "Y") with false. rewrite Ascii.eqb_refl, Hc, Hd.
  reflexivity.
Qed.

Lemma oneChar_inv s : oneChar s = true -> exists c, s = [c] /\ notChar "%" c = true.
Proof. destruct s as [|c [|? ?]]; cbn; try discriminate. eauto. Qed.

Lemma reparses_FormatSpecification fs :
  wellFormed (FormatSpecification fs) = true ->
  reparses (FormatSpecification fs).
Proof.
  destruct fs as [zo cm xi xd yi yd]. cbn [wellFormed zeroOmission
    coordinateMode xIntegerDigits xDecimalDigits yIntegerDigits
    yDecimalDigits].
  intros H. apply andb_prop in H as [H Hyd]. apply andb_prop in H as [H Hyi].
  apply andb_prop in H as [H Hxd]. apply andb_prop in H as [H Hxi].
  apply andb_prop in H as [Hzo Hcm].
  destruct (oneChar_inv zo Hzo) as (z & -> & Hz).
  destruct (oneChar_inv cm Hcm) as (m & -> & Hm).
  destruct (digitZ_print xi Hxi) as (a & Ea & Ha & Pa).
  destruct (digitZ_print xd Hxd) as (b & Eb & Hb & Pb).
  destruct (digitZ_print yi Hyi) as (c & Ec & Hc & Pc).
  destruct (digitZ_print yd Hyd) as (d & Ed & Hd & Pd).
  apply (reparses_extended _ ["F"; "S"; z; m; "X"; a; b; "Y"; c; d]).
  - cbn [noPercent forallb]. rewrite Hz, Hm.
    pose proof (fun x H => proj1 (numChar_other x (digit_isNumChar x H)))
      as Hp.
    rewrite (Hp a Ha), (Hp b Hb), (Hp c Hc), (Hp d Hd). reflexivity.
  - cbn [getString zeroOmission coordinateMode xIntegerDigits
         xDecimalDigits yIntegerDigits yDecimalDigits].
    rewrite Ea, Eb, Ec, Ed. reflexivity.
  - unfold dispatchExtended. cbn [Str.startsWith Ascii.eqb Bool.eqb andb].
    unfold parseFormatSpec. cbn [Str.sliceFrom skipn].
    rewrite (searchTwoDigits_X z m a b _ Ha Hb).
    rewrite (searchTwoDigits_Y z m a b c d Ha Hb Hc Hd).
    rewrite Pa, Pb, Pc, Pd. reflexivity.
Qed.

End ReparseExtended.

(** ** Splitting, joining and searching *)

Section StringFacts.
Import Spec.

Lemma split_noSep c p :
  forallb (notChar c) p = true -> Str.split c p = [p].
Proof.
  induction p as [|x p IH]; [reflexivity|]. cbn [forallb Str.split].
  intros H. apply andb_prop in H as [Hx Hp]. unfold notChar in Hx.
  apply negb_true_iff in Hx. rewrite Hx, (IH Hp). reflexivity.
Qed.

Lemma split_app c p r :
  forallb (notChar c) p = true ->
  Str.split c (p ++ c :: r) = p :: Str.split c r.
Proof.
  induction p as [|x p IH]; cbn [forallb Str.split app].
  - rewrite Ascii.eqb_refl. reflexivity.
  - intros H. apply andb_prop in H as [Hx Hp]. unfold notChar in Hx.
    apply negb_true_iff in Hx. rewrite Hx, (IH Hp). reflexivity.
Qed.

Lemma split_join c p ps :
  forallb (fun x => forallb (notChar c) x) (p :: ps) = true ->
  Str.split c (Str.join [c] (p :: ps)) = p :: ps.
Proof.
  revert p. induction ps as [|q ps IH]; intros p H.
  - cbn [forallb] in H. apply andb_prop in H as [Hp _].
    apply split_noSep. exact Hp.
  - cbn [forallb] in H. apply andb_prop in H as [Hp Hq].
    change (Str.join [c] (p :: q :: ps))
      with (p ++ c :: Str.join [c] (q :: ps)).
    rewrite (split_app c p _ Hp), (IH q Hq). reflexivity.
Qed.

Lemma join_forallb (P : ascii -> bool) c l :
  P c = true ->
  forallb (fun x => forallb P x) l = true ->
  forallb P (Str.join [c] l) = true.
Proof.
  intros Hc. induction l as [|p [|q l] IH]; cbn [forallb Str.join]; intros H.
  - reflexivity.
  - apply andb_prop in H as [Hp _]. exact Hp.
  - apply andb_prop in H as [Hp Hq].
    rewrite forallb_app, Hp. cbn [app forallb andb]. rewrite Hc.
    apply IH. exact Hq.
Qed.

Lemma indexOf_none c s :
  forallb (notChar c) s = true -> Str.indexOf c s = None.
Proof.
  induction s as [|x s IH]; [reflexivity|]. cbn [forallb Str.indexOf].
  intros H. apply andb_prop in H as [Hx Hs]. unfold notChar in Hx.
  apply negb_true_iff in Hx. rewrite Hx, (IH Hs). reflexivity.
Qed.

Lemma indexOf_stop c a r :
  forallb (notChar c) a = true ->
  Str.indexOf c (a ++ c :: r) = Some (length a).
Proof.
  induction a as [|x a IH]; cbn [forallb Str.indexOf app length].
  - rewrite Ascii.eqb_refl. reflexivity.
  - intros H. apply andb_prop in H as [Hx Ha]. unfold notChar in Hx.
    apply negb_true_iff in Hx. rewrite Hx, (IH Ha). reflexivity.
Qed.

Lemma endsWith_app c s x s' :
  Str.endsWith c (s ++ x :: s') = Str.endsWith c (x :: s').
Proof.
  unfold Str.endsWith. rewrite rev_app_distr.
  destruct (rev (x :: s')) as [|y l] eqn:E; [|reflexivity].
  apply (f_equal (@length _)) in E. rewrite length_rev in E. discriminate.
Qed.

(** the search skips what holds no occurrence of the letter *)
Lemma searchAfter_skip L m pre s :
  forallb (notChar L) pre = true ->
  searchAfter L m (pre ++ s) = searchAfter L m s.
Proof.
  induction pre as [|x pre IH]; [reflexivity|]. cbn [forallb app searchAfter].
  intros H. apply andb_prop in H as [Hx Hp]. unfold notChar in Hx.
  apply negb_true_iff in Hx. rewrite Hx. exact (IH Hp).
Qed.

Lemma searchAfter_none L m s :
  forallb (notChar L) s = true -> searchAfter L m s = None.
Proof.
  intros H. rewrite <- (app_nil_r s). rewrite (searchAfter_skip L m s [] H).
  reflexivity.
Qed.

Lemma searchAfter_hit L m cap rest' pre s :
  forallb (notChar L) pre = true ->
  m s = Some (cap, rest') ->
  searchAfter L m (pre ++ L :: s) = Some cap.
Proof.
  intros Hp Hm. rewrite (searchAfter_skip L m pre _ Hp).
  cbn [searchAfter]. rewrite Ascii.eqb_refl, Hm. reflexivity.
Qed.

Lemma unsignedDecimal_plain t rest :
  unsignedDecimal t = Some (t, []) ->
  stopsDecimal rest ->
  unsignedDecimal (t ++ rest) = Some (t, rest).
Proof.
  unfold unsignedDecimal. intros Ht Hr.
  assert (Hrd : stopsDigits rest)
    by (destruct rest; [exact I|apply Hr]).
  destruct (span_cases Chr.isDigit t) as (Happ & Hd1 & Hc).
  destruct (Str.span Chr.isDigit t) as [d1 s2]. cbn [fst snd] in *.
  assert (Hint : s2 = [] -> d1 <> [] ->
                 (let '(d1', s2') := Str.span Chr.isDigit (t ++ rest) in
                  let integerOnly :=
                    match d1' with
                    | [] => None
                    | _ => Some (d1', s2')
                    end in
                  match s2' with
                  | c :: s3 =>
                      if Ascii.eqb c "." then
                        match Str.span Chr.isDigit s3 with
                        | ([], _) => integerOnly
                        | (d2, s4) => Some (d1' ++ "." :: d2, s4)
                        end
                      else integerOnly
                  | [] => integerOnly
                  end) = Some (t, rest)).
  { intros -> Hne. rewrite app_nil_r in Happ. subst d1.
    rewrite (span_digits t rest Hd1 Hrd).
    destruct rest as [|c r].
    - destruct t; [congruence|reflexivity].
    - destruct Hr as [_ Hdot]. rewrite Hdot.
      destruct t; [congruence|reflexivity]. }
  destruct s2 as [|c s3].
  - destruct d1 as [|x d1]; [discriminate|]. apply Hint; [reflexivity|].
    discriminate.
  - destruct (Ascii.eqb_spec c ".") as [->|Hne].
    + destruct (span_cases Chr.isDigit s3) as (Happ3 & Hd2 & _).
      destruct (Str.span Chr.isDigit s3) as [d2 s4]. cbn [fst snd] in *.
      destruct d2 as [|y d2].
      * destruct d1; [discriminate|]. injection Ht as Ht _.
        exfalso. rewrite Ht in Happ.
        apply (f_equal (@length _)) in Happ. rewrite length_app in Happ.
        cbn [length] in Happ. lia.
      * injection Ht as Ht ->. rewrite app_nil_r in Happ3. subst s3.
        rewrite Happ. rewrite <- app_assoc. cbn [app].
        rewrite (span_stop Chr.isDigit d1 "." _ Hd1 eq_refl).
        rewrite Ascii.eqb_refl.
        change (y :: d2 ++ rest) with ((y :: d2) ++ rest).
        rewrite (span_digits (y :: d2) rest Hd2 Hrd). reflexivity.
    + destruct d1 as [|x d1]; [discriminate|]. injection Ht as Ht.
      exfalso. rewrite Ht in Happ.
      apply (f_equal (@length _)) in Happ. rewrite length_app in Happ.
      cbn [length] in Happ. lia.
Qed.

(** a printed number in plain notation is matched whole, whatever
    follows it *)
Lemma decimal_plain t rest :
  decimal t = Some (t, []) ->
  stopsDecimal rest ->
  decimal (t ++ rest) = Some (t, rest).
Proof.
  intros Ht Hr. destruct t as [|c r]; [discriminate|].
  cbn [decimal app] in *. destruct (Chr.isSign c).
  - destruct (unsignedDecimal r) as [[d r']|] eqn:E; [|discriminate].
    injection Ht as -> ->. rewrite (unsignedDecimal_plain r rest E Hr).
    reflexivity.
  - apply (unsignedDecimal_plain (c :: r) rest Ht Hr).
Qed.

Lemma plainNum_inv v :
  isDouble v = true -> plainNum v = true ->
  parseFloat (toString v) = v
  /\ decimal (toString v) = Some (toString v, []).
Proof.
  unfold plainNum. intros Hd H. apply andb_prop in H as [Hp Hz].
  apply negb_true_iff in Hz.
  split; [apply parseFloat_toString; assumption|].
  apply decimal_toString. exact Hp.
Qed.

End StringFacts.

(** ** Round trip of the extended commands, continued *)

Section ReparseExtendedMore.
Import Spec.

Lemma attributeOk_inv name values :
  attributeOk name values = true ->
  forallb (fun x => forallb (notChar "%") x) (name :: values) = true
  /\ forallb (fun x => forallb (notChar ",") x) (name :: values) = true.
Proof.
  unfold attributeOk, noPercent, noComma. intros H.
  apply andb_prop in H as [H Hv]. apply andb_prop in H as [Hp Hc].
  cbn [forallb]. rewrite Hp, Hc. cbn [andb].
  induction values as [|v vs IH]; [split; reflexivity|].
  cbn [forallb] in *. apply andb_prop in Hv as [Hv Hvs].
  apply andb_prop in Hv as [Hvp Hvc]. destruct (IH Hvs) as [-> ->].
  rewrite Hvp, Hvc. split; reflexivity.
Qed.

Lemma attributeString_join prefix name values :
  attributeString prefix name values
  = prefix ++ Str.join [","] (name :: values) ++ ["*"; "%"].
Proof.
  unfold attributeString. destruct values as [|v vs].
  - reflexivity.
  - change (Str.join [","] (name :: v :: vs))
      with (name ++ "," :: Str.join [","] (v :: vs)).
    rewrite <- !app_assoc. reflexivity.
Qed.

Lemma parseAttribute_join prefix body name values Ctor :
  forallb (fun x => forallb (notChar ",") x) (name :: values) = true ->
  skipn (length prefix) body = Str.join [","] (name :: values) ->
  parseAttribute body prefix Ctor = Ctor name values.
Proof.
  intros Hc Hb. unfold parseAttribute, Str.sliceFrom.
  rewrite Hb, (split_join "," name values Hc). reflexivity.
Qed.

Lemma reparses_FileAttribute name values :
  attributeOk name values = true -> reparses (FileAttribute name values).
Proof.
  intros H. destruct (attributeOk_inv name values H) as [Hp Hc].
  apply (reparses_extended _
           ("T" :: "F" :: "." :: Str.join [","] (name :: values))).
  - apply (join_forallb (notChar "%") "," _ eq_refl Hp).
  - cbn [getString]. rewrite attributeString_join. reflexivity.
  - unfold dispatchExtended. cbn [Str.startsWith Ascii.eqb Bool.eqb andb
      list_ascii_of_string].
    apply (parseAttribute_join _ _ name values FileAttribute Hc).
    reflexivity.
Qed.

Lemma reparses_ApertureAttribute name values :
  attributeOk name values = true -> reparses (ApertureAttribute name values).
Proof.
  intros H. destruct (attributeOk_inv name values H) as [Hp Hc].
  apply (reparses_extended _
           ("T" :: "A" :: "." :: Str.join [","] (name :: values))).
  - apply (join_forallb (notChar "%") "," _ eq_refl Hp).
  - cbn [getString]. rewrite attributeString_join. reflexivity.
  - unfold dispatchExtended. cbn [Str.startsWith Ascii.eqb Bool.eqb andb
      list_ascii_of_string].
    apply (parseAttribute_join _ _ name values ApertureAttribute Hc).
    reflexivity.
Qed.

Lemma reparses_ObjectAttribute name values :
  attributeOk name values = true -> reparses (ObjectAttribute name values).
Proof.
  intros H. destruct (attributeOk_inv name values H) as [Hp Hc].
  apply (reparses_extended _
           ("T" :: "O" :: "." :: Str.join [","] (name :: values))).
  - apply (join_forallb (notChar "%") "," _ eq_refl Hp).
  - cbn [getString]. rewrite attributeString_join. reflexivity.
  - unfold dispatchExtended. cbn [Str.startsWith Ascii.eqb Bool.eqb andb
      list_ascii_of_string].
    apply (parseAttribute_join _ _ name values ObjectAttribute Hc).
    reflexivity.
Qed.

Lemma reparses_ApertureMacro name content :
  wellFormed (ApertureMacro name content) = true ->
  stable (ApertureMacro name content) = true ->
  reparses (ApertureMacro name content).
Proof.
  cbn [wellFormed stable]. intros Hw Hs.
  apply andb_prop in Hw as [Hw Hpc]. apply andb_prop in Hw as [Hpn Hsn].
  apply negb_true_iff in Hs.
  left. exists ("A" :: "M" :: name ++ "*" :: content). repeat split.
  - cbn [noPercent forallb]. change (notChar "%" "A") with true.
    change (notChar "%" "M") with true. cbn [andb].
    unfold noPercent in *. rewrite forallb_app, Hpn. cbn [forallb andb].
    exact Hpc.
  - cbn [getString]. cbn [list_ascii_of_string app].
    rewrite <- app_assoc. reflexivity.
  - destruct content as [|c cs].
    + change ("A" :: "M" :: name ++ ["*"])
        with (("A" :: "M" :: name) ++ ["*"]).
      rewrite parseExtendedCommand_star. unfold dispatchExtended.
      cbn [Str.startsWith Ascii.eqb Bool.eqb andb list_ascii_of_string].
      unfold parseApertureMacro.
      rewrite (indexOf_none "*" ("A" :: "M" :: name)) by exact Hsn.
      reflexivity.
    + unfold parseExtendedCommand.
      assert (He : Str.endsWith "*"
                     ("A" :: "M" :: name ++ "*" :: c :: cs) = false).
      { change ("A" :: "M" :: name ++ "*" :: c :: cs)
          with (("A" :: "M" :: name) ++ "*" :: c :: cs).
        rewrite endsWith_app.
        change ("*" :: c :: cs) with (["*"] ++ c :: cs).
        rewrite endsWith_app. exact Hs. }
      rewrite He. unfold dispatchExtended.
      cbn [Str.startsWith Ascii.eqb Bool.eqb andb list_ascii_of_string].
      unfold parseApertureMacro.
      change ("A" :: "M" :: name ++ "*" :: c :: cs)
        with (("A" :: "M" :: name) ++ "*" :: c :: cs).
      rewrite (indexOf_stop "*" ("A" :: "M" :: name) (c :: cs)) by exact Hsn.
      cbn [length]. unfold Str.slice, Str.sliceFrom.
      assert (H1 : firstn (S (S (length name)) - 2)
                     (skipn 2 (("A" :: "M" :: name) ++ "*" :: c :: cs))
                   = name).
      { cbn [app skipn].
        replace (S (S (length name)) - 2) with (length name) by lia.
        apply take_app_length. }
      assert (H2 : skipn (S (S (length name)) + 1)
                     (("A" :: "M" :: name) ++ "*" :: c :: cs)
                   = c :: cs).
      { replace (S (S (length name)) + 1) with (S (S (S (length name))))
          by lia.
        cbn [app skipn].
        replace (name ++ "*" :: c :: cs) with ((name ++ ["*"]) ++ c :: cs)
          by (rewrite <- app_assoc; reflexivity).
        replace (S (length name)) with (length (name ++ ["*"]))
          by (rewrite length_app; cbn; lia).
        apply drop_app_length. }
      rewrite H1, H2, Hs. reflexivity.
Qed.

End ReparseExtendedMore.

(** ** Round trip of the aperture definition, step-repeat and offset *)

Section ReparseNumeric.
Import Spec.

Lemma identStart_other c :
  Chr.isIdentStart c = true ->
  Chr.isDigit c = false /\ notChar "%" c = true.
Proof.
  destruct c as [[] [] [] [] [] [] [] []]; intros H; try discriminate H;
    split; reflexivity.
Qed.

Lemma identChar_other c :
  Chr.isIdentChar c = true -> notChar "%" c = true /\ Ascii.eqb c "," = false.
Proof.
  destruct c as [[] [] [] [] [] [] [] []]; intros H; try discriminate H;
    split; reflexivity.
Qed.

Lemma apertureDefinitionMatch_print ds c t tail :
  forallb Chr.isDigit ds = true -> ds <> [] ->
  Chr.isIdentStart c = true -> forallb Chr.isIdentChar t = true ->
  match tail with
  | [] => True
  | x :: p => x = "," /\ existsb Chr.isLineTerminator p = false
  end ->
  apertureDefinitionMatch ("A" :: "D" :: "D" :: ds ++ c :: t ++ tail)
  = Some (ds, c :: t, match tail with [] => None | _ :: p => Some p end).
Proof.
  intros Hds Hne Hc Ht Htail. unfold apertureDefinitionMatch.
  cbn [Str.startsWith Ascii.eqb Bool.eqb andb list_ascii_of_string skipn].
  unfold digits1. rewrite ?skipn_O.
  rewrite (span_digits ds (c :: t ++ tail) Hds
             (proj1 (identStart_other c Hc))).
  destruct ds as [|d ds']; [congruence|]. rewrite Hc.
  destruct tail as [|x p].
  - rewrite app_nil_r, (span_all _ t Ht). reflexivity.
  - destruct Htail as [-> Hp].
    rewrite (span_stop Chr.isIdentChar t "," p Ht eq_refl), Hp. reflexivity.
Qed.

Lemma map_reread params :
  forallb isDouble params = true -> forallb noNegZero params = true ->
  map parseFloat (map toString params) = params.
Proof.
  induction params as [|v vs IH]; [reflexivity|]. cbn [forallb map].
  intros H Hz. apply andb_prop in H as [Hv Hvs].
  apply andb_prop in Hz as [Hzv Hzs]. apply negb_true_iff in Hzv.
  rewrite (parseFloat_toString v Hv Hzv), (IH Hvs Hzs). reflexivity.
Qed.

Lemma toStrings_chars (P : ascii -> bool) params :
  (forall c, isNumChar c = true -> P c = true) ->
  forallb (fun x => forallb P x) (map toString params) = true.
Proof.
  intros HP. induction params as [|v vs IH]; [reflexivity|].
  cbn [map forallb]. rewrite IH, andb_true_r.
  apply (forallb_weaken isNumChar _ _ HP), toString_chars.
Qed.

Lemma existsb_forallb_neg {A} (p : A -> bool) l :
  forallb (fun x => negb (p x)) l = true -> existsb p l = false.
Proof.
  induction l as [|x l IH]; [reflexivity|]. cbn [forallb existsb].
  intros H. apply andb_prop in H as [Hx Hl]. apply negb_true_iff in Hx.
  rewrite Hx, (IH Hl). reflexivity.
Qed.

Lemma reparses_ApertureDefinition code template params :
  wellFormed (ApertureDefinition code template params) = true ->
  stable (ApertureDefinition code template params) = true ->
  reparses (ApertureDefinition code template params).
Proof.
  cbn [wellFormed stable]. intros Hw Hs.
  apply andb_prop in Hw as [Hw Hps]. apply andb_prop in Hw as [Hcode Hid].
  apply andb_prop in Hs as [Hplain Hzs].
  pose proof (isCount_integer code Hcode) as Hint.
  destruct (count_toString code Hcode Hplain) as [n En].
  pose proof (parseInt_toString code [] Hint Hplain I) as Hpi.
  rewrite app_nil_r, En in Hpi.
  destruct template as [|c t]; [discriminate|]. cbn [isIdentifier] in Hid.
  apply andb_prop in Hid as [Hc Ht].
  set (tail := match params with
               | [] => []
               | _ => "," :: Str.join ["X"] (map toString params)
               end).
  assert (Htail_pct : noPercent tail = true).
  { unfold tail. destruct params as [|v vs]; [reflexivity|].
    cbn [noPercent forallb]. change (notChar "%" ",") with true.
    cbn [andb]. apply (join_forallb (notChar "%") "X" _ eq_refl).
    apply toStrings_chars. intros x Hx. apply numChar_other. exact Hx. }
  apply (reparses_extended _
           ("A" :: "D" :: "D" :: toString code ++ (c :: t) ++ tail)).
  - cbn [noPercent forallb]. change (notChar "%" "A") with true.
    change (notChar "%" "D") with true. cbn [andb].
    fold (noPercent (toString code ++ (c :: t) ++ tail)).
    rewrite !noPercent_app, toString_noPercent, Htail_pct.
    cbn [noPercent forallb andb].
    rewrite (proj2 (identStart_other c Hc)). cbn [andb].
    rewrite (forallb_weaken Chr.isIdentChar (notChar "%") t
               (fun x Hx => proj1 (identChar_other x Hx)) Ht).
    reflexivity.
  - cbn [getString]. fold tail. normalize_app. reflexivity.
  - unfold dispatchExtended.
    cbn [Str.startsWith Ascii.eqb Bool.eqb andb list_ascii_of_string].
    unfold parseApertureDefinition. rewrite En. cbn [app].
    rewrite (apertureDefinitionMatch_print (digitsOfN n) c t tail
               (digitsOfN_digits _) (proj2 (digitsOfN_chars _)) Hc Ht).
    + rewrite Hpi.
      unfold tail. destruct params as [|v vs]; [reflexivity|].
      destruct (Str.join ["X"] (map toString (v :: vs))) as [|x p] eqn:Ej.
      * exfalso. cbn [map] in Ej. pose proof (toString_nonempty v) as Hv.
        destruct (map toString vs); cbn [Str.join] in Ej; [congruence|].
        destruct (toString v); [congruence|discriminate].
      * rewrite <- Ej. cbn [map].
        rewrite (split_join "X" (toString v) (map toString vs)).
        -- change (toString v :: map toString vs)
             with (map toString (v :: vs)).
           rewrite (map_reread (v :: vs) Hps Hzs). reflexivity.
        -- apply (toStrings_chars (notChar "X") (v :: vs)).
           intros x0 Hx. apply numChar_other. exact Hx.
    + unfold tail. destruct params as [|v vs]; [exact I|].
      split; [reflexivity|]. apply existsb_forallb_neg.
      apply (join_forallb (fun x => negb (Chr.isLineTerminator x)) "X" _
               eq_refl).
      apply toStrings_chars. intros x Hx.
      destruct (numChar_other x Hx) as (_ & _ & _ & _ & Hlt & _).
      rewrite Hlt. reflexivity.
Qed.

Lemma strictEq_one v : isDouble v = true -> strictEq v one = true -> v = one.
Proof.
  intros _ H. destruct v as [|s|s|neg m e]; try discriminate H.
  apply jsnum_eqb_eq. exact H.
Qed.

Lemma strictEq_zero v :
  plainNum v = true -> strictEq v zero = true -> v = zero.
Proof.
  unfold plainNum. intros Hp H. apply andb_prop in Hp as [_ Hz].
  destruct v as [|s|[]|neg m e]; try discriminate; reflexivity.
Qed.

Lemma reparses_StepRepeat x y i j :
  wellFormed (StepRepeat x y i j) = true ->
  stable (StepRepeat x y i j) = true ->
  reparses (StepRepeat x y i j).
Proof.
  cbn [wellFormed stable]. intros Hw Hs.
  apply andb_prop in Hw as [Hw Hnj]. apply andb_prop in Hw as [Hw Hni].
  apply andb_prop in Hw as [Hx Hy].
  apply andb_prop in Hs as [Hs Hj]. apply andb_prop in Hs as [Hs Hi].
  apply andb_prop in Hs as [Hpx Hpy].
  pose proof (isCount_integer x Hx) as Hix.
  pose proof (isCount_integer y Hy) as Hiy.
  destruct (plainNum_inv i Hni Hi) as [Pi Di].
  destruct (plainNum_inv j Hnj Hj) as [Pj Dj].
  destruct (strictEq x one && strictEq y one && strictEq i zero
            && strictEq j zero) eqn:Hdef.
  - apply andb_prop in Hdef as [Hdef Ej]. apply andb_prop in Hdef as [Hdef Ei].
    apply andb_prop in Hdef as [Ex Ey].
    apply strictEq_one in Ex, Ey;
      [|unfold isInteger in *;
        match goal with
        | H : isDouble ?v && _ = true |- isDouble ?v = true =>
            apply andb_prop in H as [H _]; exact H
        end..].
    apply strictEq_zero in Ei, Ej; [|assumption..]. subst.
    apply (reparses_extended _ (str "SR")); reflexivity.
  - set (xs := toString x). set (ys := toString y).
    set (it := toString i). set (jt := toString j).
    apply (reparses_extended _
             ("S" :: "R" :: "X" :: xs ++ "Y" :: ys ++ "I" :: it
              ++ "J" :: jt)).
    + subst xs ys it jt. forallb_chars.
    + cbn [getString]. rewrite Hdef. fold xs ys it jt.
      normalize_app. reflexivity.
    + unfold dispatchExtended.
      cbn [Str.startsWith Ascii.eqb Bool.eqb andb list_ascii_of_string].
      unfold parseStepRepeat. cbn [Str.sliceFrom skipn].
      assert (Hsx : searchAfter "X" digits1
                      ("X" :: xs ++ "Y" :: ys ++ "I" :: it ++ "J" :: jt)
                    = Some xs).
      { apply (searchAfter_hit "X" digits1 xs
                 ("Y" :: ys ++ "I" :: it ++ "J" :: jt) []); [reflexivity|].
        apply digits1_toString; [assumption|assumption|reflexivity]. }
      assert (Hsy : searchAfter "Y" digits1
                      ("X" :: xs ++ "Y" :: ys ++ "I" :: it ++ "J" :: jt)
                    = Some ys).
      { apply (searchAfter_hit "Y" digits1 ys ("I" :: it ++ "J" :: jt)
                 ("X" :: xs)).
        - subst xs. forallb_chars.
        - apply digits1_toString; [assumption|assumption|reflexivity]. }
      assert (Hsi : searchAfter "I" decimal
                      ("X" :: xs ++ "Y" :: ys ++ "I" :: it ++ "J" :: jt)
                    = Some it).
      { change ("X" :: xs ++ "Y" :: ys ++ "I" :: it ++ "J" :: jt)
          with (("X" :: xs) ++ ("Y" :: ys) ++ "I" :: it ++ "J" :: jt).
        rewrite app_assoc.
        apply (searchAfter_hit "I" decimal it ("J" :: jt)).
        - subst xs ys. forallb_chars.
        - apply decimal_plain; [exact Di|]. split; reflexivity. }
      assert (Hsj : searchAfter "J" decimal
                      ("X" :: xs ++ "Y" :: ys ++ "I" :: it ++ "J" :: jt)
                    = Some jt).
      { change ("X" :: xs ++ "Y" :: ys ++ "I" :: it ++ "J" :: jt)
          with (("X" :: xs) ++ ("Y" :: ys) ++ ("I" :: it) ++ "J" :: jt).
        rewrite !app_assoc.
        apply (searchAfter_hit "J" decimal jt []).
        - subst xs ys it. forallb_chars.
        - exact Dj. }
      rewrite Hsx, Hsy, Hsi, Hsj. unfold xs, ys, it, jt.
      pose proof (parseInt_toString x [] Hix Hpx I) as Px.
      pose proof (parseInt_toString y [] Hiy Hpy I) as Py.
      rewrite app_nil_r in Px, Py. rewrite Px, Py, Pi, Pj. reflexivity.
Qed.

Lemma reparses_SetOffset a b :
  wellFormed (SetOffset a b) = true ->
  stable (SetOffset a b) = true -> reparses (SetOffset a b).
Proof.
  cbn [wellFormed stable]. intros Hw Hs.
  apply andb_prop in Hw as [Hna Hnb]. apply andb_prop in Hs as [Ha Hb].
  destruct (plainNum_inv a Hna Ha) as [Pa Da].
  destruct (plainNum_inv b Hnb Hb) as [Pb Db].
  set (as_ := toString a). set (bs := toString b).
  apply (reparses_extended _ ("O" :: "F" :: "A" :: as_ ++ "B" :: bs)).
  - subst as_ bs. forallb_chars.
  - cbn [getString]. fold as_ bs. normalize_app. reflexivity.
  - unfold dispatchExtended.
    cbn [Str.startsWith Ascii.eqb Bool.eqb andb list_ascii_of_string].
    assert (Hsa : searchAfter "A" decimal
                    ("O" :: "F" :: "A" :: as_ ++ "B" :: bs) = Some as_).
    { apply (searchAfter_hit "A" decimal as_ ("B" :: bs) ["O"; "F"]);
        [reflexivity|].
      apply decimal_plain; [exact Da|]. split; reflexivity. }
    assert (Hsb : searchAfter "B" decimal
                    ("O" :: "F" :: "A" :: as_ ++ "B" :: bs) = Some bs).
    { apply (searchAfter_hit "B" decimal bs [] ("O" :: "F" :: "A" :: as_)).
      - subst as_. forallb_chars.
      - exact Db. }
    rewrite Hsa, Hsb. unfold as_, bs. rewrite Pa, Pb. reflexivity.
Qed.

End ReparseNumeric.

(** ** Round trip of the commands *)

Section ReparseCommands.
Import Spec.

Lemma Str_eqb_eq a b : Str.eqb a b = true -> a = b.
Proof.
  revert b. induction a as [|x a IH]; intros [|y b]; cbn; try discriminate;
    [reflexivity|].
  intros H. apply andb_prop in H as [Hx Hab].
  apply Ascii.eqb_eq in Hx. rewrite Hx, (IH b Hab). reflexivity.
Qed.

(** a node printed as [w*] whose text [w] is parsed to it *)
Lemma reparses_command node w :
  noStar w = true -> startsCommand w = true ->
  getString node = w ++ ["*"] ->
  parseCommand w = Ok node ->
  reparses node.
Proof. intros. right. exists w. auto. Qed.

Lemma reparses_SetInterpolationMode m :
  isModeString m = true -> reparses (SetInterpolationMode m).
Proof.
  unfold isModeString. intros H.
  repeat (apply orb_prop in H as [H|H]);
    apply Str_eqb_eq in H; subst m;
    match goal with
    | |- reparses (SetInterpolationMode ?m) =>
        apply (reparses_command _ m); reflexivity
    end.
Qed.

Lemma reparses_RegionStart : reparses RegionStart.
Proof. apply (reparses_command _ (str "G36")); reflexivity. Qed.

Lemma reparses_RegionEnd : reparses RegionEnd.
Proof. apply (reparses_command _ (str "G37")); reflexivity. Qed.

Lemma reparses_EndOfFile : reparses EndOfFile.
Proof. apply (reparses_command _ (str "M02")); reflexivity. Qed.

Lemma span_noLeadingSpace t :
  noLeadingSpace t = true -> Str.span Chr.isSpace t = ([], t).
Proof.
  destruct t as [|c t]; [reflexivity|]. cbn [noLeadingSpace Str.span].
  intros H. apply negb_true_iff in H. rewrite H. reflexivity.
Qed.

Lemma reparses_Comment t :
  wellFormed (Comment t) = true -> reparses (Comment t).
Proof.
  cbn [wellFormed]. intros H. apply andb_prop in H as [Hs Hl].
  apply (reparses_command _ ("G" :: "0" :: "4" :: " " :: t)).
  - forallb_chars.
  - reflexivity.
  - reflexivity.
  - unfold parseCommand.
    cbn [Str.startsWith Str.eqb Ascii.eqb Bool.eqb andb orb
         list_ascii_of_string].
    unfold stripCommentPrefix. cbn [Str.span].
    change (Chr.isSpace " ") with true. cbn iota.
    rewrite (span_noLeadingSpace t Hl). reflexivity.
Qed.

Lemma reparses_SelectAperture code :
  wellFormed (SelectAperture code) = true ->
  stable (SelectAperture code) = true -> reparses (SelectAperture code).
Proof.
  cbn [wellFormed stable]. intros H Hp. apply andb_prop in H as [Hc Hge].
  pose proof (isCount_integer code Hc) as Hi.
  apply (reparses_command _ ("D" :: toString code)).
  - forallb_chars.
  - reflexivity.
  - reflexivity.
  - unfold parseCommand.
    cbn [Str.startsWith Str.eqb Ascii.eqb Bool.eqb andb orb
         list_ascii_of_string].
    unfold apertureMatch.
    pose proof (digits1_toString code [] Hc Hp I) as Hd.
    pose proof (parseInt_toString code [] Hi Hp I) as Hpi.
    rewrite app_nil_r in Hd, Hpi. rewrite Hd, Hpi, Hge.
    apply new_SelectAperture_ok. exact Hge.
Qed.

Lemma optCoord_print L v rest :
  isCoord v = true -> plainCoord v = true ->
  stopsCoord L rest -> optCoord L (coordString L v ++ rest) = rest.
Proof.
  intros Hi Hp Hr. destruct v as [z|]; cbn [coordString app optCoord].
  - rewrite Ascii.eqb_refl, signedInt_toString; [reflexivity|assumption..|].
    destruct rest; [exact I|apply Hr].
  - destruct rest as [|c r]; [reflexivity|]. cbn [optCoord].
    destruct Hr as [_ ->]. reflexivity.
Qed.

Lemma searchCoord_print L v pre post :
  isCoord v = true -> plainCoord v = true ->
  forallb (notChar L) pre = true ->
  forallb (notChar L) post = true ->
  stopsDigits post ->
  option_map parseInt (searchAfter L signedInt (pre ++ coordString L v ++ post))
  = v.
Proof.
  intros Hi Hp Hpre Hpost Hstop. destruct v as [z|]; cbn [coordString app].
  - rewrite (searchAfter_hit L signedInt (toString z) post pre _ Hpre
               (signedInt_toString z post Hi Hp Hstop)).
    cbn [option_map]. pose proof (parseInt_toString z [] Hi Hp I) as Hpi.
    rewrite app_nil_r in Hpi. rewrite Hpi. reflexivity.
  - rewrite searchAfter_none; [reflexivity|].
    rewrite forallb_app, Hpre, Hpost. reflexivity.
Qed.

Lemma searchDCode_skip pre s :
  forallb (notChar "D") pre = true -> searchDCode (pre ++ s) = searchDCode s.
Proof.
  induction pre as [|x pre IH]; [reflexivity|]. cbn [forallb app searchDCode].
  intros H. apply andb_prop in H as [Hx Hp]. unfold notChar in Hx.
  apply negb_true_iff in Hx. rewrite Hx. exact (IH Hp).
Qed.

Lemma coordString_notChar L L' v :
  isCoord v = true -> plainCoord v = true ->
  Ascii.eqb L' L = false ->
  (forall c, isIntChar c = true -> notChar L c = true) ->
  forallb (notChar L) (coordString L' v) = true.
Proof.
  intros Hi Hp HL Hint. destruct v as [z|]; [|reflexivity].
  cbn [coordString forallb]. unfold notChar at 1. rewrite HL. cbn [negb andb].
  apply (forallb_weaken isIntChar _ _ Hint), toString_intChars; assumption.
Qed.

(** the text of an operation starts with a coordinate letter or is a
    bare d-code *)
Lemma parseCommand_operation w :
  (exists c r, w = c :: r
               /\ (c = "X" \/ c = "Y" \/ c = "I" \/ c = "J"))
  \/ (exists d, w = dcodeString d) ->
  operationMatch w = true ->
  parseCommand w = Ok (parseOperation w).
Proof.
  intros [(c & r & -> & Hc)|[d ->]] Hop.
  - unfold parseCommand.
    destruct Hc as [->|[->|[->| ->]]];
      cbn [Str.startsWith Str.eqb Ascii.eqb Bool.eqb andb orb
           list_ascii_of_string apertureMatch];
      rewrite Hop; reflexivity.
  - destruct d; reflexivity.
Qed.

Lemma reparses_Operation dcode c :
  wellFormed (Operation dcode c) = true ->
  stable (Operation dcode c) = true ->
  reparses (Operation dcode c).
Proof.
  destruct c as [vx vy vi vj]. cbn [wellFormed stable cx cy ci cj].
  intros Hw Hs.
  apply andb_prop in Hw as [Hw Hwj]. apply andb_prop in Hw as [Hw Hwi].
  apply andb_prop in Hw as [Hwx Hwy].
  apply andb_prop in Hs as [Hs Hsj]. apply andb_prop in Hs as [Hs Hsi].
  apply andb_prop in Hs as [Hsx Hsy].
  set (sx := coordString "X" vx). set (sy := coordString "Y" vy).
  set (si := coordString "I" vi). set (sj := coordString "J" vj).
  set (sd := dcodeString dcode).
  assert (Hint : forall L, In L ["X"; "Y"; "I"; "J"; "D"; "*"] ->
                 forall x, isIntChar x = true -> notChar L x = true).
  { intros L HL x Hx. cbn [In] in HL.
    destruct HL as [<-|[<-|[<-|[<-|[<-|[<-|[]]]]]]];
      apply intChar_other; exact Hx. }
  assert (Hcs : forall L L' v, isCoord v = true -> plainCoord v = true ->
                In L ["X"; "Y"; "I"; "J"; "D"; "*"] ->
                Ascii.eqb L' L = false ->
                forallb (notChar L) (coordString L' v) = true).
  { intros L L' v Hi Hp HL Hne.
    apply coordString_notChar; [exact Hi|exact Hp|exact Hne|].
    apply Hint. exact HL. }
  assert (Hsd : forall L, In L ["X"; "Y"; "I"; "J"; "*"] ->
                forallb (notChar L) sd = true).
  { intros L HL. cbn [In] in HL. unfold sd.
    destruct HL as [<-|[<-|[<-|[<-|[<-|[]]]]]]; destruct dcode;
      reflexivity. }
  apply (reparses_command _ (sx ++ sy ++ si ++ sj ++ sd)).
  - unfold noStar. rewrite !forallb_app.
    unfold sx, sy, si, sj.
    rewrite !Hcs, Hsd by (cbn [In]; (tauto || reflexivity || assumption)). reflexivity.
  - unfold sx, sy, si, sj, sd.
    destruct vx, vy, vi, vj, dcode; reflexivity.
  - cbn [getString cx cy ci cj]. fold sx sy si sj sd.
    rewrite <- !app_assoc. reflexivity.
  - rewrite parseCommand_operation.
    + unfold parseOperation.
      assert (HD : searchDCode (sx ++ sy ++ si ++ sj ++ sd)
                   = searchDCode sd).
      { rewrite !app_assoc. apply searchDCode_skip.
        rewrite !forallb_app. unfold sx, sy, si, sj.
        rewrite !Hcs by (cbn [In]; (tauto || reflexivity || assumption)). reflexivity. }
      rewrite HD. unfold parseCoordinates.
      assert (Hd0 : stopsDigits sd) by (unfold sd; destruct dcode; reflexivity).
      assert (HX : option_map parseInt
                     (searchAfter "X" signedInt
                        (sx ++ sy ++ si ++ sj ++ sd)) = vx).
      { apply (searchCoord_print "X" vx [] (sy ++ si ++ sj ++ sd) Hwx Hsx);
          [reflexivity| |].
        - rewrite !forallb_app. unfold sy, si, sj.
          rewrite !Hcs, Hsd by (cbn [In]; (tauto || reflexivity || assumption)). reflexivity.
        - unfold sy, si, sj, sd.
          destruct vy, vi, vj, dcode; reflexivity. }
      assert (HY : option_map parseInt
                     (searchAfter "Y" signedInt
                        (sx ++ sy ++ si ++ sj ++ sd)) = vy).
      { apply (searchCoord_print "Y" vy sx (si ++ sj ++ sd) Hwy Hsy).
        - unfold sx. apply Hcs; [assumption|assumption|cbn [In]; tauto|reflexivity].
        - rewrite !forallb_app. unfold si, sj.
          rewrite !Hcs, Hsd by (cbn [In]; (tauto || reflexivity || assumption)). reflexivity.
        - unfold si, sj, sd. destruct vi, vj, dcode; reflexivity. }
      assert (HI : option_map parseInt
                     (searchAfter "I" signedInt
                        (sx ++ sy ++ si ++ sj ++ sd)) = vi).
      { rewrite (app_assoc sx sy).
        apply (searchCoord_print "I" vi (sx ++ sy) (sj ++ sd) Hwi Hsi).
        - rewrite !forallb_app. unfold sx, sy.
          rewrite !Hcs by (cbn [In]; (tauto || reflexivity || assumption)). reflexivity.
        - rewrite !forallb_app. unfold sj.
          rewrite !Hcs, Hsd by (cbn [In]; (tauto || reflexivity || assumption)). reflexivity.
        - unfold sj, sd. destruct vj, dcode; reflexivity. }
      assert (HJ : option_map parseInt
                     (searchAfter "J" signedInt
                        (sx ++ sy ++ si ++ sj ++ sd)) = vj).
      { rewrite (app_assoc sx sy), (app_assoc (sx ++ sy) si).
        apply (searchCoord_print "J" vj ((sx ++ sy) ++ si) sd Hwj Hsj).
        - rewrite !forallb_app. unfold sx, sy, si.
          rewrite !Hcs by (cbn [In]; (tauto || reflexivity || assumption)). reflexivity.
        - apply Hsd. cbn [In]. tauto.
        - exact Hd0. }
      rewrite HX, HY, HI, HJ. unfold sd. destruct dcode; reflexivity.
    + unfold sx, sy, si, sj, sd.
      destruct vx as [zx|]; [left; eexists _, _; split; [reflexivity|tauto]|].
      destruct vy as [zy|]; [left; eexists _, _; split; [reflexivity|tauto]|].
      destruct vi as [zi|]; [left; eexists _, _; split; [reflexivity|tauto]|].
      destruct vj as [zj|]; [left; eexists _, _; split; [reflexivity|tauto]|].
      right. exists dcode. reflexivity.
    + unfold operationMatch, optCoords.
      unfold sx. rewrite (optCoord_print "X" vx _ Hwx Hsx)
        by (unfold sy, si, sj, sd; destruct vy, vi, vj, dcode;
            cbn [coordString app dcodeString list_ascii_of_string
                 stopsCoord]; split; reflexivity).
      unfold sy. rewrite (optCoord_print "Y" vy _ Hwy Hsy)
        by (unfold si, sj, sd; destruct vi, vj, dcode;
            cbn [coordString app dcodeString list_ascii_of_string
                 stopsCoord]; split; reflexivity).
      unfold si. rewrite (optCoord_print "I" vi _ Hwi Hsi)
        by (unfold sj, sd; destruct vj, dcode;
            cbn [coordString app dcodeString list_ascii_of_string
                 stopsCoord]; split; reflexivity).
      unfold sj. rewrite (optCoord_print "J" vj _ Hwj Hsj)
        by (unfold sd; destruct dcode;
            cbn [coordString app dcodeString list_ascii_of_string
                 stopsCoord]; split; reflexivity).
      unfold sd. destruct dcode; reflexivity.
Qed.

End ReparseCommands.

(** ** Every stable node parses back from its serialization *)

Section NodeReparses.
Import Spec.

Lemma node_reparses node :
  wellFormed node = true -> stable node = true -> recognised node = true ->
  reparses node.
Proof.
  intros Hw Hs Hr. destruct node.
  - apply reparses_FormatSpecification. exact Hw.
  - apply reparses_UnitMode. exact Hw.
  - apply reparses_ApertureDefinition; assumption.
  - apply reparses_ApertureMacro; assumption.
  - apply reparses_LoadPolarity. exact Hw.
  - apply reparses_LoadMirroring. exact Hw.
  - apply reparses_LoadRotation; assumption.
  - apply reparses_LoadScaling; assumption.
  - apply reparses_StepRepeat; assumption.
  - apply reparses_FileAttribute. exact Hw.
  - apply reparses_ApertureAttribute. exact Hw.
  - apply reparses_ObjectAttribute. exact Hw.
  - apply reparses_DeleteAttribute; assumption.
  - apply reparses_SetInterpolationMode. exact Hw.
  - apply reparses_Comment. exact Hw.
  - apply reparses_RegionStart.
  - apply reparses_RegionEnd.
  - apply reparses_Operation; assumption.
  - apply reparses_SelectAperture; assumption.
  - apply reparses_EndOfFile.
  - apply reparses_SetImagePolarity. exact Hw.
  - apply reparses_SetOffset; assumption.
  - discriminate Hr.
Qed.

End NodeReparses.

(** ** What the tokenizer guarantees of its tokens *)

Section LexemesOk.
Import Spec.

Lemma forallb_removelast {A} (p : A -> bool) l :
  forallb p l = true -> forallb p (removelast l) = true.
Proof.
  induction l as [|x [|y l] IH]; cbn [removelast forallb]; auto.
  intros H. apply andb_prop in H as [Hx Hl]. rewrite Hx. cbn [andb].
  apply IH. exact Hl.
Qed.

Lemma startsCommand_removelast c a :
  startsCommand (c :: a) = true -> startsCommand (removelast (c :: a)) = true.
Proof. destruct a; cbn; auto. Qed.

Lemma lexemes_ok n : forall s,
  length s <= n -> forallb lexemeOk (lexemes s) = true.
Proof.
  induction n as [|n IH]; intros s Hlen.
  { destruct s; [reflexivity|cbn [length] in Hlen; lia]. }
  rewrite lexemes_unfold.
  destruct (span_cases Chr.isBlank s) as (Happ & _ & Hb).
  destruct (Str.span Chr.isBlank s) as [bl s1]. cbn [fst snd] in *.
  destruct s1 as [|c r]; [reflexivity|].
  assert (Hlr : length r <= n).
  { rewrite Happ, length_app in Hlen. cbn [length] in Hlen. lia. }
  destruct (Ascii.eqb_spec c "%") as [->|Hne].
  - destruct (span_cases (notChar "%") r) as (Hr & Hv & _).
    pose proof (span_length (notChar "%") r) as Hl.
    destruct (Str.span (notChar "%") r) as [v b]. cbn [fst snd] in *.
    cbn [forallb]. unfold lexemeOk at 1. cbn [fst snd]. unfold noPercent.
    rewrite Hv. cbn [andb]. apply IH.
    pose proof (tl_length b). lia.
  - destruct (span_cases (notChar "*") (c :: r)) as (Hr & Hw & _).
    pose proof (span_length (notChar "*") (c :: r)) as Hl.
    destruct (Str.span (notChar "*") (c :: r)) as [w b]. cbn [fst snd] in *.
    cbn [forallb].
    assert (Hb' : length (tl b) <= n).
    { destruct b as [|x b]; cbn [tl length] in *.
      - lia.
      - apply (f_equal (@length _)) in Hr. rewrite length_app in Hr.
        cbn [length] in Hr. lia. }
    rewrite (IH _ Hb'), andb_true_r.
    unfold lexemeOk. cbn [fst snd].
    assert (Hsc : startsCommand w = true).
    { destruct w as [|x w]; [reflexivity|]. cbn [app] in Hr.
      injection Hr as <- _. cbn [startsCommand]. rewrite Hb. cbn [negb andb].
      unfold notChar. apply negb_true_iff, Ascii.eqb_neq. exact Hne. }
    destruct b as [|x b]; cbn [firstn].
    + rewrite app_nil_r. unfold noStar.
      rewrite (forallb_removelast _ _ Hw). cbn [andb].
      destruct w; [reflexivity|]. apply startsCommand_removelast. exact Hsc.
    + rewrite removelast_last. unfold noStar. rewrite Hw, Hsc. reflexivity.
Qed.

End LexemesOk.

(** ** What the parser guarantees of its nodes: extended commands *)

Section WellFormedExtended.
Import Spec.

Lemma charAt_oneChar i rest d :
  noPercent rest = true -> oneChar d = true ->
  oneChar (orElse (charAt i rest) d) = true.
Proof.
  intros Hr Hd. unfold charAt.
  destruct (nth_error rest i) as [c|] eqn:E; [|exact Hd].
  cbn [option_map orElse oneChar]. apply nth_error_In in E.
  unfold noPercent in Hr. rewrite forallb_forall in Hr. apply Hr. exact E.
Qed.

Lemma searchTwoDigits_inv L s a b :
  searchTwoDigits L s = Some (a, b) ->
  Chr.isDigit a = true /\ Chr.isDigit b = true.
Proof.
  induction s as [|c r IH]; [discriminate|]. cbn [searchTwoDigits].
  destruct r as [|d1 [|d2 r']]; try exact IH.
  destruct (Ascii.eqb c L && Chr.isDigit d1 && Chr.isDigit d2) eqn:E;
    [|exact IH].
  intros [= <- <-]. apply andb_prop in E as [E H2].
  apply andb_prop in E as [_ H1]. split; assumption.
Qed.

Lemma digit_parseInt a :
  Chr.isDigit a = true -> isDigitZ (parseDigit a) = true.
Proof.
  destruct a as [[] [] [] [] [] [] [] []]; intros H; try discriminate H;
    reflexivity.
Qed.

Lemma parseFormatSpec_wf content :
  noPercent content = true -> wellFormed (parseFormatSpec content) = true.
Proof.
  intros Hc. unfold parseFormatSpec, new_FormatSpecification.
  cbn [wellFormed zeroOmission coordinateMode xIntegerDigits xDecimalDigits
       yIntegerDigits yDecimalDigits init_zeroOmission init_coordinateMode
       init_xIntegerDigits init_xDecimalDigits init_yIntegerDigits
       init_yDecimalDigits orElse].
  assert (Hr : noPercent (Str.sliceFrom 2 content) = true)
    by (apply forallb_skipn; exact Hc).
  rewrite !charAt_oneChar by (assumption || reflexivity). cbn [andb].
  destruct (searchTwoDigits "X" (Str.sliceFrom 2 content)) as [[a b]|] eqn:EX;
    destruct (searchTwoDigits "Y" (Str.sliceFrom 2 content)) as [[c d]|] eqn:EY;
    repeat match goal with
           | H : searchTwoDigits _ _ = Some _ |- _ =>
               apply searchTwoDigits_inv in H as [? ?]
           end;
    rewrite ?digit_parseInt by assumption; reflexivity.
Qed.

Lemma digits1_inv s d r :
  digits1 s = Some (d, r) ->
  d <> [] /\ forallb Chr.isDigit d = true /\ s = d ++ r.
Proof.
  unfold digits1. destruct (span_cases Chr.isDigit s) as (Happ & Hd & _).
  destruct (Str.span Chr.isDigit s) as [d' r']. cbn [fst snd] in *.
  destruct d' as [|x d']; [discriminate|]. intros [= <- <-].
  repeat split; [discriminate|exact Hd|exact Happ].
Qed.

Lemma default_aperture_wf :
  wellFormed (new_ApertureDefinition ten (str "C") None) = true.
Proof. vm_compute. reflexivity. Qed.

Lemma parseApertureDefinition_wf content :
  wellFormed (parseApertureDefinition content) = true.
Proof.
  unfold parseApertureDefinition, apertureDefinitionMatch.
  destruct (Str.startsWith (str "ADD") content);
    [|apply default_aperture_wf].
  destruct (digits1 (skipn 3 content)) as [[code [|c s1]]|] eqn:Ed;
    try apply default_aperture_wf.
  destruct (Chr.isIdentStart c) eqn:Hc; [|apply default_aperture_wf].
  destruct (span_cases Chr.isIdentChar s1) as (_ & Ht & _).
  destruct (Str.span Chr.isIdentChar s1) as [t s2]. cbn [fst snd] in *.
  apply digits1_inv in Ed as (Hne & Hd & _).
  pose proof (parseInt_digits_count code Hne Hd) as Hcount.
  assert (Hwf : forall p,
            forallb isDouble p = true ->
            wellFormed
              (new_ApertureDefinition (parseInt code) (c :: t) (Some p))
            = true).
  { intros p Hp. cbn [new_ApertureDefinition wellFormed isIdentifier orElse].
    rewrite Hcount, Hc, Ht, Hp. reflexivity. }
  assert (Hmap : forall l, forallb isDouble (map parseFloat l) = true).
  { induction l as [|x l IH]; [reflexivity|]. cbn [map forallb].
    rewrite parseFloat_isDouble, IH. reflexivity. }
  destruct s2 as [|x p]; [apply Hwf; reflexivity|].
  destruct (Ascii.eqb_spec x ",") as [->|Hne'].
  - destruct (existsb Chr.isLineTerminator p); [apply default_aperture_wf|].
    apply Hwf. destruct p; [reflexivity|apply Hmap].
  - destruct x as [[] [] [] [] [] [] [] []];
      try apply default_aperture_wf.
    congruence.
Qed.

Lemma indexOf_inv c s k :
  Str.indexOf c s = Some k -> forallb (notChar c) (firstn k s) = true.
Proof.
  revert k. induction s as [|x s IH]; intros k; [discriminate|].
  cbn [Str.indexOf]. destruct (Ascii.eqb x c) eqn:E.
  - intros [= <-]. reflexivity.
  - destruct (Str.indexOf c s) as [k'|]; [|discriminate].
    intros [= <-]. cbn [firstn forallb]. unfold notChar at 1.
    rewrite E. cbn [negb andb]. apply IH. reflexivity.
Qed.

Lemma indexOf_none_inv c s :
  Str.indexOf c s = None -> forallb (notChar c) s = true.
Proof.
  induction s as [|x s IH]; [reflexivity|]. cbn [Str.indexOf forallb].
  destruct (Ascii.eqb x c) eqn:E; [discriminate|].
  destruct (Str.indexOf c s); [discriminate|]. intros _.
  unfold notChar at 1. rewrite E. cbn [negb andb]. apply IH. reflexivity.
Qed.

Lemma parseApertureMacro_wf content :
  noPercent content = true -> wellFormed (parseApertureMacro content) = true.
Proof.
  intros Hc. unfold parseApertureMacro.
  destruct (Str.indexOf "*" content) as [k|] eqn:E; cbn [wellFormed].
  - unfold Str.slice, Str.sliceFrom.
    rewrite <- skipn_firstn_comm.
    apply indexOf_inv in E.
    unfold noPercent, noStar in *.
    rewrite !forallb_skipn, ?forallb_firstn by
      (try assumption; apply forallb_firstn; assumption).
    cbn [andb].
    destruct (Str.endsWith "*" (skipn (k + 1) content));
      [apply forallb_removelast|]; apply forallb_skipn; exact Hc.
  - apply indexOf_none_inv in E. unfold noPercent, noStar, Str.sliceFrom in *.
    rewrite !forallb_skipn by assumption. reflexivity.
Qed.

Lemma searchAfter_digits1_inv L s c :
  searchAfter L digits1 s = Some c ->
  c <> [] /\ forallb Chr.isDigit c = true.
Proof.
  induction s as [|x r IH]; [discriminate|]. cbn [searchAfter].
  destruct (Ascii.eqb x L); [|exact IH].
  destruct (digits1 r) as [[d r']|] eqn:E; [|exact IH].
  intros [= <-]. apply digits1_inv in E as (? & ? & _). split; assumption.
Qed.

Lemma optFloat_double (m : option jsstring) :
  isDouble match m with
           | Some c => parseFloat c
           | None => zero
           end = true.
Proof. destruct m; [apply parseFloat_isDouble|reflexivity]. Qed.

Lemma isCount_one : isCount one = true.
Proof. vm_compute. reflexivity. Qed.

Lemma parseStepRepeat_wf content :
  wellFormed (parseStepRepeat content) = true.
Proof.
  unfold parseStepRepeat. destruct (Str.sliceFrom 2 content) as [|c r];
    [vm_compute; reflexivity|].
  cbn [new_StepRepeat wellFormed orElse].
  assert (H : forall L, isCount match searchAfter L digits1 (c :: r) with
                                | Some x => parseInt x
                                | None => one
                                end = true).
  { intros L. destruct (searchAfter L digits1 (c :: r)) as [x|] eqn:E;
      [|apply isCount_one].
    apply searchAfter_digits1_inv in E as [Hne Hd].
    apply parseInt_digits_count; assumption. }
  rewrite !H, !optFloat_double. reflexivity.
Qed.

Lemma split_pieces (P : ascii -> bool) c s :
  forallb P s = true ->
  forallb (fun x => forallb P x) (Str.split c s) = true.
Proof.
  induction s as [|x s IH]; [reflexivity|]. cbn [forallb Str.split].
  intros H. apply andb_prop in H as [Hx Hs]. specialize (IH Hs).
  destruct (Ascii.eqb x c); [exact IH|].
  destruct (Str.split c s) as [|p ps]; cbn [forallb] in *.
  - rewrite Hx. reflexivity.
  - apply andb_prop in IH as [Hp Hps]. rewrite Hx, Hp, Hps. reflexivity.
Qed.

Lemma split_noSep_pieces c s :
  forallb (fun x => forallb (notChar c) x) (Str.split c s) = true.
Proof.
  induction s as [|x s IH]; [reflexivity|]. cbn [Str.split].
  destruct (Ascii.eqb x c) eqn:E; [exact IH|].
  destruct (Str.split c s) as [|p ps]; cbn [forallb] in *.
  - unfold notChar. rewrite E. reflexivity.
  - unfold notChar at 1. rewrite E. exact IH.
Qed.

Lemma parseAttribute_wf content prefix Ctor :
  noPercent content = true ->
  (forall name values, wellFormed (Ctor name values)
                       = attributeOk name values) ->
  wellFormed (parseAttribute content prefix Ctor) = true.
Proof.
  intros Hc HC. unfold parseAttribute. rewrite HC.
  assert (Hr : noPercent (Str.sliceFrom (length prefix) content) = true)
    by (apply forallb_skipn; exact Hc).
  pose proof (split_pieces (notChar "%") ","
                (Str.sliceFrom (length prefix) content) Hr) as Hp.
  pose proof (split_noSep_pieces ","
                (Str.sliceFrom (length prefix) content)) as Hn.
  destruct (Str.split "," (Str.sliceFrom (length prefix) content))
    as [|name values]; [reflexivity|].
  cbn [hd_error orElse tl forallb] in *. unfold attributeOk.
  apply andb_prop in Hp as [Hp1 Hp2]. apply andb_prop in Hn as [Hn1 Hn2].
  unfold noPercent, noComma. rewrite Hp1, Hn1. cbn [andb].
  clear -Hp2 Hn2. induction values as [|v vs IH]; [reflexivity|].
  cbn [forallb] in *. apply andb_prop in Hp2 as [-> Hp2].
  apply andb_prop in Hn2 as [-> Hn2]. cbn [andb]. apply IH; assumption.
Qed.

Lemma parseExtendedCommand_wf v :
  noPercent v = true -> wellFormed (parseExtendedCommand v) = true.
Proof.
  intros Hv. unfold parseExtendedCommand.
  set (content := if Str.endsWith "*" v then Str.dropLast v else v).
  assert (Hc : noPercent content = true).
  { unfold content. destruct (Str.endsWith "*" v); [|exact Hv].
    apply forallb_removelast. exact Hv. }
  assert (Hs : forall n, noPercent (Str.sliceFrom n content) = true)
    by (intros n; apply forallb_skipn; exact Hc).
  clearbody content. unfold dispatchExtended.
  repeat match goal with
         | |- context [if Str.startsWith ?p ?c then _ else _] =>
             destruct (Str.startsWith p c)
         end; cbn [wellFormed]; try reflexivity; try apply Hs;
    try apply parseFloat_isDouble;
    try (rewrite !optFloat_double; reflexivity).
  - apply parseFormatSpec_wf. exact Hc.
  - apply parseApertureDefinition_wf.
  - apply parseApertureMacro_wf. exact Hc.
  - apply parseStepRepeat_wf.
  - apply parseAttribute_wf; [exact Hc|reflexivity].
  - apply parseAttribute_wf; [exact Hc|reflexivity].
  - apply parseAttribute_wf; [exact Hc|reflexivity].
  - apply (forallb_skipn _ 1), Hs.
Qed.

End WellFormedExtended.

(** ** What the parser guarantees of its nodes: commands *)

Section WellFormedCommands.
Import Spec.

Lemma startsWith_inv p s :
  Str.startsWith p s = true -> exists r, s = p ++ r.
Proof.
  revert s. induction p as [|x p IH]; intros s; [eauto|].
  destruct s as [|y s]; [discriminate|]. cbn [Str.startsWith].
  intros H. apply andb_prop in H as [Hx Hp]. apply Ascii.eqb_eq in Hx.
  destruct (IH s Hp) as [r ->]. exists r. rewrite Hx. reflexivity.
Qed.

Lemma span_snd_wf (P : ascii -> bool) r :
  forallb P r = true ->
  forallb P (snd (Str.span Chr.isSpace r)) = true
  /\ noLeadingSpace (snd (Str.span Chr.isSpace r)) = true.
Proof.
  intros Hr. destruct (span_cases Chr.isSpace r) as (Happ & _ & Hc).
  destruct (Str.span Chr.isSpace r) as [a b]. cbn [fst snd] in *.
  split.
  - rewrite Happ, forallb_app in Hr. apply andb_prop in Hr as [_ Hb].
    exact Hb.
  - destruct b as [|c b]; [reflexivity|]. cbn [noLeadingSpace].
    rewrite Hc. reflexivity.
Qed.

Lemma stripCommentPrefix_wf w :
  noStar w = true ->
  Str.startsWith (str "G04") w || Str.startsWith (str "G4") w = true ->
  wellFormed (Comment (stripCommentPrefix w)) = true.
Proof.
  intros Hw H. cbn [wellFormed]. unfold noStar in *.
  apply orb_prop in H as [H|H]; apply startsWith_inv in H as [r ->];
    cbn [list_ascii_of_string app forallb] in *;
    repeat match goal with
           | H : _ && _ = true |- _ => apply andb_prop in H as [_ H]
           end;
    destruct (span_snd_wf (notChar "*") r Hw) as [H1 H2];
    cbn [stripCommentPrefix]; rewrite H1, H2; reflexivity.
Qed.

Lemma dcodeDigit_inv s d r :
  dcodeDigit s = Some (d, r) -> d = "1" \/ d = "2" \/ d = "3".
Proof.
  assert (H123 : forall c, is123 c = true -> c = "1" \/ c = "2" \/ c = "3").
  { intros c. unfold is123. intros H.
    apply orb_prop in H as [H|H]; [apply orb_prop in H as [H|H]|];
      apply Ascii.eqb_eq in H; auto. }
  unfold dcodeDigit. destruct s as [|c s]; [discriminate|].
  destruct (Ascii.eqb_spec c "0") as [->|Hne].
  - destruct s as [|x s]; [discriminate|].
    destruct (is123 x) eqn:E; [|discriminate].
    intros [= <- _]. apply H123. exact E.
  - assert (Hd : (if is123 c then Some (c, s) else None) = Some (d, r) ->
                 d = "1" \/ d = "2" \/ d = "3").
    { destruct (is123 c) eqn:E; [|discriminate].
      intros [= <- _]. apply H123. exact E. }
    destruct c as [[] [] [] [] [] [] [] []]; try exact Hd. congruence.
Qed.

Lemma signedInt_inv s c r :
  signedInt s = Some (c, r) -> isInteger (parseInt c) = true.
Proof.
  unfold signedInt. destruct s as [|x s']; [discriminate|].
  destruct (Chr.isSign x) eqn:Hx.
  - destruct (digits1 s') as [[d r']|] eqn:E; [|discriminate].
    intros [= <- _]. apply digits1_inv in E as (Hne & Hd & _).
    apply parseInt_signed_integer; assumption.
  - intros E. apply digits1_inv in E as (Hne & Hd & _).
    apply isCount_integer, parseInt_digits_count; assumption.
Qed.

Lemma searchAfter_signedInt_inv L s :
  isCoord (option_map parseInt (searchAfter L signedInt s)) = true.
Proof.
  induction s as [|x r IH]; [reflexivity|]. cbn [searchAfter].
  destruct (Ascii.eqb x L); [|exact IH].
  destruct (signedInt r) as [[c r']|] eqn:E; [|exact IH].
  cbn [option_map isCoord]. apply (signedInt_inv r c r' E).
Qed.

Lemma createOperation_wf d s :
  wellFormed (createOperation d (parseCoordinates s)) = true.
Proof.
  assert (H : wellFormed (Operation d (parseCoordinates s)) = true).
  { cbn [wellFormed parseCoordinates cx cy ci cj].
    rewrite !searchAfter_signedInt_inv. reflexivity. }
  destruct d; exact H.
Qed.

Lemma parseGCodeOperation_wf w :
  gCodeOperationMatch w = true ->
  wellFormed (parseGCodeOperation w) = true.
Proof.
  unfold gCodeOperationMatch, parseGCodeOperation, gCodePrefix.
  destruct w as [|g w']; [discriminate|].
  destruct (Ascii.eqb_spec g "G") as [->|Hne].
  - destruct (dcodeDigit w') as [[d r]|] eqn:E; [|discriminate].
    intros _. apply dcodeDigit_inv in E.
    destruct r as [|x r]; [destruct E as [->|[->| ->]]; reflexivity|].
    destruct (searchDCode (x :: r)); [apply createOperation_wf|].
    destruct E as [->|[->| ->]]; reflexivity.
  - destruct g as [[] [] [] [] [] [] [] []]; try discriminate. congruence.
Qed.

Lemma apertureMatch_inv w c :
  apertureMatch w = Some c -> c <> [] /\ forallb Chr.isDigit c = true.
Proof.
  unfold apertureMatch. destruct w as [|x r]; [discriminate|].
  assert (H : match digits1 r with
              | Some (d, []) => Some d
              | _ => None
              end = Some c -> c <> [] /\ forallb Chr.isDigit c = true).
  { destruct (digits1 r) as [[d [|y r']]|] eqn:E; try discriminate.
    intros [= <-]. apply digits1_inv in E as (? & ? & _). split; assumption. }
  destruct x as [[] [] [] [] [] [] [] []]; try discriminate; exact H.
Qed.

Lemma parseCommand_wf w node :
  noStar w = true -> startsCommand w = true ->
  parseCommand w = Ok node -> wellFormed node = true.
Proof.
  intros Hw _. unfold parseCommand.
  repeat match goal with
         | |- context [if Str.startsWith ?p w || Str.eqb w ?q then _ else _] =>
             destruct (Str.startsWith p w || Str.eqb w q);
             [intros [= <-]; reflexivity|]
         | |- context [if Str.startsWith ?p w then _ else _] =>
             destruct (Str.startsWith p w);
             [intros [= <-]; reflexivity|]
         end.
  destruct (Str.startsWith (str "G04") w || Str.startsWith (str "G4") w)
    eqn:Hc.
  { intros [= <-]. apply stripCommentPrefix_wf; assumption. }
  repeat match goal with
         | |- context [if ?b then Ok _ else _] =>
             destruct b; [intros [= <-]; reflexivity|]
         end.
  destruct (apertureMatch w) as [codeStr|] eqn:Ea.
  - destruct (geb (parseInt codeStr) ten) eqn:Hge.
    + rewrite (new_SelectAperture_ok _ Hge).
      intros [= <-]. cbn [wellFormed]. rewrite Hge, andb_true_r.
      apply apertureMatch_inv in Ea as [Hne Hd].
      apply parseInt_digits_count; assumption.
    + destruct (operationMatch w).
      { intros [= <-]. apply createOperation_wf. }
      destruct (gCodeOperationMatch w) eqn:Hg; intros [= <-];
        [apply parseGCodeOperation_wf; exact Hg|reflexivity].
  - destruct (operationMatch w).
    { intros [= <-]. apply createOperation_wf. }
    destruct (gCodeOperationMatch w) eqn:Hg; intros [= <-];
      [apply parseGCodeOperation_wf; exact Hg|reflexivity].
Qed.

(** every node of a parse is well formed *)
Lemma parseLexemes_wf l : forall nodes,
  forallb lexemeOk l = true ->
  parseLexemes l = Ok nodes ->
  forallb wellFormed nodes = true.
Proof.
  induction l as [|[ty v] l IH]; intros nodes Hl.
  { intros [= <-]. reflexivity. }
  cbn [forallb] in Hl. apply andb_prop in Hl as [Hkv Hl].
  unfold lexemeOk in Hkv. cbn [fst snd] in Hkv.
  destruct ty.
  - rewrite parseLexemes_extended.
    destruct (parseLexemes l) as [ns|] eqn:E; [|discriminate].
    intros [= <-]. cbn [forallb].
    rewrite (parseExtendedCommand_wf v Hkv), (IH ns Hl eq_refl). reflexivity.
  - rewrite parseLexemes_command. apply andb_prop in Hkv as [Hs Hc].
    destruct (parseCommand v) as [n|] eqn:En; [|discriminate].
    destruct (parseLexemes l) as [ns|] eqn:E; [|discriminate].
    intros [= <-]. cbn [forallb].
    rewrite (parseCommand_wf v n Hs Hc En), (IH ns Hl eq_refl). reflexivity.
  - rewrite parseLexemes_other by auto. apply IH. exact Hl.
  - rewrite parseLexemes_other by auto. apply IH. exact Hl.
  - rewrite parseLexemes_eof. intros [= <-]. reflexivity.
Qed.

Lemma parseGerber_wf source nodes :
  parseGerber source = Ok nodes -> forallb wellFormed nodes = true.
Proof.
  rewrite parseGerber_lexemes. apply parseLexemes_wf.
  apply (lexemes_ok (length source)). lia.
Qed.

End WellFormedCommands.

(** ** Round trip of a document *)

(** C1, as stated, fails on sources made of recognised constructs only.
    A delete-attribute with an empty name comes back without a name; a
    macro body that still ends in a star after the parser removed two
    comes back without it; a step-repeat distance that JavaScript prints
    with an exponent comes back as its leading digits; a coordinate that
    is a negative zero is printed as [0] and comes back as a positive
    zero, and so does a rotation; a coordinate of magnitude [1e21] is
    printed with an exponent, which no pattern of the parser reads; a
    coordinate of 310 digits is read as [Infinity] and printed so, which
    no pattern reads either.  ([JDec false 1 21] is the number 1e21,
    [JDec false 1 (-7)] the number 1e-7, [JZero true] the negative
    zero.) *)
Lemma roundtrip_counterexample :
  (GerberFile.parse (str "%TD.*%")
   = Ok {| GerberFile.commands := [DeleteAttribute (Some [])] |}
   /\ Spec.roundTrip (str "%TD.*%")
      = Ok {| GerberFile.commands := [DeleteAttribute None] |})
  /\ (GerberFile.parse (str "%AMn*a***%")
      = Ok {| GerberFile.commands := [ApertureMacro (str "n") (str "a*")] |}
      /\ Spec.roundTrip (str "%AMn*a***%")
         = Ok {| GerberFile.commands :=
                   [ApertureMacro (str "n") (str "a")] |})
  /\ (GerberFile.parse (str "%SRX2Y3I0.0000001J0*%")
      = Ok {| GerberFile.commands :=
                [StepRepeat (JDec false 2 0) (JDec false 3 0)
                   (JDec false 1 (-7)) (JZero false)] |}
      /\ Spec.roundTrip (str "%SRX2Y3I0.0000001J0*%")
         = Ok {| GerberFile.commands :=
                   [StepRepeat (JDec false 2 0) (JDec false 3 0)
                      (JDec false 1 0) (JZero false)] |})
  /\ (GerberFile.parse (str "X-0D01*")
      = Ok {| GerberFile.commands :=
                [Operation D01 {| cx := Some (JZero true); cy := None;
                                  ci := None; cj := None |}] |}
      /\ Spec.roundTrip (str "X-0D01*")
         = Ok {| GerberFile.commands :=
                   [Operation D01 {| cx := Some (JZero false); cy := None;
                                     ci := None; cj := None |}] |})
  /\ (GerberFile.parse (str "X1000000000000000000000D01*")
      = Ok {| GerberFile.commands :=
                [Operation D01 {| cx := Some (JDec false 1 21); cy := None;
                                  ci := None; cj := None |}] |}
      /\ Spec.roundTrip (str "X1000000000000000000000D01*")
         = Ok {| GerberFile.commands :=
                   [UnknownCommand (str "X1e+21D01*")] |})
  /\ (GerberFile.parse (str "%LR-0*%")
      = Ok {| GerberFile.commands := [LoadRotation (JZero true)] |}
      /\ Spec.roundTrip (str "%LR-0*%")
         = Ok {| GerberFile.commands := [LoadRotation (JZero false)] |})
  /\ (let source := "X" :: "1" :: repeat "0" 309 ++ str "D01*" in
      GerberFile.parse source
      = Ok {| GerberFile.commands :=
                [Operation D01 {| cx := Some (JInf false); cy := None;
                                  ci := None; cj := None |}] |}
      /\ Spec.roundTrip source
         = Ok {| GerberFile.commands :=
                   [UnknownCommand (str "XInfinityD01*")] |}).
Proof. repeat split; vm_compute; reflexivity. Qed.

(** C1, amended. For every source whose parse holds recognised
    constructs only (no UnknownCommand) and no node that its serializer
    rewrites, parsing the source, serializing the document with
    [getString] and parsing again yields the document of the first
    parse, node by node; two numbers are equal as [Object.is] has it
    ([NaN] is itself, the two zeros differ).  The nodes that a
    serializer rewrites ([Spec.stable] excludes them) are: a
    DeleteAttribute with an empty name; an ApertureMacro whose body
    ends in a star; a node with a numeric field that is a negative
    zero; and a node with a number that a pattern of digits reads back
    (a coordinate of an operation, an aperture code, a count or a
    distance of a step-repeat, a value of an offset) and that is
    printed with an exponent or as [Infinity], that is, a number other
    than zero whose magnitude is below 1e-6 or at least 1e21.  The
    numbers are doubles: [parseInt] and [parseFloat] round to the
    nearest double and [getString] prints the shortest decimal that is
    read back as it, whatever the number of digits in the source. *)
Theorem roundtrip_of_stable_documents (source : jsstring)
    (file : GerberFile.GerberFile) :
  GerberFile.parse source = Ok file ->
  forallb Spec.recognised (GerberFile.commands file) = true ->
  forallb Spec.stable (GerberFile.commands file) = true ->
  GerberFile.parse (GerberFile.getString file) = Ok file.
Proof.
  unfold GerberFile.parse at 1. intros Hparse Hrec Hst.
  destruct (parseGerber source) as [nodes|] eqn:Hp; [|discriminate].
  injection Hparse as <-. cbn [GerberFile.commands] in *.
  pose proof (parseGerber_wf source nodes Hp) as Hwf.
  assert (Hre : Forall Spec.reparses nodes).
  { clear Hp. induction nodes as [|n nodes IH]; [constructor|].
    cbn [forallb] in *.
    apply andb_prop in Hrec as [Hr1 Hr2].
    apply andb_prop in Hst as [Hs1 Hs2].
    apply andb_prop in Hwf as [Hw1 Hw2].
    constructor; [apply node_reparses; assumption|apply IH; assumption]. }
  unfold GerberFile.parse. rewrite (document_reparses nodes Hre).
  reflexivity.
Qed.

Lemma roundtrip_of_stable_documents_witness :
  let file :=
    {| GerberFile.commands :=
         [FormatSpecification
            {| zeroOmission := str "L"; coordinateMode := str "A";
               xIntegerDigits := 2; xDecimalDigits := 6;
               yIntegerDigits := 2; yDecimalDigits := 6 |};
          UnitMode (str "MM");
          ApertureDefinition ten (str "C") [JDec false 1 (-1)];
          LoadRotation (JDec false 30000000000000004 (-17));
          SelectAperture ten;
          Operation D02 {| cx := Some (JZero false); cy := Some (JZero false);
                           ci := None; cj := None |};
          Operation D01 {| cx := Some (JDec false 1 6);
                           cy := Some (JDec true 9007199254740992 0);
                           ci := None; cj := None |};
          EndOfFile] |} in
  GerberFile.parse (GerberFile.getString file) = Ok file.
Proof.
  apply (roundtrip_of_stable_documents
           (str "%FSLAX26Y26*% %MOMM*% %ADD10C,0.1*% "
            ++ str "%LR0.3000000000000000444*% D10* X0Y0D02* "
            ++ str "X1000000Y-9007199254740993D01* M02*"));
    vm_compute; reflexivity.
Defined.

(** * Further properties *)

(** ** The tokenizer, case by case *)

Section TokenizerCases.
Import Spec.

Lemma lexemes_blanks bl s :
  forallb Chr.isBlank bl = true -> lexemes (bl ++ s) = lexemes s.
Proof.
  induction bl as [|c bl IH]; [reflexivity|]. cbn [forallb app].
  intros H. apply andb_prop in H as [Hc Hbl].
  rewrite (lexemes_blank c _ Hc). apply IH. exact Hbl.
Qed.

Lemma lexemes_all_blank bl :
  forallb Chr.isBlank bl = true -> lexemes bl = [(EOF, [])].
Proof.
  intros H. rewrite <- (app_nil_r bl), (lexemes_blanks bl [] H).
  reflexivity.
Qed.

(** The tokenizer by cases on the source: blanks only; blanks and a
    terminated block; blanks and a block left open; blanks and a
    terminated command; blanks and a command left open. *)
Lemma lexemes_cases (P : jsstring -> list (TokenType * jsstring) -> Prop) :
  (forall bl, forallb Chr.isBlank bl = true -> P bl [(EOF, [])]) ->
  (forall bl v rest,
      forallb Chr.isBlank bl = true -> noPercent v = true ->
      P rest (lexemes rest) ->
      P (bl ++ "%" :: v ++ "%" :: rest)
        ((EXTENDED_COMMAND, v) :: lexemes rest)) ->
  (forall bl v,
      forallb Chr.isBlank bl = true -> noPercent v = true ->
      P (bl ++ "%" :: v) [(EXTENDED_COMMAND, v); (EOF, [])]) ->
  (forall bl w rest,
      forallb Chr.isBlank bl = true -> noStar w = true ->
      startsCommand w = true ->
      P rest (lexemes rest) ->
      P (bl ++ w ++ "*" :: rest) ((COMMAND, w) :: lexemes rest)) ->
  (forall bl c w,
      forallb Chr.isBlank bl = true -> noStar (c :: w) = true ->
      startsCommand (c :: w) = true ->
      P (bl ++ c :: w) [(COMMAND, removelast (c :: w)); (EOF, [])]) ->
  forall s, P s (lexemes s).
Proof.
  intros Hblank Hext Hext_eof Hcmd Hcmd_eof s.
  remember (length s) as n eqn:Hn.
  assert (Hlen : length s <= n) by lia. clear Hn.
  revert s Hlen. induction n as [|n IH]; intros s Hlen.
  { destruct s; [|cbn [length] in Hlen; lia].
    apply (Hblank []). reflexivity. }
  destruct (span_cases Chr.isBlank s) as (Happ & Hbl & Hb).
  destruct (Str.span Chr.isBlank s) as [bl s1]. cbn [fst snd] in *.
  destruct s1 as [|c r].
  { rewrite app_nil_r in Happ. subst s.
    rewrite (lexemes_all_blank bl Hbl). apply Hblank. exact Hbl. }
  assert (Hlr : length r <= n).
  { rewrite Happ, length_app in Hlen. cbn [length] in Hlen. lia. }
  rewrite Happ, (lexemes_blanks bl _ Hbl).
  destruct (Ascii.eqb_spec c "%") as [->|Hne].
  - destruct (span_cases (notChar "%") r) as (Hr & Hv & Hc).
    destruct (Str.span (notChar "%") r) as [v b]. cbn [fst snd] in *.
    destruct b as [|c' r'].
    + rewrite app_nil_r in Hr. subst r.
      rewrite (lexemes_extended_eof v Hv). apply Hext_eof; assumption.
    + apply notChar_false in Hc. subst c' r.
      rewrite (lexemes_extended v r' Hv). apply Hext; try assumption.
      apply IH. rewrite length_app in Hlr. cbn [length] in Hlr. lia.
  - assert (Hsc : forall a, startsCommand (c :: a) = true).
    { intros a. cbn [startsCommand]. rewrite Hb. cbn [negb andb].
      unfold notChar. apply negb_true_iff, Ascii.eqb_neq. exact Hne. }
    destruct (span_cases (notChar "*") (c :: r)) as (Hr & Hw & Hc).
    destruct (Str.span (notChar "*") (c :: r)) as [w b]. cbn [fst snd] in *.
    destruct b as [|c' r'].
    + rewrite app_nil_r in Hr. subst w.
      rewrite (lexemes_command_eof c r Hw (Hsc r)).
      apply Hcmd_eof; [exact Hbl|exact Hw|apply Hsc].
    + apply notChar_false in Hc. subst c'. rewrite Hr.
      assert (Hsw : startsCommand w = true).
      { destruct w as [|x w]; [reflexivity|]. cbn [app] in Hr.
        injection Hr as <- _. apply Hsc. }
      rewrite (lexemes_command w r' Hw Hsw). apply Hcmd; try assumption.
      apply IH. apply (f_equal (@length _)) in Hr.
      rewrite length_app in Hr. cbn [length] in Hr. lia.
Qed.

End TokenizerCases.

(** ** The tokenizer: tokens, end marker and positions *)

Section TokenizerFacts.
Import Spec.

Lemma lexemes_body s :
  exists body,
    lexemes s = body ++ [(EOF, [])]
    /\ forallb isBody body = true /\ forallb lexemeOk body = true.
Proof.
  apply (lexemes_cases
           (fun _ l => exists body,
                l = body ++ [(EOF, [])]
                /\ forallb isBody body = true
                /\ forallb lexemeOk body = true)).
  - intros bl _. exists []. repeat split.
  - intros bl v rest _ Hv (body & -> & Hb & Hok).
    exists ((EXTENDED_COMMAND, v) :: body). cbn [forallb].
    unfold lexemeOk at 1. cbn [fst snd isBody]. rewrite Hv, Hb, Hok.
    repeat split.
  - intros bl v _ Hv. exists [(EXTENDED_COMMAND, v)]. cbn [forallb].
    unfold lexemeOk. cbn [fst snd isBody]. rewrite Hv. repeat split.
  - intros bl w rest _ Hw Hs (body & -> & Hb & Hok).
    exists ((COMMAND, w) :: body). cbn [forallb].
    unfold lexemeOk at 1. cbn [fst snd isBody]. rewrite Hw, Hs, Hb, Hok.
    repeat split.
  - intros bl c w _ Hw Hs. exists [(COMMAND, removelast (c :: w))].
    cbn [forallb]. unfold lexemeOk. cbn [fst snd isBody].
    unfold noStar in *. rewrite (forallb_removelast _ _ Hw).
    rewrite (startsCommand_removelast c w Hs). repeat split.
Qed.

Lemma removelast_snoc {A} (l : list A) (x : A) : removelast (l ++ [x]) = l.
Proof. apply removelast_last. Qed.

End TokenizerFacts.

(** X1. The tokens of every source are commands and blocks followed by
    exactly one end marker, the last token, with an empty value; no
    token has the type WHITESPACE or NEWLINE. *)
Theorem tokenize_structure (source : jsstring) :
  exists body eof,
    tokenize source = body ++ [eof]
    /\ type eof = EOF /\ value eof = []
    /\ Forall (fun tok => type tok = COMMAND \/ type tok = EXTENDED_COMMAND)
         body.
Proof.
  destruct (lexemes_body source) as (lb & Hl & Hb & _).
  unfold Spec.lexemes in Hl.
  apply map_eq_app in Hl as (body & last1 & Htok & Hm1 & Hm2).
  destruct last1 as [|eof [|? ?]]; try discriminate.
  cbn [map] in Hm2. unfold Spec.kindValue in Hm2. injection Hm2 as Hty Hval.
  exists body, eof. repeat split; try assumption.
  subst lb. clear Htok. induction body as [|tok body IH]; [constructor|].
  cbn [map forallb] in Hb. apply andb_prop in Hb as [Ht Hb].
  constructor; [|apply IH; exact Hb].
  unfold Spec.isBody, Spec.kindValue in Ht. cbn [fst] in Ht.
  destruct (type tok); try discriminate Ht; auto.
Qed.

(** X2. For every input string, every token of type EXTENDED_COMMAND has
    a value without any percent sign: [readExtendedCommand] stops at the
    first one after the opening marker and leaves it out. *)
Theorem extended_token_has_no_percent (source : jsstring) (tok : Token) :
  In tok (tokenize source) ->
  type tok = EXTENDED_COMMAND ->
  ~ In "%" (value tok).
Proof.
  intros Hin Hty. unfold tokenize in Hin.
  apply tokenizeLoop_tokens in Hin.
  destruct Hin as [[H _]|[[H _]|[_ H]]]; [congruence|congruence|exact H].
Qed.

Lemma extended_token_has_no_percent_witness :
  ~ In "%" (str "MOMM*").
Proof.
  apply (extended_token_has_no_percent (str "%MOMM*% D10*")
           {| type := EXTENDED_COMMAND; value := str "MOMM*";
              line := 1; column := 1 |}).
  - vm_compute. left. reflexivity.
  - reflexivity.
Defined.

(** ** The tokenizer and the parser on concatenated sources *)

Section Composition.
Import Spec.

Lemma lexemes_nonempty s : lexemes s <> [].
Proof.
  destruct (lexemes_body s) as (body & -> & _). destruct body; discriminate.
Qed.

Lemma removelast_cons_lexemes kv s :
  removelast (kv :: lexemes s) = kv :: removelast (lexemes s).
Proof.
  pose proof (lexemes_nonempty s). cbn [removelast].
  destruct (lexemes s); [congruence|reflexivity].
Qed.

Lemma scan_blanks bl s :
  forallb Chr.isBlank bl = true -> scan Between (bl ++ s) = scan Between s.
Proof.
  induction bl as [|c bl IH]; [reflexivity|]. cbn [forallb app scan].
  intros H. apply andb_prop in H as [-> Hbl]. apply IH. exact Hbl.
Qed.

Lemma scan_block v rest :
  noPercent v = true ->
  scan Between ("%" :: v ++ "%" :: rest) = scan Between rest.
Proof. intros Hv. cbn [scan]. apply scan_extended_stop. exact Hv. Qed.

Lemma scan_open_block v :
  noPercent v = true -> scan Between ("%" :: v) = InExtended.
Proof. intros Hv. cbn [scan]. apply scan_extended_all. exact Hv. Qed.

Lemma startsCommand_head c w :
  startsCommand (c :: w) = true ->
  Chr.isBlank c = false /\ Ascii.eqb c "%" = false.
Proof.
  cbn [startsCommand]. intros H. apply andb_prop in H as [Hb Hp].
  apply negb_true_iff in Hb. unfold notChar in Hp.
  apply negb_true_iff in Hp. split; assumption.
Qed.

Lemma scan_command w rest :
  noStar w = true -> startsCommand w = true ->
  scan Between (w ++ "*" :: rest) = scan Between rest.
Proof.
  intros Hw Hs. destruct w as [|c w]; [reflexivity|].
  destruct (startsCommand_head c w Hs) as [Hb Hp].
  cbn [noStar forallb] in Hw. apply andb_prop in Hw as [Hc Hw].
  unfold notChar in Hc. apply negb_true_iff in Hc.
  cbn [app scan]. rewrite Hb, Hp, Hc. apply scan_command_stop. exact Hw.
Qed.

Lemma scan_open_command c w :
  noStar (c :: w) = true -> startsCommand (c :: w) = true ->
  scan Between (c :: w) = InCommand.
Proof.
  intros Hw Hs. destruct (startsCommand_head c w Hs) as [Hb Hp].
  cbn [noStar forallb] in Hw. apply andb_prop in Hw as [Hc Hw].
  unfold notChar in Hc. apply negb_true_iff in Hc.
  cbn [scan]. rewrite Hb, Hp, Hc. apply scan_command_all. exact Hw.
Qed.

(** the tokens of a source that ends between two tokens, followed by
    the tokens of what is appended to it *)
Lemma lexemes_app s1 s2 :
  scan Between s1 = Between ->
  lexemes (s1 ++ s2) = removelast (lexemes s1) ++ lexemes s2.
Proof.
  revert s2.
  apply (lexemes_cases
           (fun s l => forall s2, scan Between s = Between ->
                       lexemes (s ++ s2) = removelast l ++ lexemes s2)).
  - intros bl Hbl s2 _. apply lexemes_blanks. exact Hbl.
  - intros bl v rest Hbl Hv IH s2 Hscan.
    rewrite (scan_blanks _ _ Hbl), (scan_block v rest Hv) in Hscan.
    rewrite removelast_cons_lexemes. cbn [app].
    rewrite <- (IH s2 Hscan), <- !app_assoc. cbn [app].
    rewrite <- app_assoc. cbn [app].
    rewrite (lexemes_blanks _ _ Hbl). apply lexemes_extended. exact Hv.
  - intros bl v Hbl Hv s2 Hscan.
    rewrite (scan_blanks _ _ Hbl), (scan_open_block v Hv) in Hscan.
    discriminate.
  - intros bl w rest Hbl Hw Hs IH s2 Hscan.
    rewrite (scan_blanks _ _ Hbl), (scan_command w rest Hw Hs) in Hscan.
    rewrite removelast_cons_lexemes. cbn [app].
    rewrite <- (IH s2 Hscan), <- !app_assoc. cbn [app].
    rewrite (lexemes_blanks _ _ Hbl). apply lexemes_command; assumption.
  - intros bl c w Hbl Hw Hs s2 Hscan.
    rewrite (scan_blanks _ _ Hbl), (scan_open_command c w Hw Hs) in Hscan.
    discriminate.
Qed.

(** the parse of the tokens before the end marker *)
Lemma parseLexemes_body body :
  forallb isBody body = true ->
  exists nodes,
    parseLexemes (body ++ [(EOF, [])]) = Ok nodes
    /\ length nodes = length body
    /\ forall l nodes', parseLexemes l = Ok nodes' ->
                        parseLexemes (body ++ l) = Ok (nodes ++ nodes').
Proof.
  induction body as [|[ty v] body IH]; cbn [forallb].
  - intros _. exists []. repeat split. intros l nodes' H. exact H.
  - intros H. apply andb_prop in H as [Hty Hb].
    destruct (IH Hb) as (nodes & Hn & Hlen & Happ).
    destruct ty; try discriminate Hty.
    + exists (parseExtendedCommand v :: nodes). cbn [app].
      rewrite parseLexemes_extended, Hn. cbn [length]. rewrite Hlen.
      repeat split. intros l nodes' Hl.
      rewrite parseLexemes_extended, (Happ l nodes' Hl). reflexivity.
    + destruct (parseCommand_total v) as [n Hv].
      exists (n :: nodes). cbn [app].
      rewrite parseLexemes_command, Hv, Hn. cbn [length]. rewrite Hlen.
      repeat split. intros l nodes' Hl.
      rewrite parseLexemes_command, Hv, (Happ l nodes' Hl). reflexivity.
Qed.

Lemma parse_concat_nodes s1 s2 n1 n2 :
  scan Between s1 = Between ->
  parseGerber s1 = Ok n1 -> parseGerber s2 = Ok n2 ->
  parseGerber (s1 ++ s2) = Ok (n1 ++ n2).
Proof.
  intros Hscan H1 H2. rewrite parseGerber_lexemes in *.
  rewrite (lexemes_app s1 s2 Hscan).
  destruct (lexemes_body s1) as (body & Hl & Hb & _).
  destruct (parseLexemes_body body Hb) as (nodes & Hn & _ & Happ).
  rewrite Hl in H1 |- *. rewrite removelast_snoc.
  rewrite Hn in H1. injection H1 as <-. apply Happ. exact H2.
Qed.

End Composition.

(** X3. When a source ends between two tokens (after a closing percent
    sign, a star or white space), the tokens of the source followed by
    any text are the tokens of the source, without its end marker,
    followed by the tokens of the text, as far as types and values
    go. *)
Theorem tokenize_concatenation (s1 s2 : jsstring) :
  Spec.scan Spec.Between s1 = Spec.Between ->
  Spec.lexemes (s1 ++ s2)
  = removelast (Spec.lexemes s1) ++ Spec.lexemes s2.
Proof. apply lexemes_app. Qed.

Lemma tokenize_concatenation_witness :
  Spec.lexemes (str "%MOMM*% D10*" ++ str "X0Y0D03*")
  = removelast (Spec.lexemes (str "%MOMM*% D10*"))
    ++ Spec.lexemes (str "X0Y0D03*").
Proof. apply tokenize_concatenation. reflexivity. Defined.

Section Spelling.
Import Spec.

(** the tokens that a source spells are those of the tokenizer *)
Lemma spelled_lexemes s l : spelled s l -> removelast (lexemes s) = l.
Proof.
  induction 1 as [bl Hbl|bl [ty v] rest l Hbl Hb Hok _ IH|bl v Hbl Hv
                 |bl w c Hbl Hw Hs].
  - rewrite (lexemes_all_blank bl Hbl). reflexivity.
  - rewrite (lexemes_blanks bl _ Hbl). unfold lexemeOk in Hok.
    unfold tokenText. cbn [fst snd] in *.
    destruct ty; try discriminate Hb.
    + cbn [app]. rewrite <- app_assoc. cbn [app].
      rewrite (lexemes_extended v rest Hok), removelast_cons_lexemes, IH.
      reflexivity.
    + apply andb_prop in Hok as [Hw Hs]. rewrite <- app_assoc. cbn [app].
      rewrite (lexemes_command v rest Hw Hs), removelast_cons_lexemes, IH.
      reflexivity.
  - rewrite (lexemes_blanks bl _ Hbl), (lexemes_extended_eof v Hv).
    reflexivity.
  - rewrite (lexemes_blanks bl _ Hbl).
    destruct (w ++ [c]) as [|x r] eqn:E; [destruct w; discriminate|].
    rewrite (lexemes_command_eof x r Hw Hs), <- E, removelast_snoc.
    reflexivity.
Qed.

End Spelling.

(** X4. The tokenizer drops nothing but the white space between tokens
    and, at the end of input, the last character of a command without a
    star.  Every source is the texts of its tokens in order, each block
    between percent signs and each command followed by its star, with
    nothing but white space before, between and after them; only at the
    end of input a block may lack its closing percent sign, and a
    command without a star is the value of its token followed by one
    more character.  The tokens of the tokenizer are the only ones that
    the source spells in this way ([Spec.spelled]).  Re-tokenizing the
    texts of the tokens, with nothing between them, yields the same
    types and values. *)
Theorem retokenize (source : jsstring) :
  (forall l, Spec.spelled source l
             <-> l = removelast (Spec.lexemes source))
  /\ Spec.lexemes
       (concat (map Spec.tokenText (removelast (Spec.lexemes source))))
     = Spec.lexemes source.
Proof.
  assert (H : Spec.spelled source (removelast (Spec.lexemes source))
              /\ Spec.lexemes
                   (concat (map Spec.tokenText
                              (removelast (Spec.lexemes source))))
                 = Spec.lexemes source).
  2: { destruct H as [Hsp Hre]. split; [|exact Hre].
       intros l. split.
       - intros Hl. symmetry. apply spelled_lexemes. exact Hl.
       - intros ->. exact Hsp. }
  apply (lexemes_cases
           (fun s l =>
              Spec.spelled s (removelast l)
              /\ Spec.lexemes (concat (map Spec.tokenText (removelast l)))
                 = l)).
  - intros bl Hbl. split; [|reflexivity].
    apply Spec.spelled_end. exact Hbl.
  - intros bl v rest Hbl Hv [Hsp IH]. rewrite removelast_cons_lexemes.
    split.
    + change ("%" :: v ++ "%" :: rest)
        with ("%" :: (v ++ "%" :: rest)).
      replace (bl ++ "%" :: (v ++ "%" :: rest))
        with (bl ++ Spec.tokenText (EXTENDED_COMMAND, v) ++ rest).
      * apply Spec.spelled_token;
          [exact Hbl|reflexivity|exact Hv|exact Hsp].
      * unfold Spec.tokenText. cbn [fst snd app].
        rewrite <- app_assoc. reflexivity.
    + cbn [map concat]. unfold Spec.tokenText at 1. cbn [fst snd app].
      rewrite <- app_assoc. cbn [app].
      rewrite (lexemes_extended v _ Hv), IH. reflexivity.
  - intros bl v Hbl Hv. split.
    + apply Spec.spelled_open_block; assumption.
    + cbn [removelast map concat].
      unfold Spec.tokenText. cbn [fst snd app]. rewrite app_nil_r.
      apply (lexemes_extended v [] Hv).
  - intros bl w rest Hbl Hw Hs [Hsp IH]. rewrite removelast_cons_lexemes.
    split.
    + replace (bl ++ w ++ "*" :: rest)
        with (bl ++ Spec.tokenText (COMMAND, w) ++ rest).
      * apply Spec.spelled_token; [exact Hbl|reflexivity| |exact Hsp].
        unfold Spec.lexemeOk. cbn [fst snd]. rewrite Hw, Hs. reflexivity.
      * unfold Spec.tokenText. cbn [fst snd].
        rewrite <- app_assoc. reflexivity.
    + cbn [map concat]. unfold Spec.tokenText at 1. cbn [fst snd].
      rewrite <- app_assoc. cbn [app].
      rewrite (lexemes_command w _ Hw Hs), IH. reflexivity.
  - intros bl c w Hbl Hw Hs.
    change (removelast [(COMMAND, removelast (c :: w)); (EOF, [])])
      with [(COMMAND, removelast (c :: w))].
    assert (Hcw : c :: w = removelast (c :: w) ++ [List.last (c :: w) c])
      by (apply app_removelast_last; discriminate).
    split.
    + rewrite Hcw at 1.
      apply Spec.spelled_open_command; [exact Hbl|..]; rewrite <- Hcw;
        assumption.
    + cbn [map concat]. unfold Spec.tokenText. cbn [fst snd].
      rewrite app_nil_r.
      apply (lexemes_command (removelast (c :: w)) []).
      * apply forallb_removelast. exact Hw.
      * apply startsCommand_removelast. exact Hs.
Qed.

(** X5. The parser never throws, and it yields exactly one node for
    every token but the end marker: the number of nodes is the number
    of tokens minus one. *)
Theorem one_node_per_token (source : jsstring) :
  exists nodes,
    parseGerber source = Ok nodes
    /\ S (length nodes) = length (tokenize source).
Proof.
  destruct (lexemes_body source) as (body & Hl & Hb & _).
  destruct (parseLexemes_body body Hb) as (nodes & Hn & Hlen & _).
  exists nodes. rewrite parseGerber_lexemes, Hl. split; [exact Hn|].
  apply (f_equal (@length _)) in Hl. unfold Spec.lexemes in Hl.
  rewrite length_map, length_app in Hl. cbn [length] in Hl. lia.
Qed.

(** X6. Parsing yields no node exactly for the sources that hold
    nothing but the white space the tokenizer skips (space, tab,
    carriage return, line feed); the empty source is one of them. *)
Theorem parse_empty_iff_blank (source : jsstring) :
  parseGerber source = Ok [] <-> forallb Chr.isBlank source = true.
Proof.
  rewrite parseGerber_lexemes.
  apply (lexemes_cases
           (fun s l => Spec.parseLexemes l = Ok []
                       <-> forallb Chr.isBlank s = true)).
  - intros bl Hbl. split; [intros _; exact Hbl|reflexivity].
  - intros bl v rest _ _ _. rewrite parseLexemes_extended.
    rewrite forallb_app. cbn [forallb]. change (Chr.isBlank "%") with false.
    rewrite andb_false_r. cbn [andb].
    destruct (Spec.parseLexemes (Spec.lexemes rest));
      split; discriminate.
  - intros bl v _ _. rewrite forallb_app. cbn [forallb].
    change (Chr.isBlank "%") with false. rewrite andb_false_r.
    split; discriminate.
  - intros bl w rest _ _ Hs _. rewrite parseLexemes_command.
    assert (Hnb : forallb Chr.isBlank (bl ++ w ++ "*" :: rest) = false).
    { rewrite forallb_app. destruct w as [|c w].
      - cbn [app forallb]. change (Chr.isBlank "*") with false.
        apply andb_false_r.
      - destruct (startsCommand_head c w Hs) as [Hc _].
        cbn [app forallb]. rewrite Hc. apply andb_false_r. }
    rewrite Hnb. unfold mbind, result_bind.
    destruct (parseCommand w); [|split; discriminate].
    destruct (Spec.parseLexemes (Spec.lexemes rest));
      split; discriminate.
  - intros bl c w _ _ Hs. rewrite parseLexemes_command.
    destruct (startsCommand_head c w Hs) as [Hc _].
    rewrite forallb_app. cbn [forallb]. rewrite Hc, andb_false_r.
    unfold mbind, result_bind.
    destruct (parseCommand (removelast (c :: w))); split; discriminate.
Qed.

(** X7. When a source ends between two tokens, parsing it followed by
    any text yields the nodes of the source followed by the nodes of
    the text. *)
Theorem parse_concatenation (s1 s2 : jsstring) (n1 n2 : list GerberNode) :
  Spec.scan Spec.Between s1 = Spec.Between ->
  parseGerber s1 = Ok n1 ->
  parseGerber s2 = Ok n2 ->
  parseGerber (s1 ++ s2) = Ok (n1 ++ n2).
Proof. apply parse_concat_nodes. Qed.

Lemma parse_concatenation_witness :
  parseGerber (str "%MOMM*% D10*" ++ str " X0Y0D03*")
  = Ok ([UnitMode (str "MM"); SelectAperture ten]
        ++ [Operation D03 {| cx := Some (JZero false); cy := Some (JZero false);
                             ci := None; cj := None |}]).
Proof. apply parse_concatenation; reflexivity. Defined.

(** ** The tokenizer: the position of a token *)

Section TokenPositions.
Import Spec.













End TokenPositions.



(** ** The parser: lenient and lossy readings *)

Section ParserReadings.
Import Spec.

Lemma parseGerber_block v :
  noPercent v = true ->
  parseGerber ("%" :: v ++ ["%"]) = Ok [parseExtendedCommand v].
Proof.
  intros Hv. rewrite parseGerber_lexemes, (lexemes_extended v [] Hv).
  reflexivity.
Qed.

Lemma parseGerber_command w node :
  noStar w = true -> startsCommand w = true ->
  parseCommand w = Ok node ->
  parseGerber (w ++ ["*"]) = Ok [node].
Proof.
  intros Hw Hs Hp. rewrite parseGerber_lexemes, (lexemes_command w [] Hw Hs).
  rewrite parseLexemes_command, Hp. reflexivity.
Qed.

(** the content decides the node of a recognised block *)
Lemma dispatchExtended_value v1 v2 content :
  existsb (fun p => Str.startsWith p content) extendedPrefixes = true ->
  dispatchExtended v1 content = dispatchExtended v2 content.
Proof.
  unfold dispatchExtended, extendedPrefixes. cbn [existsb].
  repeat match goal with
         | |- context [if Str.startsWith ?p content then _ else _] =>
             destruct (Str.startsWith p content)
         end; cbn [orb]; try reflexivity.
  discriminate.
Qed.

Lemma extendedContent_plain B :
  Str.endsWith "*" B = false -> extendedContent B = B.
Proof. unfold extendedContent. intros ->. reflexivity. Qed.

Lemma modeString_cases m :
  isModeString m = true ->
  m = str "G01" \/ m = str "G02" \/ m = str "G03" \/ m = str "G74"
  \/ m = str "G75".
Proof.
  unfold isModeString. intros H.
  repeat (apply orb_prop in H as [H|H]);
    apply Str_eqb_eq in H; auto 6.
Qed.

Lemma parseCommand_unknown_inv w raw :
  parseCommand w = Ok (UnknownCommand raw) -> raw = w ++ ["*"].
Proof.
  unfold parseCommand.
  repeat match goal with
         | |- context [if ?b then Ok ?n else _] =>
             destruct b; [discriminate|]
         end.
  assert (Hop : forall d c, createOperation d c <> UnknownCommand raw)
    by (intros [] c; discriminate).
  assert (Hrest :
            (if operationMatch w then Ok (parseOperation w)
             else if gCodeOperationMatch w then Ok (parseGCodeOperation w)
                  else Ok (UnknownCommand (w ++ ["*"])))
            = Ok (UnknownCommand raw) -> raw = w ++ ["*"]).
  { destruct (operationMatch w).
    - intros [= H]. exfalso. exact (Hop _ _ H).
    - destruct (gCodeOperationMatch w).
      + unfold parseGCodeOperation. intros [= H]. exfalso. revert H.
        destruct (match gCodePrefix w with Some (_, r) => r | None => w end);
          [discriminate|].
        destruct (searchDCode _); [apply Hop|discriminate].
      + intros [= <-]. reflexivity. }
  destruct (apertureMatch w) as [codeStr|]; [|exact Hrest].
  destruct (geb (parseInt codeStr) ten) eqn:Hge; [|exact Hrest].
  rewrite (new_SelectAperture_ok _ Hge). discriminate.
Qed.

(** every stable node of a parse parses back from its serialization,
    an unknown command included *)
Lemma parseLexemes_reparses l : forall nodes,
  forallb lexemeOk l = true ->
  parseLexemes l = Ok nodes ->
  forallb stable nodes = true ->
  Forall reparses nodes.
Proof.
  induction l as [|[ty v] l IH]; intros nodes Hl.
  { intros [= <-] _. constructor. }
  cbn [forallb] in Hl. apply andb_prop in Hl as [Hkv Hl].
  unfold lexemeOk in Hkv. cbn [fst snd] in Hkv.
  destruct ty.
  - rewrite parseLexemes_extended.
    destruct (parseLexemes l) as [ns|] eqn:E; [|discriminate].
    intros [= <-]. cbn [forallb]. intros Hst.
    apply andb_prop in Hst as [Hs Hsn].
    constructor; [|apply (IH ns Hl eq_refl Hsn)].
    destruct (recognised (parseExtendedCommand v)) eqn:Hrec.
    + apply node_reparses; [apply parseExtendedCommand_wf| |]; assumption.
    + destruct (parseExtendedCommand_unknown v) as [Hu Hraw].
      unfold recognised in Hrec. apply negb_false_iff in Hrec.
      rewrite Hrec in Hu. symmetry in Hu. apply negb_true_iff in Hu.
      left. exists v. rewrite (Hraw Hu). repeat split. exact Hkv.
  - rewrite parseLexemes_command. apply andb_prop in Hkv as [Hns Hc].
    destruct (parseCommand v) as [n|] eqn:En; [|discriminate].
    destruct (parseLexemes l) as [ns|] eqn:E; [|discriminate].
    intros [= <-]. cbn [forallb]. intros Hst.
    apply andb_prop in Hst as [Hs Hsn].
    constructor; [|apply (IH ns Hl eq_refl Hsn)].
    destruct (recognised n) eqn:Hrec.
    + apply node_reparses; [apply (parseCommand_wf v n Hns Hc En)| |];
        assumption.
    + destruct n; try discriminate Hrec.
      pose proof (parseCommand_unknown_inv v raw En) as ->.
      right. exists v. repeat split; assumption.
  - rewrite parseLexemes_other by auto. apply IH. exact Hl.
  - rewrite parseLexemes_other by auto. apply IH. exact Hl.
  - rewrite parseLexemes_eof. intros [= <-] _. constructor.
Qed.

End ParserReadings.

(** X9. A command whose text begins with G01, G02, G03, G74 or G75 is
    parsed to the SetInterpolationMode node of that code whatever
    follows the code: coordinates and a d-code written after it in the
    same command, as in [G01X100Y100D01*], are dropped. *)
Theorem interpolation_code_drops_the_rest (m w : jsstring) :
  Spec.isModeString m = true ->
  Spec.noStar w = true ->
  parseGerber (m ++ w ++ ["*"]) = Ok [SetInterpolationMode m].
Proof.
  intros Hm Hw. rewrite app_assoc.
  assert (Hchars : Spec.noStar (m ++ w) = true
                   /\ Spec.startsCommand (m ++ w) = true
                   /\ parseCommand (m ++ w) = Ok (SetInterpolationMode m)).
  { unfold Spec.noStar in *.
    destruct (modeString_cases m Hm) as [->|[->|[->|[->| ->]]]];
      rewrite forallb_app, Hw; repeat split. }
  destruct Hchars as (Hns & Hs & Hp).
  apply parseGerber_command; assumption.
Qed.

Lemma interpolation_code_drops_the_rest_witness :
  parseGerber (str "G01" ++ str "X100Y100D01" ++ ["*"])
  = Ok [SetInterpolationMode (str "G01")].
Proof. apply interpolation_code_drops_the_rest; reflexivity. Defined.

(** X10. The star before the closing percent sign of a recognised
    extended block is optional: a block whose text does not end in a
    star and starts with one of the recognised prefixes is parsed to the
    same node with and without the star. *)
Theorem closing_star_is_optional (B : jsstring) :
  Spec.noPercent B = true ->
  Str.endsWith "*" B = false ->
  Spec.hasExtendedPrefix B = true ->
  parseGerber ("%" :: B ++ ["%"]) = Ok [parseExtendedCommand B]
  /\ parseGerber ("%" :: B ++ ["*"; "%"]) = Ok [parseExtendedCommand B].
Proof.
  intros HB Hend Hpre. split; [apply parseGerber_block; exact HB|].
  change (B ++ ["*"; "%"]) with (B ++ ["*"] ++ ["%"]). rewrite app_assoc.
  rewrite parseGerber_block
    by (rewrite noPercent_app, HB; reflexivity).
  rewrite parseExtendedCommand_star. unfold parseExtendedCommand.
  rewrite Hend. unfold Spec.hasExtendedPrefix in Hpre.
  rewrite (extendedContent_plain B Hend) in Hpre.
  rewrite (dispatchExtended_value (B ++ ["*"]) B B Hpre). reflexivity.
Qed.

Lemma closing_star_is_optional_witness :
  parseGerber (str "%MOMM%") = Ok [parseExtendedCommand (str "MOMM")]
  /\ parseGerber (str "%MOMM*%") = Ok [parseExtendedCommand (str "MOMM")].
Proof. apply (closing_star_is_optional (str "MOMM")); reflexivity. Defined.

(** X11. An extended block that starts with AD and that the pattern of
    the aperture definition does not match is parsed, without any
    signal, to the definition of aperture 10 as a circle without
    parameters; replayed by the renderer it replaces whatever aperture
    10 was defined to be. *)
Theorem malformed_aperture_definition (v : jsstring)
    (r : Render.GerberToSvg) :
  Spec.noPercent v = true ->
  Str.startsWith (str "AD") (Spec.extendedContent v) = true ->
  apertureDefinitionMatch (Spec.extendedContent v) = None ->
  parseGerber ("%" :: v ++ ["%"]) = Ok [ApertureDefinition ten (str "C") []]
  /\ Render.apertures
       (Render.processCommand r (ApertureDefinition ten (str "C") []))
     !! ten
     = Some {| Render.ap_code := ten; Render.ap_template := str "C";
               Render.ap_params := [] |}.
Proof.
  intros Hv Hpre Hno. split.
  - rewrite (parseGerber_block v Hv). unfold parseExtendedCommand.
    fold (Spec.extendedContent v).
    destruct (Spec.extendedContent v) as [|a [|b content]];
      [discriminate Hpre
      |cbn [Str.startsWith list_ascii_of_string] in Hpre;
       rewrite andb_false_r in Hpre; discriminate Hpre|].
    cbn [Str.startsWith list_ascii_of_string] in Hpre.
    apply andb_prop in Hpre as [Ha Hb]. apply andb_prop in Hb as [Hb _].
    apply Ascii.eqb_eq in Ha, Hb. subst a b.
    unfold dispatchExtended.
    cbn [Str.startsWith list_ascii_of_string Ascii.eqb Bool.eqb andb].
    unfold parseApertureDefinition. rewrite Hno. reflexivity.
  - cbn [Render.processCommand Render.apertures].
    apply lookup_insert_eq.
Qed.

Lemma malformed_aperture_definition_witness :
  parseGerber (str "%ADxyz*%") = Ok [ApertureDefinition ten (str "C") []]
  /\ Render.apertures
       (Render.processCommand
          (Render.replay (Render.new_GerberToSvg Render.defaultOptions)
             [ApertureDefinition ten (str "R") [JDec false 5 (-1)]])
          (ApertureDefinition ten (str "C") []))
     !! ten
     = Some {| Render.ap_code := ten; Render.ap_template := str "C";
               Render.ap_params := [] |}.
Proof.
  apply (malformed_aperture_definition (str "ADxyz*")); reflexivity.
Defined.

(** X12. The round trip of C1 holds with unknown commands too: for
    every source whose parse holds no node that its serializer rewrites
    ([Spec.stable], as in C1: no negative zero, which is printed as
    [0], among others), unknown commands among its nodes or not,
    parsing the serialization of the parse yields the same document;
    two numbers are equal as [Object.is] has it ([NaN] is itself, the
    two zeros differ).  An UnknownCommand keeps its raw text, which is
    read back as the same unknown command. *)
Theorem roundtrip_with_unknown_commands (source : jsstring)
    (file : GerberFile.GerberFile) :
  GerberFile.parse source = Ok file ->
  forallb Spec.stable (GerberFile.commands file) = true ->
  GerberFile.parse (GerberFile.getString file) = Ok file.
Proof.
  unfold GerberFile.parse at 1. intros Hparse Hst.
  destruct (parseGerber source) as [nodes|] eqn:Hp; [|discriminate].
  injection Hparse as <-. cbn [GerberFile.commands] in *.
  rewrite parseGerber_lexemes in Hp.
  pose proof (parseLexemes_reparses _ nodes
                (lexemes_ok (length source) source (le_n _)) Hp Hst) as Hre.
  unfold GerberFile.parse. rewrite (document_reparses nodes Hre).
  reflexivity.
Qed.

Lemma roundtrip_with_unknown_commands_witness :
  let file :=
    {| GerberFile.commands :=
         [UnknownCommand (str "%XYZ1*%"); SelectAperture ten;
          UnknownCommand (str "D5*"); UnknownCommand (str "Q*");
          EndOfFile] |} in
  GerberFile.parse (GerberFile.getString file) = Ok file.
Proof.
  apply (roundtrip_with_unknown_commands (str "%XYZ1*% D10* D5* Q* M02*"));
    reflexivity.
Defined.

(** X13. A recognised node whose fields are as the parser builds them
    ([Spec.wellFormed]: among others, every number is a double, a
    coordinate is an integer, a code or a count is an integer without a
    sign) and that its serializer does not rewrite ([Spec.stable], as in
    C1: no negative zero, among others) is read back by the single-node
    parse from its own serialization:
    [GerberNode.parse(node.getString())] returns a node with the same
    fields, two numbers being equal as [Object.is] has it ([NaN] is
    itself, the two zeros differ). *)
Theorem single_node_roundtrip (node : GerberNode) :
  Spec.wellFormed node = true ->
  Spec.stable node = true ->
  Spec.recognised node = true ->
  GerberFile.GerberNode_parse (getString node) = Ok node.
Proof.
  intros Hw Hs Hr. unfold GerberFile.GerberNode_parse.
  destruct (node_reparses node Hw Hs Hr)
    as [(v & Hv & -> & <-)|(w & Hw' & Hst & -> & Hp)].
  - rewrite (parseGerber_block v Hv). reflexivity.
  - rewrite (parseGerber_command w node Hw' Hst Hp). reflexivity.
Qed.

Lemma single_node_roundtrip_witness :
  let node := Operation D01 {| cx := Some (JDec false 15 2);
                               cy := Some (JDec true 25 1);
                               ci := None; cj := Some (JDec false 7 0) |} in
  GerberFile.GerberNode_parse (getString node) = Ok node.
Proof. apply single_node_roundtrip; reflexivity. Defined.

(** ** The document ([GerberFile.ts]) *)

Section Document.
Import Spec.

Lemma hasType_EndOfFile cmd :
  GerberFile.hasType (str "EndOfFile") cmd = true <-> cmd = EndOfFile.
Proof.
  split; [|intros ->; reflexivity].
  destruct cmd as [| | | | | | | | | | | | | | | | |[] c| | | | |];
    try discriminate; reflexivity.
Qed.

Lemma existsb_EndOfFile cmds :
  existsb (GerberFile.hasType (str "EndOfFile")) cmds = true
  <-> In EndOfFile cmds.
Proof.
  rewrite existsb_exists. split.
  - intros (cmd & Hin & Ht). apply hasType_EndOfFile in Ht. subst cmd.
    exact Hin.
  - intros Hin. exists EndOfFile. split; [exact Hin|reflexivity].
Qed.

Lemma fold_push nodes file :
  fold_left GerberFile.push nodes file
  = {| GerberFile.commands := GerberFile.commands file ++ nodes |}.
Proof.
  revert file. induction nodes as [|n nodes IH]; intros [cmds].
  - cbn [fold_left GerberFile.commands]. rewrite app_nil_r. reflexivity.
  - cbn [fold_left]. rewrite IH. unfold GerberFile.push.
    cbn [GerberFile.commands]. rewrite <- app_assoc. reflexivity.
Qed.

Lemma find_first p (pre : list GerberNode) x rest :
  forallb (fun c => negb (p c)) pre = true -> p x = true ->
  List.find p (pre ++ x :: rest) = Some x.
Proof.
  intros Hpre Hx. induction pre as [|c pre IH]; cbn [app List.find].
  - rewrite Hx. reflexivity.
  - cbn [forallb] in Hpre. apply andb_prop in Hpre as [Hc Hpre].
    apply negb_true_iff in Hc. rewrite Hc. apply IH. exact Hpre.
Qed.

Lemma mostRecentFormatSpec_last seen pre fs post :
  forallb (fun c => negb (GerberFile.hasType (str "FormatSpecification") c))
    post = true ->
  mostRecentFormatSpec seen (pre ++ FormatSpecification fs :: post)
  = Some fs.
Proof.
  intros Hpost. unfold mostRecentFormatSpec.
  rewrite fold_left_app. cbn [fold_left].
  generalize (Some fs) as acc. revert Hpost.
  induction post as [|c post IH]; intros Hp acc; [reflexivity|].
  cbn [forallb] in Hp. apply andb_prop in Hp as [Hc Hp].
  cbn [fold_left]. destruct c; try (apply IH; exact Hp).
  discriminate Hc.
Qed.

End Document.

(** X14. [ensureEndOfFile] leaves a document that holds an EndOfFile
    node; it is idempotent; it changes nothing when the document holds
    an EndOfFile node anywhere, be it before other commands, and
    otherwise appends one EndOfFile node after the commands. *)
Theorem ensureEndOfFile_spec (file : GerberFile.GerberFile) :
  let file' := GerberFile.ensureEndOfFile file in
  In EndOfFile (GerberFile.commands file')
  /\ GerberFile.ensureEndOfFile file' = file'
  /\ (In EndOfFile (GerberFile.commands file) -> file' = file)
  /\ (~ In EndOfFile (GerberFile.commands file) ->
      GerberFile.commands file' = GerberFile.commands file ++ [EndOfFile]).
Proof.
  cbv zeta. unfold GerberFile.ensureEndOfFile.
  destruct (existsb _ (GerberFile.commands file)) eqn:E.
  - pose proof (proj1 (existsb_EndOfFile _) E) as Hin.
    rewrite E. repeat split; [exact Hin|]. intros Hn. tauto.
  - assert (Hn : ~ In EndOfFile (GerberFile.commands file)).
    { intros Hin. apply existsb_EndOfFile in Hin. congruence. }
    assert (Hin' : In EndOfFile
                     (GerberFile.commands
                        (GerberFile.push file EndOfFile))).
    { cbn [GerberFile.push GerberFile.commands]. apply in_or_app.
      right. left. reflexivity. }
    rewrite (proj2 (existsb_EndOfFile _) Hin').
    repeat split; [exact Hin'|tauto].
Qed.

(** X15. Parsing a source that ends between two tokens and then adding
    a source string with [addCommand] gives the document of the two
    sources written one after the other; [addCommand] on a string
    appends the nodes of its parse and never throws. *)
Theorem parse_then_addCommand (s1 s2 : jsstring) :
  Spec.scan Spec.Between s1 = Spec.Between ->
  (file ← GerberFile.parse s1; GerberFile.addCommand file (inr s2))
  = GerberFile.parse (s1 ++ s2)
  /\ exists n1 n2,
       parseGerber s1 = Ok n1 /\ parseGerber s2 = Ok n2
       /\ GerberFile.parse (s1 ++ s2)
          = Ok {| GerberFile.commands := n1 ++ n2 |}.
Proof.
  intros Hscan.
  destruct (parseGerber_total s1) as [n1 H1].
  destruct (parseGerber_total s2) as [n2 H2].
  pose proof (parse_concat_nodes s1 s2 n1 n2 Hscan H1 H2) as H12.
  split; [|exists n1, n2; repeat split; try assumption].
  - unfold GerberFile.parse, GerberFile.addCommand.
    rewrite H1, H12. cbn [mbind result_bind]. rewrite H2.
    cbn [mbind result_bind]. rewrite fold_push. reflexivity.
  - unfold GerberFile.parse. rewrite H12. reflexivity.
Qed.

Lemma parse_then_addCommand_witness :
  (file ← GerberFile.parse (str "%MOMM*% D10*");
   GerberFile.addCommand file (inr (str "X0Y0D03* M02*")))
  = GerberFile.parse (str "%MOMM*% D10*" ++ str "X0Y0D03* M02*")
  /\ exists n1 n2,
       parseGerber (str "%MOMM*% D10*") = Ok n1
       /\ parseGerber (str "X0Y0D03* M02*") = Ok n2
       /\ GerberFile.parse (str "%MOMM*% D10*" ++ str "X0Y0D03* M02*")
          = Ok {| GerberFile.commands := n1 ++ n2 |}.
Proof. apply parse_then_addCommand. reflexivity. Defined.

(** X16. When a document holds several format specifications, the
    accessor [formatSpecification] answers the first one while the
    renderer converts with the last one it has replayed. *)
Theorem format_specification_first_and_last
    (pre mid post : list GerberNode) (fs1 fs2 : FormatSpec)
    (opts : Render.RenderOptions) :
  forallb (fun c => negb (GerberFile.hasType (str "FormatSpecification") c))
    pre = true ->
  forallb (fun c => negb (GerberFile.hasType (str "FormatSpecification") c))
    post = true ->
  let commands :=
    pre ++ FormatSpecification fs1 :: mid
    ++ FormatSpecification fs2 :: post in
  GerberFile.formatSpecification {| GerberFile.commands := commands |}
  = Some (FormatSpecification fs1)
  /\ Render.formatSpec
       (Render.state
          (Render.replay (Render.new_GerberToSvg opts) commands))
     = Some fs2.
Proof.
  intros Hpre Hpost commands. split.
  - unfold GerberFile.formatSpecification. cbn [GerberFile.commands].
    apply find_first; [exact Hpre|reflexivity].
  - rewrite replay_formatSpec. unfold commands.
    replace (pre ++ FormatSpecification fs1 :: mid
             ++ FormatSpecification fs2 :: post)
      with ((pre ++ FormatSpecification fs1 :: mid)
            ++ FormatSpecification fs2 :: post)
      by (rewrite <- app_assoc; reflexivity).
    apply mostRecentFormatSpec_last. exact Hpost.
Qed.

Lemma format_specification_first_and_last_witness :
  let fs1 := {| zeroOmission := str "L"; coordinateMode := str "A";
                xIntegerDigits := 2; xDecimalDigits := 4;
                yIntegerDigits := 2; yDecimalDigits := 4 |} in
  let fs2 := {| zeroOmission := str "L"; coordinateMode := str "A";
                xIntegerDigits := 2; xDecimalDigits := 6;
                yIntegerDigits := 2; yDecimalDigits := 6 |} in
  let commands :=
    [UnitMode (str "MM")] ++ FormatSpecification fs1 :: [SelectAperture ten]
    ++ FormatSpecification fs2 :: [EndOfFile] in
  GerberFile.formatSpecification {| GerberFile.commands := commands |}
  = Some (FormatSpecification fs1)
  /\ Render.formatSpec
       (Render.state
          (Render.replay (Render.new_GerberToSvg Render.defaultOptions)
             commands))
     = Some fs2.
Proof.
  apply (format_specification_first_and_last [UnitMode (str "MM")]
           [SelectAperture ten] [EndOfFile]); reflexivity.
Defined.

(** X17. The serialization of a document is the serialization of each
    command followed by a line feed; so the serialization of two
    non-empty lists of commands written one after the other is the
    concatenation of their serializations, and an empty document is
    serialized to a single line feed, which parses to the empty
    document. *)
Theorem getString_concatenation (a b : list GerberNode) :
  a <> [] -> b <> [] ->
  GerberFile.getString {| GerberFile.commands := a ++ b |}
  = GerberFile.getString {| GerberFile.commands := a |}
    ++ GerberFile.getString {| GerberFile.commands := b |}
  /\ GerberFile.getString {| GerberFile.commands := a |}
     = concat (map (fun cmd => getString cmd ++ ["010"]) a)
  /\ GerberFile.getString {| GerberFile.commands := [] |} = ["010"]
  /\ GerberFile.parse ["010"] = Ok {| GerberFile.commands := [] |}.
Proof.
  intros Ha Hb.
  assert (H : forall l, l <> [] ->
              GerberFile.getString {| GerberFile.commands := l |}
              = concat (map (fun cmd => getString cmd ++ ["010"]) l)).
  { intros [|n l] Hl; [congruence|]. unfold GerberFile.getString.
    cbn [GerberFile.commands map]. rewrite join_terminated.
    change (getString n :: map getString l) with (map getString (n :: l)).
    rewrite List.map_map. reflexivity. }
  repeat split; [|apply H; exact Ha].
  rewrite (H a Ha), (H b Hb), (H (a ++ b))
    by (destruct a; [congruence|discriminate]).
  rewrite map_app, concat_app. reflexivity.
Qed.

Lemma getString_concatenation_witness :
  GerberFile.getString
    {| GerberFile.commands := [SelectAperture ten] ++ [EndOfFile] |}
  = GerberFile.getString {| GerberFile.commands := [SelectAperture ten] |}
    ++ GerberFile.getString {| GerberFile.commands := [EndOfFile] |}
  /\ GerberFile.getString {| GerberFile.commands := [SelectAperture ten] |}
     = concat (map (fun cmd => getString cmd ++ ["010"]) [SelectAperture ten])
  /\ GerberFile.getString {| GerberFile.commands := [] |} = ["010"]
  /\ GerberFile.parse ["010"] = Ok {| GerberFile.commands := [] |}.
Proof. apply getString_concatenation; discriminate. Defined.

(** ** The registry of node classes *)

(** X18. Registering a class that has a non-empty token succeeds; the
    class is then found under its token, replacing a class registered
    under the same token before, and every other token is looked up as
    before.  Registering a class without a token, or with an empty one,
    throws. *)
Theorem register_then_lookup
    (classes : gmap jsstring Registry.NodeClass)
    (nodeClass : Registry.NodeClass) :
  match Registry.token nodeClass with
  | Some (c :: t) =>
      exists classes',
        Registry.register classes nodeClass = Ok classes'
        /\ Registry.getRegisteredClass classes' (c :: t) = Some nodeClass
        /\ forall other, other <> c :: t ->
             Registry.getRegisteredClass classes' other
             = Registry.getRegisteredClass classes other
  | _ => exists message, Registry.register classes nodeClass = Throw message
  end.
Proof.
  unfold Registry.register, Registry.getRegisteredClass.
  destruct (Registry.token nodeClass) as [[|c t]|]; eauto.
  eexists. split; [reflexivity|]. split.
  - apply lookup_insert_eq.
  - intros other Hne. apply lookup_insert_ne. congruence.
Qed.

(** X19. Once [commands.ts] is loaded, the registry holds the classes
    Interpolate, Move and Flash under the tokens D01, D02 and D03, and no
    class under any other token. *)
Theorem loaded_registry :
  exists classes,
    Registry.loaded = Ok classes
    /\ forall tok,
         Registry.getRegisteredClass classes tok
         = if Str.eqb tok (str "D01") then Some Registry.Interpolate
           else if Str.eqb tok (str "D02") then Some Registry.Move
           else if Str.eqb tok (str "D03") then Some Registry.Flash
           else None.
Proof.
  eexists. split; [reflexivity|]. intros tok.
  unfold Registry.getRegisteredClass.
  assert (Hneq : forall a b : jsstring, Str.eqb a b = false -> a <> b).
  { intros a b Hf ->. clear -Hf. induction b as [|x b IH]; [discriminate|].
    cbn [Str.eqb] in Hf. rewrite Ascii.eqb_refl in Hf. auto. }
  destruct (Str.eqb tok (str "D01")) eqn:E1.
  { apply Str_eqb_eq in E1. subst tok. reflexivity. }
  destruct (Str.eqb tok (str "D02")) eqn:E2.
  { apply Str_eqb_eq in E2. subst tok. reflexivity. }
  destruct (Str.eqb tok (str "D03")) eqn:E3.
  { apply Str_eqb_eq in E3. subst tok. reflexivity. }
  apply Hneq in E1, E2, E3.
  rewrite !lookup_insert_ne
    by (intros Heq;
        first [apply E1; rewrite <- Heq; reflexivity
              |apply E2; rewrite <- Heq; reflexivity
              |apply E3; rewrite <- Heq; reflexivity]).
  apply lookup_empty.
Qed.

(** ** The renderer: what a replay draws *)

Section Drawing.
Import Render Spec.

Lemma sameDrawing_refl r : sameDrawing r r.
Proof. repeat split. Qed.

(** [handleOperation] reads neither the interpolation mode, nor the
    polarity, nor the unit, nor the arc offsets of the operation *)
Lemma handleOperation_same r r' d c :
  sameDrawing r r' ->
  sameDrawing (handleOperation r d c)
    (handleOperation r' d {| cx := cx c; cy := cy c;
                             ci := None; cj := None |}).
Proof.
  destruct r as [[sx sy sap sint srm spol sunit sfs] aps ps fl rp rg bd op].
  destruct r' as [[sx' sy' sap' sint' srm' spol' sunit' sfs'] aps' ps' fl'
                    rp' rg' bd' op'].
  unfold sameDrawing at 1.
  cbn [paths flashes regions regionPath bounds apertures options state
       x y aperture regionMode formatSpec].
  intros (-> & -> & -> & -> & -> & -> & -> & -> & -> & -> & -> & ->).
  unfold handleOperation, newPoint, convertCoordinate.
  cbn [state formatSpec cx cy x y].
  set (nx := match cx c with Some v => _ | None => _ end).
  set (ny := match cy c with Some v => _ | None => _ end).
  destruct d; cbn [updateBounds state regionMode aperture regionPath].
  - destruct srm'.
    + unfold sameDrawing. repeat split.
    + destruct sap'; unfold sameDrawing; repeat split.
  - destruct srm'; [destruct rp'|]; unfold sameDrawing; repeat split.
  - destruct sap' as [ap|]; [|unfold sameDrawing; repeat split].
    unfold createFlash. cbn [state aperture options updateBounds].
    repeat match goal with
           | |- context [if Str.eqb ?a ?b then _ else _] =>
               destruct (Str.eqb a b)
           end; unfold sameDrawing; repeat split.
Qed.

Lemma processCommand_same r r' cmd :
  sameDrawing r r' ->
  isModeCommand cmd = false ->
  sameDrawing (processCommand r cmd) (processCommand r' (withoutOffsets cmd)).
Proof.
  intros Hs Hm. destruct cmd; try discriminate Hm;
    try (cbn [processCommand withoutOffsets];
         first [exact Hs | apply handleOperation_same; exact Hs]).
  all: destruct Hs as (H1 & H2 & H3 & H4 & H5 & H6 & H7 & H8 & H9 & H10
                       & H11 & H12).
  all: unfold sameDrawing, processCommand, withoutOffsets, setState,
         setRegionPath;
    cbn [paths flashes regions regionPath bounds apertures options state
         x y aperture regionMode formatSpec];
    rewrite ?H1, ?H2, ?H3, ?H4, ?H5, ?H6, ?H7, ?H8, ?H9, ?H10, ?H11, ?H12;
    repeat split.
Qed.

Lemma processCommand_mode r cmd :
  isModeCommand cmd = true -> sameDrawing (processCommand r cmd) r.
Proof. destruct cmd; try discriminate; intros _; repeat split. Qed.

Lemma sameDrawing_trans r1 r2 r3 :
  sameDrawing r1 r2 -> sameDrawing r2 r3 -> sameDrawing r1 r3.
Proof.
  unfold sameDrawing.
  intros (H1 & H2 & H3 & H4 & H5 & H6 & H7 & H8 & H9 & H10 & H11 & H12)
         (G1 & G2 & G3 & G4 & G5 & G6 & G7 & G8 & G9 & G10 & G11 & G12).
  repeat split; congruence.
Qed.

Lemma replay_same cmds : forall r r',
  sameDrawing r r' ->
  sameDrawing (replay r cmds)
    (replay r'
       (map withoutOffsets
          (List.filter (fun cmd => negb (isModeCommand cmd)) cmds))).
Proof.
  induction cmds as [|cmd cmds IH]; intros r r' Hs; [exact Hs|].
  unfold replay in *. cbn [fold_left List.filter].
  destruct (isModeCommand cmd) eqn:Hm; cbn [negb map fold_left].
  - apply IH. apply (sameDrawing_trans _ r); [|exact Hs].
    apply processCommand_mode. exact Hm.
  - apply IH. apply processCommand_same; assumption.
Qed.

End Drawing.

(** X20. What the renderer draws depends neither on the interpolation
    mode, nor on the polarity, nor on the unit, nor on the arc offsets I
    and J: replaying a document gives the same traces, flashes, regions,
    bounding box and current point as replaying it without its
    SetInterpolationMode, LoadPolarity and UnitMode commands and without
    the offsets of its operations.  In particular an arc is drawn as the
    straight segment to its end point. *)
Theorem drawing_ignores_modes (opts : Render.RenderOptions)
    (cmds : list GerberNode) :
  let r := Render.replay (Render.new_GerberToSvg opts) cmds in
  let r' :=
    Render.replay (Render.new_GerberToSvg opts)
      (map Spec.withoutOffsets
         (List.filter (fun cmd => negb (Spec.isModeCommand cmd)) cmds)) in
  Render.paths r = Render.paths r'
  /\ Render.flashes r = Render.flashes r'
  /\ Render.regions r = Render.regions r'
  /\ Render.bounds r = Render.bounds r'
  /\ Render.x (Render.state r) = Render.x (Render.state r')
  /\ Render.y (Render.state r) = Render.y (Render.state r').
Proof.
  intros r r'.
  destruct (replay_same cmds _ _
              (sameDrawing_refl (Render.new_GerberToSvg opts)))
    as (H1 & H2 & H3 & _ & H5 & _ & _ & H8 & H9 & _).
  repeat split; assumption.
Qed.

Section DrawingFrames.
Import Render Spec.

(** an operation outside a region and without a selected aperture *)
Lemma handleOperation_no_aperture r d c :
  aperture (state r) = None -> regionMode (state r) = false ->
  let r' := handleOperation r d c in
  paths r' = paths r /\ flashes r' = flashes r /\ regions r' = regions r
  /\ regionPath r' = regionPath r
  /\ aperture (state r') = None /\ regionMode (state r') = false
  /\ apertures r' = apertures r
  /\ bounds r' = bounds (updateBounds r (fst (newPoint r c))
                           (snd (newPoint r c))).
Proof.
  intros Hap Hrm. unfold handleOperation.
  destruct (newPoint r c) as [nx ny].
  destruct d; cbn [updateBounds state regionMode aperture regionPath];
    rewrite ?Hap, ?Hrm; cbn; rewrite ?Hap, ?Hrm; repeat split.
Qed.

Lemma replay_no_aperture ops : forall r,
  aperture (state r) = None -> regionMode (state r) = false ->
  forallb isOperation ops = true ->
  paths (replay r ops) = paths r /\ flashes (replay r ops) = flashes r
  /\ regions (replay r ops) = regions r.
Proof.
  induction ops as [|op ops IH]; intros r Hap Hrm Hops; [repeat split|].
  cbn [forallb] in Hops. apply andb_prop in Hops as [Hop Hops].
  destruct op; try discriminate Hop.
  unfold replay in *. cbn [fold_left processCommand].
  destruct (handleOperation_no_aperture r dcode coords Hap Hrm)
    as (H1 & H2 & H3 & _ & H5 & H6 & _).
  destruct (IH _ H5 H6 Hops) as (G1 & G2 & G3).
  rewrite G1, G2, G3. repeat split; assumption.
Qed.

(** what a command that is no operation leaves alone *)
Lemma processCommand_no_operation r cmd :
  isOperation cmd = false ->
  let r' := processCommand r cmd in
  paths r' = paths r /\ flashes r' = flashes r /\ bounds r' = bounds r
  /\ x (state r') = x (state r) /\ y (state r') = y (state r)
  /\ (regionPath r = [] -> regionPath r' = [] /\ regions r' = regions r).
Proof.
  destruct cmd; try discriminate; intros _; cbn; repeat split;
    try assumption;
    match goal with
    | H : regionPath _ = [] |- _ => rewrite H; reflexivity
    end.
Qed.

Lemma replay_no_operation cmds : forall r,
  forallb (fun cmd => negb (isOperation cmd)) cmds = true ->
  regionPath r = [] ->
  paths (replay r cmds) = paths r /\ flashes (replay r cmds) = flashes r
  /\ regions (replay r cmds) = regions r
  /\ bounds (replay r cmds) = bounds r
  /\ x (state (replay r cmds)) = x (state r)
  /\ y (state (replay r cmds)) = y (state r).
Proof.
  induction cmds as [|cmd cmds IH]; intros r Hc Hrp; [repeat split|].
  cbn [forallb] in Hc. apply andb_prop in Hc as [Hcmd Hc].
  apply negb_true_iff in Hcmd.
  destruct (processCommand_no_operation r cmd Hcmd)
    as (H1 & H2 & H3 & H4 & H5 & H6).
  destruct (H6 Hrp) as [H7 H8].
  unfold replay in *. cbn [fold_left].
  destruct (IH _ Hc H7) as (G1 & G2 & G3 & G4 & G5 & G6).
  rewrite G1, G2, G3, G4, G5, G6. repeat split; assumption.
Qed.

(** the region path and the regions after an operation *)
Lemma handleOperation_region r d c :
  regions (handleOperation r d c) = regions r
  /\ regionPath (handleOperation r d c)
     = match d with
       | D01 =>
           if regionMode (state r) then
             match regionPath r with
             | [] => [PathM (x (state r)) (y (state r))]
             | p => p
             end ++ [PathL (fst (newPoint r c)) (snd (newPoint r c))]
           else regionPath r
       | D02 =>
           match regionMode (state r), regionPath r with
           | true, _ :: _ =>
               regionPath r
               ++ [PathM (fst (newPoint r c)) (snd (newPoint r c))]
           | _, _ => regionPath r
           end
       | D03 => regionPath r
       end.
Proof.
  unfold handleOperation. destruct (newPoint r c) as [nx ny].
  cbn [fst snd].
  destruct d; simpl.
  - destruct (regionMode (state r)) eqn:Hrm; simpl; [split; reflexivity|].
    destruct (aperture (state r)); split; reflexivity.
  - destruct (regionMode (state r)) eqn:Hrm; simpl; [|split; reflexivity].
    destruct (regionPath r) eqn:Hrp; simpl; rewrite ?Hrp; split; reflexivity.
  - destruct (aperture (state r)) eqn:Hap; simpl; [|split; reflexivity].
    pose proof (createFlash_frame (updateBounds r nx ny) nx ny)
      as (_ & _ & Hp & _).
    assert (Hg : regions (snd (createFlash (updateBounds r nx ny) nx ny))
                 = regions r).
    { unfold createFlash. simpl. rewrite Hap.
      repeat match goal with
             | |- context [if ?b then _ else _] => destruct b
             end; reflexivity. }
    destruct (createFlash (updateBounds r nx ny) nx ny) as [[f|] r''];
      simpl in *; rewrite Hp, Hg; split; reflexivity.
Qed.

Lemma openRegion_snoc p c :
  openRegion p = true -> p <> [] -> isPathZ c = false ->
  openRegion (p ++ [c]) = true.
Proof.
  destruct p as [|[px py|px py|] rest]; try discriminate; [congruence|].
  cbn [openRegion app]. intros H _ Hc. apply andb_prop in H as [Hz Hl].
  rewrite forallb_app, existsb_app, Hz, Hl. cbn [forallb].
  rewrite Hc. reflexivity.
Qed.

Lemma closedRegion_close p :
  openRegion p = true -> p <> [] -> closedRegion (p ++ [PathZ]) = true.
Proof.
  intros Hp Hne. unfold closedRegion. rewrite rev_unit.
  destruct (rev p) eqn:E.
  - apply (f_equal (@rev _)) in E. rewrite rev_involutive in E.
    cbn in E. congruence.
  - rewrite <- E, rev_involutive. exact Hp.
Qed.

(** the regions stay closed and the region path stays well formed *)
Lemma processCommand_regions r cmd :
  forallb closedRegion (regions r) = true ->
  openRegion (regionPath r) = true ->
  forallb closedRegion (regions (processCommand r cmd)) = true
  /\ openRegion (regionPath (processCommand r cmd)) = true.
Proof.
  intros Hrg Hrp. destruct cmd; try (split; assumption).
  - cbn. split; [exact Hrg|reflexivity].
  - cbn [processCommand regions regionPath]. split; [|reflexivity].
    destruct (regionPath r) as [|c p] eqn:E; [exact Hrg|].
    rewrite forallb_app, Hrg. cbn [forallb andb].
    rewrite closedRegion_close; [reflexivity|exact Hrp|discriminate].
  - cbn [processCommand].
    destruct (handleOperation_region r dcode coords) as [-> ->].
    split; [exact Hrg|].
    destruct dcode.
    + destruct (regionMode (state r)); [|exact Hrp].
      destruct (regionPath r) as [|c p] eqn:E; [reflexivity|].
      apply openRegion_snoc; [exact Hrp|discriminate|reflexivity].
    + destruct (regionMode (state r)); [|exact Hrp].
      destruct (regionPath r) as [|c p] eqn:E; [reflexivity|].
      apply openRegion_snoc; [exact Hrp|discriminate|reflexivity].
    + exact Hrp.
Qed.

Lemma replay_regions cmds : forall r,
  forallb closedRegion (regions r) = true ->
  openRegion (regionPath r) = true ->
  forallb closedRegion (regions (replay r cmds)) = true.
Proof.
  induction cmds as [|cmd cmds IH]; intros r Hrg Hrp; [exact Hrg|].
  unfold replay in *. cbn [fold_left].
  destruct (processCommand_regions r cmd Hrg Hrp) as [H1 H2].
  apply IH; assumption.
Qed.

End DrawingFrames.

(** X21. Selecting an aperture code that has not been defined deselects
    the aperture, and the operations that follow outside a region
    then draw nothing: no trace, no flash and no region is added,
    without any signal. *)
Theorem undefined_aperture_draws_nothing (r : Render.GerberToSvg)
    (code : jsnum) (ops : list GerberNode) :
  Render.apertures r !! Render.mapKey code = None ->
  Render.regionMode (Render.state r) = false ->
  forallb Spec.isOperation ops = true ->
  let r' := Render.replay r (SelectAperture code :: ops) in
  Render.aperture
    (Render.state (Render.processCommand r (SelectAperture code))) = None
  /\ Render.paths r' = Render.paths r
  /\ Render.flashes r' = Render.flashes r
  /\ Render.regions r' = Render.regions r.
Proof.
  intros Hcode Hrm Hops r'. subst r'.
  assert (Hap : Render.aperture
                  (Render.state
                     (Render.processCommand r (SelectAperture code)))
                = None) by exact Hcode.
  split; [exact Hap|].
  unfold Render.replay. cbn [fold_left].
  apply (replay_no_aperture ops
           (Render.processCommand r (SelectAperture code)) Hap Hrm Hops).
Qed.

Lemma undefined_aperture_draws_nothing_witness :
  let r := Render.replay (Render.new_GerberToSvg Render.defaultOptions)
             [ApertureDefinition ten (str "C") [JDec false 5 (-1)];
              SelectAperture ten] in
  let ops := [Operation D02 {| cx := Some (JZero false); cy := Some (JZero false);
                               ci := None; cj := None |};
              Operation D01 {| cx := Some (JDec false 1 4); cy := None;
                               ci := None; cj := None |};
              Operation D03 {| cx := None; cy := Some (JDec false 1 4);
                               ci := None; cj := None |}] in
  let r' := Render.replay r (SelectAperture (JDec false 11 0) :: ops) in
  Render.aperture
    (Render.state (Render.processCommand r (SelectAperture (JDec false 11 0)))) = None
  /\ Render.paths r' = Render.paths r
  /\ Render.flashes r' = Render.flashes r
  /\ Render.regions r' = Render.regions r.
Proof.
  apply (undefined_aperture_draws_nothing
           (Render.replay (Render.new_GerberToSvg Render.defaultOptions)
              [ApertureDefinition ten (str "C") [JDec false 5 (-1)];
               SelectAperture ten])
           (JDec false 11 0)); reflexivity.
Defined.

(** X22. Replaying a document without any operation draws nothing and
    leaves the bounding box as the constructor set it, with its minima
    at plus infinity and its maxima at minus infinity, and the current
    point at the origin. *)
Theorem replay_without_operations (opts : Render.RenderOptions)
    (cmds : list GerberNode) :
  forallb (fun cmd => negb (Spec.isOperation cmd)) cmds = true ->
  let r := Render.replay (Render.new_GerberToSvg opts) cmds in
  Render.paths r = [] /\ Render.flashes r = [] /\ Render.regions r = []
  /\ Render.bounds r
     = {| Render.minX := Render.XInf false; Render.minY := Render.XInf false;
          Render.maxX := Render.XInf true; Render.maxY := Render.XInf true |}
  /\ Render.x (Render.state r) = Render.XFin 0
  /\ Render.y (Render.state r) = Render.XFin 0.
Proof.
  intros Hc r.
  apply (replay_no_operation cmds (Render.new_GerberToSvg opts) Hc eq_refl).
Qed.

Lemma replay_without_operations_witness :
  let r := Render.replay (Render.new_GerberToSvg Render.defaultOptions)
             [UnitMode (str "MM");
              ApertureDefinition ten (str "C") [JDec false 5 (-1)];
              SelectAperture ten; RegionStart; RegionEnd; EndOfFile] in
  Render.paths r = [] /\ Render.flashes r = [] /\ Render.regions r = []
  /\ Render.bounds r
     = {| Render.minX := Render.XInf false; Render.minY := Render.XInf false;
          Render.maxX := Render.XInf true; Render.maxY := Render.XInf true |}
  /\ Render.x (Render.state r) = Render.XFin 0
  /\ Render.y (Render.state r) = Render.XFin 0.
Proof.
  apply (replay_without_operations Render.defaultOptions
           [UnitMode (str "MM");
            ApertureDefinition ten (str "C") [JDec false 5 (-1)];
            SelectAperture ten; RegionStart; RegionEnd; EndOfFile]).
  reflexivity.
Defined.

(** X23. Every region that a replay stores is a closed path: it starts
    with a move, ends with the closing command, holds no other closing
    command and holds at least one line; a region without any line is
    never stored. *)
Theorem regions_are_closed_paths (opts : Render.RenderOptions)
    (cmds : list GerberNode) :
  forallb Spec.closedRegion
    (Render.regions (Render.replay (Render.new_GerberToSvg opts) cmds))
  = true.
Proof. apply replay_regions; reflexivity. Qed.

(** ** The renderer: the view box and the bounding box *)

Section ViewBoxFacts.
Import Render Spec.

Lemma handleOperation_options r d c :
  options (handleOperation r d c) = options r.
Proof.
  unfold handleOperation. destruct (newPoint r c) as [nx ny].
  destruct d; simpl.
  - destruct (regionMode (state r)); simpl; [reflexivity|].
    destruct (aperture (state r)); reflexivity.
  - destruct (regionMode (state r)); simpl; [|reflexivity].
    destruct (regionPath r); reflexivity.
  - destruct (aperture (state r)) eqn:Hap; simpl; [|reflexivity].
    unfold createFlash. simpl. rewrite Hap.
    repeat match goal with
           | |- context [if ?b then _ else _] => destruct b
           end; reflexivity.
Qed.

Lemma replay_options cmds : forall r, options (replay r cmds) = options r.
Proof.
  induction cmds as [|cmd cmds IH]; intros r; [reflexivity|].
  unfold replay in *. cbn [fold_left]. rewrite IH.
  destruct cmd; try reflexivity. apply handleOperation_options.
Qed.

Lemma updateBounds_nan r px py :
  bounds r = nanBounds -> bounds (updateBounds r px py) = nanBounds.
Proof. unfold updateBounds. cbn [bounds]. intros ->. reflexivity. Qed.

Lemma createFlash_nan r px py :
  bounds r = nanBounds -> bounds (snd (createFlash r px py)) = nanBounds.
Proof.
  intros Hb. unfold createFlash.
  destruct (aperture (state r)); [|exact Hb].
  repeat match goal with
         | |- context [if ?b then _ else _] => destruct b
         end; cbn [snd]; try exact Hb;
    apply updateBounds_nan, updateBounds_nan, Hb.
Qed.

Lemma handleOperation_nan r d c :
  bounds r = nanBounds -> bounds (handleOperation r d c) = nanBounds.
Proof.
  intros Hb. unfold handleOperation. destruct (newPoint r c) as [nx ny].
  pose proof (updateBounds_nan r nx ny Hb) as Hu.
  destruct d; simpl.
  - destruct (regionMode (state r)); simpl; [exact Hu|].
    destruct (aperture (state r)); exact Hu.
  - destruct (regionMode (state r)); simpl; [|exact Hu].
    destruct (regionPath r); exact Hu.
  - destruct (aperture (state r)) eqn:Hap; simpl; [|exact Hu].
    pose proof (createFlash_nan (updateBounds r nx ny) nx ny Hu) as Hc.
    destruct (createFlash (updateBounds r nx ny) nx ny) as [[f|] r''];
      exact Hc.
Qed.

Lemma replay_nan cmds : forall r,
  bounds r = nanBounds -> bounds (replay r cmds) = nanBounds.
Proof.
  induction cmds as [|cmd cmds IH]; intros r Hb; [exact Hb|].
  unfold replay in *. cbn [fold_left]. apply IH.
  destruct cmd; try exact Hb. apply handleOperation_nan. exact Hb.
Qed.

(** the flash of a circle whose diameter is no number *)
Lemma flash_nan_circle r c ap rest :
  aperture (state r) = Some ap ->
  ap_template ap = str "C" ->
  ap_params ap = JNaN :: rest ->
  bounds (handleOperation r D03 c) = nanBounds.
Proof.
  intros Hap Ht Hp. unfold handleOperation.
  destruct (newPoint r c) as [nx ny]. simpl. rewrite Hap.
  unfold createFlash. simpl. rewrite Hap, Ht, Hp. simpl.
  assert (Ha : forall a, xadd a XNaN = XNaN)
    by (intros [|[]|]; reflexivity).
  assert (Hmin : forall a, xmin a XNaN = XNaN)
    by (intros [|[]|]; reflexivity).
  assert (Hmax : forall a, xmax a XNaN = XNaN)
    by (intros [|[]|]; reflexivity).
  rewrite !Ha, !Hmin, !Hmax. reflexivity.
Qed.

End ViewBoxFacts.

(** X24. Rendering a document without any operation, with a finite
    padding, computes a view box of width and height minus infinity and
    of origin plus infinity: the bounding box is still the inverted
    infinite box of the constructor when the view box is taken from
    it. *)
Theorem empty_document_view_box (opts : Render.RenderOptions)
    (cmds : list GerberNode) (p : Q) :
  forallb (fun cmd => negb (Spec.isOperation cmd)) cmds = true ->
  Render.padding opts = Render.XFin p ->
  let vb := Render.renderViewBox opts cmds in
  Render.vb_width vb = Render.XInf true
  /\ Render.vb_height vb = Render.XInf true
  /\ Render.vb_viewMinX vb = Render.XInf false
  /\ Render.vb_viewMinY vb = Render.XInf false.
Proof.
  intros Hc Hp vb. subst vb. unfold Render.renderViewBox, Render.viewBox.
  destruct (replay_no_operation cmds (Render.new_GerberToSvg opts) Hc
              eq_refl) as (_ & _ & _ & Hb & _).
  cbn [Render.vb_width Render.vb_height Render.vb_viewMinX
       Render.vb_viewMinY].
  rewrite Hb, replay_options. cbn [Render.new_GerberToSvg Render.options
    Render.bounds Render.minX Render.minY Render.maxX Render.maxY].
  rewrite Hp. repeat split.
Qed.

Lemma empty_document_view_box_witness :
  let vb :=
    Render.renderViewBox Render.defaultOptions
      [UnitMode (str "MM");
       ApertureDefinition ten (str "C") [JDec false 5 (-1)]; EndOfFile] in
  Render.vb_width vb = Render.XInf true
  /\ Render.vb_height vb = Render.XInf true
  /\ Render.vb_viewMinX vb = Render.XInf false
  /\ Render.vb_viewMinY vb = Render.XInf false.
Proof.
  apply (empty_document_view_box Render.defaultOptions
           [UnitMode (str "MM");
            ApertureDefinition ten (str "C") [JDec false 5 (-1)]; EndOfFile]
           (1 # 10)); reflexivity.
Defined.

(** X25. A circle aperture whose first parameter is NaN, which is what
    [parseFloat] answers for a parameter that is no number, as in
    [%ADD10C,x*%], makes the four bounds of the bounding box NaN at its
    first flash, and the bounds stay NaN whatever is replayed
    afterwards. *)
Theorem nan_parameter_poisons_bounds (r : Render.GerberToSvg)
    (c : CoordinateInit) (ap : Render.Aperture) (rest : list jsnum)
    (cmds : list GerberNode) :
  Render.aperture (Render.state r) = Some ap ->
  Render.ap_template ap = str "C" ->
  Render.ap_params ap = JNaN :: rest ->
  Render.bounds (Render.replay r (Operation D03 c :: cmds))
  = Spec.nanBounds.
Proof.
  intros Hap Ht Hp. unfold Render.replay. cbn [fold_left].
  apply replay_nan. cbn [Render.processCommand].
  apply (flash_nan_circle r c ap rest Hap Ht Hp).
Qed.

Lemma nan_parameter_poisons_bounds_witness :
  parseGerber (str "%ADD10C,x*% D10*")
  = Ok [ApertureDefinition ten (str "C") [JNaN]; SelectAperture ten]
  /\ Render.bounds
       (Render.replay
          (Render.replay (Render.new_GerberToSvg Render.defaultOptions)
             [ApertureDefinition ten (str "C") [JNaN]; SelectAperture ten])
          (Operation D03 {| cx := Some (JZero false); cy := Some (JZero false);
                            ci := None; cj := None |}
           :: [Operation D02 {| cx := Some (JDec false 5 4); cy := None;
                                ci := None; cj := None |}]))
     = Spec.nanBounds.
Proof.
  split; [reflexivity|].
  apply (nan_parameter_poisons_bounds
           (Render.replay (Render.new_GerberToSvg Render.defaultOptions)
              [ApertureDefinition ten (str "C") [JNaN]; SelectAperture ten])
           _ {| Render.ap_code := ten; Render.ap_template := str "C";
                Render.ap_params := [JNaN] |} []);
    reflexivity.
Defined.

(** ** The parser: what it guarantees of every node *)

(** X26. Every node that the parser builds has well-formed fields,
    whatever the source: a format specification holds one-character
    flags and one-digit counts; an aperture definition has a
    non-negative code and an identifier as template; a SelectAperture
    has a code of ten or more; a SetInterpolationMode holds one of G01,
    G02, G03, G74 and G75; a comment holds no star and starts with no
    white space; no text field of a block holds a percent sign, no
    attribute name or value a comma; and every number is a double,
    a coordinate of an operation being an integer, the code of an
    aperture and a count of a step-repeat an integer without a sign (an
    infinity, which [parseInt] answers for a long run of digits,
    counts as one). *)
Theorem parsed_nodes_are_well_formed (source : jsstring) :
  exists nodes,
    parseGerber source = Ok nodes
    /\ forallb Spec.wellFormed nodes = true.
Proof.
  destruct (parseGerber_total source) as [nodes Hn].
  exists nodes. split; [exact Hn|].
  apply (parseGerber_wf source nodes Hn).
Qed.

(** ** The document: the accessors after a command is added *)

(** X27. After [addCommand] with a node, each list accessor answers
    what it answered before, followed by the node when the node is of
    its kind; [formatSpecification] and [unitMode] keep the node they
    answered before, the first of its kind, and answer the added node
    only when they answered nothing and the node is of their kind. *)
Theorem accessors_after_addCommand (file : GerberFile.GerberFile)
    (node : GerberNode) :
  exists file',
    GerberFile.addCommand file (inl node) = Ok file'
    /\ GerberFile.commands file' = GerberFile.commands file ++ [node]
    /\ GerberFile.operations file'
       = GerberFile.operations file
         ++ (if instanceofOperation node then [node] else [])
    /\ GerberFile.apertureDefinitions file'
       = GerberFile.apertureDefinitions file
         ++ (if GerberFile.hasType (str "ApertureDefinition") node
             then [node] else [])
    /\ GerberFile.apertureMacros file'
       = GerberFile.apertureMacros file
         ++ (if GerberFile.hasType (str "ApertureMacro") node
             then [node] else [])
    /\ GerberFile.fileAttributes file'
       = GerberFile.fileAttributes file
         ++ (if GerberFile.hasType (str "FileAttribute") node
             then [node] else [])
    /\ GerberFile.comments file'
       = GerberFile.comments file
         ++ (if GerberFile.hasType (str "Comment") node then [node] else [])
    /\ GerberFile.formatSpecification file'
       = match GerberFile.formatSpecification file with
         | Some first => Some first
         | None =>
             if GerberFile.hasType (str "FormatSpecification") node
             then Some node else None
         end
    /\ GerberFile.unitMode file'
       = match GerberFile.unitMode file with
         | Some first => Some first
         | None =>
             if GerberFile.hasType (str "UnitMode") node
             then Some node else None
         end.
Proof.
  exists (GerberFile.push file node).
  assert (Hfind : forall p (l : list GerberNode),
             List.find p (l ++ [node])
             = match List.find p l with
               | Some first => Some first
               | None => if p node then Some node else None
               end).
  { intros p l. induction l as [|c l IH]; cbn [app List.find].
    - destruct (p node); reflexivity.
    - destruct (p c); [reflexivity|exact IH]. }
  unfold GerberFile.operations, GerberFile.apertureDefinitions,
    GerberFile.apertureMacros, GerberFile.fileAttributes,
    GerberFile.comments, GerberFile.formatSpecification,
    GerberFile.unitMode, GerberFile.push.
  cbn [GerberFile.addCommand GerberFile.push GerberFile.commands].
  rewrite !List.filter_app, !Hfind. cbn [List.filter].
  repeat split.
Qed.

(** ** The renderer: the bounding box covers what is visited *)

Section BoundingBox.
Import Render Spec.

Lemma xle_trans a b c : xle a b = true -> xle b c = true -> xle a c = true.
Proof.
  destruct a as [|[]|p], b as [|[]|q], c as [|[]|t]; cbn [xle];
    try discriminate; try reflexivity.
  rewrite !Qle_bool_iff. apply Qle_trans.
Qed.

Lemma Qle_bool_total p q : Qle_bool p q = false -> Qle_bool q p = true.
Proof.
  intros H. apply Qle_bool_iff. apply Qlt_le_weak, Qnot_le_lt.
  intros Hle. apply Qle_bool_iff in Hle. congruence.
Qed.

Lemma xmin_spec a b :
  xmin a b = XNaN
  \/ (xle (xmin a b) a = true /\ xle (xmin a b) b = true).
Proof.
  destruct a as [|[]|p], b as [|[]|q]; cbn [xmin xle]; auto.
  - right. split; [reflexivity|]. apply Qle_bool_iff, Qle_refl.
  - right. split; [|reflexivity]. apply Qle_bool_iff, Qle_refl.
  - destruct (Qle_bool p q) eqn:E; right; cbn [xle]; split;
      try exact E; try (apply Qle_bool_iff, Qle_refl).
    apply Qle_bool_total. exact E.
Qed.

Lemma xmax_spec a b :
  xmax a b = XNaN
  \/ (xle a (xmax a b) = true /\ xle b (xmax a b) = true).
Proof.
  destruct a as [|[]|p], b as [|[]|q]; cbn [xmax xle]; auto.
  - right. split; [reflexivity|]. apply Qle_bool_iff, Qle_refl.
  - right. split; [|reflexivity]. apply Qle_bool_iff, Qle_refl.
  - destruct (Qle_bool q p) eqn:E; right; cbn [xle]; split;
      try exact E; try (apply Qle_bool_iff, Qle_refl).
    apply Qle_bool_total. exact E.
Qed.

Lemma xmin_below a b p :
  a = XNaN \/ xle a p = true ->
  xmin a b = XNaN \/ xle (xmin a b) p = true.
Proof.
  intros [->|Ha]; [left; reflexivity|].
  destruct (xmin_spec a b) as [H|[H _]]; [left; exact H|right].
  exact (xle_trans _ _ _ H Ha).
Qed.

Lemma xmax_above a b p :
  a = XNaN \/ xle p a = true ->
  xmax a b = XNaN \/ xle p (xmax a b) = true.
Proof.
  intros [->|Ha]; [left; reflexivity|].
  destruct (xmax_spec a b) as [H|[H _]]; [left; exact H|right].
  exact (xle_trans _ _ _ Ha H).
Qed.

(** [updateBounds] keeps what the box covers and covers its point *)
Lemma updateBounds_keeps r qx qy px py :
  covers (bounds r) px py -> covers (bounds (updateBounds r qx qy)) px py.
Proof.
  intros (H1 & H2 & H3 & H4). unfold covers, updateBounds.
  cbn [bounds minX minY maxX maxY].
  repeat split; first [apply xmin_below|apply xmax_above]; assumption.
Qed.

Lemma updateBounds_covers r px py :
  covers (bounds (updateBounds r px py)) px py.
Proof.
  unfold covers, updateBounds. cbn [bounds minX minY maxX maxY].
  repeat split;
    match goal with
    | |- xmin ?a ?b = _ \/ _ =>
        destruct (xmin_spec a b) as [H|[_ H]]; [left|right]; exact H
    | |- xmax ?a ?b = _ \/ _ =>
        destruct (xmax_spec a b) as [H|[_ H]]; [left|right]; exact H
    end.
Qed.

Lemma createFlash_keeps r qx qy px py :
  covers (bounds r) px py ->
  covers (bounds (snd (createFlash r qx qy))) px py.
Proof.
  intros H. unfold createFlash.
  destruct (aperture (state r)); [|exact H].
  repeat match goal with
         | |- context [if ?b then _ else _] => destruct b
         end; cbn [snd]; try exact H;
    apply updateBounds_keeps, updateBounds_keeps, H.
Qed.

(** the bounds after an operation: those of [updateBounds] at the new
    point, then of the flash *)
Lemma handleOperation_bounds r d c :
  bounds (handleOperation r d c)
  = match d, aperture (state r) with
    | D03, Some _ =>
        bounds (snd (createFlash
                       (updateBounds r (fst (newPoint r c))
                          (snd (newPoint r c)))
                       (fst (newPoint r c)) (snd (newPoint r c))))
    | _, _ =>
        bounds (updateBounds r (fst (newPoint r c)) (snd (newPoint r c)))
    end.
Proof.
  unfold handleOperation. destruct (newPoint r c) as [nx ny].
  cbn [fst snd]. destruct d; simpl.
  - destruct (regionMode (state r)); simpl;
      destruct (aperture (state r)); reflexivity.
  - destruct (regionMode (state r)); simpl;
      [destruct (regionPath r)|]; destruct (aperture (state r));
      reflexivity.
  - destruct (aperture (state r)) eqn:Hap; simpl; [|reflexivity].
    destruct (createFlash (updateBounds r nx ny) nx ny) as [[f|] r''];
      reflexivity.
Qed.

Lemma handleOperation_keeps r d c px py :
  covers (bounds r) px py -> covers (bounds (handleOperation r d c)) px py.
Proof.
  intros H. rewrite handleOperation_bounds.
  destruct d; try (apply updateBounds_keeps; exact H).
  destruct (aperture (state r)); [|apply updateBounds_keeps; exact H].
  apply createFlash_keeps, updateBounds_keeps, H.
Qed.

Lemma handleOperation_covers r d c :
  covers (bounds (handleOperation r d c))
    (fst (newPoint r c)) (snd (newPoint r c)).
Proof.
  rewrite handleOperation_bounds.
  destruct d; try apply updateBounds_covers.
  destruct (aperture (state r)); [|apply updateBounds_covers].
  apply createFlash_keeps, updateBounds_covers.
Qed.

Lemma replay_keeps cmds : forall r px py,
  covers (bounds r) px py -> covers (bounds (replay r cmds)) px py.
Proof.
  induction cmds as [|cmd cmds IH]; intros r px py H; [exact H|].
  unfold replay in *. cbn [fold_left]. apply IH.
  destruct cmd; try exact H. apply handleOperation_keeps. exact H.
Qed.

Lemma replay_app r a b : replay r (a ++ b) = replay (replay r a) b.
Proof. unfold replay. apply fold_left_app. Qed.

End BoundingBox.

(** X28. The bounding box covers every point that an operation of the
    replay visits: for an operation anywhere in a document, the point
    computed for it lies between the final bounds of the box, on each
    axis and for each bound that is a number. *)
Theorem bounding_box_covers_visited_points (opts : Render.RenderOptions)
    (pre post : list GerberNode) (d : DCode) (c : CoordinateInit) :
  let r1 := Render.replay (Render.new_GerberToSvg opts) pre in
  let r := Render.replay (Render.new_GerberToSvg opts)
             (pre ++ Operation d c :: post) in
  Spec.covers (Render.bounds r)
    (fst (Render.newPoint r1 c)) (snd (Render.newPoint r1 c)).
Proof.
  intros r1 r. subst r. rewrite replay_app. fold r1.
  change (Render.replay r1 (Operation d c :: post))
    with (Render.replay (Render.handleOperation r1 d c) post).
  apply replay_keeps, handleOperation_covers.
Qed.
